(** * Repeater-chain convolution engine: a shallow embedding

    The development follows [repeater_algorithm.py]: the class
    [RepeaterChainSimulation] with its iterative convolution, the two unit
    operators, the symmetric (nested) driver with its memoization and the
    asymmetric drivers.

    Numbers.  The program computes on numpy [float64] arrays.  Here an array
    element is an exact rational extended with the three special values the
    code tests for or produces by division ([nan], [+inf], [-inf]); rounding
    and the sign of zero are not modelled.

    Outside the sources at hand.  What the program obtains from numpy's
    Fourier and logarithm routines ([np.fft.fft], [np.fft.ifft], [np.log])
    and the two join-links kernels, whose modules the file only imports, is
    gathered in the class [Externals]; the general statements hold for
    every instance.  The module [Exact] gives one instance on which closed
    examples can be evaluated.

    The cache.  The memoization dictionary is keyed by
    [HashableParameters]: a key is hashed before it is looked up
    ([hash_parameters]; a dictionary among the values cannot be) and two
    keys are the same key when Python's [==] says so ([key_eqb]; numbers
    are compared by value, so [5] and [5.0] are one key).

    Left out: the GPU backend ([use_gpu] is [False] by default and CuPy only
    replaces the transform routines) and the density-matrix shapes of
    [first_func].  The symmetric driver [nested_protocol] is the default
    [all_level=False]; the flag [all_level=True] has a model of its own,
    [nested_protocol_all], over an explicit store of list objects, since
    the code there shares one list between all cache entries.

    The scripts.  [get_protocol] and [remove_unstable_werner] of the
    distillation scripts and [write_results] of [gp_asymmetric.py] follow
    the engine; plotting and the optimizers, which only call into
    matplotlib and scikit-optimize, are not modelled. *)

From Stdlib Require Import ZArith QArith Qreduction Qpower Bool String Ascii Lia List.
Import ListNotations.
Local Open Scope string_scope.
Local Open Scope list_scope.
Local Open Scope Z_scope.

(** ** Array elements *)

Module Num.

Inductive num : Type :=
| Fin (q : Q)
| PInf
| NInf
| NaN.

Definition zero : num := Fin 0.
Definition one : num := Fin 1.
Definition of_Z (z : Z) : num := Fin (inject_Z z).

Definition isnan (x : num) : bool :=
  match x with NaN => true | _ => false end.

Definition isfinite (x : num) : bool :=
  match x with Fin _ => true | _ => false end.

Definition qltb (a b : Q) : bool :=
  match Qcompare a b with Lt => true | _ => false end.

Definition qleb (a b : Q) : bool :=
  match Qcompare a b with Gt => false | _ => true end.

(** Sign of an element: [Lt] negative, [Eq] zero, [Gt] positive;
    [None] for [nan]. *)
Definition sign (x : num) : option comparison :=
  match x with
  | Fin q => Some (Qcompare q 0)
  | PInf => Some Gt
  | NInf => Some Lt
  | NaN => None
  end.

Definition inf_of (c : comparison) : num :=
  match c with Gt => PInf | Lt => NInf | Eq => NaN end.

Definition sign_mul (a b : comparison) : comparison :=
  match a, b with
  | Eq, _ | _, Eq => Eq
  | Gt, c => c
  | Lt, c => CompOpp c
  end.

Definition opp (x : num) : num :=
  match x with
  | Fin q => Fin (Qred (- q))
  | PInf => NInf
  | NInf => PInf
  | NaN => NaN
  end.

Definition add (x y : num) : num :=
  match x, y with
  | NaN, _ | _, NaN => NaN
  | Fin a, Fin b => Fin (Qred (a + b))
  | PInf, NInf | NInf, PInf => NaN
  | PInf, _ | _, PInf => PInf
  | NInf, _ | _, NInf => NInf
  end.

Definition sub (x y : num) : num := add x (opp y).

Definition mul (x y : num) : num :=
  match x, y with
  | Fin a, Fin b => Fin (Qred (a * b))
  | _, _ =>
      match sign x, sign y with
      | Some a, Some b => inf_of (sign_mul a b)
      | _, _ => NaN
      end
  end.

(** Division with numpy's [errstate(divide='ignore', invalid='ignore')]
    results: [0/0] is [nan], [x/0] is an infinity of the sign of [x]. *)
Definition div (x y : num) : num :=
  match x, y with
  | NaN, _ | _, NaN => NaN
  | Fin a, Fin b =>
      if Qeq_bool b 0 then inf_of (Qcompare a 0) else Fin (Qred (a / b))
  | Fin _, _ => zero
  | _, Fin b =>
      match sign x with
      | Some a => inf_of (sign_mul a (if Qeq_bool b 0 then Gt else Qcompare b 0))
      | None => NaN
      end
  | _, _ => NaN
  end.

Definition ltb (x y : num) : bool :=
  match x, y with
  | NaN, _ | _, NaN => false
  | Fin a, Fin b => qltb a b
  | NInf, NInf | PInf, _ | _, NInf => false
  | NInf, _ | _, PInf => true
  end.

Definition leb (x y : num) : bool :=
  match x, y with
  | NaN, _ | _, NaN => false
  | Fin a, Fin b => qleb a b
  | NInf, _ | _, PInf => true
  | PInf, _ | _, NInf => false
  end.

Definition eqb (x y : num) : bool :=
  match x, y with
  | Fin a, Fin b => Qeq_bool a b
  | PInf, PInf | NInf, NInf => true
  | _, _ => false
  end.

(** [x ** n] for an exponent [n >= 0]; [x ** 0 = 1] for every [x]. *)
Fixpoint pow (x : num) (n : nat) : num :=
  match n with
  | O => one
  | S n' => mul x (pow x n')
  end.

Definition num_eq_dec (x y : num) : {x = y} + {x <> y}.
Proof.
  decide equality.
  destruct q as [a b], q0 as [c d].
  destruct (Z.eq_dec a c); [|right; congruence].
  destruct (Pos.eq_dec b d); [|right; congruence].
  left; congruence.
Defined.

End Num.

Import Num.

Declare Scope num_scope.
Delimit Scope num_scope with num.
Infix "+" := Num.add : num_scope.
Infix "-" := Num.sub : num_scope.
Infix "*" := Num.mul : num_scope.
Infix "/" := Num.div : num_scope.
Infix "**" := Num.pow (at level 30, right associativity) : num_scope.
Infix "<?" := Num.ltb : num_scope.
Infix "<=?" := Num.leb : num_scope.

(** Complex samples of the Fourier path, as pairs of components. *)
Module Cplx.

Definition cnum : Type := (num * num)%type.

Definition of_real (x : num) : cnum := (x, zero).
Definition re (z : cnum) : num := fst z.
Definition im (z : cnum) : num := snd z.

Definition add (z w : cnum) : cnum :=
  (re z + re w, im z + im w)%num.
Definition sub (z w : cnum) : cnum :=
  (re z - re w, im z - im w)%num.
Definition mul (z w : cnum) : cnum :=
  (re z * re w - im z * im w, re z * im w + im z * re w)%num.
Definition scale (a : num) (z : cnum) : cnum :=
  (a * re z, a * im z)%num.
Definition norm2 (z : cnum) : num :=
  (re z * re z + im z * im z)%num.
Definition div (z w : cnum) : cnum :=
  ((re z * re w + im z * im w) / norm2 w,
   (im z * re w - re z * im w) / norm2 w)%num.

(** [abs z > c] for a bound [c >= 0], decided on the squares. *)
Definition abs_gt (z : cnum) (c : num) : bool :=
  (c * c <? norm2 z)%num.

End Cplx.

Import Cplx.

(** ** Python values, arrays and exceptions *)

(** A Python number as the code distinguishes it: the integer check of
    [compute_unit] tells [int] from [float]. *)
Inductive pyval : Type :=
| PyInt (z : Z)
| PyFloat (x : num).

Definition to_num (v : pyval) : num :=
  match v with PyInt z => of_Z z | PyFloat x => x end.

(** [np.iinfo(int).max] *)
Definition iinfo_int_max : Z := 2 ^ 63 - 1.

(** A value that is either one number or a sequence of them
    ([isinstance(x, Iterable)] in the source). *)
Inductive scalar_or_seq (A : Type) : Type :=
| Scalar (v : A)
| Seq (vs : list A).
Arguments Scalar {A} v.
Arguments Seq {A} vs.

Definition is_iterable {A} (x : scalar_or_seq A) : bool :=
  match x with Scalar _ => false | Seq _ => true end.

Definition array : Type := list num.

Inductive exn : Type :=
| TypeError (msg : string)
| ValueError (msg : string)
| IndexError
| KeyError (key : string)
| OverflowError
| AssertionError
| UnboundLocalError
| NotImplementedError (msg : string).

Definition result (A : Type) : Type := (exn + A)%type.

Definition ok {A} (a : A) : result A := inr a.
Definition throw {A} (e : exn) : result A := inl e.

Definition rbind {A B} (r : result A) (k : A -> result B) : result B :=
  match r with inl e => inl e | inr a => k a end.

(** A protocol step as the drivers read it: an integer tag for the
    symmetric driver, a string [op || index] for the asymmetric ones.  A
    string step is kept as its first character [step[0]] and the value
    [int(step[1:])] of its tail. *)
Inductive tag : Type :=
| TagInt (z : Z)
| TagStr (operation : ascii) (idx : Z).

Definition is_int_tag (t : tag) : bool :=
  match t with TagInt _ => true | TagStr _ _ => false end.
Definition is_str_tag (t : tag) : bool :=
  match t with TagInt _ => false | TagStr _ _ => true end.

(** ** numpy helpers *)

Definition np_zeros (n : nat) : array := repeat zero n.

(** [np.zeros(n)] for a Python integer [n]. *)
Definition np_zeros_Z (n : Z) : result array :=
  if n <? 0 then throw (ValueError "negative dimensions are not allowed")
  else ok (np_zeros (Z.to_nat n)).

Definition np_sum (a : array) : num := fold_left Num.add a zero.

Definition scale (c : num) (a : array) : array := map (Num.mul c) a.

(** One sample of the full discrete convolution: the sum of [a[i] * v[n-i]]
    over the index pairs inside both arrays. *)
Definition conv_at (a v : array) (n : nat) : num :=
  fold_left
    (fun acc i =>
       match nth_error a i, nth_error v (n - i) with
       | Some x, Some y => (acc + x * y)%num
       | _, _ => acc
       end)
    (seq 0 (S n)) zero.

(** [np.convolve(a, v)] (mode "full"). *)
Definition np_convolve (a v : array) : result array :=
  match a, v with
  | [], _ => throw (ValueError "a cannot be empty")
  | _, [] => throw (ValueError "v cannot be empty")
  | _, _ => ok (map (conv_at a v) (seq 0 (length a + length v - 1)))
  end.

(** [dst[:len(src)] = src] on an array [dst]: a source of length one is
    broadcast, any other length mismatch is an error. *)
Definition slice_assign (dst src : array) : result array :=
  if (length src <=? length dst)%nat then ok (src ++ skipn (length src) dst)
  else if (length src =? 1)%nat then ok dst
  else throw (ValueError "could not broadcast input array").

(** [dst += src] *)
Definition iadd (dst src : array) : result array :=
  if (length src =? length dst)%nat
  then ok (map (fun p => (fst p + snd p)%num) (combine dst src))
  else match src with
       | [x] => ok (map (fun d => (d + x)%num) dst)
       | _ => throw (ValueError "operands could not be broadcast together")
       end.

(** [a[1:] /= b[1:]] *)
Definition idiv_tail (a b : array) : result array :=
  match a with
  | [] => match tl b with
          | [] | [_] => ok []
          | _ => throw (ValueError "operands could not be broadcast together")
          end
  | a0 :: a' =>
      if (length (tl b) =? length a')%nat
      then ok (a0 :: map (fun p => (fst p / snd p)%num) (combine a' (tl b)))
      else match tl b with
           | [x] => ok (a0 :: map (fun d => (d / x)%num) a')
           | _ => throw (ValueError "operands could not be broadcast together")
           end
  end.

(** [np.where(np.isnan(a), 1., a)] *)
Definition nan_to_one (a : array) : array :=
  map (fun x => if isnan x then one else x) a.

(** [a[a > 1.0] = 1.0; a[a < 0.] = 0.], one assignment after the other. *)
Definition clip01 (a : array) : array :=
  map (fun x => if (x <? zero)%num then zero else x)
      (map (fun x => if (one <? x)%num then one else x) a).

(** ** Parameters, simulator state and effects *)

Definition cut_spec : Type := scalar_or_seq pyval.

(** The grouped [cutoff_dict] of the symmetric driver. *)
Record cutoff_dict_t : Type := {
  dict_memory_time : option cut_spec;
  dict_fidelity : option cut_spec;
  dict_run_time : option cut_spec
}.

(** The [parameters] dictionary without its keys ["protocol"] and
    ["t_trunc"]: this is what [check_cache] keeps after the two [pop]s.
    An optional key is an [option]; [all_level_key] says whether the key
    ["all_level"] is present. *)
Record settings : Type := {
  p_gen : scalar_or_seq num;
  p_swap : num;
  w0 : scalar_or_seq num;
  t_coh : option (scalar_or_seq num);
  cut_type : option string;
  cutoff : option cut_spec;
  mt_cut : option cut_spec;
  w_cut : option cut_spec;
  rt_cut : option cut_spec;
  tau : option cut_spec;
  cutoff_dict : option cutoff_dict_t;
  all_level_key : bool
}.

Record parameters : Type := {
  protocol : list tag;
  t_trunc : Z;
  rest : settings
}.

Definition set_cutoff (v : option cut_spec) (s : settings) : settings :=
  {| p_gen := p_gen s; p_swap := p_swap s; w0 := w0 s; t_coh := t_coh s;
     cut_type := cut_type s; cutoff := v; mt_cut := mt_cut s;
     w_cut := w_cut s; rt_cut := rt_cut s; tau := tau s;
     cutoff_dict := cutoff_dict s; all_level_key := all_level_key s |}.

Definition set_mt_cut (v : option cut_spec) (s : settings) : settings :=
  {| p_gen := p_gen s; p_swap := p_swap s; w0 := w0 s; t_coh := t_coh s;
     cut_type := cut_type s; cutoff := cutoff s; mt_cut := v;
     w_cut := w_cut s; rt_cut := rt_cut s; tau := tau s;
     cutoff_dict := cutoff_dict s; all_level_key := all_level_key s |}.

Definition set_w_cut (v : option cut_spec) (s : settings) : settings :=
  {| p_gen := p_gen s; p_swap := p_swap s; w0 := w0 s; t_coh := t_coh s;
     cut_type := cut_type s; cutoff := cutoff s; mt_cut := mt_cut s;
     w_cut := v; rt_cut := rt_cut s; tau := tau s;
     cutoff_dict := cutoff_dict s; all_level_key := all_level_key s |}.

Definition set_rt_cut (v : option cut_spec) (s : settings) : settings :=
  {| p_gen := p_gen s; p_swap := p_swap s; w0 := w0 s; t_coh := t_coh s;
     cut_type := cut_type s; cutoff := cutoff s; mt_cut := mt_cut s;
     w_cut := w_cut s; rt_cut := v; tau := tau s;
     cutoff_dict := cutoff_dict s; all_level_key := all_level_key s |}.

Definition pop_tau (s : settings) : settings :=
  {| p_gen := p_gen s; p_swap := p_swap s; w0 := w0 s; t_coh := t_coh s;
     cut_type := cut_type s; cutoff := cutoff s; mt_cut := mt_cut s;
     w_cut := w_cut s; rt_cut := rt_cut s; tau := None;
     cutoff_dict := cutoff_dict s; all_level_key := all_level_key s |}.

Definition set_t_coh (v : option (scalar_or_seq num)) (s : settings) : settings :=
  {| p_gen := p_gen s; p_swap := p_swap s; w0 := w0 s; t_coh := v;
     cut_type := cut_type s; cutoff := cutoff s; mt_cut := mt_cut s;
     w_cut := w_cut s; rt_cut := rt_cut s; tau := tau s;
     cutoff_dict := cutoff_dict s; all_level_key := all_level_key s |}.

(** A link state [(pmf, w_func)]. *)
Definition link : Type := (array * array)%type.

(** [HashableParameters]: the remaining dictionary together with the
    protocol prefix stored back under ["protocol"].  Its [__eq__] compares
    the items of the two dictionaries with Python's [==], and its
    [__hash__] hashes them. *)
Definition HashableParameters : Type := (settings * list tag)%type.

Definition pyval_eq_dec (x y : pyval) : {x = y} + {x <> y}.
Proof. decide equality; [apply Z.eq_dec | apply num_eq_dec]. Defined.

Definition sos_eq_dec {A} (dec : forall a b : A, {a = b} + {a <> b})
  (x y : scalar_or_seq A) : {x = y} + {x <> y}.
Proof. decide equality; apply list_eq_dec, dec. Defined.

Definition opt_eq_dec {A} (dec : forall a b : A, {a = b} + {a <> b})
  (x y : option A) : {x = y} + {x <> y}.
Proof. decide equality. Defined.

Definition cutoff_dict_eq_dec (x y : cutoff_dict_t) : {x = y} + {x <> y}.
Proof. decide equality; apply opt_eq_dec, sos_eq_dec, pyval_eq_dec. Defined.

Definition settings_eq_dec (x y : settings) : {x = y} + {x <> y}.
Proof.
  decide equality;
    first [ apply bool_dec
          | apply num_eq_dec
          | apply sos_eq_dec, num_eq_dec
          | apply opt_eq_dec, cutoff_dict_eq_dec
          | apply opt_eq_dec, string_dec
          | apply opt_eq_dec, sos_eq_dec, pyval_eq_dec
          | apply opt_eq_dec, sos_eq_dec, num_eq_dec ].
Defined.

Definition tag_eq_dec (x y : tag) : {x = y} + {x <> y}.
Proof. decide equality; first [apply Z.eq_dec | apply ascii_dec]. Defined.

(** Python's [==] on the values of the dictionary.  Numbers are compared by
    value, whatever their type and however they are written: [5 == 5.0].
    A [nan] is equal to itself only as one and the same object; the model
    has one [nan], the object [np.nan]. *)
Definition num_eqb (x y : num) : bool :=
  match x, y with
  | NaN, NaN => true
  | _, _ => Num.eqb x y
  end.

Definition pyval_eqb (x y : pyval) : bool := num_eqb (to_num x) (to_num y).

(** Tuples are equal when they have the same length and equal items. *)
Fixpoint list_eqb {A} (eqb : A -> A -> bool) (l l' : list A) : bool :=
  match l, l' with
  | [], [] => true
  | a :: l, b :: l' => eqb a b && list_eqb eqb l l'
  | _, _ => false
  end.

Definition sos_eqb {A} (eqb : A -> A -> bool) (x y : scalar_or_seq A) : bool :=
  match x, y with
  | Scalar a, Scalar b => eqb a b
  | Seq l, Seq l' => list_eqb eqb l l'
  | _, _ => false
  end.

(** An optional key: present in both dictionaries with equal values, or
    absent from both. *)
Definition opt_eqb {A} (eqb : A -> A -> bool) (x y : option A) : bool :=
  match x, y with
  | Some a, Some b => eqb a b
  | None, None => true
  | _, _ => false
  end.

Definition cutoff_dict_eqb (x y : cutoff_dict_t) : bool :=
  opt_eqb (sos_eqb pyval_eqb) (dict_memory_time x) (dict_memory_time y)
  && opt_eqb (sos_eqb pyval_eqb) (dict_fidelity x) (dict_fidelity y)
  && opt_eqb (sos_eqb pyval_eqb) (dict_run_time x) (dict_run_time y).

Definition settings_eqb (x y : settings) : bool :=
  sos_eqb num_eqb (p_gen x) (p_gen y)
  && num_eqb (p_swap x) (p_swap y)
  && sos_eqb num_eqb (w0 x) (w0 y)
  && opt_eqb (sos_eqb num_eqb) (t_coh x) (t_coh y)
  && opt_eqb String.eqb (cut_type x) (cut_type y)
  && opt_eqb (sos_eqb pyval_eqb) (cutoff x) (cutoff y)
  && opt_eqb (sos_eqb pyval_eqb) (mt_cut x) (mt_cut y)
  && opt_eqb (sos_eqb pyval_eqb) (w_cut x) (w_cut y)
  && opt_eqb (sos_eqb pyval_eqb) (rt_cut x) (rt_cut y)
  && opt_eqb (sos_eqb pyval_eqb) (tau x) (tau y)
  && opt_eqb cutoff_dict_eqb (cutoff_dict x) (cutoff_dict y)
  && Bool.eqb (all_level_key x) (all_level_key y).

Definition tag_eqb (x y : tag) : bool :=
  if tag_eq_dec x y then true else false.

(** [HashableParameters.__eq__] *)
Definition key_eqb (x y : HashableParameters) : bool :=
  settings_eqb (fst x) (fst y) && list_eqb tag_eqb (snd x) (snd y).

(** [HashableParameters.__hash__], [hash(frozenset(parameters.items()))]:
    every value of the dictionary is hashed.  Numbers, strings and tuples
    of them can be (a sequence of the model is a tuple); the dictionary
    under ["cutoff_dict"] cannot. *)
Definition hash_parameters (k : HashableParameters) : result unit :=
  match cutoff_dict (fst k) with
  | Some _ => throw (TypeError "unhashable type: 'dict'")
  | None => ok tt
  end.

(** The memoization dictionary [self.cache], newest binding first: a
    lookup returns the newest binding whose key is equal to the one asked
    for. *)
Definition cache_t : Type := list (HashableParameters * link).

Fixpoint cache_get (c : cache_t) (k : HashableParameters) : option link :=
  match c with
  | [] => None
  | (k', v) :: c' => if key_eqb k k' then Some v else cache_get c' k
  end.

Definition cache_set (c : cache_t) (k : HashableParameters) (v : link) : cache_t :=
  (k, v) :: c.

(** [k in self.cache] together with [self.cache[k]]: the dictionary
    hashes the key first. *)
Definition cache_lookup (c : cache_t) (k : HashableParameters)
    : result (option link) :=
  rbind (hash_parameters k) (fun _ => ok (cache_get c k)).

(** The fields of [RepeaterChainSimulation] that the CPU path reads. *)
Record simulation : Type := {
  use_cache : bool;
  use_fft : bool;
  efficient : bool;
  zero_padding_size : option Z;
  cache : cache_t
}.

(** [RepeaterChainSimulation(use_cache)] *)
Definition new_simulation (use_cache : bool) : simulation :=
  {| use_cache := use_cache; use_fft := true; efficient := true;
     zero_padding_size := None; cache := [] |}.

Definition with_cache (c : cache_t) (s : simulation) : simulation :=
  {| use_cache := use_cache s; use_fft := use_fft s; efficient := efficient s;
     zero_padding_size := zero_padding_size s; cache := c |}.

(** What a call leaves behind besides its value: the records handed to
    [logging], the values printed, and, as a trace, which join-links kernel
    was called. *)
Inductive event : Type :=
| printed (v : pyval)
| warning_zero_padding (shape : Z) (last_term : cnum)
| warning_coverage (coverage : num)
| info_cached (prefix : list tag)
| called_efficient (ycut : bool) (evaluate_func : string)
| called_compatible (ycut : bool) (evaluate_func : string).

Record outcome (A : Type) : Type := Outcome {
  value : result A;
  emitted : list event
}.
Arguments Outcome {A} value emitted.
Arguments value {A} o.
Arguments emitted {A} o.

(** Computations of a method: they read the fields of [self], may raise,
    and emit events in order.  The one field that is ever assigned, the
    cache, is threaded by the symmetric driver as a value. *)
Definition M (A : Type) : Type := simulation -> outcome A.

Definition ret {A} (a : A) : M A := fun _ => Outcome (ok a) [].

Definition bind {A B} (m : M A) (k : A -> M B) : M B :=
  fun s =>
    let o := m s in
    match value o with
    | inl e => Outcome (inl e) (emitted o)
    | inr a =>
        let o' := k a s in
        Outcome (value o') (emitted o ++ emitted o')
    end.

Definition raise {A} (e : exn) : M A := fun _ => Outcome (throw e) [].
Definition lift {A} (r : result A) : M A := fun _ => Outcome r [].
Definition emit (e : event) : M unit := fun _ => Outcome (ok tt) [e].
Definition self : M simulation := fun s => Outcome (ok s) [].

Notation "x <- m ;; k" := (bind m (fun x => k))
  (at level 61, m at next level, right associativity).
Notation "' p <- m ;; k" := (bind m (fun x => match x with p => k end))
  (at level 61, p pattern, m at next level, right associativity).
Notation "m ;;; k" := (bind m (fun _ => k))
  (at level 61, right associativity).

(** A [for] loop threading the loop-carried variables. *)
Fixpoint for_each {A S} (xs : list A) (body : A -> S -> M S) (s : S) : M S :=
  match xs with
  | [] => ret s
  | x :: xs' => s' <- body x s ;; for_each xs' body s'
  end.

(** [range(a, b)] *)
Definition range (a b : Z) : list Z :=
  map (fun i => a + Z.of_nat i) (seq 0 (Z.to_nat (b - a))).

(** [l[i]] with Python's negative indices. *)
Definition py_index {A} (l : list A) (i : Z) : result A :=
  let j := if i <? 0 then i + Z.of_nat (length l) else i in
  if j <? 0 then throw IndexError
  else match nth_error l (Z.to_nat j) with
       | Some a => ok a
       | None => throw IndexError
       end.

(** [l[i] = v] with Python's negative indices. *)
Fixpoint replace_nth {A} (n : nat) (v : A) (l : list A) : list A :=
  match l, n with
  | [], _ => []
  | _ :: l', O => v :: l'
  | a :: l', S n' => a :: replace_nth n' v l'
  end.

Definition py_setitem {A} (l : list A) (i : Z) (v : A) : result (list A) :=
  let j := if i <? 0 then i + Z.of_nat (length l) else i in
  if (j <? 0) || (Z.of_nat (length l) <=? j) then throw IndexError
  else ok (replace_nth (Z.to_nat j) v l).

(** ** What lies outside the sources at hand *)

(** The signature shared by [join_links_efficient] and
    [join_links_compatible]:
    [(pmf1, pmf2, w_func1, w_func2, ycut, cutoff, cut_type, evaluate_func,
    t_coh)]. *)
Definition kernel : Type :=
  array -> array -> array -> array -> bool -> cut_spec -> string -> string ->
  scalar_or_seq num -> result array.

Class Externals : Type := {
  join_links_efficient : kernel;
  join_links_compatible : kernel;
  (** [np.fft.fft(a, n)] and [np.fft.ifft(a)] *)
  np_fft : array -> Z -> result (list cnum);
  np_ifft : list cnum -> result (list cnum);
  (** [np.log] *)
  np_log : num -> num
}.

(** ** The iterative convolution *)

Section Program.

Context {X : Externals}.

(** Lines 149-151: [func] moved [shift] places to the right inside the
    window of [trunc] samples, when [shift <= trunc]. *)
Definition shift_func (func : array) (trunc : nat) (shift : Z) : result array :=
  if shift <=? Z.of_nat trunc then
    rbind (np_zeros_Z shift)
          (fun zero_state => ok (firstn trunc (zero_state ++ func)))
  else ok func.

(** The size of the padded transform: [zero_padding_size] when set, else
    the next power of two of [2 * trunc - 1].  With [trunc = 0] the source
    raises an integer to a negative power. *)
Definition fft_shape (zps : option Z) (trunc : nat) : result Z :=
  match zps with
  | Some n => ok n
  | None =>
      if (trunc =? 0)%nat
      then throw (ValueError "Integers to negative integer powers are not allowed.")
      else ok (2 ^ Z.log2_up (2 * Z.of_nat trunc - 1))
  end.

(** One sample of the geometric sum in Fourier space. *)
Definition geometric_term (p_swap : option num) (c f : cnum) : cnum :=
  match p_swap with
  | Some p =>
      Cplx.div (Cplx.scale p c)
               (Cplx.sub (of_real one) (Cplx.scale (one - p)%num f))
  | None => Cplx.div c (Cplx.sub (of_real one) f)
  end.

(** The literal [10e-16]. *)
Definition padding_tolerance : num := Fin (1 # 1000000000000000).

Definition fft_path (func convolved : array) (trunc : nat)
    (p_swap : option num) : M array :=
  s <- self ;;
  shape <- lift (fft_shape (zero_padding_size s) trunc) ;;
  convolved_fourier <- lift (np_fft convolved shape) ;;
  func_fourier <- lift (np_fft func shape) ;;
  result <-
    lift (np_ifft (map (fun cf => geometric_term p_swap (fst cf) (snd cf))
                       (combine convolved_fourier func_fourier))) ;;
  last_term <- lift (py_index result (-1)) ;;
  (if abs_gt last_term padding_tolerance
   then emit (warning_zero_padding shape last_term)
   else ret tt) ;;;
  ret (map re (firstn trunc result)).

(** The coefficient and the term added in round [k] of the direct loop. *)
Definition direct_term (p_swap : option num) (k : Z) (convolved : array)
    (trunc : nat) : array :=
  match p_swap with
  | Some p =>
      let coeff := (p * (one - p) ** Z.to_nat k)%num in
      scale coeff (firstn trunc convolved)
  | None => firstn trunc convolved
  end.

Definition direct_body (func : array) (trunc : nat) (p_swap : option num)
    (k : Z) (st : array * array) : M (array * array) :=
  let '(convolved, sum_convolved) := st in
  convolved <- lift (np_convolve (firstn trunc convolved) (firstn trunc func)) ;;
  sum_convolved <- lift (iadd sum_convolved (direct_term p_swap k convolved trunc)) ;;
  ret (convolved, sum_convolved).

Definition direct_path (func convolved sum_convolved : array) (trunc : nat)
    (p_swap : option num) (max_k : Z) : M array :=
  zero_state <- lift (np_zeros_Z (Z.of_nat trunc - Z.of_nat (length convolved))) ;;
  let convolved := convolved ++ zero_state in
  st <- for_each (range 1 max_k) (direct_body func trunc p_swap)
                 (convolved, sum_convolved) ;;
  ret (snd st).

Definition iterative_convolution_helper (func first_func : array) (trunc : nat)
    (shift : Z) (p_swap : option num) (max_k : Z) : M array :=
  sum_convolved <-
    lift (slice_assign (np_zeros trunc)
            (match p_swap with
             | Some p => scale p first_func
             | None => first_func
             end)) ;;
  func <- lift (shift_func func trunc shift) ;;
  let convolved := first_func in
  s <- self ;;
  if use_fft s
  then fft_path func convolved trunc p_swap
  else direct_path func convolved sum_convolved trunc p_swap max_k.

(** [int(x)] *)
Definition py_int (v : pyval) : result Z :=
  match v with
  | PyInt z => ok z
  | PyFloat (Fin q) => ok (Z.quot (Qnum q) (Zpos (Qden q)))
  | PyFloat NaN => throw (ValueError "cannot convert float NaN to integer")
  | PyFloat _ => throw OverflowError
  end.

(** [min(a, b)] of two Python numbers: [b] when [b < a], else [a]. *)
Definition py_min (a b : pyval) : pyval :=
  if (to_num b <? to_num a)%num then b else a.

(** Lines 97-116: the number of rounds of the direct loop. *)
Definition required_convolutions (func : array) (shift : Z)
    (p_swap : option num) : M Z :=
  let trunc := Z.of_nat (length func) in
  let max_k := if shift =? 0 then trunc else - ((- trunc) / shift) in
  let pf := match p_swap with
            | Some p => (np_sum func * (one - p))%num
            | None => np_sum func
            end in
  let max_k :=
    if (pf <=? zero)%num then PyInt trunc
    else py_min (PyInt max_k)
           (PyFloat ((of_Z (-52) - np_log (of_Z trunc)) / np_log pf)%num) in
  (if (of_Z trunc <? to_num max_k)%num
   then emit (printed max_k) ;;; emit (printed (PyInt trunc))
   else ret tt) ;;;
  lift (py_int max_k).

(** Lines 127-131: [result[i][j] = ...] writes the array of the helper
    into a row of [trunc] samples of the buffer [result].  An array of
    another length is broadcast when it has one sample and refused
    otherwise. *)
Definition row_assign (trunc : nat) (src : array) : result array :=
  if (length src =? trunc)%nat then ok src
  else match src with
       | [x] => ok (repeat x trunc)
       | _ => throw (ValueError "could not broadcast input array")
       end.

(** [iterative_convolution] on one-dimensional arrays (the density-matrix
    shapes of [first_func] are not modelled); [reshape((trunc, 1, 1))]
    fails when [first_func] has another length than [func].  The buffer
    then has the one row [result[0][0]], which is what the call returns. *)
Definition iterative_convolution (func : array) (shift : Z)
    (first_func : option array) (p_swap : option num) : M array :=
  let trunc := length func in
  max_k <- required_convolutions func shift p_swap ;;
  let first_func := match first_func with Some g => g | None => func end in
  if (length first_func =? trunc)%nat
  then
    row <- iterative_convolution_helper func first_func trunc shift p_swap max_k ;;
    lift (row_assign trunc row)
  else raise (ValueError "cannot reshape array").

(** ** Unit operators *)

(** A call of one of the two kernels; the call is recorded in the trace. *)
Definition call_join_links (use_efficient : bool) (pmf1 pmf2 w_func1 w_func2 : array)
    (ycut : bool) (cutoff : cut_spec) (cut_type evaluate_func : string)
    (t_coh : scalar_or_seq num) : M array :=
  if use_efficient then
    emit (called_efficient ycut evaluate_func) ;;;
    lift (join_links_efficient pmf1 pmf2 w_func1 w_func2 ycut cutoff cut_type
            evaluate_func t_coh)
  else
    emit (called_compatible ycut evaluate_func) ;;;
    lift (join_links_compatible pmf1 pmf2 w_func1 w_func2 ycut cutoff cut_type
            evaluate_func t_coh).

(** [self.efficient and cut_type == "memory_time"] *)
Definition selects_efficient (s : simulation) (cut_type : string) : bool :=
  efficient s && String.eqb cut_type "memory_time".

(** [shift = cutoff if cut_type == "memory_time" else 0].  The shift is used
    as an array size, so it has to be a Python integer; [compute_unit] has
    checked this before the unit is entered. *)
Definition shift_of (cutoff : cut_spec) (cut_type : string) : result Z :=
  if String.eqb cut_type "memory_time" then
    match cutoff with
    | Scalar (PyInt z) => ok z
    | _ => throw (TypeError "shift must be an integer")
    end
  else ok 0.

Definition entanglement_swap (pmf1 w_func1 pmf2 w_func2 : array) (p_swap : num)
    (cutoff : cut_spec) (t_coh : scalar_or_seq num) (cut_type : string) : M link :=
  s <- self ;;
  let join_links := call_join_links (selects_efficient s cut_type) in
  let join_links_state := call_join_links (selects_efficient s cut_type) in
  shift <- lift (shift_of cutoff cut_type) ;;
  pf_cutoff <- join_links pmf1 pmf2 w_func1 w_func2 false cutoff cut_type "1" t_coh ;;
  ps_cutoff <- join_links pmf1 pmf2 w_func1 w_func2 true cutoff cut_type "1" t_coh ;;
  pmf_cutoff <- iterative_convolution pf_cutoff shift (Some ps_cutoff) None ;;
  pmf_swap <- iterative_convolution pmf_cutoff 0 None (Some p_swap) ;;
  state_suc <- join_links_state pmf1 pmf2 w_func1 w_func2 true cutoff cut_type
                 "w1w2" t_coh ;;
  state_prep <- iterative_convolution pf_cutoff shift (Some state_suc) None ;;
  state_out <- iterative_convolution pmf_cutoff 0 (Some state_prep) (Some p_swap) ;;
  state_out <- lift (idiv_tail state_out pmf_swap) ;;
  ret (pmf_swap, nan_to_one state_out).

Definition destillation (pmf1 w_func1 pmf2 w_func2 : array)
    (cutoff : cut_spec) (t_coh : scalar_or_seq num) (cut_type : string) : M link :=
  s <- self ;;
  let join_links := call_join_links (selects_efficient s cut_type) in
  shift <- lift (shift_of cutoff cut_type) ;;
  pf_cutoff <- join_links pmf1 pmf2 w_func1 w_func2 false cutoff cut_type "1" t_coh ;;
  pss_cutoff <- join_links pmf1 pmf2 w_func1 w_func2 true cutoff cut_type
                  "0.5+0.5w1w2" t_coh ;;
  ps_dist <- iterative_convolution pf_cutoff shift (Some pss_cutoff) None ;;
  psf_cutoff <- join_links pmf1 pmf2 w_func1 w_func2 true cutoff cut_type
                  "0.5-0.5w1w2" t_coh ;;
  pf_dist <- iterative_convolution pf_cutoff shift (Some psf_cutoff) None ;;
  pmf_dist <- iterative_convolution pf_dist 0 (Some ps_dist) None ;;
  state_suc <- join_links pmf1 pmf2 w_func1 w_func2 true cutoff cut_type
                 "w1+w2+4w1w2" t_coh ;;
  state_prep <- iterative_convolution pf_cutoff shift (Some state_suc) None ;;
  state_out <- iterative_convolution pf_dist 0 (Some state_prep) None ;;
  state_out <- lift (idiv_tail state_out pmf_dist) ;;
  ret (pmf_dist, nan_to_one state_out).

(** The literal [1.0e-16]. *)
Definition default_w_cut : pyval := PyFloat (Fin (1 # 10000000000000000)).

Definition get_or {A} (o : option A) (d : A) : A :=
  match o with Some a => a | None => d end.

(** Lines 431-443: the cut-off handed to the unit. *)
Definition select_cutoff (parameters : settings) (cut_type : string) : cut_spec :=
  match cutoff parameters with
  | Some c => c
  | None =>
      if String.eqb cut_type "memory_time"
      then get_or (mt_cut parameters) (Scalar (PyInt iinfo_int_max))
      else if String.eqb cut_type "fidelity"
      then match get_or (w_cut parameters) (Scalar default_w_cut) with
           | Scalar v => if Num.eqb (to_num v) zero then Scalar default_w_cut
                         else Scalar v
           | c => c
           end
      else if String.eqb cut_type "run_time"
      then get_or (rt_cut parameters) (Scalar (PyInt iinfo_int_max))
      else Scalar (PyInt iinfo_int_max)
  end.

(** [np.issubdtype(type(cutoff), np.integer)] *)
Definition is_integer (c : cut_spec) : bool :=
  match c with Scalar (PyInt _) => true | _ => false end.

(** Lines 459-462.  The checks with [np.isreal] before them cannot fail on
    the numbers of this model.  Comparing a sequence with a float is a
    [TypeError] of Python itself. *)
Definition check_cutoff (cut_type : string) (cutoff : cut_spec) : result unit :=
  if (String.eqb cut_type "memory_time" || String.eqb cut_type "run_time")
     && negb (is_integer cutoff)
  then throw (TypeError "Time cut-off must be an integer.")
  else if String.eqb cut_type "fidelity" then
    match cutoff with
    | Scalar v =>
        if negb ((zero <=? to_num v)%num || (to_num v <? one)%num)
        then throw (TypeError "Fidelity cut-off must be a real number between 0 and 1.")
        else ok tt
    | Seq _ => throw (TypeError "'>=' not supported between instances of 'tuple' and 'float'")
    end
  else ok tt.

(** The literal [0.99]. *)
Definition cdf_threshold : num := Fin (99 # 100).

Definition compute_unit (parameters : settings) (pmf1 w_func1 : array)
    (pmf2 w_func2 : option array) (unit_kind : string) : M link :=
  let pmf2 := get_or pmf2 pmf1 in
  let w_func2 := get_or w_func2 w_func1 in
  let p_swap := p_swap parameters in
  let t_coh := get_or (t_coh parameters) (Scalar PInf) in
  let cut_type := get_or (cut_type parameters) "memory_time" in
  let cutoff := select_cutoff parameters cut_type in
  lift (check_cutoff cut_type cutoff) ;;;
  '(pmf, w_func) <-
     (if String.eqb unit_kind "swap" then
        entanglement_swap pmf1 w_func1 pmf2 w_func2 p_swap cutoff t_coh cut_type
      else if String.eqb unit_kind "dist" then
        destillation pmf1 w_func1 pmf2 w_func2 cutoff t_coh cut_type
      else raise UnboundLocalError) ;;
  let w_func := clip01 (nan_to_one w_func) in
  let coverage := np_sum pmf in
  (if (coverage <? cdf_threshold)%num then emit (warning_coverage coverage)
   else ret tt) ;;;
  ret (pmf, w_func).

(** ** The symmetric driver and its cache *)

(** The descending loop of [check_cache] over [i = len(protocol) .. 1];
    [(0, None)] is the [else] branch of the loop. *)
Fixpoint check_cache_from (c : cache_t) (parameters_new : settings)
    (protocol_new : list tag) (trunc_new : Z) (i : nat)
    : result (nat * option link) :=
  match i with
  | O => ok (O, None)
  | S i' =>
      rbind (cache_lookup c (parameters_new, firstn i protocol_new))
        (fun found =>
           match found with
           | Some cached =>
               let trunc_cached := Z.of_nat (length (fst cached)) in
               if trunc_new <=? trunc_cached then ok (i, Some cached)
               else check_cache_from c parameters_new protocol_new trunc_new i'
           | None => check_cache_from c parameters_new protocol_new trunc_new i'
           end)
  end.

Definition check_cache (c : cache_t) (parameters : parameters)
    : result (nat * settings * option link) :=
  rbind (check_cache_from c (rest parameters) (protocol parameters)
           (t_trunc parameters) (length (protocol parameters)))
        (fun r => ok (fst r, rest parameters, snd r)).

(** A scalar cut-off repeated for every step, a sequence taken as it is. *)
Definition expand (c : cut_spec) (n : nat) : list pyval :=
  match c with Scalar v => repeat v n | Seq vs => vs end.

Definition scalar_of (x : scalar_or_seq num) : result num :=
  match x with
  | Scalar v => ok v
  | Seq _ => throw (TypeError "unsupported operand type(s)")
  end.

(** Lines 590-593. *)
Definition elementary_link (p_gen w0 : num) (t_trunc : Z) : link :=
  let t_list := range 1 t_trunc in
  let pmf := map (fun t => (p_gen * (one - p_gen) ** Z.to_nat (t - 1))%num) t_list in
  (zero :: pmf, repeat w0 (Z.to_nat t_trunc)).

(** Lines 608-612: the cut-offs of level [i] written into [parameters]. *)
Definition level_parameters (cutoff : option cut_spec)
    (mt_cut w_cut rt_cut : list pyval) (i : nat) (parameters : settings)
    : result settings :=
  rbind
    match cutoff with
    | Some (Seq cs) =>
        rbind (py_index cs (Z.of_nat i))
              (fun c => ok (set_cutoff (Some (Scalar c)) parameters))
    | _ => ok parameters
    end
    (fun parameters =>
       rbind (py_index mt_cut (Z.of_nat i)) (fun m =>
       rbind (py_index w_cut (Z.of_nat i)) (fun w =>
       rbind (py_index rt_cut (Z.of_nat i)) (fun r =>
       ok (set_rt_cut (Some (Scalar r))
             (set_w_cut (Some (Scalar w))
                (set_mt_cut (Some (Scalar m)) parameters))))))).

(** One round of the [while] loop of [nested_protocol]; the loop carries
    the dictionary [parameters], the link state and the cache.  The store
    of line 627 hashes a key whose dictionary [check_cache] has hashed
    before the loop is entered (a loop that runs has a protocol of at
    least one step, and then [check_cache] has looked a key up), so it
    cannot raise where the lookup did not. *)
Definition nested_step (protocol : list tag) (parameters_hash : settings)
    (cutoff : option cut_spec) (mt_cut w_cut rt_cut : list pyval)
    (i : nat) (st : settings * link * cache_t) : M (settings * link * cache_t) :=
  let '(parameters, (pmf, w_func), cache) := st in
  s <- self ;;
  let curr_protocol := firstn (i + 1) protocol in
  operation <- lift (py_index protocol (Z.of_nat i)) ;;
  parameters <- lift (level_parameters cutoff mt_cut w_cut rt_cut i parameters) ;;
  '(pmf, w_func) <-
     match operation with
     | TagInt 0 => compute_unit parameters pmf w_func None None "swap"
     | TagInt 1 => compute_unit parameters pmf w_func None None "dist"
     | _ => ret (pmf, w_func)
     end ;;
  let cache :=
    if use_cache s
    then cache_set cache (parameters_hash, curr_protocol) (pmf, w_func)
    else cache in
  ret (parameters, (pmf, w_func), cache).

(** Lines 541-544: the resume point, the hash and the cached result. *)
Definition lookup_cache (parameters : parameters)
    : M (nat * settings * option link) :=
  s <- self ;;
  if use_cache s then
    found <- lift (check_cache (cache s) parameters) ;;
    let '(i, parameters_hash, cached_result) := found in
    (match cached_result with
     | Some _ => emit (info_cached (firstn i (protocol parameters)))
     | None => ret tt
     end) ;;;
    ret (i, parameters_hash, cached_result)
  else ret (O, rest parameters, None).

(** Lines 554-555: the key ["tau"] is renamed to ["mt_cut"]. *)
Definition rename_tau (parameters : settings) : settings :=
  match tau parameters with
  | Some v => set_mt_cut (Some v) (pop_tau parameters)
  | None => parameters
  end.

(** The literal [1.e-8]. *)
Definition default_level_w_cut : cut_spec := Scalar (PyFloat (Fin (1 # 100000000))).

(** Lines 556-564: [(mt_cut, w_cut, rt_cut)] before they are expanded. *)
Definition level_cutoffs (parameters : settings) : cut_spec * cut_spec * cut_spec :=
  match cutoff_dict parameters with
  | Some d =>
      (get_or (dict_memory_time d) (Scalar (PyInt iinfo_int_max)),
       get_or (dict_fidelity d) default_level_w_cut,
       get_or (dict_run_time d) (Scalar (PyInt iinfo_int_max)))
  | None =>
      (get_or (mt_cut parameters) (Scalar (PyInt iinfo_int_max)),
       get_or (w_cut parameters) default_level_w_cut,
       get_or (rt_cut parameters) (Scalar (PyInt iinfo_int_max)))
  end.

(** Lines 583-595: the link state the loop starts from. *)
Definition starting_link (i : nat) (cached_result : option link)
    (p_gen w0 : scalar_or_seq num) (t_trunc : Z) : M link :=
  match i, cached_result with
  | S _, Some cached => ret cached
  | S _, None => raise (TypeError "cannot unpack non-iterable NoneType object")
  | O, _ =>
      p <- lift (scalar_of p_gen) ;;
      w <- lift (scalar_of w0) ;;
      ret (elementary_link p w t_trunc)
  end.

(** The [while] loop from level [i] on. *)
Definition nested_loop (protocol : list tag) (parameters_hash : settings)
    (parameters : settings) (i : nat) (st : settings * link * cache_t)
    : M (settings * link * cache_t) :=
  let cuts := level_cutoffs parameters in
  let mt_cut := expand (fst (fst cuts)) (length protocol) in
  let w_cut := expand (snd (fst cuts)) (length protocol) in
  let rt_cut := expand (snd cuts) (length protocol) in
  for_each (seq i (length protocol - i))
    (nested_step protocol parameters_hash (cutoff parameters) mt_cut w_cut rt_cut)
    st.

(** [nested_protocol(parameters)] with [all_level=False]: the link state
    returned and the simulator as the call leaves it. *)
Definition nested_protocol (parameters : parameters) : M (link * simulation) :=
  s <- self ;;
  found <- lookup_cache parameters ;;
  let i := fst (fst found) in
  let parameters_hash := snd (fst found) in
  let cached_result := snd found in
  let protocol := protocol parameters in
  let t_trunc := t_trunc parameters in
  let p_gen := p_gen (rest parameters) in
  let w0 := w0 (rest parameters) in
  let parameters := rename_tau (rest parameters) in
  start <- starting_link i cached_result p_gen w0 t_trunc ;;
  st <- nested_loop protocol parameters_hash parameters i
          (parameters, start, cache s) ;;
  ret (snd (fst st), with_cache (snd st) s).

(** ** The asymmetric drivers *)

(** The [while] loop of [find_right_segment] over the candidates
    [r = start_index + 1, ..., len(segments) - 1]. *)
Fixpoint first_live {A} (segments : list (option A)) (candidates : list Z)
    : result Z :=
  match candidates with
  | [] => throw (ValueError "No non-None segment found after index")
  | r_segm :: later =>
      match py_index segments r_segm with
      | inl e => throw e
      | inr None => first_live segments later
      | inr (Some _) => ok r_segm
      end
  end.

Definition find_right_segment {A} (segments : list (option A)) (start_index : Z)
    : result Z :=
  first_live segments (range (start_index + 1) (Z.of_nat (length segments))).

(** [*segment] on a dead segment is a [TypeError]. *)
Definition unpack {A} (segment : option A) : result A :=
  match segment with
  | Some x => ok x
  | None => throw (TypeError "argument after * must be an iterable, not NoneType")
  end.

(** The pieces of a string step; an integer step cannot be subscripted. *)
Definition parse_step (step : tag) : result (ascii * Z) :=
  match step with
  | TagStr operation idx => ok (operation, idx)
  | TagInt _ => throw (TypeError "'int' object is not subscriptable")
  end.

Definition first_some {A} (segments : list (option A)) : option A :=
  match filter (fun x => match x with Some _ => true | None => false end) segments with
  | Some x :: _ => Some x
  | _ => None
  end.

Definition validate_heterogeneous_parameters (parameters : settings)
    (number_of_segments : Z) : result unit :=
  match w0 parameters with
  | Scalar _ => throw (ValueError "w0 and t_coh must be iterable.")
  | Seq w0s =>
      match t_coh parameters with
      | None => throw (KeyError "t_coh")
      | Some (Scalar _) => throw (ValueError "w0 and t_coh must be iterable.")
      | Some (Seq t_cohs) =>
          match p_gen parameters with
          | Scalar _ => throw (TypeError "object of type 'float' has no len()")
          | Seq p_gens =>
              if negb (Z.of_nat (length w0s) =? number_of_segments)
                 || negb (Z.of_nat (length p_gens) =? number_of_segments)
              then throw (ValueError "The number of segments must match the number of p_gen and w0 values.")
              else if negb (Z.of_nat (length t_cohs) =? number_of_segments + 1)
              then throw (ValueError "The number of nodes must match the number of t_coh values.")
              else ok tt
          end
      end
  end.

(** A segment of the heterogeneous driver: [(pmf, w_func, left, right)]. *)
Definition hsegment : Type := (array * array * Z * Z)%type.

Definition heterogeneous_step (t_cohs : list num) (step : tag)
    (st : settings * list (option hsegment)) : M (settings * list (option hsegment)) :=
  let '(parameters, segments) := st in
  '(operation, idx) <- lift (parse_step step) ;;
  curr_segment <- lift (py_index segments idx) ;;
  if Ascii.eqb operation "s" then
    next_idx <- lift (find_right_segment segments idx) ;;
    next_segment <- lift (py_index segments next_idx) ;;
    '(pmf1, w1, l1, r1) <- lift (unpack curr_segment) ;;
    '(pmf2, w2, l2, r2) <- lift (unpack next_segment) ;;
    (if r1 =? l2 then ret tt else raise AssertionError) ;;;
    a <- lift (py_index t_cohs l1) ;;
    b <- lift (py_index t_cohs l2) ;;
    c <- lift (py_index t_cohs r2) ;;
    let parameters := set_t_coh (Some (Seq [a; b; c])) parameters in
    '(pmf, w_func) <- compute_unit parameters pmf1 w1 (Some pmf2) (Some w2) "swap" ;;
    segments <- lift (py_setitem segments idx None) ;;
    segments <- lift (py_setitem segments next_idx (Some (pmf, w_func, l1, r2))) ;;
    ret (parameters, segments)
  else if Ascii.eqb operation "d" then
    '(pmf1, w1, l1, r1) <- lift (unpack curr_segment) ;;
    a <- lift (py_index t_cohs l1) ;;
    b <- lift (py_index t_cohs r1) ;;
    let parameters := set_t_coh (Some (Seq [a; b])) parameters in
    '(pmf, w_func) <- compute_unit parameters pmf1 w1 None None "dist" ;;
    segments <- lift (py_setitem segments idx (Some (pmf, w_func, l1, r1))) ;;
    ret (parameters, segments)
  else ret (parameters, segments).

Definition asymmetric_heterogeneous_protocol (parameters : parameters)
    (number_of_segments : Z) : M (option link) :=
  let S := number_of_segments in
  let protocol := protocol parameters in
  let t_trunc := t_trunc parameters in
  let parameters := rest parameters in
  match p_gen parameters, w0 parameters, t_coh parameters with
  | Seq p_gens, Seq w0s, Some (Seq t_cohs) =>
      segments <-
        for_each (range 0 S)
          (fun i segments =>
             p <- lift (py_index p_gens i) ;;
             w <- lift (py_index w0s i) ;;
             let '(pmf, w_func) := elementary_link p w t_trunc in
             ret (segments ++ [Some (pmf, w_func, i, i + 1)]))
          [] ;;
      st <- for_each protocol (heterogeneous_step t_cohs) (parameters, segments) ;;
      ret (match first_some (snd st) with
           | Some (pmf, w_func, _, _) => Some (pmf, w_func)
           | None => None
           end)
  | _, _, _ => raise (TypeError "object is not subscriptable")
  end.

Definition asymmetric_step (parameters : settings) (step : tag)
    (segments : list (option link)) : M (list (option link)) :=
  '(operation, idx) <- lift (parse_step step) ;;
  curr_segment <- lift (py_index segments idx) ;;
  if Ascii.eqb operation "s" then
    next_idx <- lift (find_right_segment segments idx) ;;
    next_segment <- lift (py_index segments next_idx) ;;
    '(pmf1, w1) <- lift (unpack curr_segment) ;;
    '(pmf2, w2) <- lift (unpack next_segment) ;;
    '(pmf, w_func) <- compute_unit parameters pmf1 w1 (Some pmf2) (Some w2) "swap" ;;
    segments <- lift (py_setitem segments idx None) ;;
    segments <- lift (py_setitem segments next_idx (Some (pmf, w_func))) ;;
    ret segments
  else if Ascii.eqb operation "d" then
    '(pmf1, w1) <- lift (unpack curr_segment) ;;
    '(pmf, w_func) <- compute_unit parameters pmf1 w1 None None "dist" ;;
    segments <- lift (py_setitem segments idx (Some (pmf, w_func))) ;;
    ret segments
  else ret segments.

(** [asymmetric_protocol]; the result [None] stands for the pair
    [(None, None)] returned when no segment is live. *)
Definition asymmetric_protocol (parameters : parameters)
    (number_of_segments : Z) : M (option link) :=
  if is_iterable (p_gen (rest parameters)) then
    lift (validate_heterogeneous_parameters (rest parameters) number_of_segments) ;;;
    match cutoff (rest parameters) with
    | Some _ =>
        raise (NotImplementedError "Cut-offs are not implemented for heterogeneous protocols.")
    | None =>
        if all_level_key (rest parameters) then
          raise (NotImplementedError "All levels are not implemented for heterogeneous protocols.")
        else asymmetric_heterogeneous_protocol parameters number_of_segments
    end
  else
    let S := number_of_segments in
    let protocol := protocol parameters in
    let t_trunc := t_trunc parameters in
    let parameters := rest parameters in
    p <- lift (scalar_of (p_gen parameters)) ;;
    w <- lift (scalar_of (w0 parameters)) ;;
    let segments := repeat (Some (elementary_link p w t_trunc)) (Z.to_nat S) in
    segments <- for_each protocol (asymmetric_step parameters) segments ;;
    ret (first_some segments).

(** [repeater_sim(parameters)]: a fresh simulator without cache, and the
    driver chosen by the type of the protocol steps.  [checkAsymProtocol]
    of [repeater_types] counts the segments. *)
Definition repeater_sim (checkAsymProtocol : list tag -> result Z)
    (parameters : parameters) : outcome (option link) :=
  let simulator := new_simulation false in
  if forallb is_int_tag (protocol parameters) then
    (r <- nested_protocol parameters ;; ret (Some (fst r))) simulator
  else if forallb is_str_tag (protocol parameters) then
    (number_of_segments <- lift (checkAsymProtocol (protocol parameters)) ;;
     asymmetric_protocol parameters number_of_segments) simulator
  else raise (ValueError "The protocol must be a tuple of integers or strings.")
         simulator.

End Program.

(** ** An exact instance for closed evaluation *)

Module Exact.

(** The discrete Fourier transform where it is exact on rationals: at the
    sizes 1, 2 and 4 every root of unity is one of [1, -i, -1, i]. *)
Definition root4 (m : nat) : cnum :=
  match (m mod 4)%nat with
  | 0%nat => (one, zero)
  | 1%nat => (zero, Num.opp one)
  | 2%nat => (Num.opp one, zero)
  | _ => (zero, one)
  end.

Definition csum (zs : list cnum) : cnum := fold_left Cplx.add zs (zero, zero).

(** [sum_j a[j] * w^(sign * j * k)] for the [n]-th root [w], [n] dividing 4. *)
Definition dft (inverse : bool) (n : nat) (a : list cnum) : list cnum :=
  map (fun k =>
         csum (map (fun j =>
                      let m := (4 / n * (j * k))%nat in
                      Cplx.mul (nth j a (zero, zero))
                               (root4 (if inverse then 4 * m - m else m)))
                   (seq 0 n)))
      (seq 0 n).

Definition exact_size (n : nat) : bool :=
  match n with 1%nat | 2%nat | 4%nat => true | _ => false end.

Definition fft (a : array) (n : Z) : result (list cnum) :=
  if n <? 1 then throw (ValueError "Invalid number of FFT data points")
  else if exact_size (Z.to_nat n)
  then ok (dft false (Z.to_nat n)
               (map of_real (firstn (Z.to_nat n) a)))
  else throw (NotImplementedError "transform size outside the exact model").

Definition ifft (a : list cnum) : result (list cnum) :=
  match a with
  | [] => throw (ValueError "Invalid number of FFT data points")
  | _ =>
      if exact_size (length a)
      then ok (map (Cplx.scale (one / of_Z (Z.of_nat (length a)))%num)
                   (dft true (length a) a))
      else throw (NotImplementedError "transform size outside the exact model")
  end.

(** The exponential and the logarithm at the arguments where they are
    rational; elsewhere they are [nan].  A [nan] logarithm leaves the
    number of rounds of [required_convolutions] at its first value, where
    numpy may lower it.  The runs evaluated on this instance do not meet
    that case: on the direct path their mass [pf] is 0 or 1, so that the
    logarithm is not taken or is exact, and on the Fourier path the number
    of rounds is not used. *)
Definition exp (x : num) : num :=
  match x with
  | Fin q => if Qeq_bool q 0 then one else NaN
  | NInf => zero
  | PInf => PInf
  | NaN => NaN
  end.

Definition log (x : num) : num :=
  match x with
  | Fin q => if Qeq_bool q 1 then zero
             else if Qeq_bool q 0 then NInf else NaN
  | PInf => PInf
  | _ => NaN
  end.

(** Modelled from the spec: the join-links kernels of [protocol_units] and
    [protocol_units_efficient], which the sources at hand only import.
    Section 4.1 is followed for the memory-time cut-off, a scalar coherence
    time and the tags ["1"] and ["w1w2"]: a pair of delivery times
    [(t1, t2)] with [|t1 - t2| <= mt_cut] succeeds at step [max(t1, t2)],
    any other pair fails, counted at step [min(t1, t2)] (the hold time
    [mt_cut] is the shift of the iterative convolution); the Werner weight is
    [w1(t1) * w2(t2) * exp(-|t1 - t2| / t_coh)].  The other cut-off kinds
    and tags, whose formulas the spec leaves open, raise here. *)
Definition join_links (pmf1 pmf2 w_func1 w_func2 : array) (ycut : bool)
    (cutoff : cut_spec) (cut_type evaluate_func : string)
    (t_coh : scalar_or_seq num) : result array :=
  match cutoff, t_coh with
  | Scalar (PyInt mt_cut), Scalar t_coh =>
      if negb (String.eqb cut_type "memory_time")
      then throw (NotImplementedError "cut-off kind outside the model")
      else if negb (String.eqb evaluate_func "1" || String.eqb evaluate_func "w1w2")
      then throw (NotImplementedError "evaluation tag outside the model")
      else
        let size := length pmf1 in
        let times := seq 0 size in
        let pairs := list_prod times times in
        let weight t1 t2 :=
          let dt := Z.abs (Z.of_nat t1 - Z.of_nat t2) in
          let p := (nth t1 pmf1 zero * nth t2 pmf2 zero)%num in
          if String.eqb evaluate_func "1" then p
          else (p * (nth t1 w_func1 zero * nth t2 w_func2 zero
                     * exp (Num.opp (of_Z dt) / t_coh)))%num in
        ok (map (fun t =>
                   np_sum (map (fun tt =>
                      let '(t1, t2) := tt in
                      let pass := Z.abs (Z.of_nat t1 - Z.of_nat t2) <=? mt_cut in
                      let at_t := if pass then Nat.max t1 t2 else Nat.min t1 t2 in
                      if Bool.eqb pass ycut && (at_t =? t)%nat
                      then weight t1 t2 else zero) pairs))
                times)
  | _, _ => throw (NotImplementedError "argument types outside the model")
  end.

Definition externals : Externals := {|
  join_links_efficient := join_links;
  join_links_compatible := join_links;
  np_fft := fft;
  np_ifft := ifft;
  np_log := log
|}.

End Exact.

(** ** Scenarios and reference series *)

(** Scenario S3 of the specification: no operation at all. *)
Definition scenario_S3 : parameters := {|
  protocol := [];
  t_trunc := 1000;
  rest := {| p_gen := Scalar (Fin (1 # 2)); p_swap := Fin (1 # 2);
             w0 := Scalar (Fin (933 # 1000));
             t_coh := Some (Scalar (Fin 400)); cut_type := None;
             cutoff := None; mt_cut := None; w_cut := None; rt_cut := None;
             tau := None; cutoff_dict := None; all_level_key := false |}
|}.

(** The geometric law of the specification for the elementary link,
    [p (1 - p)^(t - 1)], on the rationals of the Standard Library. *)
Definition geometric_pmf (p : Q) (t : Z) : Q := p * (1 - p) ^ (t - 1).

(** The full convolution of two arrays of any length, and the [k]-fold
    convolution [g * f * ... * f] without any truncation. *)
Definition conv_full (a v : array) : array :=
  map (conv_at a v) (seq 0 (length a + length v - 1)).

Fixpoint conv_power (g f : array) (k : nat) : array :=
  match k with
  | O => g
  | S k' => conv_full (conv_power g f k') f
  end.

(** Sample [t] of the series [first + sum_{k = 1..K} coeff k * (g * f^k)],
    summed in the order of [k]. *)
Definition series_at (coeff : nat -> num) (first g f : array) (K t : nat) : num :=
  fold_left (fun acc k => (acc + coeff k * nth t (conv_power g f k) zero)%num)
            (seq 1 K) (nth t first zero).

(** The coefficient of round [k] in the direct loop, and the one the
    specification words for it. *)
Definition coeff_source (p_swap : num) (k : nat) : num :=
  (p_swap * (one - p_swap) ** k)%num.

Definition coeff_spec (p_swap : num) (k : nat) : num :=
  (p_swap * (one - p_swap) ** (k - 1))%num.

(** A simulator that takes the direct-convolution path. *)
Definition direct_simulation : simulation :=
  {| use_cache := false; use_fft := false; efficient := true;
     zero_padding_size := None; cache := [] |}.

(** A fidelity cut-off [w_cut] for the symmetric scenario S1. *)
Definition fidelity_settings (w_cut : pyval) : settings :=
  {| p_gen := Scalar (Fin (1 # 2)); p_swap := Fin (1 # 2);
     w0 := Scalar (Fin (933 # 1000));
     t_coh := Some (Scalar (Fin 400)); cut_type := Some "fidelity";
     cutoff := None; mt_cut := None; w_cut := Some (Scalar w_cut);
     rt_cut := None; tau := None; cutoff_dict := None;
     all_level_key := false |}.

(** Scenario S5 of the specification: one swap of two different segments
    in heterogeneous mode, at a truncation time [T]. *)
Definition scenario_S5 (T : Z) : parameters := {|
  protocol := [TagStr "s" 0];
  t_trunc := T;
  rest := {| p_gen := Seq [Fin (3 # 10); Fin (1 # 2)]; p_swap := Fin (1 # 2);
             w0 := Seq [Fin (9 # 10); Fin (95 # 100)];
             t_coh := Some (Seq [Fin 300; Fin 300; Fin 300]);
             cut_type := None; cutoff := None; mt_cut := None; w_cut := None;
             rt_cut := None; tau := None; cutoff_dict := None;
             all_level_key := false |}
|}.

(** Homogeneous parameters of scenario S1 for the asymmetric driver, with a
    protocol and a truncation time to choose. *)
Definition homogeneous (steps : list tag) (T : Z) : parameters := {|
  protocol := steps;
  t_trunc := T;
  rest := {| p_gen := Scalar (Fin (1 # 2)); p_swap := Fin (1 # 2);
             w0 := Scalar (Fin (933 # 1000));
             t_coh := Some (Scalar (Fin 400)); cut_type := None;
             cutoff := None; mt_cut := None; w_cut := None; rt_cut := None;
             tau := None; cutoff_dict := None; all_level_key := false |}
|}.

(** The message of [find_right_segment]. *)
Definition no_right_segment : exn :=
  ValueError "No non-None segment found after index".

(** Two elementary links with [p_gen = 1] at [t_trunc = 2] and no
    decoherence, swapped with [p_swap = 1]; then a second swap is asked
    for on the one segment that is left. *)
Definition certain_link : link := ([zero; one], [Fin (9 # 10); Fin (9 # 10)]).

Definition certain_link_swapped : link := ([zero; one], [zero; Fin (81 # 100)]).

Definition swap_then_swap_again : parameters :=
  {| protocol := [TagStr "s" 0; TagStr "s" 1]; t_trunc := 2;
     rest := {| p_gen := Scalar one; p_swap := one; w0 := Scalar (Fin (9 # 10));
                t_coh := None; cut_type := None; cutoff := None; mt_cut := None;
                w_cut := None; rt_cut := None; tau := None; cutoff_dict := None;
                all_level_key := false |} |}.

(** ** Notions used by the statements on the cache *)

(** Two simulators that agree on the fields the units read. *)
Definition same_backend (s s' : simulation) : Prop :=
  use_fft s = use_fft s' /\ efficient s = efficient s' /\
  zero_padding_size s = zero_padding_size s'.

(** The simulator [s] with memoization switched off. *)
Definition without_cache (s : simulation) : simulation :=
  {| use_cache := false; use_fft := use_fft s; efficient := efficient s;
     zero_padding_size := zero_padding_size s; cache := [] |}.

(** The link state a call of the symmetric driver returns. *)
Definition returned_link {X : Externals} (parameters : parameters)
    (s : simulation) : result link :=
  match value (nested_protocol parameters s) with
  | inl e => inl e
  | inr r => inr (fst r)
  end.


(** Every cached entry is what the driver computes without memoization for
    the protocol prefix of its key, at the truncation time given by the
    length of the cached arrays. *)
Definition cache_consistent {X : Externals} (s : simulation) (c : cache_t) : Prop :=
  forall (h : settings) (prefix : list tag) (v : link),
    In ((h, prefix), v) c ->
    returned_link {| protocol := prefix;
                     t_trunc := Z.of_nat (length (fst v));
                     rest := h |} (without_cache s)
    = ok v.

(** The fields of [parameters] that the rounds of the loop leave alone:
    the three level cut-offs are overwritten in every round, and so is
    ["cutoff"] when the caller gave a sequence. *)
Definition untouched (cutoff : option cut_spec) (p : settings) : settings :=
  set_rt_cut None (set_w_cut None (set_mt_cut None
    match cutoff with
    | Some (Seq _) => set_cutoff None p
    | _ => p
    end)).

(** Two outcomes with the same events that both raise the same exception
    or both return, with related values. *)
Definition sim_outcome {S S'} (rel : S -> S' -> Prop)
    (o : outcome S) (o' : outcome S') : Prop :=
  emitted o = emitted o' /\
  match value o, value o' with
  | inl e, inl e' => e = e'
  | inr a, inr a' => rel a a'
  | _, _ => False
  end.

(** Loop states of the symmetric driver with the same link state, whose
    dictionaries differ at most in the keys every round overwrites. *)
Definition same_level (cutoff : option cut_spec)
    (st st' : settings * link * cache_t) : Prop :=
  untouched cutoff (fst (fst st)) = untouched cutoff (fst (fst st')) /\
  snd (fst st) = snd (fst st').

(** Cut-offs given as single numbers throughout (no per-level sequences). *)
Definition scalar_cutoffs (h : settings) : Prop :=
  let cuts := level_cutoffs (rename_tau h) in
  is_iterable (fst (fst cuts)) = false /\
  is_iterable (snd (fst cuts)) = false /\
  is_iterable (snd cuts) = false /\
  match cutoff (rename_tau h) with Some (Seq _) => False | _ => True end.

(** The cache after a round at level [i], as line 627 leaves it. *)
(** No key of the cache is equal to the parameters [h] by [==] without
    being the same dictionary, item by item (as [mt_cut = 5] and
    [mt_cut = 5.0] are equal without being the same). *)
Definition identical_where_equal (c : cache_t) (h : settings) : bool :=
  forallb (fun entry =>
             implb (settings_eqb h (fst (fst entry)))
                   (if settings_eq_dec (fst (fst entry)) h then true else false))
          c.

Definition cache_after (s : simulation) (c : cache_t) (h : settings)
    (P : list tag) (i : nat) (l : link) : cache_t :=
  if use_cache s then cache_set c (h, firstn (i + 1) P) l else c.

(** One swap on links without decoherence and with a swap that always
    succeeds, at a truncation time to choose. *)
Definition swap_once (T : Z) : parameters := {|
  protocol := [TagInt 0];
  t_trunc := T;
  rest := {| p_gen := Scalar (Fin (1 # 2)); p_swap := one;
             w0 := Scalar (Fin (9 # 10)); t_coh := None; cut_type := None;
             cutoff := None; mt_cut := None; w_cut := None; rt_cut := None;
             tau := None; cutoff_dict := None; all_level_key := false |}
|}.

(** What the driver returns for [swap_once 3] and [swap_once 2] on the
    direct path. *)
Definition swap_once_at_3 : link :=
  ([zero; Fin (1 # 4); Fin (5 # 16)], [zero; Fin (81 # 100); Fin (81 # 100)]).

Definition swap_once_at_2 : link :=
  ([zero; Fin (1 # 4)], [zero; Fin (81 # 100)]).


(** ** What the unit operators need from the kernels and the transforms *)

(** A kernel returns one sample per sample of [pmf1]. *)
Definition keeps_length (k : kernel) : Prop :=
  forall pmf1 pmf2 w1 w2 ycut cutoff cut_type ev t_coh out,
    k pmf1 pmf2 w1 w2 ycut cutoff cut_type ev t_coh = ok out ->
    length out = length pmf1.

(** Links that are never delivered at time 0 are never joined at time 0:
    on the inputs, the cut-off and the coherence time of one unit call,
    sample 0 of what the kernel returns is 0 when sample 0 of both [pmf]
    inputs is, whatever is evaluated. *)
Definition starts_at_zero (k : kernel) (pmf1 pmf2 w1 w2 : array)
    (cutoff : cut_spec) (cut_type : string) (t_coh : scalar_or_seq num) : Prop :=
  forall ycut ev out,
    nth 0 pmf1 zero = zero -> nth 0 pmf2 zero = zero ->
    k pmf1 pmf2 w1 w2 ycut cutoff cut_type ev t_coh = ok out ->
    nth 0 out zero = zero.

Definition kernels_keep_length (X : Externals) : Prop :=
  keeps_length join_links_efficient /\ keeps_length join_links_compatible.

(** The two kernels on the arguments [compute_unit] calls them with. *)
Definition kernels_start_at_zero (X : Externals) (parameters : settings)
    (pmf1 w_func1 : array) (pmf2 w_func2 : option array) : Prop :=
  let cut_type := get_or (cut_type parameters) "memory_time" in
  let cutoff := select_cutoff parameters cut_type in
  let t_coh := get_or (t_coh parameters) (Scalar PInf) in
  starts_at_zero join_links_efficient pmf1 (get_or pmf2 pmf1)
    w_func1 (get_or w_func2 w_func1) cutoff cut_type t_coh /\
  starts_at_zero join_links_compatible pmf1 (get_or pmf2 pmf1)
    w_func1 (get_or w_func2 w_func1) cutoff cut_type t_coh.

(** [fft(a, n)] has [n] samples and [ifft] keeps the number of samples. *)
Definition transforms_keep_length (X : Externals) : Prop :=
  (forall a n r, np_fft a n = ok r -> length r = Z.to_nat n) /\
  (forall a r, np_ifft a = ok r -> length r = length a).

(** A caller-supplied padding size covers the window. *)
Definition padding_covers (s : simulation) (trunc : nat) : Prop :=
  match zero_padding_size s with
  | Some n => Z.of_nat trunc <= n
  | None => True
  end.

(** A Werner parameter in [[0, 1]] (in particular not [nan]). *)
Definition in_unit_interval (x : num) : Prop :=
  (zero <=? x)%num = true /\ (x <=? one)%num = true.

(** Two elementary links with [p_gen = 1] at [t_trunc = 2], swapped with
    [p_swap = 1] and no decoherence. *)
Definition certain_swap : settings :=
  {| p_gen := Scalar one; p_swap := one; w0 := Scalar (Fin (9 # 10));
     t_coh := None; cut_type := None; cutoff := None; mt_cut := None;
     w_cut := None; rt_cut := None; tau := None; cutoff_dict := None;
     all_level_key := false |}.

(** What round [k] adds to a sample, as a function of the sample of the
    [k]-fold convolution. *)
Definition weigh (p_swap : option num) (k : nat) (x : num) : num :=
  match p_swap with
  | Some p => (coeff_source p k * x)%num
  | None => x
  end.

Definition series_gen (p_swap : option num) (first g f : array) (K t : nat) : num :=
  fold_left (fun acc k => (acc + weigh p_swap k (nth t (conv_power g f k) zero))%num)
            (seq 1 K) (nth t first zero).

(** The state of the loop after [j] rounds. *)
Definition after_rounds (p_swap : option num) (first g f : array) (trunc j : nat)
    (st : array * array) : Prop :=
  firstn trunc (fst st) = firstn trunc (conv_power g f j) /\
  (trunc <= length (fst st))%nat /\
  length (snd st) = trunc /\
  forall t, (t < trunc)%nat ->
    nth t (snd st) zero = series_gen p_swap first g f j t.

(** The link a driver call returns, read off the loop it ends with. *)
Definition link_of_loop (o : outcome (settings * link * cache_t)) : result link :=
  match value o with
  | inl e => inl e
  | inr st => inr (snd (fst st))
  end.

(** The link state [l] is what the driver has after [j] rounds when it runs
    without memoization on protocol [P] at truncation time [T]. *)
Definition uncached_after {X : Externals} (s : simulation) (h : settings)
    (P : list tag) (T : Z) (j : nat) (l : link) : Prop :=
  exists start p c,
    value (starting_link 0 None (p_gen h) (w0 h) T (without_cache s)) = ok start /\
    value (for_each (seq 0 j)
             (nested_step P h (cutoff (rename_tau h))
                (expand (fst (fst (level_cutoffs (rename_tau h)))) (length P))
                (expand (snd (fst (level_cutoffs (rename_tau h)))) (length P))
                (expand (snd (level_cutoffs (rename_tau h))) (length P)))
             (rename_tau h, start, cache (without_cache s)) (without_cache s))
    = ok (p, l, c).

(** The loop state of a run with memoization before round [j]. *)
Definition cached_loop_state {X : Externals} (s : simulation) (h : settings)
    (P : list tag) (T : Z) (j : nat) (st : settings * link * cache_t) : Prop :=
  untouched (cutoff (rename_tau h)) (fst (fst st))
  = untouched (cutoff (rename_tau h)) (rename_tau h) /\
  uncached_after s h P T j (snd (fst st)) /\
  Z.of_nat (length (fst (snd (fst st)))) = T /\
  cache_consistent s (snd st).

(** ** The scripts around the simulator *)

(** A [for] loop of plain Python code that may raise: the loop-carried
    variables are threaded through the rounds. *)
Fixpoint for_result {A S} (xs : list A) (body : A -> S -> result S) (s : S)
    : result S :=
  match xs with
  | [] => ok s
  | x :: xs' => rbind (body x s) (for_result xs' body)
  end.

(** [remove_unstable_werner(pmf, w_func, threshold)] of the three
    distillation scripts: a copy of [w_func] with [nan] where the mass is
    below the threshold. *)
Definition remove_unstable_werner (pmf w_func : array) (threshold : num)
    : result array :=
  let new_w_func := w_func in
  for_result (range 0 (Z.of_nat (length pmf)))
    (fun t new_w_func =>
       rbind (py_index pmf t) (fun p =>
       if (p <? threshold)%num then py_setitem new_w_func t NaN
       else ok new_w_func))
    new_w_func.

(** The default [threshold=1.0e-15]. *)
Definition default_threshold : num := Fin (1 # 1000000000000000).

(** The end point of a slice [l[:i]] or [l[i:]] for an integer [i]: negative
    values count from the end, and the value is clipped to the list. *)
Definition slice_bound (len : nat) (i : Z) : nat :=
  Z.to_nat (Z.min (Z.of_nat len)
                  (if i <? 0 then Z.max 0 (i + Z.of_nat len) else i)).

(** [l[:stop]] and [l[start:]]; [None] is Python's [None]. *)
Definition slice_to {A} (l : list A) (stop : option Z) : list A :=
  match stop with
  | None => l
  | Some i => firstn (slice_bound (length l) i) l
  end.

Definition slice_from {A} (l : list A) (start : option Z) : list A :=
  match start with
  | None => l
  | Some i => skipn (slice_bound (length l) i) l
  end.

(** [[x] * n] *)
Definition py_repeat {A} (x : A) (n : Z) : list A := repeat x (Z.to_nat n).

(** [get_protocol(number_of_swaps, number_of_dists, where_to_distill)] of
    [distillation_strategies.py] and [distillation_ml_preliminary.py]. *)
Definition get_protocol (number_of_swaps number_of_dists : Z)
    (where_to_distill : option Z) : list tag :=
  let distillations := py_repeat (TagInt 1) number_of_dists in
  let swaps := py_repeat (TagInt 0) number_of_swaps in
  if number_of_dists =? 0 then swaps
  else slice_to swaps where_to_distill ++ distillations
         ++ slice_from swaps where_to_distill.

(** ** Notions used by the statements on the asymmetric drivers *)

(** Lines 759-764: the elementary segments of the heterogeneous driver, each
    with its end points. *)
Definition elementary_segments {X : Externals} (p_gens w0s : list num)
    (t_trunc S : Z) : M (list (option hsegment)) :=
  for_each (range 0 S)
    (fun i segments =>
       p <- lift (py_index p_gens i) ;;
       w <- lift (py_index w0s i) ;;
       let '(pmf, w_func) := elementary_link p w t_trunc in
       ret (segments ++ [Some (pmf, w_func, i, i + 1)]))
    [].

Definition left_end (segment : hsegment) : Z := snd (fst segment).
Definition right_end (segment : hsegment) : Z := snd segment.

(** The end points [(left, right)] of the live segments, in index order. *)
Definition live_spans (segments : list (option hsegment)) : list (Z * Z) :=
  flat_map (fun segment =>
              match segment with
              | Some x => [(left_end x, right_end x)]
              | None => []
              end) segments.

(** Each span ends where the next one starts. *)
Fixpoint chained (spans : list (Z * Z)) : Prop :=
  match spans with
  | [] => True
  | a :: rest =>
      match rest with
      | [] => True
      | b :: _ => snd a = fst b /\ chained rest
      end
  end.

(** A string step whose index is not negative. *)
Definition counts_from_left (step : tag) : Prop :=
  match step with
  | TagStr _ idx => 0 <= idx
  | TagInt _ => True
  end.

(** Some segment is live. *)
Definition has_live {A} (segments : list (option A)) : Prop :=
  exists x, In (Some x) segments.

(** One swap of two elementary links with [p_gen = 1] at [t_trunc = 2],
    written for the asymmetric driver. *)
Definition certain_swap_of_two : parameters :=
  {| protocol := [TagStr "s" 0]; t_trunc := 2; rest := certain_swap |}.

(** The unit falls back on its own default fidelity cut-off: the cut type
    is ["fidelity"] and neither ["cutoff"] nor ["w_cut"] is given. *)
Definition default_fidelity_cut (h : settings) : bool :=
  match cut_type h, cutoff h, w_cut h with
  | Some ct, None, None => String.eqb ct "fidelity"
  | _, _, _ => false
  end.

(** The settings of [certain_swap] with the cut type ["fidelity"] and the
    cut-off left to the defaults. *)
Definition fidelity_by_default : settings :=
  {| p_gen := Scalar one; p_swap := one; w0 := Scalar (Fin (9 # 10));
     t_coh := None; cut_type := Some "fidelity"; cutoff := None; mt_cut := None;
     w_cut := None; rt_cut := None; tau := None; cutoff_dict := None;
     all_level_key := false |}.

(** ** Notions used by the statements on the units *)

(** The mass [pf] that bounds the number of rounds in
    [iterative_convolution] (lines 104-107). *)
Definition remaining_mass (func : array) (p_swap : option num) : num :=
  match p_swap with
  | Some p => (np_sum func * (one - p))%num
  | None => np_sum func
  end.

(** An event that is not a call of the other kernel: [use_efficient] says
    which kernel the calls may go to. *)
Definition calls_kernel (use_efficient : bool) (e : event) : Prop :=
  match e with
  | called_efficient _ _ => use_efficient = true
  | called_compatible _ _ => use_efficient = false
  | _ => True
  end.

(** A simulator on the Fourier path with a padding of two samples, and
    one with a padding of a single sample. *)
Definition tight_padding : simulation :=
  {| use_cache := false; use_fft := true; efficient := true;
     zero_padding_size := Some 2; cache := [] |}.

Definition single_sample_padding : simulation :=
  {| use_cache := false; use_fft := true; efficient := true;
     zero_padding_size := Some 1; cache := [] |}.

(** Every event of an outcome satisfies [P]. *)
Definition emits_only {A} (P : event -> Prop) (o : outcome A) : Prop :=
  Forall P (emitted o).

(** An event other than the warning on the coverage. *)
Definition not_coverage (e : event) : Prop :=
  match e with
  | warning_coverage _ => False
  | _ => True
  end.

(** The settings of [certain_swap] with the memory-time cut-off given as
    the float [5.0]. *)
Definition float_memory_cutoff : settings :=
  {| p_gen := Scalar one; p_swap := one; w0 := Scalar (Fin (9 # 10));
     t_coh := None; cut_type := None; cutoff := None;
     mt_cut := Some (Scalar (PyFloat (Fin 5)));
     w_cut := None; rt_cut := None; tau := None; cutoff_dict := None;
     all_level_key := false |}.

(** ** Notions used by the statements on the symmetric driver *)

(** The dictionary with ["tau"] written under its present name ["mt_cut"]. *)
Definition tau_as_mt_cut (v : cut_spec) (h : settings) : settings :=
  set_mt_cut (Some v) (pop_tau h).

(** A per-level sequence with fewer entries than the protocol has steps. *)
Definition too_short (c : cut_spec) (n : nat) : Prop :=
  match c with
  | Seq vs => (length vs < n)%nat
  | Scalar _ => False
  end.

(** The settings of [swap_once] with the memory-time cut-off given under
    the old key ["tau"], and with a per-level tuple of one entry. *)
Definition swap_once_with_tau : settings :=
  {| p_gen := Scalar (Fin (1 # 2)); p_swap := one;
     w0 := Scalar (Fin (9 # 10)); t_coh := None; cut_type := None;
     cutoff := None; mt_cut := None; w_cut := None; rt_cut := None;
     tau := Some (Scalar (PyInt 5)); cutoff_dict := None;
     all_level_key := false |}.

Definition one_level_cutoff : settings :=
  {| p_gen := Scalar (Fin (1 # 2)); p_swap := one;
     w0 := Scalar (Fin (9 # 10)); t_coh := None; cut_type := None;
     cutoff := None; mt_cut := Some (Seq [PyInt 5]); w_cut := None;
     rt_cut := None; tau := None; cutoff_dict := None;
     all_level_key := false |}.

(** The items of the dictionary can be hashed, as the keys of the cache
    have to be: no value is a dictionary (a sequence stands for a tuple). *)
Definition hashable (h : settings) : Prop := cutoff_dict h = None.

(** The settings of [certain_swap] with the memory-time cut-off given in a
    ["cutoff_dict"], and with the memory-time cut-off [5]. *)
Definition grouped_cutoffs : settings :=
  {| p_gen := Scalar one; p_swap := one; w0 := Scalar (Fin (9 # 10));
     t_coh := None; cut_type := None; cutoff := None; mt_cut := None;
     w_cut := None; rt_cut := None; tau := None;
     cutoff_dict := Some {| dict_memory_time := Some (Scalar (PyInt 5));
                            dict_fidelity := None; dict_run_time := None |};
     all_level_key := false |}.

Definition integer_memory_cutoff : settings :=
  {| p_gen := Scalar one; p_swap := one; w0 := Scalar (Fin (9 # 10));
     t_coh := None; cut_type := None; cutoff := None;
     mt_cut := Some (Scalar (PyInt 5));
     w_cut := None; rt_cut := None; tau := None; cutoff_dict := None;
     all_level_key := false |}.

(** A simulator with memoization on the direct path, its cache empty. *)
Definition memoizing_simulation : simulation :=
  {| use_cache := true; use_fft := false; efficient := true;
     zero_padding_size := None; cache := [] |}.

(** The same simulator after the swap with [mt_cut = 5] at [t_trunc = 2]. *)
Definition integer_cutoff_cached : simulation :=
  {| use_cache := true; use_fft := false; efficient := true;
     zero_padding_size := None;
     cache := [((integer_memory_cutoff, [TagInt 0]),
                ([zero; one], [zero; Fin (81 # 100)]))] |}.

(** ** The symmetric driver with [all_level=True] *)

(** With [all_level=True] the driver collects the link states of all levels
    in one list object, [full_result], and it is this object that every
    round stores in the cache: the entries written by one call are the same
    list, which the later rounds of the call extend.  The list objects
    live in a store, addressed by position, and the cache maps a key to an
    address.  The cache modelled here has been filled by calls with
    [all_level=True] only. *)
Definition trajectory : Type := list link.

Record level_store : Type := {
  objects : list trajectory;
  entries : list (HashableParameters * nat)
}.

Definition empty_store : level_store := {| objects := []; entries := [] |}.

Fixpoint entry_get (c : list (HashableParameters * nat)) (k : HashableParameters)
    : option nat :=
  match c with
  | [] => None
  | (k', a) :: c' => if key_eqb k k' then Some a else entry_get c' k
  end.

(** The list object at an address. *)
Definition deref (store : level_store) (a : nat) : trajectory :=
  nth a (objects store) [].

(** [full_result = [(pmf, w_func)]] *)
Definition allocate (store : level_store) (t : trajectory) : nat * level_store :=
  (length (objects store),
   {| objects := objects store ++ [t]; entries := entries store |}).

(** [full_result.append((pmf, w_func))] *)
Definition append_level (store : level_store) (a : nat) (l : link) : level_store :=
  {| objects := replace_nth a (deref store a ++ [l]) (objects store);
     entries := entries store |}.

(** [self.cache[parameters_hash] = full_result] *)
Definition bind_entry (store : level_store) (k : HashableParameters) (a : nat)
    : level_store :=
  {| objects := objects store; entries := (k, a) :: entries store |}.

(** [check_cache(parameters, all_level=True)]: the cached truncation time
    is read off the last level of the cached list (line 506). *)
Fixpoint check_cache_all_from (store : level_store) (parameters_new : settings)
    (protocol_new : list tag) (trunc_new : Z) (i : nat)
    : result (nat * option nat) :=
  match i with
  | O => ok (O, None)
  | S i' =>
      rbind (hash_parameters (parameters_new, firstn i protocol_new)) (fun _ =>
      match entry_get (entries store) (parameters_new, firstn i protocol_new) with
      | Some a =>
          rbind (py_index (deref store a) (-1)) (fun last =>
            let trunc_cached := Z.of_nat (length (fst last)) in
            if trunc_new <=? trunc_cached then ok (i, Some a)
            else check_cache_all_from store parameters_new protocol_new
                   trunc_new i')
      | None =>
          check_cache_all_from store parameters_new protocol_new trunc_new i'
      end)
  end.

Definition check_cache_all (store : level_store) (parameters : parameters)
    : result (nat * option nat) :=
  check_cache_all_from store (rest parameters) (protocol parameters)
    (t_trunc parameters) (length (protocol parameters)).

(** Reading a local variable that may not have been assigned. *)
Definition read_local {A} (v : option A) : M A :=
  match v with
  | Some a => ret a
  | None => raise UnboundLocalError
  end.

Section Program_all_levels.

Context {X : Externals}.

(** One round of the [while] loop with [all_level=True]; the loop carries
    the dictionary [parameters], the locals [pmf, w_func] (unassigned after
    a cache hit, lines 583-585) and the store; [full_result] is the address
    of the list of the call.  As without [all_level], the key stored under
    in line 624 has been hashed by [check_cache] before the loop. *)
Definition nested_step_all (protocol : list tag) (parameters_hash : settings)
    (cutoff : option cut_spec) (mt_cut w_cut rt_cut : list pyval)
    (full_result : nat) (i : nat) (st : settings * option link * level_store)
    : M (settings * option link * level_store) :=
  let '(parameters, current, store) := st in
  s <- self ;;
  let curr_protocol := firstn (i + 1) protocol in
  operation <- lift (py_index protocol (Z.of_nat i)) ;;
  parameters <- lift (level_parameters cutoff mt_cut w_cut rt_cut i parameters) ;;
  current <-
    match operation with
    | TagInt 0 =>
        '(pmf, w_func) <- read_local current ;;
        l <- compute_unit parameters pmf w_func None None "swap" ;;
        ret (Some l)
    | TagInt 1 =>
        '(pmf, w_func) <- read_local current ;;
        l <- compute_unit parameters pmf w_func None None "dist" ;;
        ret (Some l)
    | _ => ret current
    end ;;
  l <- read_local current ;;
  let store := append_level store full_result l in
  let store :=
    if use_cache s
    then bind_entry store (parameters_hash, curr_protocol) full_result
    else store in
  ret (parameters, current, store).

(** Lines 541-544 with [all_level=True]. *)
Definition lookup_cache_all (parameters : parameters) (store : level_store)
    : M (nat * settings * option nat) :=
  s <- self ;;
  if use_cache s then
    found <- lift (check_cache_all store parameters) ;;
    (match snd found with
     | Some _ => emit (info_cached (firstn (fst found) (protocol parameters)))
     | None => ret tt
     end) ;;;
    ret (fst found, rest parameters, snd found)
  else ret (O, rest parameters, None).

(** Lines 583-595 with [all_level=True]: the locals, the address of
    [full_result] and the store the loop starts from.  After a hit only
    [full_result] is assigned.  ([i > 0] is returned by [check_cache] only
    together with a cached result.) *)
Definition starting_levels (i : nat) (cached_result : option nat)
    (p_gen w0 : scalar_or_seq num) (t_trunc : Z) (store : level_store)
    : M (option link * nat * level_store) :=
  match i, cached_result with
  | S _, Some a => ret (None, a, store)
  | S _, None => raise UnboundLocalError
  | O, _ =>
      p <- lift (scalar_of p_gen) ;;
      w <- lift (scalar_of w0) ;;
      let l := elementary_link p w t_trunc in
      let '(a, store) := allocate store [l] in
      ret (Some l, a, store)
  end.

(** [nested_protocol(parameters, all_level=True)]: the list returned and
    the store as the call leaves it. *)
Definition nested_protocol_all (parameters : parameters) (store : level_store)
    : M (trajectory * level_store) :=
  found <- lookup_cache_all parameters store ;;
  let i := fst (fst found) in
  let parameters_hash := snd (fst found) in
  let cached_result := snd found in
  let protocol := protocol parameters in
  let t_trunc := t_trunc parameters in
  let p_gen := p_gen (rest parameters) in
  let w0 := w0 (rest parameters) in
  let parameters := rename_tau (rest parameters) in
  start <- starting_levels i cached_result p_gen w0 t_trunc store ;;
  let full_result := snd (fst start) in
  let cuts := level_cutoffs parameters in
  let mt_cut := expand (fst (fst cuts)) (length protocol) in
  let w_cut := expand (snd (fst cuts)) (length protocol) in
  let rt_cut := expand (snd cuts) (length protocol) in
  st <- for_each (seq i (length protocol - i))
          (nested_step_all protocol parameters_hash (cutoff parameters)
             mt_cut w_cut rt_cut full_result)
          (parameters, fst (fst start), snd start) ;;
  read_local (snd (fst st)) ;;;
  ret (deref (snd st) full_result, snd st).

End Program_all_levels.

(** The state of the loop with [all_level=True] after [j] rounds of a call
    that started from the elementary link [l0]: the list of the call holds
    [l0] and one link per round, every round has stored it in the cache
    under the prefix it has reached, and the link of round [k] is the one
    the loop without [all_level] and without memoization has after [k]
    rounds. *)
Definition levels_after {X : Externals} (s : simulation) (P : list tag)
    (h : settings) (cutoff : option cut_spec) (mt w rt : list pyval)
    (p0 : settings) (l0 : link) (store0 : level_store) (j : nat)
    (st : settings * option link * level_store) : Prop :=
  exists ls,
    length ls = j /\
    snd (fst st) = Some (last ls l0) /\
    objects (snd st) = objects store0 ++ [l0 :: ls] /\
    entries (snd st)
    = (if use_cache s
       then map (fun k => ((h, firstn k P), length (objects store0)))
                (rev (seq 1 j))
       else []) ++ entries store0 /\
    forall k, (k <= j)%nat ->
      exists pk c,
        value (for_each (seq 0 k) (nested_step P h cutoff mt w rt)
                 (p0, l0, []) (without_cache s))
        = ok (pk, nth k (l0 :: ls) l0, c) /\
        (k = j -> pk = fst (fst st)).

(** The store a call with [all_level=True] and memoization leaves for
    [swap_once 3], started from the empty store. *)
Definition warm_store : level_store :=
  {| objects := [[elementary_link (Fin (1 # 2)) (Fin (9 # 10)) 3; swap_once_at_3]];
     entries := [((rest (swap_once 3), [TagInt 0]), 0%nat)] |}.

(** A protocol with a step of each kind of tag. *)
Definition mixed_protocol : parameters :=
  {| protocol := [TagInt 0; TagStr "s" 0]; t_trunc := 2; rest := certain_swap |}.

(** ** The results file of [gp_asymmetric.py] *)

Definition newline : string := String (ascii_of_nat 10) EmptyString.
Definition double_quote : string := String (ascii_of_nat 34) EmptyString.

(** The fixed pieces of the file. *)
Definition opening_line : string := ("{" ++ newline)%string.
Definition closing_line : string := ("}" ++ newline ++ newline)%string.
Definition unique_line (count : string) : string :=
  ("Unique values: " ++ count ++ newline)%string.

Section Results_file.

(** How Python formats a protocol, a rate and a count inside an f-string,
    and [len(set(...))] on the rates. *)
Variable format_protocol : list tag -> string.
Variable format_rate : num -> string.
Variable format_count : nat -> string.
Variable count_distinct : list num -> nat.

(** The line written for one result. *)
Definition result_line (protocol : list tag) (skr : num) (comma : string)
    : string :=
  ("  " ++ double_quote ++ format_protocol protocol ++ double_quote ++ ": "
        ++ format_rate skr ++ comma ++ newline)%string.

(** [write_results(filename, ordered_results)]: the strings handed to
    [file.write], in order. *)
Definition write_results (ordered_results : list (num * list tag))
    : result (list string) :=
  rbind
    (for_result ordered_results
       (fun entry written =>
          let '(skr, protocol) := entry in
          rbind (py_index ordered_results (-1)) (fun last_entry =>
          let comma :=
            if list_eq_dec tag_eq_dec protocol (snd last_entry) then EmptyString else "," in
          ok (written ++ [result_line protocol skr comma])))
       [opening_line])
    (fun written =>
       ok (written
           ++ [closing_line;
               unique_line
                 (format_count (count_distinct (map fst ordered_results)))])).

End Results_file.

(** * Properties *)

(** ** The effect layer *)

Section Effects.

Lemma bind_inr {A B} (m : M A) (k : A -> M B) (s : simulation) (b : B) :
  value (bind m k s) = inr b ->
  exists a, value (m s) = inr a /\ value (k a s) = inr b.
Proof.
  unfold bind. destruct (value (m s)) as [e | a] eqn:E; simpl; intros H.
  - discriminate.
  - exists a. split; [reflexivity | exact H].
Qed.

Lemma bind_ok {A B} (m : M A) (k : A -> M B) (s : simulation) (a : A) :
  value (m s) = inr a ->
  bind m k s = Outcome (value (k a s)) (emitted (m s) ++ emitted (k a s)).
Proof. unfold bind. intros ->. reflexivity. Qed.

Lemma bind_raise {A B} (m : M A) (k : A -> M B) (s : simulation) (e : exn) :
  value (m s) = inl e ->
  bind m k s = Outcome (inl e) (emitted (m s)).
Proof. unfold bind. intros ->. reflexivity. Qed.

Lemma bind_ret {A B} (a : A) (k : A -> M B) (s : simulation) :
  bind (ret a) k s = k a s.
Proof. unfold bind, ret. simpl. destruct (k a s). reflexivity. Qed.

Lemma bind_silent {A B} (m : M A) (k : A -> M B) (s : simulation) (a : A) :
  m s = Outcome (ok a) [] -> bind m k s = k a s.
Proof. unfold bind. intros ->. simpl. destruct (k a s). reflexivity. Qed.

Lemma bind_ext {A B} (m : M A) (k k' : A -> M B) (s : simulation) :
  (forall a, k a s = k' a s) -> bind m k s = bind m k' s.
Proof.
  intros H. unfold bind. destruct (value (m s)); [reflexivity | now rewrite H].
Qed.

Lemma bind_assoc {A B C} (m : M A) (f : A -> M B) (g : B -> M C) (s : simulation) :
  bind (bind m f) g s = bind m (fun a => bind (f a) g) s.
Proof.
  unfold bind. destruct (value (m s)) as [e | a]; simpl; [reflexivity |].
  destruct (value (f a s)) as [e | b]; simpl; [reflexivity |].
  now rewrite app_assoc.
Qed.

Lemma bind_lift_ok {A B} (a : A) (k : A -> M B) (s : simulation) :
  bind (lift (ok a)) k s = k a s.
Proof. exact (bind_ret a k s). Qed.

Lemma bind_self {B} (k : simulation -> M B) (s : simulation) :
  bind self k s = k s s.
Proof. unfold bind, self. simpl. destruct (k s s). reflexivity. Qed.

Lemma lift_inr {A} (r : result A) (s : simulation) (a : A) :
  value (lift r s) = inr a -> r = inr a.
Proof. exact (fun H => H). Qed.

End Effects.

Lemma ok_inj {A} (a b : A) : ok a = ok b -> a = b.
Proof. unfold ok. congruence. Qed.

(** ** The elementary link *)

Lemma range_length (a b : Z) : length (range a b) = Z.to_nat (b - a).
Proof. unfold range. now rewrite length_map, length_seq. Qed.

Lemma nth_map_in {A B} (f : A -> B) (l : list A) (i : nat) (d : B) (d' : A) :
  (i < length l)%nat -> nth i (map f l) d = f (nth i l d').
Proof.
  revert i. induction l as [| a l IH]; intros [| i] H; simpl in *; try lia.
  - reflexivity.
  - apply IH. lia.
Qed.

Lemma range_nth (a b : Z) (i : nat) (d : Z) :
  (i < Z.to_nat (b - a))%nat -> nth i (range a b) d = a + Z.of_nat i.
Proof.
  intros H. unfold range.
  rewrite (nth_map_in _ _ _ _ O) by now rewrite length_seq.
  rewrite seq_nth by exact H. reflexivity.
Qed.

Lemma elementary_link_pmf_length (p w : num) (T : Z) :
  1 <= T -> length (fst (elementary_link p w T)) = Z.to_nat T.
Proof.
  intros H. unfold elementary_link. simpl.
  rewrite length_map, range_length. lia.
Qed.

Lemma elementary_link_w_length (p w : num) (T : Z) :
  length (snd (elementary_link p w T)) = Z.to_nat T.
Proof. unfold elementary_link. simpl. apply repeat_length. Qed.

Lemma elementary_link_pmf_nth (p w : num) (T t : Z) :
  1 <= t < T ->
  nth (Z.to_nat t) (fst (elementary_link p w T)) NaN
  = (p * (one - p) ** Z.to_nat (t - 1))%num.
Proof.
  intros H. unfold elementary_link. simpl.
  replace (Z.to_nat t) with (S (Z.to_nat (t - 1))) by lia. simpl.
  rewrite (nth_map_in _ _ _ _ 0) by (rewrite range_length; lia).
  rewrite range_nth by lia.
  do 3 f_equal. lia.
Qed.

Lemma elementary_link_w_nth (p w : num) (T t : Z) :
  0 <= t < T -> nth (Z.to_nat t) (snd (elementary_link p w T)) NaN = w.
Proof.
  intros H. unfold elementary_link. simpl.
  apply nth_repeat_lt. lia.
Qed.

Section Driver_empty.

Context {X : Externals}.

Lemma check_cache_empty_protocol (c : cache_t) (parameters : parameters) :
  protocol parameters = [] ->
  check_cache c parameters = ok (O, rest parameters, None).
Proof. unfold check_cache. intros ->. reflexivity. Qed.

Lemma lookup_cache_empty_protocol (s : simulation) (parameters : parameters) :
  protocol parameters = [] ->
  lookup_cache parameters s = Outcome (ok (O, rest parameters, None)) [].
Proof.
  intros Hproto. unfold lookup_cache. rewrite bind_self.
  destruct (use_cache s); [| reflexivity].
  now rewrite (check_cache_empty_protocol _ _ Hproto), bind_lift_ok.
Qed.

Lemma nested_protocol_empty (s : simulation) (parameters : parameters) (p w : num) :
  protocol parameters = [] ->
  p_gen (rest parameters) = Scalar p ->
  w0 (rest parameters) = Scalar w ->
  nested_protocol parameters s
  = Outcome (ok (elementary_link p w (t_trunc parameters), with_cache (cache s) s)) [].
Proof.
  intros Hproto Hp Hw. unfold nested_protocol.
  rewrite bind_self.
  rewrite (bind_silent _ _ _ _ (lookup_cache_empty_protocol s _ Hproto)).
  unfold nested_loop. rewrite Hproto, Hp, Hw. reflexivity.
Qed.

End Driver_empty.

Lemma with_cache_same (s : simulation) : with_cache (cache s) s = s.
Proof. now destruct s. Qed.

(** The power of the program on a rational is the power of the Standard
    Library, in lowest terms. *)
Lemma pow_Fin (a : Q) (n : nat) :
  (Fin a ** n)%num = Fin (Qred (a ^ Z.of_nat n)).
Proof.
  induction n as [| n IH]; [reflexivity |].
  cbn [Num.pow]. rewrite IH. cbn [Num.mul]. f_equal.
  apply Qred_complete. rewrite Qred_correct.
  rewrite Nat2Z.inj_succ, <- Z.add_1_l.
  rewrite Qpower_plus' by lia. now rewrite Qpower_1_r.
Qed.

Lemma geometric_sample (q : Q) (t : Z) :
  1 <= t ->
  (Fin q * (one - Fin q) ** Z.to_nat (t - 1))%num
  = Fin (Qred (geometric_pmf q t)).
Proof.
  intros H. unfold Num.sub, one. cbn [Num.opp Num.add].
  rewrite pow_Fin. cbn [Num.mul]. f_equal.
  apply Qred_complete. unfold geometric_pmf.
  rewrite Qred_correct, Z2Nat.id by lia.
  apply Qmult_comp; [reflexivity |].
  apply Qpower_comp; [| reflexivity].
  rewrite Qred_correct. apply Qplus_comp; [reflexivity | apply Qred_correct].
Qed.

(** C4.  With an empty protocol the symmetric driver returns the elementary
    link, whatever the simulator (memoization or not), leaves the
    simulator as it is and emits nothing: both arrays have [t_trunc]
    samples, [pmf[0] = 0], [pmf[t]] is the rational
    [p_gen (1 - p_gen)^(t - 1)] for [1 <= t < t_trunc], and [w[t] = w0]
    for every [t].  The samples are the exact values, in lowest terms; the
    code holds their roundings to [float64], so a sample below [2^-1074]
    is [0.0] there. *)
Theorem empty_protocol_returns_elementary_link :
  forall (X : Externals) (s : simulation) (parameters : parameters)
         (q : Q) (w : num),
    protocol parameters = [] ->
    p_gen (rest parameters) = Scalar (Fin q) ->
    w0 (rest parameters) = Scalar w ->
    1 <= t_trunc parameters ->
    exists pmf w_func,
      nested_protocol parameters s = Outcome (ok ((pmf, w_func), s)) [] /\
      length pmf = Z.to_nat (t_trunc parameters) /\
      length w_func = Z.to_nat (t_trunc parameters) /\
      nth_error pmf 0 = Some (Fin 0) /\
      (forall t, 1 <= t < t_trunc parameters ->
         nth_error pmf (Z.to_nat t) = Some (Fin (Qred (geometric_pmf q t)))) /\
      (forall t, 0 <= t < t_trunc parameters ->
         nth_error w_func (Z.to_nat t) = Some w).
Proof.
  intros X s parameters q w Hproto Hp Hw HT.
  exists (fst (elementary_link (Fin q) w (t_trunc parameters))),
         (snd (elementary_link (Fin q) w (t_trunc parameters))).
  pose proof (elementary_link_pmf_length (Fin q) w (t_trunc parameters) HT) as Lp.
  pose proof (elementary_link_w_length (Fin q) w (t_trunc parameters)) as Lw.
  split; [| split; [| split; [| split; [| split]]]].
  - rewrite (nested_protocol_empty s parameters (Fin q) w Hproto Hp Hw).
    rewrite with_cache_same.
    now destruct (elementary_link (Fin q) w (t_trunc parameters)).
  - exact Lp.
  - exact Lw.
  - reflexivity.
  - intros t Ht.
    rewrite (nth_error_nth' _ NaN) by lia.
    rewrite elementary_link_pmf_nth by exact Ht.
    now rewrite geometric_sample by lia.
  - intros t Ht.
    rewrite (nth_error_nth' _ NaN) by lia.
    now rewrite elementary_link_w_nth by exact Ht.
Qed.

(** Scenario S3: [p_gen = 0.5], [w0 = 0.933], [t_trunc = 1000] and no
    operation.  The first samples are [0, 1/2, 1/4, 1/8], sample 10 is
    [2^-10], and [w] is [0.933] up to its last sample. *)
Lemma empty_protocol_returns_elementary_link_S3 :
  exists pmf w_func,
    @nested_protocol Exact.externals scenario_S3 (new_simulation false)
    = Outcome (ok ((pmf, w_func), new_simulation false)) [] /\
    length pmf = 1000%nat /\
    length w_func = 1000%nat /\
    nth_error pmf 0 = Some (Fin 0) /\
    nth_error pmf 1 = Some (Fin (1 # 2)) /\
    nth_error pmf 2 = Some (Fin (1 # 4)) /\
    nth_error pmf 3 = Some (Fin (1 # 8)) /\
    nth_error pmf 10 = Some (Fin (1 # 1024)) /\
    nth_error w_func 0 = Some (Fin (933 # 1000)) /\
    nth_error w_func 999 = Some (Fin (933 # 1000)).
Proof.
  destruct (empty_protocol_returns_elementary_link Exact.externals
              (new_simulation false) scenario_S3 (1 # 2) (Fin (933 # 1000))
              eq_refl eq_refl eq_refl ltac:(simpl; lia))
    as (pmf & w_func & Hrun & Lp & Lw & H0 & Hpmf & Hw).
  exists pmf, w_func.
  split; [exact Hrun |]. split; [exact Lp |]. split; [exact Lw |].
  split; [exact H0 |].
  split; [exact (Hpmf 1 ltac:(simpl; lia)) |].
  split; [exact (Hpmf 2 ltac:(simpl; lia)) |].
  split; [exact (Hpmf 3 ltac:(simpl; lia)) |].
  split; [exact (Hpmf 10 ltac:(simpl; lia)) |].
  split; [exact (Hw 0 ltac:(simpl; lia)) | exact (Hw 999 ltac:(simpl; lia))].
Defined.

(** ** The shifted array *)

Section Shift.

Context {X : Externals}.

Lemma np_zeros_Z_ok (n : Z) :
  0 <= n -> np_zeros_Z n = ok (np_zeros (Z.to_nat n)).
Proof.
  intros H. unfold np_zeros_Z.
  destruct (n <? 0) eqn:E; [apply Z.ltb_lt in E; lia | reflexivity].
Qed.

Lemma shift_func_inside (func : array) (trunc : nat) (shift : Z) :
  0 <= shift <= Z.of_nat trunc ->
  shift_func func trunc shift
  = ok (firstn trunc (np_zeros (Z.to_nat shift) ++ func)).
Proof.
  intros [H0 H1]. unfold shift_func.
  destruct (shift <=? Z.of_nat trunc) eqn:E; [| apply Z.leb_gt in E; lia].
  now rewrite np_zeros_Z_ok.
Qed.

Lemma shift_func_outside (func : array) (trunc : nat) (shift : Z) :
  Z.of_nat trunc < shift -> shift_func func trunc shift = ok func.
Proof.
  intros H. unfold shift_func.
  destruct (shift <=? Z.of_nat trunc) eqn:E; [apply Z.leb_le in E; lia | reflexivity].
Qed.

Lemma nth_shifted (func : array) (trunc n t : nat) :
  (t < trunc)%nat ->
  nth t (firstn trunc (np_zeros n ++ func)) zero
  = if (t <? n)%nat then zero else nth (t - n) func zero.
Proof.
  intros H. rewrite nth_firstn.
  destruct (t <? trunc)%nat eqn:E; [| apply Nat.ltb_ge in E; lia].
  unfold np_zeros.
  destruct (t <? n)%nat eqn:En.
  - apply Nat.ltb_lt in En.
    rewrite app_nth1 by now rewrite repeat_length.
    apply nth_repeat.
  - apply Nat.ltb_ge in En.
    rewrite app_nth2 by now rewrite repeat_length.
    now rewrite repeat_length.
Qed.

Lemma firstn_zeros_app (func : array) (n : nat) :
  firstn n (np_zeros n ++ func) = np_zeros n.
Proof.
  unfold np_zeros.
  rewrite firstn_app, repeat_length, Nat.sub_diag, firstn_O, app_nil_r.
  apply firstn_all2. now rewrite repeat_length.
Qed.

Lemma shift_func_stable (func : array) (trunc : nat) :
  shift_func (firstn trunc func) trunc 0 = ok (firstn trunc func).
Proof.
  rewrite shift_func_inside by lia. simpl.
  now rewrite firstn_firstn, Nat.min_id.
Qed.

End Shift.

(** C7 (as the code has it).  For [0 <= shift <= trunc] the series is
    computed on the array shifted by [shift] places with zeros on the left,
    truncated to the window; for [shift = trunc] that array is all zeros.
    For [shift > trunc] the guard of line 149 leaves [func] as it is: the
    array is used unshifted. *)
Theorem shift_applies_within_window :
  forall (X : Externals) (func first_func : array) (trunc : nat) (shift : Z)
         (p_swap : option num) (max_k : Z) (s : simulation),
    0 <= shift ->
    (shift <= Z.of_nat trunc ->
     exists f_shifted,
       shift_func func trunc shift = ok f_shifted /\
       (forall t, (t < trunc)%nat ->
          nth t f_shifted zero
          = if Z.of_nat t <? shift then zero
            else nth (t - Z.to_nat shift) func zero) /\
       (shift = Z.of_nat trunc -> forall t, nth t f_shifted zero = zero) /\
       iterative_convolution_helper func first_func trunc shift p_swap max_k s
       = iterative_convolution_helper f_shifted first_func trunc 0 p_swap max_k s)
    /\ (Z.of_nat trunc < shift ->
        shift_func func trunc shift = ok func).
Proof.
  intros X func first_func trunc shift p_swap max_k s H0. split.
  - intros H1.
    exists (firstn trunc (np_zeros (Z.to_nat shift) ++ func)).
    split; [now apply shift_func_inside |]. split; [| split].
    + intros t Ht. rewrite nth_shifted by exact Ht.
      destruct (t <? Z.to_nat shift)%nat eqn:E1, (Z.of_nat t <? shift) eqn:E2;
        try reflexivity.
      * apply Nat.ltb_lt in E1. apply Z.ltb_ge in E2. lia.
      * apply Nat.ltb_ge in E1. apply Z.ltb_lt in E2. lia.
    + intros -> t. rewrite Nat2Z.id, firstn_zeros_app.
      unfold np_zeros. apply nth_repeat.
    + unfold iterative_convolution_helper.
      now rewrite shift_func_inside, shift_func_stable by lia.
  - apply shift_func_outside.
Qed.

Lemma shift_applies_within_window_example :
  (1 <= Z.of_nat 3 ->
   exists f_shifted,
     shift_func [zero; Fin (1 # 2); Fin (1 # 4)] 3 1 = ok f_shifted /\
     (forall t, (t < 3)%nat ->
        nth t f_shifted zero
        = if Z.of_nat t <? 1 then zero
          else nth (t - Z.to_nat 1) [zero; Fin (1 # 2); Fin (1 # 4)] zero) /\
     (1 = Z.of_nat 3 -> forall t, nth t f_shifted zero = zero) /\
     @iterative_convolution_helper Exact.externals
       [zero; Fin (1 # 2); Fin (1 # 4)] [zero; Fin (1 # 2); Fin (1 # 4)] 3 1
       None 3 direct_simulation
     = @iterative_convolution_helper Exact.externals
         f_shifted [zero; Fin (1 # 2); Fin (1 # 4)] 3 0 None 3 direct_simulation)
  /\ (Z.of_nat 3 < 1 ->
      shift_func [zero; Fin (1 # 2); Fin (1 # 4)] 3 1
      = ok [zero; Fin (1 # 2); Fin (1 # 4)]).
Proof.
  apply (shift_applies_within_window Exact.externals
           [zero; Fin (1 # 2); Fin (1 # 4)] [zero; Fin (1 # 2); Fin (1 # 4)]
           3%nat 1 None 3 direct_simulation).
  lia.
Defined.

(** C7, the claim as stated fails beyond the window: with [trunc = 3] and
    [shift = 4] the array is not replaced by zeros, and the series still
    contains its convolution term. *)
Lemma shift_beyond_window_is_ignored :
  shift_func [zero; Fin (1 # 2); zero] 3 4 = ok [zero; Fin (1 # 2); zero] /\
  value (@iterative_convolution_helper Exact.externals
           [zero; Fin (1 # 2); zero] [zero; Fin (1 # 2); zero] 3 4 None 3
           direct_simulation)
  = ok [zero; Fin (1 # 2); Fin (1 # 4)] /\
  value (@iterative_convolution_helper Exact.externals
           [zero; zero; zero] [zero; Fin (1 # 2); zero] 3 0 None 3
           direct_simulation)
  = ok [zero; Fin (1 # 2); zero].
Proof. repeat split; vm_compute; reflexivity. Qed.

(** ** The direct-convolution loop *)

Section Direct.

Context {X : Externals}.

Lemma fold_left_ext_in {A B} (f g : A -> B -> A) (l : list B) (a : A) :
  (forall acc x, In x l -> f acc x = g acc x) ->
  fold_left f l a = fold_left g l a.
Proof.
  revert a. induction l as [| x l IH]; intros a H; simpl.
  - reflexivity.
  - rewrite H by (left; reflexivity). apply IH.
    intros acc y Hy. apply H. right. exact Hy.
Qed.

(** A sample of the convolution only reads the samples up to its index. *)
Lemma conv_at_firstn (a v : array) (n t : nat) :
  (t < n)%nat -> conv_at (firstn n a) (firstn n v) t = conv_at a v t.
Proof.
  intros H. unfold conv_at. apply fold_left_ext_in.
  intros acc i Hi. apply in_seq in Hi.
  rewrite !nth_error_firstn.
  destruct (i <? n)%nat eqn:E1; [| apply Nat.ltb_ge in E1; lia].
  destruct (t - i <? n)%nat eqn:E2; [| apply Nat.ltb_ge in E2; lia].
  reflexivity.
Qed.

Lemma firstn_seq_le (a n m : nat) :
  (n <= m)%nat -> firstn n (seq a m) = seq a n.
Proof.
  revert a m. induction n as [| n IH]; intros a [| m] H; simpl; try lia.
  - reflexivity.
  - reflexivity.
  - f_equal. apply IH. lia.
Qed.

Lemma firstn_map_seq {B} (f : nat -> B) (n m : nat) :
  (n <= m)%nat -> firstn n (map f (seq 0 m)) = map f (seq 0 n).
Proof.
  intros H. now rewrite firstn_map, firstn_seq_le.
Qed.

Lemma conv_power_length (g f : array) (k : nat) :
  (1 <= length f)%nat -> (length g <= length (conv_power g f k))%nat.
Proof.
  intros H. induction k as [| k IH]; simpl.
  - lia.
  - unfold conv_full. rewrite length_map, length_seq. lia.
Qed.

Lemma np_convolve_window (a v : array) (n : nat) :
  (1 <= n)%nat -> (n <= length a)%nat -> (n <= length v)%nat ->
  exists c,
    np_convolve (firstn n a) (firstn n v) = ok c /\
    firstn n c = map (conv_at a v) (seq 0 n).
Proof.
  intros H1 Ha Hv.
  assert (La : length (firstn n a) = n) by (rewrite length_firstn; lia).
  assert (Lv : length (firstn n v) = n) by (rewrite length_firstn; lia).
  unfold np_convolve.
  destruct (firstn n a) as [| x a'] eqn:Ea; [simpl in La; lia |].
  destruct (firstn n v) as [| y v'] eqn:Ev; [simpl in Lv; lia |].
  eexists. split; [reflexivity |].
  rewrite La, Lv, firstn_map_seq by lia.
  apply map_ext_in. intros t Ht. apply in_seq in Ht.
  rewrite <- Ea, <- Ev. apply conv_at_firstn. lia.
Qed.

Lemma direct_term_weigh (p_swap : option num) (k : Z) (c : array) (trunc : nat) :
  direct_term p_swap k c trunc = map (weigh p_swap (Z.to_nat k)) (firstn trunc c).
Proof.
  unfold direct_term, weigh, scale, coeff_source.
  destruct p_swap; [reflexivity | now rewrite map_id].
Qed.

Lemma iadd_same_length (a b : array) :
  length b = length a ->
  iadd a b = ok (map (fun p => (fst p + snd p)%num) (combine a b)).
Proof. intros H. unfold iadd. now rewrite H, Nat.eqb_refl. Qed.

Lemma nth_map_combine (a b : array) (t : nat) :
  length b = length a -> (t < length a)%nat ->
  nth t (map (fun p => (fst p + snd p)%num) (combine a b)) zero
  = (nth t a zero + nth t b zero)%num.
Proof.
  intros Hl Ht.
  rewrite (nth_map_in _ _ _ _ (zero, zero)) by (rewrite length_combine; lia).
  now rewrite combine_nth by (symmetry; exact Hl).
Qed.

Lemma range_cons (a b : Z) : a < b -> range a b = a :: range (a + 1) b.
Proof.
  intros H. unfold range.
  replace (Z.to_nat (b - a)) with (S (Z.to_nat (b - (a + 1)))) by lia.
  simpl. f_equal; [lia |].
  rewrite <- seq_shift, map_map. apply map_ext. intros i. lia.
Qed.

Lemma range_nil (a b : Z) : b <= a -> range a b = [].
Proof.
  intros H. unfold range. now replace (Z.to_nat (b - a)) with O by lia.
Qed.

Lemma direct_body_round (p_swap : option num) (first g f : array) (trunc : nat)
    (k : Z) (st : array * array) (s : simulation) :
  (1 <= trunc)%nat -> length f = trunc -> length g = trunc -> 1 <= k ->
  after_rounds p_swap first g f trunc (Z.to_nat k - 1) st ->
  exists st',
    direct_body f trunc p_swap k st s = Outcome (ok st') [] /\
    after_rounds p_swap first g f trunc (Z.to_nat k) st'.
Proof.
  intros H1 Hf Hg Hk (Hc & Hlc & Hls & Hsum).
  destruct st as [convolved sum_convolved]. simpl in *.
  destruct (np_convolve_window convolved f trunc H1 Hlc) as (c & Ec & Fc); [lia |].
  assert (Lc : length (firstn trunc c) = trunc)
    by now rewrite Fc, length_map, length_seq.
  assert (Lp : (trunc <= length (conv_power g f (Z.to_nat k - 1)))%nat).
  { pose proof (conv_power_length g f (Z.to_nat k - 1)). lia. }
  assert (Fp : firstn trunc (conv_power g f (Z.to_nat k))
               = map (conv_at convolved f) (seq 0 trunc)).
  { replace (Z.to_nat k) with (S (Z.to_nat k - 1)) by lia. simpl.
    unfold conv_full. rewrite firstn_map_seq by lia.
    apply map_ext_in. intros t Ht. apply in_seq in Ht.
    rewrite <- (conv_at_firstn _ f trunc t) by lia.
    rewrite <- Hc. apply conv_at_firstn. lia. }
  eexists. split.
  - unfold direct_body. rewrite Ec, bind_lift_ok.
    rewrite direct_term_weigh, iadd_same_length
      by (rewrite length_map; lia).
    rewrite bind_lift_ok. reflexivity.
  - repeat split; simpl.
    + now rewrite Fc, Fp.
    + rewrite <- Lc, length_firstn. lia.
    + rewrite length_map, length_combine, length_map. lia.
    + intros t Ht.
      rewrite nth_map_combine by (rewrite ?length_map; lia).
      rewrite Hsum by exact Ht.
      rewrite (nth_map_in _ _ _ _ zero) by lia.
      rewrite Fc, <- Fp, nth_firstn.
      destruct (t <? trunc)%nat eqn:E; [| apply Nat.ltb_ge in E; lia].
      unfold series_gen.
      assert (Ek : seq 1 (Z.to_nat k) = seq 1 (Z.to_nat k - 1) ++ [Z.to_nat k]).
      { replace (Z.to_nat k) with (S (Z.to_nat k - 1)) at 1 by lia.
        rewrite seq_S. do 2 f_equal. lia. }
      rewrite Ek, fold_left_app. reflexivity.
Qed.

Lemma direct_loop (p_swap : option num) (first g f : array) (trunc : nat)
    (s : simulation) (n : nat) :
  (1 <= trunc)%nat -> length f = trunc -> length g = trunc ->
  forall (a b : Z) (st : array * array),
    Z.to_nat (b - a) = n -> 1 <= a ->
    after_rounds p_swap first g f trunc (Z.to_nat a - 1) st ->
    exists st',
      for_each (range a b) (direct_body f trunc p_swap) st s = Outcome (ok st') [] /\
      after_rounds p_swap first g f trunc (Z.to_nat (Z.max a b) - 1) st'.
Proof.
  intros H1 Hf Hg. induction n as [| n IH]; intros a b st Hn Ha Hst.
  - rewrite range_nil by lia. exists st. split; [reflexivity |].
    now replace (Z.max a b) with a by lia.
  - rewrite range_cons by lia. simpl.
    destruct (direct_body_round p_swap first g f trunc a st s H1 Hf Hg Ha Hst)
      as (st1 & E1 & I1).
    destruct (IH (a + 1) b st1) as (st' & E' & I'); [lia | lia | |].
    + now replace (Z.to_nat (a + 1) - 1)%nat with (Z.to_nat a) by lia.
    + exists st'. split.
      * rewrite (bind_silent _ _ _ _ E1). exact E'.
      * now replace (Z.max a b) with (Z.max (a + 1) b) by lia.
Qed.

Lemma slice_assign_full (src : array) (n : nat) :
  length src = n -> slice_assign (np_zeros n) src = ok src.
Proof.
  intros H. unfold slice_assign, np_zeros.
  rewrite repeat_length, H, Nat.leb_refl.
  rewrite skipn_all2 by now rewrite repeat_length.
  now rewrite app_nil_r.
Qed.

Lemma shift_func_length (func : array) (trunc : nat) (shift : Z) (f' : array) :
  0 <= shift -> length func = trunc ->
  shift_func func trunc shift = ok f' -> length f' = trunc.
Proof.
  intros H0 Hl. destruct (Z_le_gt_dec shift (Z.of_nat trunc)) as [L | G].
  - rewrite shift_func_inside by lia. intros E. injection E as <-.
    rewrite length_firstn, length_app. lia.
  - rewrite shift_func_outside by lia. intros E. now injection E as <-.
Qed.

Lemma shift_func_defined (func : array) (trunc : nat) (shift : Z) :
  0 <= shift -> exists f', shift_func func trunc shift = ok f'.
Proof.
  intros H0. destruct (Z_le_gt_dec shift (Z.of_nat trunc)) as [L | G].
  - rewrite shift_func_inside by lia. eauto.
  - rewrite shift_func_outside by lia. eauto.
Qed.

(** The direct path as a whole, for arrays that fill the window. *)
Lemma direct_helper_series (func first_func : array) (trunc : nat) (shift : Z)
    (p_swap : option num) (max_k : Z) (s : simulation) :
  use_fft s = false -> (1 <= trunc)%nat ->
  length func = trunc -> length first_func = trunc -> 0 <= shift ->
  exists f_shifted r,
    shift_func func trunc shift = ok f_shifted /\
    iterative_convolution_helper func first_func trunc shift p_swap max_k s
    = Outcome (ok r) [] /\
    length r = trunc /\
    forall t, (t < trunc)%nat ->
      nth t r zero
      = series_gen p_swap
          (match p_swap with Some p => scale p first_func | None => first_func end)
          first_func f_shifted (Z.to_nat (max_k - 1)) t.
Proof.
  intros Hfft H1 Hf Hg H0.
  destruct (shift_func_defined func trunc shift H0) as (f' & Ef).
  pose proof (shift_func_length _ _ _ _ H0 Hf Ef) as Lf.
  set (first := match p_swap with Some p => scale p first_func | None => first_func end).
  assert (Lfirst : length first = trunc).
  { subst first. destruct p_swap; [unfold scale; rewrite length_map |]; exact Hg. }
  assert (I0 : after_rounds p_swap first first_func f' trunc (Z.to_nat 1 - 1)
                 (first_func, first)).
  { repeat split; simpl; [lia | exact Lfirst]. }
  destruct (direct_loop p_swap first first_func f' trunc s
              (Z.to_nat (max_k - 1)) H1 Lf Hg 1 max_k (first_func, first)
              eq_refl (Z.le_refl 1) I0)
    as (st' & E & (_ & _ & Ls & Hs)).
  exists f', (snd st'). split; [exact Ef |]. split; [| split].
  - unfold iterative_convolution_helper. fold first.
    rewrite slice_assign_full by exact Lfirst.
    rewrite bind_lift_ok, Ef.
    rewrite (bind_lift_ok f'), bind_self, Hfft.
    unfold direct_path. rewrite Hg, Z.sub_diag.
    change (np_zeros_Z 0) with (ok (@nil num)).
    rewrite bind_lift_ok, app_nil_r.
    now rewrite (bind_silent _ _ _ _ E).
  - exact Ls.
  - intros t Ht. rewrite Hs by exact Ht.
    now replace (Z.to_nat (Z.max 1 max_k) - 1)%nat with (Z.to_nat (max_k - 1)) by lia.
Qed.

End Direct.

(** C6 (as the code has it).  With the FFT disabled and [p_swap] supplied,
    the helper returns, for arrays that fill the window, the series whose
    [k = 0] term is [p_swap * g] and in which the [k]-fold convolution
    [g * f^k] carries the coefficient [p_swap * (1 - p_swap) ** k], for
    [k = 1 .. max_k - 1]. *)
Theorem direct_series_coefficients :
  forall (X : Externals) (func first_func : array) (trunc : nat) (shift : Z)
         (p_swap : num) (max_k : Z) (s : simulation),
    use_fft s = false -> (1 <= trunc)%nat ->
    length func = trunc -> length first_func = trunc -> 0 <= shift ->
    exists f_shifted r,
      shift_func func trunc shift = ok f_shifted /\
      iterative_convolution_helper func first_func trunc shift (Some p_swap) max_k s
      = Outcome (ok r) [] /\
      length r = trunc /\
      forall t, (t < trunc)%nat ->
        nth t r zero
        = series_at (coeff_source p_swap) (scale p_swap first_func)
            first_func f_shifted (Z.to_nat (max_k - 1)) t.
Proof.
  intros X func first_func trunc shift p_swap max_k s Hfft H1 Hf Hg H0.
  exact (direct_helper_series func first_func trunc shift (Some p_swap) max_k s
           Hfft H1 Hf Hg H0).
Qed.

Lemma direct_series_coefficients_example :
  exists f_shifted r,
    shift_func [zero; Fin (1 # 2); zero] 3 0 = ok f_shifted /\
    @iterative_convolution_helper Exact.externals
      [zero; Fin (1 # 2); zero] [zero; Fin (1 # 2); zero] 3 0
      (Some (Fin (1 # 2))) 3 direct_simulation
    = Outcome (ok r) [] /\
    length r = 3%nat /\
    forall t, (t < 3)%nat ->
      nth t r zero
      = series_at (coeff_source (Fin (1 # 2)))
          (scale (Fin (1 # 2)) [zero; Fin (1 # 2); zero])
          [zero; Fin (1 # 2); zero] f_shifted (Z.to_nat (3 - 1)) t.
Proof.
  apply (direct_series_coefficients Exact.externals
           [zero; Fin (1 # 2); zero] [zero; Fin (1 # 2); zero] 3%nat 0
           (Fin (1 # 2)) 3 direct_simulation);
    [reflexivity | simpl; lia | reflexivity | reflexivity | lia].
Defined.

(** C6, the claim as stated: with [g = f = [0, 1/2, 0]], [p_swap = 1/2]
    and three rounds the sample at [t = 2] is [1/16], the term [g * f]
    weighted by [p_swap * (1 - p_swap)]; the series with the exponent
    [k - 1] has [1/8] there. *)
Lemma direct_series_exponent_is_not_k_minus_1 :
  value (@iterative_convolution_helper Exact.externals
           [zero; Fin (1 # 2); zero] [zero; Fin (1 # 2); zero] 3 0
           (Some (Fin (1 # 2))) 3 direct_simulation)
  = ok [zero; Fin (1 # 4); Fin (1 # 16)] /\
  series_at (coeff_spec (Fin (1 # 2)))
    (scale (Fin (1 # 2)) [zero; Fin (1 # 2); zero])
    [zero; Fin (1 # 2); zero] [zero; Fin (1 # 2); zero] 3 2
  = Fin (1 # 8).
Proof. split; vm_compute; reflexivity. Qed.

(** ** The Fourier path *)

Section Fourier.

Context {X : Externals}.

Lemma nth_error_last {A} (l : list A) (d : A) :
  l <> [] -> nth_error l (length l - 1) = Some (last l d).
Proof.
  induction l as [| a l IH]; intros H; [congruence |].
  destruct l as [| b l]; [reflexivity |].
  simpl length. replace (S (S (length l)) - 1)%nat with (S (length (b :: l) - 1))
    by (simpl; lia).
  change (nth_error (b :: l) (length (b :: l) - 1) = Some (last (b :: l) d)).
  apply IH. discriminate.
Qed.

Lemma py_index_last {A} (l : list A) (d : A) :
  l <> [] -> py_index l (-1) = ok (last l d).
Proof.
  intros H. unfold py_index.
  assert (L : (1 <= length l)%nat) by (destruct l; simpl; [congruence | lia]).
  change (-1 <? 0) with true. cbv iota.
  destruct (-1 + Z.of_nat (length l) <? 0) eqn:E; [apply Z.ltb_lt in E; lia |].
  replace (Z.to_nat (-1 + Z.of_nat (length l))) with (length l - 1)%nat by lia.
  now rewrite (nth_error_last l d H).
Qed.

Lemma fft_path_outcome (func convolved : array) (trunc : nat)
    (p_swap : option num) (s : simulation) (shape : Z)
    (cf ff padded : list cnum) :
  fft_shape (zero_padding_size s) trunc = ok shape ->
  np_fft convolved shape = ok cf ->
  np_fft func shape = ok ff ->
  np_ifft (map (fun c => geometric_term p_swap (fst c) (snd c)) (combine cf ff))
  = ok padded ->
  padded <> [] ->
  fft_path func convolved trunc p_swap s
  = Outcome (ok (map re (firstn trunc padded)))
      (if abs_gt (last padded (zero, zero)) padding_tolerance
       then [warning_zero_padding shape (last padded (zero, zero))]
       else []).
Proof.
  intros Hs Hc Hf Hi Hne. unfold fft_path.
  rewrite bind_self, Hs, bind_lift_ok, Hc, bind_lift_ok, Hf, bind_lift_ok.
  rewrite Hi, bind_lift_ok.
  rewrite (py_index_last padded (zero, zero) Hne), bind_lift_ok.
  destruct (abs_gt (last padded (zero, zero)) padding_tolerance); reflexivity.
Qed.

End Fourier.

(** C8 (as the code has it).  On the FFT path the warning, which carries
    the sample it was raised for, is emitted exactly when the magnitude of
    the last sample of the whole zero-padded inverse transform (index
    [shape - 1], before the truncation to [trunc] samples) exceeds [10e-16];
    the truncated real part is returned in both cases. *)
Theorem padding_warning_reads_last_padded_sample :
  forall (X : Externals) (func first_func : array) (trunc : nat) (shift : Z)
         (p_swap : option num) (max_k : Z) (s : simulation)
         (f_shifted : array) (shape : Z) (cf ff padded : list cnum),
    use_fft s = true ->
    (length first_func <= trunc)%nat ->
    shift_func func trunc shift = ok f_shifted ->
    fft_shape (zero_padding_size s) trunc = ok shape ->
    np_fft first_func shape = ok cf ->
    np_fft f_shifted shape = ok ff ->
    np_ifft (map (fun c => geometric_term p_swap (fst c) (snd c)) (combine cf ff))
    = ok padded ->
    (1 <= length padded)%nat ->
    let last_term := last padded (zero, zero) in
    iterative_convolution_helper func first_func trunc shift p_swap max_k s
    = Outcome (ok (map re (firstn trunc padded)))
        (if abs_gt last_term padding_tolerance
         then [warning_zero_padding shape last_term] else []).
Proof.
  intros X func first_func trunc shift p_swap max_k s f_shifted shape cf ff padded
         Hfft Hl Hsh Hs Hc Hf Hi Hne last_term.
  unfold iterative_convolution_helper.
  assert (Ha : exists sum_convolved,
             slice_assign (np_zeros trunc)
               match p_swap with Some p => scale p first_func | None => first_func end
             = ok sum_convolved).
  { unfold slice_assign, np_zeros. rewrite repeat_length.
    destruct p_swap; unfold scale; rewrite ?length_map;
      (destruct (length first_func <=? trunc)%nat eqn:E;
       [eauto | apply Nat.leb_gt in E; lia]). }
  destruct Ha as (sum_convolved & ->).
  rewrite bind_lift_ok, Hsh, bind_lift_ok, bind_self, Hfft.
  apply (fft_path_outcome f_shifted first_func trunc p_swap s shape cf ff padded
           Hs Hc Hf Hi).
  intros ->. simpl in Hne. lia.
Qed.

Lemma padding_warning_reads_last_padded_sample_example :
  let last_term :=
    last [(zero, zero); (Fin (1 # 2), zero); (zero, zero); (zero, zero)] (zero, zero) in
  @iterative_convolution_helper Exact.externals
    [zero; zero] [zero; Fin (1 # 2)] 2 0 None 2 (new_simulation false)
  = Outcome (ok (map re (firstn 2
       [(zero, zero); (Fin (1 # 2), zero); (zero, zero); (zero, zero)])))
      (if abs_gt last_term padding_tolerance
       then [warning_zero_padding 4 last_term] else []).
Proof.
  apply (padding_warning_reads_last_padded_sample Exact.externals
           [zero; zero] [zero; Fin (1 # 2)] 2%nat 0 None 2 (new_simulation false)
           [zero; zero] 4
           [(Fin (1 # 2), zero); (zero, Fin (-1 # 2)); (Fin (-1 # 2), zero);
            (zero, Fin (1 # 2))]
           [(zero, zero); (zero, zero); (zero, zero); (zero, zero)]);
    [reflexivity | simpl; lia | reflexivity | reflexivity | vm_compute; reflexivity
    | vm_compute; reflexivity | vm_compute; reflexivity | simpl; lia].
Defined.

(** C8, the claim as stated: here the last retained sample, index
    [trunc - 1 = 1] of the output, is [1/2], far above the tolerance, and no
    warning is emitted, because the last sample of the padded transform is
    zero. *)
Lemma no_warning_despite_large_last_retained_sample :
  @iterative_convolution_helper Exact.externals
    [zero; zero] [zero; Fin (1 # 2)] 2 0 None 2 (new_simulation false)
  = Outcome (ok [zero; Fin (1 # 2)]) [] /\
  abs_gt (of_real (Fin (1 # 2))) padding_tolerance = true.
Proof. split; vm_compute; reflexivity. Qed.

(** ** The checks and the choice of the kernel *)

Section Unit_entry.

Context {X : Externals}.

Lemma hd_emitted_bind {A B} (m : M A) (k : A -> M B) (s : simulation) (e : event) :
  hd_error (emitted (m s)) = Some e ->
  hd_error (emitted (bind m k s)) = Some e.
Proof.
  unfold bind. destruct (emitted (m s)) as [| e' l] eqn:E; [discriminate |].
  intros H. destruct (value (m s)); simpl; rewrite ?E; exact H.
Qed.

(** The fidelity check raises for [nan] only: every other number is
    [>= 0] or [< 1]. *)
Lemma nonneg_or_below_one (x : num) :
  isnan x = false -> (zero <=? x)%num || (x <? one)%num = true.
Proof.
  destruct x as [q | | |]; try reflexivity; try discriminate.
  intros _. unfold Num.leb, Num.ltb, zero, one, qleb, qltb.
  destruct (Qcompare 0 q) eqn:C0; try reflexivity.
  apply Qgt_alt in C0.
  assert (L : (q < 1)%Q) by (eapply Qlt_trans; [exact C0 | reflexivity]).
  apply Qlt_alt in L. change (Qcompare q 1 = Lt) in L. now rewrite L.
Qed.

Lemma fidelity_check_total (v : pyval) :
  isnan (to_num v) = false -> check_cutoff "fidelity" (Scalar v) = ok tt.
Proof.
  intros H.
  change (check_cutoff "fidelity" (Scalar v))
    with (if negb ((zero <=? to_num v)%num || (to_num v <? one)%num)
          then throw (TypeError "Fidelity cut-off must be a real number between 0 and 1.")
          else ok tt).
  now rewrite (nonneg_or_below_one _ H).
Qed.

Lemma fidelity_check_nan :
  check_cutoff "fidelity" (Scalar (PyFloat NaN))
  = throw (TypeError "Fidelity cut-off must be a real number between 0 and 1.").
Proof. reflexivity. Qed.

(** A unit entered with the fidelity cut-off calls the compatible kernel
    first. *)
Lemma fidelity_unit_reaches_kernel (w_cut : pyval) (pmf1 w_func1 : array)
    (unit_kind : string) (s : simulation) :
  isnan (to_num w_cut) = false ->
  Num.eqb (to_num w_cut) zero = false ->
  unit_kind = "swap" \/ unit_kind = "dist" ->
  hd_error (emitted (compute_unit (fidelity_settings w_cut) pmf1 w_func1 None None
                       unit_kind s))
  = Some (called_compatible false "1").
Proof.
  intros Hn Hz Hk. unfold compute_unit.
  assert (Ec : select_cutoff (fidelity_settings w_cut) "fidelity" = Scalar w_cut).
  { unfold select_cutoff. simpl. now rewrite Hz. }
  simpl get_or. rewrite Ec, (fidelity_check_total w_cut Hn), bind_lift_ok.
  apply hd_emitted_bind.
  destruct Hk as [-> | ->].
  - change (String.eqb "swap" "swap") with true. cbv iota.
    unfold entanglement_swap. rewrite bind_self.
    unfold selects_efficient, shift_of.
    change (String.eqb "fidelity" "memory_time") with false.
    rewrite andb_false_r. cbv iota.
    rewrite bind_lift_ok. apply hd_emitted_bind. reflexivity.
  - change (String.eqb "dist" "swap") with false.
    change (String.eqb "dist" "dist") with true. cbv iota.
    unfold destillation. rewrite bind_self.
    unfold selects_efficient, shift_of.
    change (String.eqb "fidelity" "memory_time") with false.
    rewrite andb_false_r. cbv iota.
    rewrite bind_lift_ok. apply hd_emitted_bind. reflexivity.
Qed.

End Unit_entry.

(** C3.  The claim asks for an error on every fidelity cut-off outside
    [[0, 1)].  The check of line 461 joins its two comparisons with [or], so
    it accepts [1.5] and [-0.5]; the unit is entered and the kernel is
    called with the cut-off. *)
Theorem fidelity_cutoff_outside_range_is_accepted :
  forall (X : Externals) (s : simulation) (pmf1 w_func1 : array),
    check_cutoff "fidelity" (Scalar (PyFloat (Fin (3 # 2)))) = ok tt /\
    check_cutoff "fidelity" (Scalar (PyFloat (Fin (-1 # 2)))) = ok tt /\
    hd_error (emitted (compute_unit (fidelity_settings (PyFloat (Fin (3 # 2))))
                         pmf1 w_func1 None None "swap" s))
    = Some (called_compatible false "1") /\
    hd_error (emitted (compute_unit (fidelity_settings (PyFloat (Fin (-1 # 2))))
                         pmf1 w_func1 None None "swap" s))
    = Some (called_compatible false "1").
Proof.
  intros X s pmf1 w_func1. repeat split; try reflexivity;
    apply fidelity_unit_reaches_kernel; auto.
Qed.

Section Kernel_choice.

Context {X : Externals}.

(** With [efficient] set, a unit under the memory-time cut-off calls the
    efficient kernel first, whatever the form of [t_coh]. *)
Lemma memory_time_unit_calls_efficient (parameters : settings)
    (pmf1 w_func1 : array) (pmf2 w_func2 : option array) (unit_kind : string)
    (s : simulation) (z : Z) :
  efficient s = true ->
  get_or (cut_type parameters) "memory_time" = "memory_time" ->
  select_cutoff parameters "memory_time" = Scalar (PyInt z) ->
  unit_kind = "swap" \/ unit_kind = "dist" ->
  hd_error (emitted (compute_unit parameters pmf1 w_func1 pmf2 w_func2 unit_kind s))
  = Some (called_efficient false "1").
Proof.
  intros He Hc Hz Hk. unfold compute_unit. rewrite Hc, Hz.
  change (check_cutoff "memory_time" (Scalar (PyInt z))) with (ok tt).
  rewrite bind_lift_ok. apply hd_emitted_bind.
  assert (Hsel : selects_efficient s "memory_time" = true).
  { unfold selects_efficient. now rewrite He. }
  destruct Hk as [-> | ->].
  - change (String.eqb "swap" "swap") with true. cbv iota.
    unfold entanglement_swap. rewrite bind_self, Hsel.
    change (shift_of (Scalar (PyInt z)) "memory_time") with (ok z).
    rewrite bind_lift_ok. apply hd_emitted_bind. reflexivity.
  - change (String.eqb "dist" "swap") with false.
    change (String.eqb "dist" "dist") with true. cbv iota.
    unfold destillation. rewrite bind_self, Hsel.
    change (shift_of (Scalar (PyInt z)) "memory_time") with (ok z).
    rewrite bind_lift_ok. apply hd_emitted_bind. reflexivity.
Qed.

End Kernel_choice.

(** C5.  The claim asks that heterogeneous mode never takes the efficient
    path.  The statement that would switch it off (line 737) is commented
    out, so on scenario S5, run on a fresh simulator, the first kernel
    called by the swap is the efficient one. *)
Theorem heterogeneous_swap_calls_efficient_kernel :
  forall (X : Externals) (T : Z),
    hd_error (emitted (asymmetric_protocol (scenario_S5 T) 2 (new_simulation false)))
    = Some (called_efficient false "1").
Proof.
  intros X T.
  unfold asymmetric_protocol.
  change (is_iterable (p_gen (rest (scenario_S5 T)))) with true. cbv iota.
  change (validate_heterogeneous_parameters (rest (scenario_S5 T)) 2) with (ok tt).
  rewrite bind_lift_ok.
  change (cutoff (rest (scenario_S5 T))) with (@None cut_spec).
  change (all_level_key (rest (scenario_S5 T))) with false. cbv iota.
  unfold asymmetric_heterogeneous_protocol.
  cbn [scenario_S5 rest p_gen w0 t_coh protocol t_trunc].
  set (l0 := elementary_link (Fin (3 # 10)) (Fin (9 # 10)) T).
  set (l1 := elementary_link (Fin (1 # 2)) (Fin (95 # 100)) T).
  rewrite (bind_silent _ _ _
             [Some (fst l0, snd l0, 0, 1); Some (fst l1, snd l1, 1, 2)])
    by reflexivity.
  apply hd_emitted_bind.
  cbn [for_each]. apply hd_emitted_bind.
  unfold heterogeneous_step.
  change (parse_step (TagStr "s" 0)) with (ok ("s"%char, 0)).
  rewrite bind_lift_ok.
  rewrite (bind_silent _ _ _ (Some (fst l0, snd l0, 0, 1))) by reflexivity.
  change (Ascii.eqb "s" "s") with true. cbv iota.
  rewrite (bind_silent _ _ _ 1) by reflexivity.
  rewrite (bind_silent _ _ _ (Some (fst l1, snd l1, 1, 2))) by reflexivity.
  rewrite (bind_silent _ _ _ (fst l0, snd l0, 0, 1)) by reflexivity.
  rewrite (bind_silent _ _ _ (fst l1, snd l1, 1, 2)) by reflexivity.
  change (1 =? 1) with true. cbv iota. rewrite bind_ret.
  rewrite (bind_silent _ _ _ (Fin 300)) by reflexivity.
  rewrite (bind_silent _ _ _ (Fin 300)) by reflexivity.
  rewrite (bind_silent _ _ _ (Fin 300)) by reflexivity.
  apply hd_emitted_bind.
  apply (memory_time_unit_calls_efficient _ _ _ _ _ _ _ iinfo_int_max);
    [reflexivity | reflexivity | reflexivity | left; reflexivity].
Qed.

(** ** The asymmetric driver *)

Section Asymmetric.

Context {X : Externals}.

Lemma py_index_nat {A} (l : list A) (i : Z) (a : A) :
  0 <= i -> nth_error l (Z.to_nat i) = Some a -> py_index l i = ok a.
Proof.
  intros H E. unfold py_index.
  destruct (i <? 0) eqn:C; [apply Z.ltb_lt in C; lia |].
  now rewrite C, E.
Qed.

Lemma replace_nth_length {A} (n : nat) (v : A) (l : list A) :
  length (replace_nth n v l) = length l.
Proof.
  revert n. induction l as [| a l IH]; intros [| n]; simpl; auto.
Qed.

Lemma py_setitem_nat {A} (l : list A) (i : Z) (v : A) :
  0 <= i < Z.of_nat (length l) ->
  py_setitem l i v = ok (replace_nth (Z.to_nat i) v l).
Proof.
  intros H. unfold py_setitem.
  destruct (i <? 0) eqn:C; [apply Z.ltb_lt in C; lia |].
  rewrite C.
  destruct (Z.of_nat (length l) <=? i) eqn:D; [apply Z.leb_le in D; lia |].
  reflexivity.
Qed.

Lemma nth_error_in_range {A} (l : list A) (n : nat) (a : A) :
  nth_error l n = Some a -> (n < length l)%nat.
Proof. intros H. apply nth_error_Some. congruence. Qed.

(** The search of [find_right_segment], from a candidate [a] on. *)
Lemma first_live_found {A} (segments : list (option A)) (n : nat) :
  forall (a j : Z) (x : A),
    Z.to_nat (j - a) = n -> 0 <= a <= j ->
    nth_error segments (Z.to_nat j) = Some (Some x) ->
    (forall m, a <= m < j -> nth_error segments (Z.to_nat m) = Some None) ->
    first_live segments (range a (Z.of_nat (length segments))) = ok j.
Proof.
  induction n as [| n IH]; intros a j x Hn Ha Hj Hdead;
    pose proof (nth_error_in_range _ _ _ Hj) as Lj;
    rewrite range_cons by lia; simpl.
  - assert (a = j) by lia. subst a.
    now rewrite (py_index_nat _ _ _ (proj1 Ha) Hj).
  - rewrite (py_index_nat segments a None) by (try apply Hdead; lia).
    apply (IH (a + 1) j x); try lia; try exact Hj.
    intros m Hm. apply Hdead. lia.
Qed.

Lemma first_live_none {A} (segments : list (option A)) (n : nat) :
  forall (a : Z),
    Z.to_nat (Z.of_nat (length segments) - a) = n -> 0 <= a ->
    (forall m, a <= m < Z.of_nat (length segments) ->
       nth_error segments (Z.to_nat m) = Some None) ->
    first_live segments (range a (Z.of_nat (length segments)))
    = throw (ValueError "No non-None segment found after index").
Proof.
  induction n as [| n IH]; intros a Hn Ha Hdead.
  - now rewrite range_nil by lia.
  - rewrite range_cons by lia. simpl.
    rewrite (py_index_nat segments a None) by (try apply Hdead; lia).
    apply IH; try lia.
    intros m Hm. apply Hdead. lia.
Qed.

Lemma find_right_segment_found {A} (segments : list (option A)) (i j : Z) (x : A) :
  0 <= i < j ->
  nth_error segments (Z.to_nat j) = Some (Some x) ->
  (forall m, i < m < j -> nth_error segments (Z.to_nat m) = Some None) ->
  find_right_segment segments i = ok j.
Proof.
  intros H Hj Hdead. unfold find_right_segment.
  apply (first_live_found segments (Z.to_nat (j - (i + 1))) (i + 1) j x);
    try lia; try exact Hj.
  intros m Hm. apply Hdead. lia.
Qed.

Lemma find_right_segment_none {A} (segments : list (option A)) (i : Z) :
  0 <= i ->
  (forall m, i < m < Z.of_nat (length segments) ->
     nth_error segments (Z.to_nat m) = Some None) ->
  find_right_segment segments i
  = throw (ValueError "No non-None segment found after index").
Proof.
  intros H Hdead. unfold find_right_segment.
  apply (first_live_none segments
           (Z.to_nat (Z.of_nat (length segments) - (i + 1)))); try lia.
  intros m Hm. apply Hdead. lia.
Qed.

Lemma for_each_app {A S} (xs ys : list A) (body : A -> S -> M S) (st : S)
    (s : simulation) :
  for_each (xs ++ ys) body st s
  = bind (for_each xs body st) (for_each ys body) s.
Proof.
  revert st. induction xs as [| x xs IH]; intros st; simpl.
  - now rewrite bind_ret.
  - rewrite bind_assoc. apply bind_ext. intros st1. apply IH.
Qed.

Lemma swap_step_without_right_neighbour (parameters : settings)
    (segments : list (option link)) (i : Z) (cur : link) (s : simulation) :
  0 <= i ->
  nth_error segments (Z.to_nat i) = Some (Some cur) ->
  (forall m, i < m < Z.of_nat (length segments) ->
     nth_error segments (Z.to_nat m) = Some None) ->
  asymmetric_step parameters (TagStr "s" i) segments s
  = Outcome (throw (ValueError "No non-None segment found after index")) [].
Proof.
  intros H0 Hi Hdead. unfold asymmetric_step.
  change (parse_step (TagStr "s" i)) with (ok ("s"%char, i)).
  rewrite bind_lift_ok, (py_index_nat _ _ _ H0 Hi), bind_lift_ok.
  change (Ascii.eqb "s" "s") with true. cbv iota.
  now rewrite (find_right_segment_none segments i H0 Hdead).
Qed.

Lemma swap_step_with_right_neighbour (parameters : settings)
    (segments : list (option link)) (i j : Z) (cur nxt : link) (s : simulation) :
  0 <= i < j ->
  nth_error segments (Z.to_nat i) = Some (Some cur) ->
  nth_error segments (Z.to_nat j) = Some (Some nxt) ->
  (forall m, i < m < j -> nth_error segments (Z.to_nat m) = Some None) ->
  asymmetric_step parameters (TagStr "s" i) segments s
  = bind (compute_unit parameters (fst cur) (snd cur)
            (Some (fst nxt)) (Some (snd nxt)) "swap")
      (fun merged =>
         ret (replace_nth (Z.to_nat j) (Some merged)
                (replace_nth (Z.to_nat i) None segments))) s.
Proof.
  intros H Hi Hj Hdead. unfold asymmetric_step.
  pose proof (nth_error_in_range _ _ _ Hi) as Li.
  pose proof (nth_error_in_range _ _ _ Hj) as Lj.
  change (parse_step (TagStr "s" i)) with (ok ("s"%char, i)).
  rewrite bind_lift_ok, (py_index_nat _ _ _ (proj1 H) Hi), bind_lift_ok.
  change (Ascii.eqb "s" "s") with true. cbv iota.
  rewrite (find_right_segment_found segments i j nxt H Hj Hdead), bind_lift_ok.
  rewrite (py_index_nat segments j (Some nxt)) by (try exact Hj; lia).
  rewrite bind_lift_ok.
  destruct cur as [pmf1 w1], nxt as [pmf2 w2]. simpl unpack.
  rewrite !bind_lift_ok. simpl fst. simpl snd.
  unfold bind at 1 4.
  destruct (value (compute_unit parameters pmf1 w1 (Some pmf2) (Some w2) "swap" s))
    as [e | [pmf w_func]]; [reflexivity |].
  rewrite py_setitem_nat by lia. rewrite bind_lift_ok.
  rewrite py_setitem_nat by (rewrite replace_nth_length; lia).
  now rewrite bind_lift_ok.
Qed.

End Asymmetric.

Lemma nth_error_replace_nth_same {A} (n : nat) (v : A) (l : list A) :
  (n < length l)%nat -> nth_error (replace_nth n v l) n = Some v.
Proof.
  revert n. induction l as [| a l IH]; intros [| n] H; simpl in *; try lia.
  - reflexivity.
  - apply IH. lia.
Qed.

Lemma nth_error_replace_nth_other {A} (n m : nat) (v : A) (l : list A) :
  m <> n -> nth_error (replace_nth n v l) m = nth_error l m.
Proof.
  revert n m. induction l as [| a l IH]; intros [| n] [| m] H; simpl; try reflexivity.
  - congruence.
  - apply IH. congruence.
Qed.

(** C9.  A step [SWAP(i)] on a live segment [i >= 0]: when [j] is the
    smallest live index above [i] and the unit computed from the segments
    [i] and [j] returns, the step returns the list of segments in which
    [i] is dead, [j] holds the result of the unit and every other segment
    is as it was; its events are those of the unit.  When no live index
    above [i] exists the step raises the [ValueError] of
    [find_right_segment], and so does the whole call of the driver. *)
Theorem swap_consumes_next_live_segment :
  forall (X : Externals) (parameters : parameters) (number_of_segments : Z)
         (pre post : list tag) (p w : num) (segments : list (option link))
         (i : Z) (cur : link) (s : simulation),
    0 <= i ->
    nth_error segments (Z.to_nat i) = Some (Some cur) ->
    (forall (j : Z) (nxt merged : link),
        i < j ->
        nth_error segments (Z.to_nat j) = Some (Some nxt) ->
        (forall m, i < m < j -> nth_error segments (Z.to_nat m) = Some None) ->
        value (compute_unit (rest parameters) (fst cur) (snd cur)
                 (Some (fst nxt)) (Some (snd nxt)) "swap" s) = ok merged ->
        exists segments',
          value (asymmetric_step (rest parameters) (TagStr "s" i) segments s)
          = ok segments' /\
          emitted (asymmetric_step (rest parameters) (TagStr "s" i) segments s)
          = emitted (compute_unit (rest parameters) (fst cur) (snd cur)
                       (Some (fst nxt)) (Some (snd nxt)) "swap" s) /\
          length segments' = length segments /\
          nth_error segments' (Z.to_nat i) = Some None /\
          nth_error segments' (Z.to_nat j) = Some (Some merged) /\
          (forall m, m <> Z.to_nat i -> m <> Z.to_nat j ->
             nth_error segments' m = nth_error segments m))
    /\
    ((forall m, i < m < Z.of_nat (length segments) ->
        nth_error segments (Z.to_nat m) = Some None) ->
     asymmetric_step (rest parameters) (TagStr "s" i) segments s
     = Outcome (throw no_right_segment) [] /\
     (p_gen (rest parameters) = Scalar p ->
      w0 (rest parameters) = Scalar w ->
      protocol parameters = pre ++ TagStr "s" i :: post ->
      value (for_each pre (asymmetric_step (rest parameters))
               (repeat (Some (elementary_link p w (t_trunc parameters)))
                       (Z.to_nat number_of_segments)) s)
      = ok segments ->
      value (asymmetric_protocol parameters number_of_segments s)
      = throw no_right_segment)).
Proof.
  intros X parameters S pre post p w segments i cur s H0 Hi. split.
  - intros j nxt merged Hj Hn Hdead Hunit.
    pose proof (nth_error_in_range _ _ _ Hi) as Li.
    pose proof (nth_error_in_range _ _ _ Hn) as Lj.
    exists (replace_nth (Z.to_nat j) (Some merged)
              (replace_nth (Z.to_nat i) None segments)).
    rewrite (swap_step_with_right_neighbour (rest parameters) segments i j cur nxt s
               (conj H0 Hj) Hi Hn Hdead).
    split; [| split; [| split; [| split; [| split]]]].
    + now rewrite (bind_ok _ _ _ _ Hunit).
    + unfold bind. rewrite Hunit. unfold ok. cbn [emitted ret].
      now rewrite app_nil_r.
    + now rewrite !replace_nth_length.
    + rewrite nth_error_replace_nth_other by lia.
      now apply nth_error_replace_nth_same.
    + apply nth_error_replace_nth_same. now rewrite replace_nth_length.
    + intros m Hmi Hmj. now rewrite !nth_error_replace_nth_other by assumption.
  - intros Hdead.
    pose proof (swap_step_without_right_neighbour (rest parameters) segments i cur s
                  H0 Hi Hdead) as Hstep.
    split; [exact Hstep |].
    intros Hp Hw Hproto Hpre.
    unfold asymmetric_protocol. rewrite Hp, Hw, Hproto.
    change (is_iterable (Scalar p)) with false. cbv iota.
    change (scalar_of (Scalar p)) with (ok p).
    change (scalar_of (Scalar w)) with (ok w).
    rewrite !bind_lift_ok.
    unfold bind at 1. rewrite for_each_app.
    rewrite (bind_ok _ _ _ _ Hpre). simpl value.
    simpl for_each.
    now rewrite (bind_raise _ _ _ _ (f_equal value Hstep)).
Qed.

(** Two elementary links with [p_gen = 1]: [SWAP(0)] leaves segment 0
    dead and the swapped link at segment 1; [SWAP(1)] then finds no live
    segment to the right and aborts the call. *)
Lemma swap_consumes_next_live_segment_example :
  (exists segments',
     value (@asymmetric_step Exact.externals (rest swap_then_swap_again)
              (TagStr "s" 0) [Some certain_link; Some certain_link]
              (new_simulation false))
     = ok segments' /\
     emitted (@asymmetric_step Exact.externals (rest swap_then_swap_again)
                (TagStr "s" 0) [Some certain_link; Some certain_link]
                (new_simulation false))
     = emitted (@compute_unit Exact.externals (rest swap_then_swap_again)
                  (fst certain_link) (snd certain_link)
                  (Some (fst certain_link)) (Some (snd certain_link)) "swap"
                  (new_simulation false)) /\
     length segments' = 2%nat /\
     nth_error segments' 0 = Some None /\
     nth_error segments' 1 = Some (Some certain_link_swapped) /\
     (forall m, m <> 0%nat -> m <> 1%nat ->
        nth_error segments' m
        = nth_error [Some certain_link; Some certain_link] m))
  /\
  @asymmetric_step Exact.externals (rest swap_then_swap_again) (TagStr "s" 1)
    [None; Some certain_link_swapped] (new_simulation false)
  = Outcome (throw no_right_segment) []
  /\
  value (@asymmetric_protocol Exact.externals swap_then_swap_again 2
           (new_simulation false))
  = throw no_right_segment.
Proof.
  split.
  - apply (proj1 (swap_consumes_next_live_segment Exact.externals
                    swap_then_swap_again 2 [] [TagStr "s" 1] one (Fin (9 # 10))
                    [Some certain_link; Some certain_link] 0 certain_link
                    (new_simulation false) ltac:(lia) eq_refl)
             1 certain_link certain_link_swapped).
    + lia.
    + reflexivity.
    + intros m Hm. lia.
    + vm_compute. reflexivity.
  - destruct (proj2 (swap_consumes_next_live_segment Exact.externals
                       swap_then_swap_again 2 [TagStr "s" 0] [] one (Fin (9 # 10))
                       [None; Some certain_link_swapped] 1 certain_link_swapped
                       (new_simulation false) ltac:(lia) eq_refl))
      as [Hstep Hcall].
    + intros m Hm. simpl in Hm. lia.
    + split; [exact Hstep |].
      apply Hcall; [reflexivity | reflexivity | reflexivity |].
      vm_compute. reflexivity.
Defined.

(** ** Units do not depend on the cache *)

Section Backend.

Context {X : Externals}.

Lemma bind_congr {A B} (m : M A) (k : A -> M B) (s s' : simulation) :
  m s = m s' -> (forall a, k a s = k a s') -> bind m k s = bind m k s'.
Proof.
  intros Hm Hk. unfold bind. rewrite Hm.
  destruct (value (m s')); [reflexivity | now rewrite Hk].
Qed.

Lemma for_each_congr {A S} (xs : list A) (body : A -> S -> M S) (st : S)
    (s s' : simulation) :
  (forall x st, body x st s = body x st s') ->
  for_each xs body st s = for_each xs body st s'.
Proof.
  intros H. revert st. induction xs as [| x xs IH]; intros st; simpl.
  - reflexivity.
  - apply bind_congr; [apply H | exact IH].
Qed.

Ltac same_on_lifts :=
  repeat first
    [ reflexivity
    | apply bind_congr; [| intros ? ]
    | match goal with
      | |- (if ?b then _ else _) _ = (if ?b then _ else _) _ => destruct b
      end ].

Lemma fft_path_backend (func convolved : array) (trunc : nat)
    (p_swap : option num) (s s' : simulation) :
  same_backend s s' ->
  fft_path func convolved trunc p_swap s = fft_path func convolved trunc p_swap s'.
Proof.
  intros (_ & _ & Hz). unfold fft_path. rewrite !bind_self, Hz.
  same_on_lifts.
Qed.

Lemma direct_path_backend (func convolved sum_convolved : array) (trunc : nat)
    (p_swap : option num) (max_k : Z) (s s' : simulation) :
  direct_path func convolved sum_convolved trunc p_swap max_k s
  = direct_path func convolved sum_convolved trunc p_swap max_k s'.
Proof.
  unfold direct_path. same_on_lifts.
  apply for_each_congr. intros k [c sm]. unfold direct_body. same_on_lifts.
Qed.

Lemma iterative_convolution_backend (func : array) (shift : Z)
    (first_func : option array) (p_swap : option num) (s s' : simulation) :
  same_backend s s' ->
  iterative_convolution func shift first_func p_swap s
  = iterative_convolution func shift first_func p_swap s'.
Proof.
  intros H. unfold iterative_convolution.
  apply bind_congr; [unfold required_convolutions; same_on_lifts |].
  intros max_k.
  match goal with
  | |- (if ?b then _ else _) _ = _ => destruct b; [| reflexivity]
  end.
  apply bind_congr; [| reflexivity].
  unfold iterative_convolution_helper.
  apply bind_congr; [reflexivity |]. intros sum_convolved.
  apply bind_congr; [reflexivity |]. intros func'.
  rewrite !bind_self. rewrite (proj1 H).
  destruct (use_fft s').
  - apply fft_path_backend. exact H.
  - apply direct_path_backend.
Qed.

Lemma call_join_links_backend (b : bool) (pmf1 pmf2 w1 w2 : array) (ycut : bool)
    (cutoff : cut_spec) (cut_type ev : string) (t_coh : scalar_or_seq num)
    (s s' : simulation) :
  call_join_links b pmf1 pmf2 w1 w2 ycut cutoff cut_type ev t_coh s
  = call_join_links b pmf1 pmf2 w1 w2 ycut cutoff cut_type ev t_coh s'.
Proof. unfold call_join_links. destruct b; same_on_lifts. Qed.

Ltac same_on_units H :=
  repeat first
    [ reflexivity
    | apply (iterative_convolution_backend _ _ _ _ _ _ H)
    | apply call_join_links_backend
    | apply bind_congr; [| intros ? ] ].

Lemma entanglement_swap_backend (pmf1 w1 pmf2 w2 : array) (p_swap : num)
    (cutoff : cut_spec) (t_coh : scalar_or_seq num) (cut_type : string)
    (s s' : simulation) :
  same_backend s s' ->
  entanglement_swap pmf1 w1 pmf2 w2 p_swap cutoff t_coh cut_type s
  = entanglement_swap pmf1 w1 pmf2 w2 p_swap cutoff t_coh cut_type s'.
Proof.
  intros H. unfold entanglement_swap. rewrite !bind_self.
  unfold selects_efficient. rewrite (proj1 (proj2 H)).
  same_on_units H.
Qed.

Lemma destillation_backend (pmf1 w1 pmf2 w2 : array)
    (cutoff : cut_spec) (t_coh : scalar_or_seq num) (cut_type : string)
    (s s' : simulation) :
  same_backend s s' ->
  destillation pmf1 w1 pmf2 w2 cutoff t_coh cut_type s
  = destillation pmf1 w1 pmf2 w2 cutoff t_coh cut_type s'.
Proof.
  intros H. unfold destillation. rewrite !bind_self.
  unfold selects_efficient. rewrite (proj1 (proj2 H)).
  same_on_units H.
Qed.

Lemma compute_unit_backend (parameters : settings) (pmf1 w1 : array)
    (pmf2 w2 : option array) (unit_kind : string) (s s' : simulation) :
  same_backend s s' ->
  compute_unit parameters pmf1 w1 pmf2 w2 unit_kind s
  = compute_unit parameters pmf1 w1 pmf2 w2 unit_kind s'.
Proof.
  intros H. unfold compute_unit.
  apply bind_congr; [reflexivity |]. intros _.
  apply bind_congr.
  - destruct (String.eqb unit_kind "swap");
      [apply entanglement_swap_backend; exact H |].
    destruct (String.eqb unit_kind "dist");
      [apply destillation_backend; exact H | reflexivity].
  - intros [pmf w]. same_on_lifts.
Qed.

Lemma same_backend_without_cache (s : simulation) :
  same_backend (without_cache s) s.
Proof. repeat split. Qed.

End Backend.

(** ** Rounds of the symmetric driver *)

Section Rounds.

Context {X : Externals}.

Lemma for_each_sim {A B S S'} (rel : S -> S' -> Prop)
    (body : A -> S -> M S) (body' : B -> S' -> M S') (s s' : simulation)
    (xs : list A) (ys : list B) :
  Forall2 (fun x y => forall st st', rel st st' ->
             sim_outcome rel (body x st s) (body' y st' s')) xs ys ->
  forall st st', rel st st' ->
    sim_outcome rel (for_each xs body st s) (for_each ys body' st' s').
Proof.
  induction 1 as [| x y xs ys Hxy _ IH]; intros st st' Hrel.
  - split; [reflexivity | exact Hrel].
  - simpl. destruct (Hxy st st' Hrel) as [He Hv]. unfold bind.
    destruct (value (body x st s)) as [e | st1],
             (value (body' y st' s')) as [e' | st1']; try contradiction.
    + split; [exact He | exact Hv].
    + destruct (IH st1 st1' Hv) as [He' Hv'].
      split; simpl; [now rewrite He, He' | exact Hv'].
Qed.

Lemma Forall2_same {A} (R : A -> A -> Prop) (l : list A) :
  (forall x, In x l -> R x x) -> Forall2 R l l.
Proof.
  induction l as [| a l IH]; intros H; constructor.
  - apply H. now left.
  - apply IH. intros x Hx. apply H. now right.
Qed.

Lemma level_parameters_untouched (cutoff : option cut_spec)
    (mt_cut w_cut rt_cut : list pyval) (i : nat) (p p' : settings) :
  untouched cutoff p = untouched cutoff p' ->
  level_parameters cutoff mt_cut w_cut rt_cut i p
  = level_parameters cutoff mt_cut w_cut rt_cut i p'.
Proof.
  unfold untouched, level_parameters, set_rt_cut, set_w_cut, set_mt_cut, set_cutoff.
  destruct p, p'.
  destruct cutoff as [[v | cs] |]; simpl; intros H; injection H; intros; subst;
    try reflexivity.
  destruct (py_index cs (Z.of_nat i)); reflexivity.
Qed.

Lemma level_parameters_keeps (cutoff : option cut_spec)
    (mt_cut w_cut rt_cut : list pyval) (i : nat) (p p4 : settings) :
  level_parameters cutoff mt_cut w_cut rt_cut i p = ok p4 ->
  untouched cutoff p4 = untouched cutoff p.
Proof.
  unfold untouched, level_parameters, set_rt_cut, set_w_cut, set_mt_cut, set_cutoff.
  destruct p.
  destruct cutoff as [[v | cs] |]; simpl;
    try destruct (py_index cs (Z.of_nat i)); simpl; try discriminate;
    destruct (py_index mt_cut (Z.of_nat i)); simpl; try discriminate;
    destruct (py_index w_cut (Z.of_nat i)); simpl; try discriminate;
    destruct (py_index rt_cut (Z.of_nat i)); simpl; try discriminate;
    intros H; injection H as <-; reflexivity.
Qed.

Lemma nested_step_sim (P P' : list tag) (h h' : settings)
    (cutoff : option cut_spec) (mt w rt mt' w' rt' : list pyval)
    (i i' : nat) (s s' : simulation) :
  same_backend s s' ->
  py_index P (Z.of_nat i) = py_index P' (Z.of_nat i') ->
  (forall p, level_parameters cutoff mt w rt i p
             = level_parameters cutoff mt' w' rt' i' p) ->
  forall st st', same_level cutoff st st' ->
    sim_outcome (same_level cutoff)
      (nested_step P h cutoff mt w rt i st s)
      (nested_step P' h' cutoff mt' w' rt' i' st' s').
Proof.
  intros Hb Hop Hlev [[p [pmf wf]] c] [[p' [pmf' wf']] c'] [Hu Hl].
  simpl in Hu, Hl. injection Hl as <- <-.
  unfold nested_step. rewrite !bind_self, Hop.
  rewrite (level_parameters_untouched _ _ _ _ _ _ _ Hu), Hlev.
  destruct (py_index P' (Z.of_nat i')) as [e | operation];
    [split; reflexivity |].
  rewrite !bind_lift_ok.
  destruct (level_parameters cutoff mt' w' rt' i' p') as [e | p4];
    [split; reflexivity |].
  rewrite !bind_lift_ok.
  assert (Hunit :
    forall (m m' : M link), m s = m' s' ->
      sim_outcome (same_level cutoff)
        (bind m (fun r => let '(pmf0, w0) := r in
           ret (p4, (pmf0, w0),
                if use_cache s
                then cache_set c (h, firstn (i + 1) P) (pmf0, w0) else c)) s)
        (bind m' (fun r => let '(pmf0, w0) := r in
           ret (p4, (pmf0, w0),
                if use_cache s'
                then cache_set c' (h', firstn (i' + 1) P') (pmf0, w0) else c')) s')).
  { intros m m' E. unfold bind. rewrite E.
    destruct (value (m' s')) as [e | [pmf0 w0]]; split; simpl;
      try reflexivity.
    split; reflexivity. }
  destruct operation as [[| [| |] |] | op idx];
    apply Hunit; try reflexivity;
    apply compute_unit_backend; exact Hb.
Qed.

(** Without memoization the rounds leave the cache alone. *)
Lemma nested_step_keeps_cache (P : list tag) (h : settings)
    (cutoff : option cut_spec) (mt w rt : list pyval) (i : nat)
    (st st1 : settings * link * cache_t) (s : simulation) :
  use_cache s = false ->
  value (nested_step P h cutoff mt w rt i st s) = ok st1 ->
  snd st1 = snd st.
Proof.
  intros Hc. destruct st as [[p [pmf wf]] c]. unfold nested_step.
  rewrite bind_self, Hc. intros H.
  apply bind_inr in H. destruct H as (op & _ & H).
  apply bind_inr in H. destruct H as (p4 & _ & H).
  apply bind_inr in H. destruct H as ([pmf0 w0] & _ & H).
  simpl in H. injection H as <-. reflexivity.
Qed.

Lemma for_each_keeps_cache (P : list tag) (h : settings)
    (cutoff : option cut_spec) (mt w rt : list pyval) (s : simulation)
    (idxs : list nat) :
  use_cache s = false ->
  forall st st1,
    value (for_each idxs (nested_step P h cutoff mt w rt) st s) = ok st1 ->
    snd st1 = snd st.
Proof.
  intros Hc. induction idxs as [| i idxs IH]; intros st st1 H; simpl in H.
  - now injection H as <-.
  - apply bind_inr in H. destruct H as (st' & H1 & H2).
    rewrite (IH _ _ H2). now apply (nested_step_keeps_cache _ _ _ _ _ _ _ _ _ _ Hc H1).
Qed.

End Rounds.

(** ** Steps that are neither a swap nor a distillation *)

Section Skip.

Context {X : Externals}.

Lemma py_index_of_nat {A} (l : list A) (n : nat) :
  py_index l (Z.of_nat n)
  = match nth_error l n with Some a => ok a | None => throw IndexError end.
Proof.
  unfold py_index.
  destruct (Z.of_nat n <? 0) eqn:C; [apply Z.ltb_lt in C; lia |].
  now rewrite C, Nat2Z.id.
Qed.

Lemma py_index_repeat {A} (v : A) (n i : nat) :
  (i < n)%nat -> py_index (repeat v n) (Z.of_nat i) = ok v.
Proof.
  intros H. rewrite py_index_of_nat.
  rewrite (nth_error_nth' _ v) by now rewrite repeat_length.
  now rewrite nth_repeat.
Qed.

Lemma skipped_round (P : list tag) (h : settings) (cutoff : option cut_spec)
    (mt w rt : list pyval) (i : nat) (p p4 : settings) (l : link) (c : cache_t)
    (s : simulation) (z : Z) :
  py_index P (Z.of_nat i) = ok (TagInt z) ->
  z <> 0 -> z <> 1 ->
  level_parameters cutoff mt w rt i p = ok p4 ->
  nested_step P h cutoff mt w rt i (p, l, c) s
  = Outcome (ok (p4, l, cache_after s c h P i l)) [].
Proof.
  intros Hop H0 H1 Hlev. destruct l as [pmf wf]. unfold nested_step.
  rewrite bind_self, Hop, bind_lift_ok, Hlev, bind_lift_ok.
  destruct z as [| [q | q |] | q]; try congruence; reflexivity.
Qed.

Lemma level_parameters_scalar (cutoff : option cut_spec) (m w r : pyval)
    (n n' i i' : nat) (p : settings) :
  match cutoff with Some (Seq _) => False | _ => True end ->
  (i < n)%nat -> (i' < n')%nat ->
  level_parameters cutoff (repeat m n) (repeat w n) (repeat r n) i p
  = level_parameters cutoff (repeat m n') (repeat w n') (repeat r n') i' p
  /\ exists p4,
      level_parameters cutoff (repeat m n) (repeat w n) (repeat r n) i p = ok p4.
Proof.
  intros Hc Hi Hi'. unfold level_parameters.
  rewrite !(py_index_repeat _ n i Hi), !(py_index_repeat _ n' i' Hi').
  destruct cutoff as [[v | cs] |]; try contradiction; simpl; eauto.
Qed.

Lemma Forall2_seq_shift (R : nat -> nat -> Prop) (a b : nat) :
  (forall j, (a <= j < a + b)%nat -> R (S j) j) ->
  Forall2 R (seq (S a) b) (seq a b).
Proof.
  revert a. induction b as [| b IH]; intros a H; simpl; constructor.
  - apply H. lia.
  - apply IH. intros j Hj. apply H. lia.
Qed.

Lemma nth_error_skip_one {A} (pre post : list A) (x : A) (j : nat) :
  (length pre <= j)%nat ->
  nth_error (pre ++ x :: post) (S j) = nth_error (pre ++ post) j.
Proof.
  intros H. rewrite !nth_error_app2 by lia.
  now replace (S j - length pre)%nat with (S (j - length pre)) by lia.
Qed.

Lemma nth_error_before {A} (pre post post' : list A) (j : nat) :
  (j < length pre)%nat ->
  nth_error (pre ++ post) j = nth_error (pre ++ post') j.
Proof. intros H. now rewrite !nth_error_app1 by exact H. Qed.

(** The loop over a protocol with a skipped step and over the protocol
    without it. *)
Lemma skipped_loop (pre post : list tag) (z : Z) (h p0 : settings) (l0 : link)
    (c0 : cache_t) (m w r : pyval) (s : simulation) :
  z <> 0 -> z <> 1 ->
  match cutoff p0 with Some (Seq _) => False | _ => True end ->
  let P1 := pre ++ TagInt z :: post in
  let P2 := pre ++ post in
  sim_outcome (same_level (cutoff p0))
    (for_each (seq 0 (length P1))
       (nested_step P1 h (cutoff p0) (repeat m (length P1)) (repeat w (length P1))
          (repeat r (length P1)))
       (p0, l0, c0) s)
    (for_each (seq 0 (length P2))
       (nested_step P2 h (cutoff p0) (repeat m (length P2)) (repeat w (length P2))
          (repeat r (length P2)))
       (p0, l0, c0) s).
Proof.
  intros H0 H1 Hc P1 P2.
  assert (L1 : length P1 = (length pre + S (length post))%nat)
    by (unfold P1; rewrite length_app; reflexivity).
  assert (L2 : length P2 = (length pre + length post)%nat)
    by (unfold P2; apply length_app).
  rewrite L1 at 1. rewrite L2 at 1.
  rewrite !seq_app, !for_each_app. simpl seq.
  assert (Hb : same_backend s s) by (repeat split).
  pose proof (for_each_sim (same_level (cutoff p0))
                (nested_step P1 h (cutoff p0) (repeat m (length P1))
                   (repeat w (length P1)) (repeat r (length P1)))
                (nested_step P2 h (cutoff p0) (repeat m (length P2))
                   (repeat w (length P2)) (repeat r (length P2)))
                s s (seq 0 (length pre)) (seq 0 (length pre))) as Hfirst.
  destruct (Hfirst) with (st := (p0, l0, c0)) (st' := (p0, l0, c0)) as [He Hv].
  { apply Forall2_same. intros j Hj. apply in_seq in Hj.
    apply nested_step_sim; [exact Hb | |].
    - rewrite !py_index_of_nat. unfold P1, P2.
      now rewrite (nth_error_before pre (TagInt z :: post) post) by lia.
    - intros p. apply level_parameters_scalar; [exact Hc | lia | lia]. }
  { split; reflexivity. }
  unfold bind at 1 2.
  destruct (value (for_each (seq 0 (length pre))
                     (nested_step P1 h (cutoff p0) (repeat m (length P1))
                        (repeat w (length P1)) (repeat r (length P1)))
                     (p0, l0, c0) s)) as [e | [[p [pmf wf]] c]] eqn:E1;
    destruct (value (for_each (seq 0 (length pre))
                     (nested_step P2 h (cutoff p0) (repeat m (length P2))
                        (repeat w (length P2)) (repeat r (length P2)))
                     (p0, l0, c0) s)) as [e' | [[p' [pmf' wf']] c']] eqn:E2;
    try contradiction.
  - split; [exact He | exact Hv].
  - destruct Hv as [Hu Hl]. simpl in Hu, Hl. injection Hl as <- <-.
    destruct (level_parameters_scalar (cutoff p0) m w r (length P1) (length P1)
                (length pre) (length pre) p Hc) as (_ & p4 & Hp4); [lia | lia |].
    assert (Hop : py_index P1 (Z.of_nat (length pre)) = ok (TagInt z)).
    { rewrite py_index_of_nat. unfold P1.
      now rewrite nth_error_app2, Nat.sub_diag by lia. }
    match goal with
    | |- context [for_each (length pre :: ?xs) ?body ?st s] =>
        assert (Estep :
          for_each (length pre :: xs) body st s
          = for_each xs body
              (p4, (pmf, wf), cache_after s c h P1 (length pre) (pmf, wf)) s)
    end.
    { simpl for_each.
      now rewrite (bind_silent _ _ _ _
                     (skipped_round P1 h (cutoff p0) _ _ _ (length pre) p p4
                        (pmf, wf) c s z Hop H0 H1 Hp4)). }
    rewrite Estep.
    pose proof (for_each_sim (same_level (cutoff p0))
                  (nested_step P1 h (cutoff p0) (repeat m (length P1))
                     (repeat w (length P1)) (repeat r (length P1)))
                  (nested_step P2 h (cutoff p0) (repeat m (length P2))
                     (repeat w (length P2)) (repeat r (length P2)))
                  s s (seq (S (length pre)) (length post))
                  (seq (length pre) (length post))) as Hlast.
    destruct Hlast with (st := (p4, (pmf, wf), cache_after s c h P1 (length pre) (pmf, wf)))
                        (st' := (p', (pmf, wf), c')) as [He' Hv'].
    { apply Forall2_seq_shift. intros j Hj.
      apply nested_step_sim; [exact Hb | |].
      - rewrite !py_index_of_nat. unfold P1, P2.
        now rewrite nth_error_skip_one by lia.
      - intros q. apply level_parameters_scalar; [exact Hc | lia | lia]. }
    { split; [| reflexivity]. simpl.
      rewrite (level_parameters_keeps _ _ _ _ _ _ _ Hp4). exact Hu. }
    unfold sim_outcome. cbn [value emitted].
    split; [now rewrite He, He' | exact Hv'].
Qed.

End Skip.

Section Skip_driver.

Context {X : Externals}.

Lemma lookup_cache_disabled (parameters : parameters) (s : simulation) :
  use_cache s = false ->
  lookup_cache parameters s = Outcome (ok (O, rest parameters, None)) [].
Proof. intros H. unfold lookup_cache. now rewrite bind_self, H. Qed.

Lemma expand_scalar (c : cut_spec) (n : nat) :
  is_iterable c = false -> exists v, c = Scalar v /\ expand c n = repeat v n.
Proof. destruct c as [v | vs]; [eauto | discriminate]. Qed.

Lemma skipped_driver (pre post : list tag) (z : Z) (T : Z) (h : settings)
    (s : simulation) :
  z <> 0 -> z <> 1 -> use_cache s = false -> scalar_cutoffs h ->
  nested_protocol {| protocol := pre ++ TagInt z :: post; t_trunc := T; rest := h |} s
  = nested_protocol {| protocol := pre ++ post; t_trunc := T; rest := h |} s.
Proof.
  intros H0 H1 Hc (Hm & Hw & Hr & Hcut). unfold nested_protocol.
  rewrite !bind_self.
  rewrite !(bind_silent _ _ _ _ (lookup_cache_disabled _ s Hc)).
  cbn [fst snd protocol t_trunc rest].
  apply bind_ext. intros start. unfold nested_loop.
  destruct (expand_scalar _ (length (pre ++ TagInt z :: post)) Hm) as (m & Em & ->).
  destruct (expand_scalar _ (length (pre ++ TagInt z :: post)) Hw) as (w & Ew & ->).
  destruct (expand_scalar _ (length (pre ++ TagInt z :: post)) Hr) as (r & Er & ->).
  rewrite Em, Ew, Er. cbn [expand]. rewrite !Nat.sub_0_r.
  pose proof (skipped_loop pre post z h (rename_tau h) start (cache s) m w r s
                H0 H1 Hcut) as [He Hv].
  cbv zeta in He, Hv.
  pose proof (for_each_keeps_cache (pre ++ TagInt z :: post) h
                (cutoff (rename_tau h))
                (repeat m (length (pre ++ TagInt z :: post)))
                (repeat w (length (pre ++ TagInt z :: post)))
                (repeat r (length (pre ++ TagInt z :: post))) s
                (seq 0 (length (pre ++ TagInt z :: post))) Hc
                (rename_tau h, start, cache s)) as K1.
  pose proof (for_each_keeps_cache (pre ++ post) h
                (cutoff (rename_tau h))
                (repeat m (length (pre ++ post)))
                (repeat w (length (pre ++ post)))
                (repeat r (length (pre ++ post))) s
                (seq 0 (length (pre ++ post))) Hc
                (rename_tau h, start, cache s)) as K2.
  unfold bind. rewrite He.
  match type of Hv with
  | match ?a with _ => _ end =>
      destruct a as [e | [[p1 l1] c1]]
  end;
  match type of Hv with
  | match ?a with _ => _ end =>
      destruct a as [e' | [[p2 l2] c2]]
  end; try contradiction.
  - now subst.
  - destruct Hv as [_ Hl]. simpl in Hl. subst l2.
    specialize (K1 _ eq_refl). specialize (K2 _ eq_refl). simpl in K1, K2.
    now subst.
Qed.

End Skip_driver.

(** C10.  A step of the symmetric driver whose tag is an integer other
    than 0 and 1 raises nothing and emits nothing, and hands the link state
    on unchanged (only the cut-offs of its level are written into
    [parameters], and the unchanged state is cached under its prefix when
    memoization is on).  With scalar cut-offs and without memoization, as in
    [repeater_sim], the whole run equals the run of the protocol from which
    the step is removed. *)
Theorem unknown_tag_is_skipped :
  forall (X : Externals) (z : Z),
    z <> 0 -> z <> 1 ->
    (forall (P : list tag) (h : settings) (cutoff : option cut_spec)
            (mt w rt : list pyval) (i : nat) (p p4 : settings) (l : link)
            (c : cache_t) (s : simulation),
        py_index P (Z.of_nat i) = ok (TagInt z) ->
        level_parameters cutoff mt w rt i p = ok p4 ->
        nested_step P h cutoff mt w rt i (p, l, c) s
        = Outcome (ok (p4, l, cache_after s c h P i l)) [])
    /\
    (forall (pre post : list tag) (T : Z) (h : settings) (s : simulation),
        use_cache s = false -> scalar_cutoffs h ->
        nested_protocol
          {| protocol := pre ++ TagInt z :: post; t_trunc := T; rest := h |} s
        = nested_protocol
            {| protocol := pre ++ post; t_trunc := T; rest := h |} s).
Proof.
  intros X z H0 H1. split.
  - intros P h cutoff mt w rt i p p4 l c s Hop Hlev.
    now apply (skipped_round P h cutoff mt w rt i p p4 l c s z).
  - intros pre post T h s Hc Hs. now apply skipped_driver.
Qed.

Lemma unknown_tag_is_skipped_for_tag_2 :
  (forall (P : list tag) (h : settings) (cutoff : option cut_spec)
          (mt w rt : list pyval) (i : nat) (p p4 : settings) (l : link)
          (c : cache_t) (s : simulation),
      py_index P (Z.of_nat i) = ok (TagInt 2) ->
      level_parameters cutoff mt w rt i p = ok p4 ->
      @nested_step Exact.externals P h cutoff mt w rt i (p, l, c) s
      = Outcome (ok (p4, l, cache_after s c h P i l)) [])
  /\
  (forall (pre post : list tag) (T : Z) (h : settings) (s : simulation),
      use_cache s = false -> scalar_cutoffs h ->
      @nested_protocol Exact.externals
        {| protocol := pre ++ TagInt 2 :: post; t_trunc := T; rest := h |} s
      = @nested_protocol Exact.externals
          {| protocol := pre ++ post; t_trunc := T; rest := h |} s).
Proof.
  apply (unknown_tag_is_skipped Exact.externals 2); lia.
Defined.

(** ** The cache of the symmetric driver *)

Section Cache.

Context {X : Externals}.

Lemma cache_lookup_hashable (c : cache_t) (h : settings) (P : list tag) :
  cutoff_dict h = None -> cache_lookup c (h, P) = ok (cache_get c (h, P)).
Proof. intros H. unfold cache_lookup, hash_parameters. cbn [fst]. now rewrite H. Qed.

Lemma cache_lookup_unhashable (c : cache_t) (h : settings) (P : list tag)
    (d : cutoff_dict_t) :
  cutoff_dict h = Some d ->
  cache_lookup c (h, P) = throw (TypeError "unhashable type: 'dict'").
Proof. intros H. unfold cache_lookup, hash_parameters. cbn [fst]. now rewrite H. Qed.

(** A lookup that does not raise has hashed its key. *)
Lemma check_cache_from_hashed (c : cache_t) (h : settings) (P : list tag) (T : Z)
    (i : nat) (r : nat * option link) :
  check_cache_from c h P T (S i) = ok r -> cutoff_dict h = None.
Proof.
  cbn [check_cache_from].
  destruct (cutoff_dict h) as [d |] eqn:Hd; [| reflexivity].
  now rewrite (cache_lookup_unhashable c h _ d Hd).
Qed.


Lemma check_cache_from_unhashable (c : cache_t) (h : settings) (P : list tag)
    (T : Z) (i : nat) (d : cutoff_dict_t) :
  cutoff_dict h = Some d ->
  check_cache_from c h P T (S i) = throw (TypeError "unhashable type: 'dict'").
Proof.
  intros Hd. cbn [check_cache_from].
  now rewrite (cache_lookup_unhashable c h _ d Hd).
Qed.

Lemma check_cache_from_hit (c : cache_t) (h : settings) (P : list tag) (T : Z)
    (i r : nat) (v : link) :
  check_cache_from c h P T i = ok (r, Some v) ->
  (1 <= r <= i)%nat /\
  cache_get c (h, firstn r P) = Some v /\
  T <= Z.of_nat (length (fst v)) /\
  forall j v', (r < j <= i)%nat ->
    cache_get c (h, firstn j P) = Some v' ->
    Z.of_nat (length (fst v')) < T.
Proof.
  induction i as [| i IH]; [discriminate |].
  intros E. pose proof (check_cache_from_hashed _ _ _ _ _ _ E) as Hd.
  cbn [check_cache_from] in E. rewrite (cache_lookup_hashable c h _ Hd) in E.
  unfold ok at 1, rbind in E.
  destruct (cache_get c (h, firstn (S i) P)) as [cached |] eqn:G.
  - cbv zeta in E. destruct (T <=? Z.of_nat (length (fst cached))) eqn:L.
    + apply ok_inj in E. injection E as <- <-. apply Z.leb_le in L.
      repeat split; try lia; try exact G.
    + destruct (IH E) as (Hr & Hg & Hl & Hmax).
      repeat split; try lia; try exact Hg.
      intros j v' Hj Gj.
      destruct (Nat.eq_dec j (S i)) as [-> | Hne].
      * rewrite G in Gj. injection Gj as <-. apply Z.leb_gt in L. exact L.
      * apply (Hmax j v'); [lia | exact Gj].
  - destruct (IH E) as (Hr & Hg & Hl & Hmax).
    repeat split; try lia; try exact Hg.
    intros j v' Hj Gj.
    destruct (Nat.eq_dec j (S i)) as [-> | Hne].
    * rewrite G in Gj. discriminate.
    * apply (Hmax j v'); [lia | exact Gj].
Qed.

Lemma check_cache_from_miss (c : cache_t) (h : settings) (P : list tag) (T : Z)
    (i r : nat) :
  check_cache_from c h P T i = ok (r, None) -> r = O.
Proof.
  induction i as [| i IH]; [now intros E; apply ok_inj in E; injection E as <- |].
  intros E. pose proof (check_cache_from_hashed _ _ _ _ _ _ E) as Hd.
  cbn [check_cache_from] in E. rewrite (cache_lookup_hashable c h _ Hd) in E.
  unfold ok at 1, rbind in E.
  destruct (cache_get c (h, firstn (S i) P)) as [cached |];
    [cbv zeta in E; destruct (T <=? Z.of_nat (length (fst cached)));
       [discriminate |] |];
    exact (IH E).
Qed.

Lemma check_cache_value (c : cache_t) (Q : parameters) (i : nat) (h : settings)
    (r : option link) :
  check_cache c Q = ok (i, h, r) ->
  h = rest Q /\
  check_cache_from c (rest Q) (protocol Q) (t_trunc Q) (length (protocol Q))
  = ok (i, r).
Proof.
  unfold check_cache.
  destruct (check_cache_from c (rest Q) (protocol Q) (t_trunc Q) (length (protocol Q)))
    as [e | [i' r']]; [discriminate |].
  cbn [rbind fst snd]. intros E. apply ok_inj in E. now injection E as <- <- <-.
Qed.

(** Equal keys of the same protocol prefix are identical when the cache
    holds no key that is equal to the parameters without being the same. *)
Lemma list_eqb_tag_eq (l l' : list tag) : list_eqb tag_eqb l l' = true -> l = l'.
Proof.
  revert l'. induction l as [| a l IH]; intros [| b l']; try discriminate;
    [reflexivity |].
  cbn [list_eqb]. intros H. apply andb_prop in H. destruct H as [Ha Hl].
  unfold tag_eqb in Ha. destruct (tag_eq_dec a b) as [-> | _]; [| discriminate].
  now rewrite (IH l' Hl).
Qed.

Lemma num_eqb_refl (x : num) : num_eqb x x = true.
Proof.
  destruct x as [q | | |]; try reflexivity.
  cbn [num_eqb Num.eqb]. apply Qeq_bool_iff. reflexivity.
Qed.

Lemma list_eqb_refl {A} (eqb : A -> A -> bool) (l : list A) :
  (forall a, eqb a a = true) -> list_eqb eqb l l = true.
Proof.
  intros H. induction l as [| a l IH]; [reflexivity |].
  cbn [list_eqb]. now rewrite H, IH.
Qed.

Lemma sos_eqb_refl {A} (eqb : A -> A -> bool) (x : scalar_or_seq A) :
  (forall a, eqb a a = true) -> sos_eqb eqb x x = true.
Proof.
  intros H. destruct x as [a | l]; [apply H | now apply list_eqb_refl].
Qed.

Lemma opt_eqb_refl {A} (eqb : A -> A -> bool) (x : option A) :
  (forall a, eqb a a = true) -> opt_eqb eqb x x = true.
Proof. intros H. destruct x as [a |]; [apply H | reflexivity]. Qed.

Lemma pyval_eqb_refl (v : pyval) : pyval_eqb v v = true.
Proof. apply num_eqb_refl. Qed.

Lemma cutoff_dict_eqb_refl (d : cutoff_dict_t) : cutoff_dict_eqb d d = true.
Proof.
  unfold cutoff_dict_eqb.
  now rewrite !opt_eqb_refl
    by (intros a; apply sos_eqb_refl; apply pyval_eqb_refl).
Qed.

Lemma settings_eqb_refl (h : settings) : settings_eqb h h = true.
Proof.
  unfold settings_eqb.
  rewrite !(sos_eqb_refl num_eqb) by apply num_eqb_refl.
  rewrite num_eqb_refl.
  rewrite (opt_eqb_refl (sos_eqb num_eqb))
    by (intros a; apply sos_eqb_refl; apply num_eqb_refl).
  rewrite (opt_eqb_refl String.eqb) by apply String.eqb_refl.
  rewrite !(opt_eqb_refl (sos_eqb pyval_eqb))
    by (intros a; apply sos_eqb_refl; apply pyval_eqb_refl).
  rewrite (opt_eqb_refl cutoff_dict_eqb) by apply cutoff_dict_eqb_refl.
  now rewrite Bool.eqb_reflx.
Qed.

Lemma tag_eqb_refl (t : tag) : tag_eqb t t = true.
Proof. unfold tag_eqb. now destruct (tag_eq_dec t t). Qed.

(** A key is equal to itself. *)
Lemma key_eqb_refl (k : HashableParameters) : key_eqb k k = true.
Proof.
  unfold key_eqb. rewrite settings_eqb_refl.
  now rewrite (list_eqb_refl tag_eqb) by apply tag_eqb_refl.
Qed.

(** Keys of the same dictionary are equal when their prefixes are. *)
Lemma key_eqb_same_settings (h : settings) (P P' : list tag) :
  key_eqb (h, P) (h, P') = if list_eq_dec tag_eq_dec P P' then true else false.
Proof.
  unfold key_eqb. cbn [fst snd]. rewrite settings_eqb_refl. cbn [andb].
  destruct (list_eq_dec tag_eq_dec P P') as [-> | Hne].
  - now apply list_eqb_refl, tag_eqb_refl.
  - destruct (list_eqb tag_eqb P P') eqn:E; [| reflexivity].
    now apply list_eqb_tag_eq in E.
Qed.

Lemma cache_get_identical (c : cache_t) (h : settings) (P : list tag) (v : link) :
  identical_where_equal c h = true ->
  cache_get c (h, P) = Some v -> In ((h, P), v) c.
Proof.
  induction c as [| [[h' P'] v'] c IH]; [discriminate |].
  unfold identical_where_equal. cbn [forallb fst cache_get]. intros H.
  apply andb_prop in H. destruct H as [Hhead Htail].
  unfold key_eqb. cbn [fst snd].
  destruct (settings_eqb h h') eqn:Es.
  - destruct (list_eqb tag_eqb P P') eqn:Ep.
    + cbn [andb implb] in *. intros E. injection E as <-.
      destruct (settings_eq_dec h' h) as [-> | _]; [| discriminate].
      rewrite (list_eqb_tag_eq _ _ Ep). now left.
    + cbn [andb]. intros E. right. now apply IH.
  - cbn [andb]. intros E. right. now apply IH.
Qed.

Lemma py_index_expand (a : cut_spec) (n n' j : nat) :
  (j < n)%nat -> (n <= n')%nat ->
  py_index (expand a n) (Z.of_nat j) = py_index (expand a n') (Z.of_nat j).
Proof.
  intros Hj Hn. destruct a as [v | vs]; [| reflexivity]. simpl.
  now rewrite !py_index_repeat by lia.
Qed.

Lemma level_parameters_expand (cutoff : option cut_spec) (a b d : cut_spec)
    (n n' j : nat) (p : settings) :
  (j < n)%nat -> (n <= n')%nat ->
  level_parameters cutoff (expand a n) (expand b n) (expand d n) j p
  = level_parameters cutoff (expand a n') (expand b n') (expand d n') j p.
Proof.
  intros Hj Hn. unfold level_parameters.
  now rewrite (py_index_expand a n n' j Hj Hn), (py_index_expand b n n' j Hj Hn),
    (py_index_expand d n n' j Hj Hn).
Qed.

(** The rounds keep the keys they do not overwrite. *)
Lemma nested_step_untouched (P : list tag) (h : settings)
    (cutoff : option cut_spec) (mt w rt : list pyval) (i : nat)
    (st st1 : settings * link * cache_t) (s : simulation) :
  value (nested_step P h cutoff mt w rt i st s) = ok st1 ->
  untouched cutoff (fst (fst st1)) = untouched cutoff (fst (fst st)).
Proof.
  destruct st as [[p [pmf wf]] c]. unfold nested_step.
  rewrite bind_self. intros H.
  apply bind_inr in H. destruct H as (op & _ & H).
  apply bind_inr in H. destruct H as (p4 & Hp4 & H).
  apply bind_inr in H. destruct H as ([pmf0 w0] & _ & H).
  simpl in H. injection H as <-. simpl.
  apply (level_parameters_keeps _ _ _ _ _ _ _ (lift_inr _ s _ Hp4)).
Qed.

Lemma for_each_untouched (P : list tag) (h : settings)
    (cutoff : option cut_spec) (mt w rt : list pyval) (s : simulation)
    (idxs : list nat) :
  forall st st1,
    value (for_each idxs (nested_step P h cutoff mt w rt) st s) = ok st1 ->
    untouched cutoff (fst (fst st1)) = untouched cutoff (fst (fst st)).
Proof.
  induction idxs as [| i idxs IH]; intros st st1 H; simpl in H.
  - now injection H as <-.
  - apply bind_inr in H. destruct H as (st' & H1 & H2).
    rewrite (IH _ _ H2). now apply (nested_step_untouched _ _ _ _ _ _ _ _ _ _ H1).
Qed.

(** The first [i] rounds on a protocol and on its prefix of length [i]. *)
Lemma prefix_rounds (P : list tag) (h p0 : settings) (a b d : cut_spec)
    (i : nat) (st : settings * link * cache_t) (s : simulation) :
  (i <= length P)%nat ->
  sim_outcome (same_level (cutoff p0))
    (for_each (seq 0 i)
       (nested_step (firstn i P) h (cutoff p0) (expand a i) (expand b i) (expand d i))
       st s)
    (for_each (seq 0 i)
       (nested_step P h (cutoff p0) (expand a (length P)) (expand b (length P))
          (expand d (length P)))
       st s).
Proof.
  intros Hi. apply for_each_sim; [| split; reflexivity].
  apply Forall2_same. intros j Hj. apply in_seq in Hj.
  apply nested_step_sim; [repeat split | |].
  - rewrite !py_index_of_nat, nth_error_firstn.
    destruct (j <? i)%nat eqn:E; [reflexivity | apply Nat.ltb_ge in E; lia].
  - intros p. apply level_parameters_expand; lia.
Qed.


End Cache.

Section Cache_runs.

Context {X : Externals}.


Lemma returned_link_uncached (Q : parameters) (s : simulation) :
  use_cache s = false ->
  returned_link Q s
  = match value (starting_link 0 None (p_gen (rest Q)) (w0 (rest Q)) (t_trunc Q) s) with
    | inl e => inl e
    | inr start =>
        link_of_loop
          (nested_loop (protocol Q) (rest Q) (rename_tau (rest Q)) 0
             (rename_tau (rest Q), start, cache s) s)
    end.
Proof.
  intros Hc. unfold returned_link, nested_protocol.
  rewrite bind_self, (bind_silent _ _ _ _ (lookup_cache_disabled Q s Hc)).
  cbn [fst snd]. unfold bind at 1.
  destruct (value (starting_link 0 None (p_gen (rest Q)) (w0 (rest Q)) (t_trunc Q) s))
    as [e | start]; [reflexivity |].
  cbn [value]. unfold bind, link_of_loop.
  destruct (value (nested_loop (protocol Q) (rest Q) (rename_tau (rest Q)) 0
                     (rename_tau (rest Q), start, cache s) s));
    reflexivity.
Qed.





End Cache_runs.

(** With memoization, parameters that cannot be hashed stop the call at
    the first lookup of [check_cache], whatever the protocol of at least
    one step. *)
Lemma memoized_run_needs_hashable_parameters {X : Externals} (Q : parameters)
    (s : simulation) (d : cutoff_dict_t) :
  use_cache s = true ->
  cutoff_dict (rest Q) = Some d ->
  protocol Q <> [] ->
  nested_protocol Q s = Outcome (throw (TypeError "unhashable type: 'dict'")) [].
Proof.
  intros Hc Hd Hne. unfold nested_protocol. rewrite bind_self.
  assert (Hl : lookup_cache Q s
               = Outcome (throw (TypeError "unhashable type: 'dict'")) []).
  { unfold lookup_cache, check_cache. rewrite bind_self, Hc.
    destruct (protocol Q) as [| t P] eqn:EP; [congruence |].
    cbn [length]. rewrite <- EP.
    now rewrite (check_cache_from_unhashable _ _ _ _ _ d Hd). }
  unfold bind. now rewrite Hl.
Qed.





(** The two preconditions are needed.  With the cut-offs grouped in a
    ["cutoff_dict"] the call with memoization raises at the first lookup,
    while the call without memoization returns. *)
Example memoized_run_refuses_cutoff_dict :
  @returned_link Exact.externals
    {| protocol := [TagInt 0]; t_trunc := 2; rest := grouped_cutoffs |}
    memoizing_simulation
  = throw (TypeError "unhashable type: 'dict'") /\
  @returned_link Exact.externals
    {| protocol := [TagInt 0]; t_trunc := 2; rest := grouped_cutoffs |}
    (without_cache memoizing_simulation)
  = ok ([zero; one], [zero; Fin (81 # 100)]).
Proof. split; vm_compute; reflexivity. Qed.

(** The entry stored for [mt_cut = 5] answers the call with
    [mt_cut = 5.0], which raises without memoization. *)
Example float_cutoff_is_answered_by_the_integer_entry :
  @returned_link Exact.externals
    {| protocol := [TagInt 0]; t_trunc := 2; rest := float_memory_cutoff |}
    integer_cutoff_cached
  = ok ([zero; one], [zero; Fin (81 # 100)]) /\
  @returned_link Exact.externals
    {| protocol := [TagInt 0]; t_trunc := 2; rest := float_memory_cutoff |}
    (without_cache integer_cutoff_cached)
  = throw (TypeError "Time cut-off must be an integer.") /\
  @cache_consistent Exact.externals integer_cutoff_cached
    (cache integer_cutoff_cached) /\
  identical_where_equal (cache integer_cutoff_cached) float_memory_cutoff = false.
Proof.
  split; [vm_compute; reflexivity |].
  split; [vm_compute; reflexivity |].
  split; [| vm_compute; reflexivity].
  intros h prefix v H. cbn [cache integer_cutoff_cached] in H.
  destruct H as [E | []]. injection E as <- <- <-.
  vm_compute. reflexivity.
Qed.

(** ** Shape and bounds of a unit's result *)

Section Shape.

Context {X : Externals}.

Lemma for_each_invariant {A S} (I : S -> Prop) (body : A -> S -> M S)
    (s : simulation) (xs : list A) :
  (forall x st st', I st -> value (body x st s) = ok st' -> I st') ->
  forall st st', I st -> value (for_each xs body st s) = ok st' -> I st'.
Proof.
  intros Hbody. induction xs as [| x xs IH]; intros st st' Hst H; simpl in H.
  - now injection H as <-.
  - apply bind_inr in H. destruct H as (st1 & H1 & H2).
    apply (IH st1 st'); [apply (Hbody x st st1 Hst H1) | exact H2].
Qed.

Lemma iadd_length (a b c : array) : iadd a b = ok c -> length c = length a.
Proof.
  unfold iadd. destruct (length b =? length a)%nat eqn:E.
  - intros H. injection H as <-. apply Nat.eqb_eq in E.
    rewrite length_map, length_combine. lia.
  - destruct b as [| x [| y b]]; try discriminate.
    intros H. injection H as <-. apply length_map.
Qed.

Lemma idiv_tail_length (a b c : array) :
  idiv_tail a b = ok c -> length c = length a.
Proof.
  unfold idiv_tail. destruct a as [| a0 a'].
  - destruct (tl b) as [| x [| y t]]; try discriminate;
      intros H; now injection H as <-.
  - destruct (length (tl b) =? length a')%nat eqn:E.
    + intros H. injection H as <-. apply Nat.eqb_eq in E. simpl.
      rewrite length_map, length_combine. lia.
    + destruct (tl b) as [| x [| y t]]; try discriminate.
      intros H. injection H as <-. simpl. now rewrite length_map.
Qed.

Lemma idiv_tail_head (a b c : array) :
  idiv_tail a b = ok c -> nth 0 c zero = nth 0 a zero.
Proof.
  unfold idiv_tail. destruct a as [| a0 a'].
  - destruct (tl b) as [| x [| y t]]; try discriminate;
      intros H; now injection H as <-.
  - destruct (length (tl b) =? length a')%nat.
    + intros H. now injection H as <-.
    + destruct (tl b) as [| x [| y t]]; try discriminate.
      intros H. now injection H as <-.
Qed.

Lemma slice_assign_same_length (src c : array) (n : nat) :
  length src = n -> slice_assign (np_zeros n) src = ok c -> length c = n.
Proof.
  intros H. rewrite slice_assign_full by exact H.
  intros E. now injection E as <-.
Qed.

Lemma direct_path_length (func convolved sum_convolved r : array) (trunc : nat)
    (p_swap : option num) (max_k : Z) (s : simulation) :
  value (direct_path func convolved sum_convolved trunc p_swap max_k s) = ok r ->
  length r = length sum_convolved.
Proof.
  unfold direct_path. intros H.
  apply bind_inr in H. destruct H as (zero_state & _ & H).
  apply bind_inr in H. destruct H as (st & Hloop & H).
  simpl in H. injection H as <-.
  apply (for_each_invariant
           (fun st : array * array => length (snd st) = length sum_convolved)
           _ _ _) with (st := (convolved ++ zero_state, sum_convolved)) in Hloop;
    [exact Hloop | | reflexivity].
  intros k [c sm] st' Hst Hb. unfold direct_body in Hb.
  apply bind_inr in Hb. destruct Hb as (c' & _ & Hb).
  apply bind_inr in Hb. destruct Hb as (sm' & Hadd & Hb).
  simpl in Hb. injection Hb as <-. simpl in *.
  now rewrite (iadd_length _ _ _ (lift_inr _ s _ Hadd)).
Qed.

Lemma pow2_log2_up_ge (n : Z) : 1 <= n -> n <= 2 ^ Z.log2_up n.
Proof.
  intros H. destruct (Z.eq_dec n 1) as [-> | Hn]; [reflexivity |].
  apply Z.log2_up_spec. lia.
Qed.

Lemma fft_shape_covers (s : simulation) (trunc : nat) (shape : Z) :
  padding_covers s trunc ->
  fft_shape (zero_padding_size s) trunc = ok shape ->
  Z.of_nat trunc <= shape.
Proof.
  unfold padding_covers, fft_shape.
  destruct (zero_padding_size s) as [n |].
  - intros H E. now injection E as <-.
  - intros _. destruct (trunc =? 0)%nat eqn:E0; [discriminate |].
    apply Nat.eqb_neq in E0. intros E.
    assert (Es : shape = 2 ^ Z.log2_up (2 * Z.of_nat trunc - 1))
      by (unfold ok in E; congruence).
    subst shape.
    assert (H1 : 1 <= 2 * Z.of_nat trunc - 1) by lia.
    pose proof (pow2_log2_up_ge (2 * Z.of_nat trunc - 1) H1) as H2.
    revert H2. generalize (2 ^ Z.log2_up (2 * Z.of_nat trunc - 1)).
    intros P H2. lia.
Qed.

Lemma fft_path_length (func convolved r : array) (trunc : nat)
    (p_swap : option num) (s : simulation) :
  transforms_keep_length X -> padding_covers s trunc ->
  value (fft_path func convolved trunc p_swap s) = ok r ->
  length r = trunc.
Proof.
  intros [Hfft Hifft] Hpad. unfold fft_path. rewrite bind_self. intros H.
  apply bind_inr in H. destruct H as (shape & Hs & H).
  apply bind_inr in H. destruct H as (cf & Hc & H).
  apply bind_inr in H. destruct H as (ff & Hf & H).
  apply bind_inr in H. destruct H as (padded & Hi & H).
  apply bind_inr in H. destruct H as (last_term & _ & H).
  apply bind_inr in H. destruct H as (u & _ & H).
  cbv [ret value ok] in H. injection H as <-.
  pose proof (fft_shape_covers s trunc shape Hpad (lift_inr _ s _ Hs)) as Hcov.
  rewrite length_map, length_firstn.
  rewrite (Hifft _ _ (lift_inr _ s _ Hi)), length_map, length_combine.
  rewrite (Hfft _ _ _ (lift_inr _ s _ Hc)), (Hfft _ _ _ (lift_inr _ s _ Hf)).
  lia.
Qed.

Lemma row_assign_length (trunc : nat) (src r : array) :
  row_assign trunc src = ok r -> length r = trunc.
Proof.
  unfold row_assign. destruct (length src =? trunc)%nat eqn:E.
  - intros H. apply ok_inj in H. subst r. now apply Nat.eqb_eq.
  - destruct src as [| x [| y src]]; try discriminate.
    intros H. apply ok_inj in H. subst r. apply repeat_length.
Qed.

Lemma row_assign_same (trunc : nat) (src : array) :
  length src = trunc -> row_assign trunc src = ok src.
Proof. intros H. unfold row_assign. now rewrite (proj2 (Nat.eqb_eq _ _) H). Qed.

(** A call that returns has run the helper on arrays of one length and
    written its array into the buffer. *)
Lemma iterative_convolution_returned (func : array) (shift : Z)
    (first_func : option array) (p_swap : option num) (s : simulation) (r : array) :
  value (iterative_convolution func shift first_func p_swap s) = ok r ->
  exists max_k row,
    length (match first_func with Some g => g | None => func end) = length func /\
    value (iterative_convolution_helper func
             (match first_func with Some g => g | None => func end)
             (length func) shift p_swap max_k s) = ok row /\
    row_assign (length func) row = ok r.
Proof.
  unfold iterative_convolution. intros H.
  apply bind_inr in H. destruct H as (max_k & _ & H).
  match type of H with
  | value ((if ?b then _ else _) _) = _ => destruct b eqn:El; [| discriminate]
  end.
  apply Nat.eqb_eq in El.
  apply bind_inr in H. destruct H as (row & Hrow & H).
  exists max_k, row. split; [exact El |]. split; [exact Hrow |].
  exact (lift_inr _ s _ H).
Qed.

Lemma helper_direct_length (func first_func : array) (trunc : nat) (shift : Z)
    (p_swap : option num) (max_k : Z) (s : simulation) (row : array) :
  use_fft s = false ->
  length first_func = trunc ->
  value (iterative_convolution_helper func first_func trunc shift p_swap max_k s)
  = ok row ->
  length row = trunc.
Proof.
  intros Eu El H. unfold iterative_convolution_helper in H.
  apply bind_inr in H. destruct H as (sum_convolved & Hsum & H).
  apply bind_inr in H. destruct H as (func' & _ & H).
  rewrite bind_self, Eu in H.
  rewrite (direct_path_length _ _ _ _ _ _ _ _ H).
  apply (slice_assign_same_length
           (match p_swap with
            | Some p => scale p first_func
            | None => first_func
            end) sum_convolved trunc).
  - destruct p_swap; [unfold scale; rewrite length_map |]; exact El.
  - exact (lift_inr _ s _ Hsum).
Qed.

(** On the direct path the buffer receives an array of its own length:
    the call returns what the helper returns. *)
Lemma iterative_convolution_direct (func : array) (shift : Z)
    (first_func : option array) (p_swap : option num) (s : simulation) (r : array) :
  use_fft s = false ->
  value (iterative_convolution func shift first_func p_swap s) = ok r ->
  exists max_k,
    length (match first_func with Some g => g | None => func end) = length func /\
    value (iterative_convolution_helper func
             (match first_func with Some g => g | None => func end)
             (length func) shift p_swap max_k s) = ok r.
Proof.
  intros Eu H.
  destruct (iterative_convolution_returned _ _ _ _ _ _ H)
    as (max_k & row & El & Hrow & Ha).
  exists max_k. split; [exact El |].
  rewrite (row_assign_same _ _ (helper_direct_length _ _ _ _ _ _ _ _ Eu El Hrow)) in Ha.
  apply ok_inj in Ha. now subst r.
Qed.

(** The result of the iterative convolution has the length of [func]:
    it is a row of the buffer. *)
Lemma iterative_convolution_buffer_length (func : array) (shift : Z)
    (first_func : option array) (p_swap : option num) (s : simulation) (r : array) :
  value (iterative_convolution func shift first_func p_swap s) = ok r ->
  length r = length func.
Proof.
  intros H.
  destruct (iterative_convolution_returned _ _ _ _ _ _ H)
    as (max_k & row & _ & _ & Ha).
  exact (row_assign_length _ _ _ Ha).
Qed.

Lemma iterative_convolution_length (func : array) (shift : Z)
    (first_func : option array) (p_swap : option num) (s : simulation) (r : array) :
  (use_fft s = true ->
   transforms_keep_length X /\ padding_covers s (length func)) ->
  value (iterative_convolution func shift first_func p_swap s) = ok r ->
  length r = length func.
Proof. intros _. apply iterative_convolution_buffer_length. Qed.

Lemma call_join_links_length (b : bool) (pmf1 pmf2 w1 w2 : array) (ycut : bool)
    (cutoff : cut_spec) (cut_type ev : string) (t_coh : scalar_or_seq num)
    (s : simulation) (out : array) :
  kernels_keep_length X ->
  value (call_join_links b pmf1 pmf2 w1 w2 ycut cutoff cut_type ev t_coh s) = ok out ->
  length out = length pmf1.
Proof.
  intros [He Hc]. unfold call_join_links. destruct b; intros H;
    apply bind_inr in H; destruct H as (_ & _ & H);
    [eapply He | eapply Hc]; exact (lift_inr _ s _ H).
Qed.

End Shape.

Section Shape_units.

Context {X : Externals}.

Lemma padding_covers_length (s : simulation) (a b : array) :
  length a = length b ->
  (use_fft s = true -> transforms_keep_length X /\ padding_covers s (length b)) ->
  use_fft s = true -> transforms_keep_length X /\ padding_covers s (length a).
Proof. intros ->. exact (fun H => H). Qed.

(** The arrays of a unit are rows of the buffer of the iterative
    convolution: they have the length of what the kernels return. *)
Lemma entanglement_swap_samples (pmf1 w1 pmf2 w2 : array) (p_swap : num)
    (cutoff : cut_spec) (t_coh : scalar_or_seq num) (cut_type : string)
    (s : simulation) (pmf w : array) :
  kernels_keep_length X ->
  value (entanglement_swap pmf1 w1 pmf2 w2 p_swap cutoff t_coh cut_type s) = ok (pmf, w) ->
  length pmf = length pmf1 /\ length w = length pmf1.
Proof.
  intros Hk. unfold entanglement_swap. rewrite bind_self. intros H.
  apply bind_inr in H. destruct H as (shift & _ & H).
  apply bind_inr in H. destruct H as (pf_cutoff & Hpf & H).
  apply bind_inr in H. destruct H as (ps_cutoff & _ & H).
  apply bind_inr in H. destruct H as (pmf_cutoff & Hpc & H).
  apply bind_inr in H. destruct H as (pmf_swap & Hps & H).
  apply bind_inr in H. destruct H as (state_suc & _ & H).
  apply bind_inr in H. destruct H as (state_prep & _ & H).
  apply bind_inr in H. destruct H as (state_out & Hso & H).
  apply bind_inr in H. destruct H as (state_out' & Hdiv & H).
  cbv [ret value ok] in H. injection H as <- <-.
  pose proof (call_join_links_length _ _ _ _ _ _ _ _ _ _ _ _ Hk Hpf) as L1.
  pose proof (iterative_convolution_buffer_length _ _ _ _ _ _ Hpc) as L2.
  rewrite L1 in L2.
  pose proof (iterative_convolution_buffer_length _ _ _ _ _ _ Hps) as L3.
  pose proof (iterative_convolution_buffer_length _ _ _ _ _ _ Hso) as L4.
  split; [congruence |].
  unfold nan_to_one. rewrite length_map.
  rewrite (idiv_tail_length _ _ _ (lift_inr _ s _ Hdiv)). congruence.
Qed.

Lemma destillation_samples (pmf1 w1 pmf2 w2 : array)
    (cutoff : cut_spec) (t_coh : scalar_or_seq num) (cut_type : string)
    (s : simulation) (pmf w : array) :
  kernels_keep_length X ->
  value (destillation pmf1 w1 pmf2 w2 cutoff t_coh cut_type s) = ok (pmf, w) ->
  length pmf = length pmf1 /\ length w = length pmf1.
Proof.
  intros Hk. unfold destillation. rewrite bind_self. intros H.
  apply bind_inr in H. destruct H as (shift & _ & H).
  apply bind_inr in H. destruct H as (pf_cutoff & Hpf & H).
  apply bind_inr in H. destruct H as (pss_cutoff & _ & H).
  apply bind_inr in H. destruct H as (ps_dist & _ & H).
  apply bind_inr in H. destruct H as (psf_cutoff & _ & H).
  apply bind_inr in H. destruct H as (pf_dist & Hpd & H).
  apply bind_inr in H. destruct H as (pmf_dist & Hpm & H).
  apply bind_inr in H. destruct H as (state_suc & _ & H).
  apply bind_inr in H. destruct H as (state_prep & _ & H).
  apply bind_inr in H. destruct H as (state_out & Hso & H).
  apply bind_inr in H. destruct H as (state_out' & Hdiv & H).
  cbv [ret value ok] in H. injection H as <- <-.
  pose proof (call_join_links_length _ _ _ _ _ _ _ _ _ _ _ _ Hk Hpf) as L1.
  pose proof (iterative_convolution_buffer_length _ _ _ _ _ _ Hpd) as L2.
  rewrite L1 in L2.
  pose proof (iterative_convolution_buffer_length _ _ _ _ _ _ Hpm) as L3.
  pose proof (iterative_convolution_buffer_length _ _ _ _ _ _ Hso) as L4.
  split; [congruence |].
  unfold nan_to_one. rewrite length_map.
  rewrite (idiv_tail_length _ _ _ (lift_inr _ s _ Hdiv)). congruence.
Qed.

Lemma entanglement_swap_length (pmf1 w1 pmf2 w2 : array) (p_swap : num)
    (cutoff : cut_spec) (t_coh : scalar_or_seq num) (cut_type : string)
    (s : simulation) (pmf w : array) :
  kernels_keep_length X ->
  (use_fft s = true -> transforms_keep_length X /\ padding_covers s (length pmf1)) ->
  value (entanglement_swap pmf1 w1 pmf2 w2 p_swap cutoff t_coh cut_type s) = ok (pmf, w) ->
  length pmf = length pmf1 /\ length w = length pmf1.
Proof. intros Hk _. now apply entanglement_swap_samples. Qed.

Lemma destillation_length (pmf1 w1 pmf2 w2 : array)
    (cutoff : cut_spec) (t_coh : scalar_or_seq num) (cut_type : string)
    (s : simulation) (pmf w : array) :
  kernels_keep_length X ->
  (use_fft s = true -> transforms_keep_length X /\ padding_covers s (length pmf1)) ->
  value (destillation pmf1 w1 pmf2 w2 cutoff t_coh cut_type s) = ok (pmf, w) ->
  length pmf = length pmf1 /\ length w = length pmf1.
Proof. intros Hk _. now apply destillation_samples. Qed.

(** After the scrub of [nan] and the two clips every sample lies in
    [[0, 1]]. *)
Lemma clip_in_unit_interval (x : num) :
  in_unit_interval
    ((fun y => if (y <? zero)%num then zero else y)
       ((fun y => if (one <? y)%num then one else y)
          (if isnan x then one else x))).
Proof.
  unfold in_unit_interval.
  destruct x as [q | | |]; try (split; reflexivity).
  cbn [isnan]. unfold Num.ltb, Num.leb, one, zero, qltb, qleb.
  destruct (Qcompare 1 q) eqn:C1; try (split; reflexivity);
    destruct (Qcompare q 0) eqn:C0; try (split; reflexivity);
    rewrite <- (Qcompare_antisym q 0), C0, <- (Qcompare_antisym 1 q), C1;
    split; reflexivity.
Qed.

Lemma clip01_in_unit_interval (w : array) :
  Forall in_unit_interval (clip01 (nan_to_one w)).
Proof.
  unfold clip01, nan_to_one. rewrite !map_map.
  apply Forall_forall. intros y Hy. apply in_map_iff in Hy.
  destruct Hy as (x & <- & _). apply clip_in_unit_interval.
Qed.

End Shape_units.

(** ** Sample 0 on the direct path *)

Section Head.

Context {X : Externals}.

Lemma mul_zero_r (x : num) : isfinite x = true -> (x * zero)%num = zero.
Proof.
  destruct x as [q | | |]; try discriminate. intros _.
  unfold Num.mul, zero. f_equal.
  rewrite (Qred_complete (q * 0) 0) by apply Qmult_0_r. reflexivity.
Qed.

Lemma isfinite_mul (x y : num) :
  isfinite x = true -> isfinite y = true -> isfinite (x * y)%num = true.
Proof. destruct x, y; try discriminate; reflexivity. Qed.

Lemma isfinite_sub (x y : num) :
  isfinite x = true -> isfinite y = true -> isfinite (x - y)%num = true.
Proof. destruct x, y; try discriminate; reflexivity. Qed.

Lemma isfinite_pow (x : num) (n : nat) :
  isfinite x = true -> isfinite (x ** n)%num = true.
Proof.
  intros H. induction n as [| n IH]; [reflexivity |].
  simpl. now apply isfinite_mul.
Qed.

Lemma nth_0_of_nth_error (a : array) (x : num) :
  nth 0 a zero = zero -> nth_error a 0 = Some x -> x = zero.
Proof. destruct a as [| y a]; simpl; [discriminate | congruence]. Qed.

Lemma conv_at_head (a v : array) :
  nth 0 a zero = zero -> nth 0 v zero = zero -> conv_at a v 0 = zero.
Proof.
  intros Ha Hv. destruct a as [| x a], v as [| y v]; try reflexivity.
  simpl in Ha, Hv. subst x y. reflexivity.
Qed.

Lemma nth_0_map_seq (f : nat -> num) (n : nat) :
  f O = zero -> nth 0 (map f (seq 0 n)) zero = zero.
Proof. destruct n; simpl; auto. Qed.

Lemma conv_power_head (g f : array) (k : nat) :
  nth 0 g zero = zero -> nth 0 f zero = zero ->
  nth 0 (conv_power g f k) zero = zero.
Proof.
  intros Hg Hf. induction k as [| k IH]; [exact Hg |].
  simpl. unfold conv_full. apply nth_0_map_seq. now apply conv_at_head.
Qed.

Lemma weigh_zero (p_swap : option num) (k : nat) :
  match p_swap with Some p => isfinite p = true | None => True end ->
  weigh p_swap k zero = zero.
Proof.
  destruct p_swap as [p |]; [| reflexivity]. intros Hp.
  unfold weigh, coeff_source. apply mul_zero_r.
  apply isfinite_mul; [exact Hp |].
  apply isfinite_pow. now apply isfinite_sub.
Qed.

Lemma series_gen_head (p_swap : option num) (first g f : array) (K : nat) :
  match p_swap with Some p => isfinite p = true | None => True end ->
  nth 0 first zero = zero -> nth 0 g zero = zero -> nth 0 f zero = zero ->
  series_gen p_swap first g f K 0 = zero.
Proof.
  intros Hp H1 Hg Hf. unfold series_gen. rewrite H1.
  generalize 1%nat. induction K as [| K IH]; intros a; simpl; [reflexivity |].
  rewrite (conv_power_head g f a Hg Hf), (weigh_zero p_swap a Hp).
  apply IH.
Qed.

Lemma scale_head (p : num) (g : array) :
  isfinite p = true -> nth 0 g zero = zero -> nth 0 (scale p g) zero = zero.
Proof.
  intros Hp Hg. destruct g as [| x g]; [reflexivity |].
  simpl in *. subst x. now apply mul_zero_r.
Qed.

Lemma shift_func_head (func f' : array) (trunc : nat) (shift : Z) :
  nth 0 func zero = zero ->
  shift_func func trunc shift = ok f' -> nth 0 f' zero = zero.
Proof.
  intros Hf. unfold shift_func.
  destruct (shift <=? Z.of_nat trunc); [| now intros E; injection E as <-].
  unfold np_zeros_Z. destruct (shift <? 0); [discriminate |].
  simpl. intros E. injection E as <-.
  destruct trunc as [| trunc]; [reflexivity |].
  rewrite nth_shifted by lia.
  destruct (0 <? Z.to_nat shift)%nat; [reflexivity | exact Hf].
Qed.

(** Sample 0 of the iterative convolution on the direct path. *)
Lemma iterative_convolution_head (func : array) (shift : Z)
    (first_func : option array) (p_swap : option num) (s : simulation) (r : array) :
  use_fft s = false ->
  match p_swap with Some p => isfinite p = true | None => True end ->
  nth 0 func zero = zero ->
  nth 0 (match first_func with Some g => g | None => func end) zero = zero ->
  value (iterative_convolution func shift first_func p_swap s) = ok r ->
  nth 0 r zero = zero.
Proof.
  intros Hu Hp Hf Hg H.
  pose proof (iterative_convolution_length func shift first_func p_swap s r
                ltac:(congruence) H) as Lr.
  destruct (iterative_convolution_direct _ _ _ _ _ _ Hu H) as (max_k & El & H').
  clear H. rename H' into H.
  set (g := match first_func with Some g => g | None => func end) in *.
  destruct (length func) as [| n] eqn:Ln.
  { destruct r; [reflexivity | discriminate]. }
  destruct (Z_lt_ge_dec shift 0) as [Hneg | Hpos].
  { exfalso. unfold iterative_convolution_helper in H.
    apply bind_inr in H. destruct H as (sm & _ & H).
    apply bind_inr in H. destruct H as (f' & Hsh & _).
    apply lift_inr in Hsh. unfold shift_func in Hsh.
    destruct (shift <=? Z.of_nat (S n)) eqn:E; [| apply Z.leb_gt in E; lia].
    unfold np_zeros_Z in Hsh.
    destruct (shift <? 0) eqn:E0; [discriminate | apply Z.ltb_ge in E0; lia]. }
  destruct (direct_helper_series func g (S n) shift p_swap max_k s Hu
              ltac:(lia) Ln El ltac:(lia))
    as (f' & r' & Hsh & Hr & _ & Hseries).
  rewrite Hr in H. cbv [value ok] in H. injection H as <-.
  rewrite Hseries by lia.
  apply series_gen_head; try assumption.
  - destruct p_swap as [p |]; [now apply scale_head | exact Hg].
  - now apply (shift_func_head func f' (S n) shift).
Qed.

Lemma call_join_links_head (b : bool) (pmf1 pmf2 w1 w2 : array) (ycut : bool)
    (cutoff : cut_spec) (cut_type ev : string) (t_coh : scalar_or_seq num)
    (s : simulation) (out : array) :
  starts_at_zero join_links_efficient pmf1 pmf2 w1 w2 cutoff cut_type t_coh /\
  starts_at_zero join_links_compatible pmf1 pmf2 w1 w2 cutoff cut_type t_coh ->
  nth 0 pmf1 zero = zero -> nth 0 pmf2 zero = zero ->
  value (call_join_links b pmf1 pmf2 w1 w2 ycut cutoff cut_type ev t_coh s) = ok out ->
  nth 0 out zero = zero.
Proof.
  intros [He Hc] H1 H2. unfold call_join_links. destruct b; intros H;
    apply bind_inr in H; destruct H as (_ & _ & H);
    [eapply He | eapply Hc]; try exact (lift_inr _ s _ H); assumption.
Qed.

Lemma entanglement_swap_head (pmf1 w1 pmf2 w2 : array) (p_swap : num)
    (cutoff : cut_spec) (t_coh : scalar_or_seq num) (cut_type : string)
    (s : simulation) (pmf w : array) :
  use_fft s = false ->
  starts_at_zero join_links_efficient pmf1 pmf2 w1 w2 cutoff cut_type t_coh /\
  starts_at_zero join_links_compatible pmf1 pmf2 w1 w2 cutoff cut_type t_coh ->
  isfinite p_swap = true ->
  nth 0 pmf1 zero = zero -> nth 0 pmf2 zero = zero ->
  value (entanglement_swap pmf1 w1 pmf2 w2 p_swap cutoff t_coh cut_type s) = ok (pmf, w) ->
  nth 0 pmf zero = zero /\ nth 0 w zero = zero.
Proof.
  intros Hu Hk Hp Hh1 Hh2. unfold entanglement_swap. rewrite bind_self. intros H.
  apply bind_inr in H. destruct H as (shift & _ & H).
  apply bind_inr in H. destruct H as (pf_cutoff & Hpf & H).
  apply bind_inr in H. destruct H as (ps_cutoff & Hps & H).
  apply bind_inr in H. destruct H as (pmf_cutoff & Hpc & H).
  apply bind_inr in H. destruct H as (pmf_swap & Hsw & H).
  apply bind_inr in H. destruct H as (state_suc & Hss & H).
  apply bind_inr in H. destruct H as (state_prep & Hsp & H).
  apply bind_inr in H. destruct H as (state_out & Hso & H).
  apply bind_inr in H. destruct H as (state_out' & Hdiv & H).
  cbv [ret value ok] in H. injection H as <- <-.
  pose proof (call_join_links_head _ _ _ _ _ _ _ _ _ _ _ _ Hk Hh1 Hh2 Hpf) as Z1.
  pose proof (call_join_links_head _ _ _ _ _ _ _ _ _ _ _ _ Hk Hh1 Hh2 Hps) as Z2.
  pose proof (call_join_links_head _ _ _ _ _ _ _ _ _ _ _ _ Hk Hh1 Hh2 Hss) as Z3.
  pose proof (iterative_convolution_head _ _ (Some ps_cutoff) None _ _ Hu I Z1 Z2 Hpc) as Z4.
  pose proof (iterative_convolution_head _ _ None (Some p_swap) _ _ Hu Hp Z4 Z4 Hsw) as Z5.
  pose proof (iterative_convolution_head _ _ (Some state_suc) None _ _ Hu I Z1 Z3 Hsp) as Z6.
  pose proof (iterative_convolution_head _ _ (Some state_prep) (Some p_swap) _ _ Hu Hp Z4 Z6 Hso) as Z7.
  split; [exact Z5 |].
  pose proof (idiv_tail_head _ _ _ (lift_inr _ s _ Hdiv)) as Z8.
  rewrite Z7 in Z8. unfold nan_to_one.
  destruct state_out' as [| x t]; [reflexivity |].
  simpl in *. now subst x.
Qed.

Lemma destillation_head (pmf1 w1 pmf2 w2 : array)
    (cutoff : cut_spec) (t_coh : scalar_or_seq num) (cut_type : string)
    (s : simulation) (pmf w : array) :
  use_fft s = false ->
  starts_at_zero join_links_efficient pmf1 pmf2 w1 w2 cutoff cut_type t_coh /\
  starts_at_zero join_links_compatible pmf1 pmf2 w1 w2 cutoff cut_type t_coh ->
  nth 0 pmf1 zero = zero -> nth 0 pmf2 zero = zero ->
  value (destillation pmf1 w1 pmf2 w2 cutoff t_coh cut_type s) = ok (pmf, w) ->
  nth 0 pmf zero = zero /\ nth 0 w zero = zero.
Proof.
  intros Hu Hk Hh1 Hh2. unfold destillation. rewrite bind_self. intros H.
  apply bind_inr in H. destruct H as (shift & _ & H).
  apply bind_inr in H. destruct H as (pf_cutoff & Hpf & H).
  apply bind_inr in H. destruct H as (pss_cutoff & Hpss & H).
  apply bind_inr in H. destruct H as (ps_dist & Hpsd & H).
  apply bind_inr in H. destruct H as (psf_cutoff & Hpsf & H).
  apply bind_inr in H. destruct H as (pf_dist & Hpfd & H).
  apply bind_inr in H. destruct H as (pmf_dist & Hpm & H).
  apply bind_inr in H. destruct H as (state_suc & Hss & H).
  apply bind_inr in H. destruct H as (state_prep & Hsp & H).
  apply bind_inr in H. destruct H as (state_out & Hso & H).
  apply bind_inr in H. destruct H as (state_out' & Hdiv & H).
  cbv [ret value ok] in H. injection H as <- <-.
  pose proof (call_join_links_head _ _ _ _ _ _ _ _ _ _ _ _ Hk Hh1 Hh2 Hpf) as Z1.
  pose proof (call_join_links_head _ _ _ _ _ _ _ _ _ _ _ _ Hk Hh1 Hh2 Hpss) as Z2.
  pose proof (call_join_links_head _ _ _ _ _ _ _ _ _ _ _ _ Hk Hh1 Hh2 Hpsf) as Z3.
  pose proof (call_join_links_head _ _ _ _ _ _ _ _ _ _ _ _ Hk Hh1 Hh2 Hss) as Z4.
  pose proof (iterative_convolution_head _ _ (Some pss_cutoff) None _ _ Hu I Z1 Z2 Hpsd) as Z5.
  pose proof (iterative_convolution_head _ _ (Some psf_cutoff) None _ _ Hu I Z1 Z3 Hpfd) as Z6.
  pose proof (iterative_convolution_head _ _ (Some ps_dist) None _ _ Hu I Z6 Z5 Hpm) as Z7.
  pose proof (iterative_convolution_head _ _ (Some state_suc) None _ _ Hu I Z1 Z4 Hsp) as Z8.
  pose proof (iterative_convolution_head _ _ (Some state_prep) None _ _ Hu I Z6 Z8 Hso) as Z9.
  split; [exact Z7 |].
  pose proof (idiv_tail_head _ _ _ (lift_inr _ s _ Hdiv)) as Z10.
  rewrite Z9 in Z10. unfold nan_to_one.
  destruct state_out' as [| x t]; [reflexivity |].
  simpl in *. now subst x.
Qed.

End Head.

(** ** The exact instance meets the assumptions on lengths *)

Lemma exact_kernels_keep_length : kernels_keep_length Exact.externals.
Proof.
  assert (H : keeps_length Exact.join_links).
  { intros pmf1 pmf2 w1 w2 ycut cutoff cut_type ev t_coh out.
    unfold Exact.join_links.
    destruct cutoff as [[mt | x] | vs], t_coh as [t | ts]; try discriminate.
    destruct (negb (String.eqb cut_type "memory_time")); [discriminate |].
    destruct (negb (String.eqb ev "1" || String.eqb ev "w1w2")); [discriminate |].
    intros E. apply ok_inj in E. rewrite <- E.
    now rewrite length_map, length_seq. }
  split; exact H.
Qed.

Lemma exact_transforms_keep_length : transforms_keep_length Exact.externals.
Proof.
  split.
  - intros a n r. simpl. unfold Exact.fft.
    destruct (n <? 1); [discriminate |].
    destruct (Exact.exact_size (Z.to_nat n)); [| discriminate].
    intros E. apply ok_inj in E. rewrite <- E. unfold Exact.dft.
    now rewrite length_map, length_seq.
  - intros a r. simpl. unfold Exact.ifft.
    destruct a as [| z a]; [discriminate |].
    destruct (Exact.exact_size (length (z :: a))); [| discriminate].
    intros E. apply ok_inj in E. rewrite <- E. unfold Exact.dft.
    now rewrite !length_map, length_seq.
Qed.

(** The exact kernel on the inputs of the swap of two certain links:
    whatever is evaluated, sample 0 is 0. *)
Lemma exact_join_links_tag (pmf1 pmf2 w1 w2 : array) (ycut : bool) (mt : Z)
    (t : num) (ev : string) (out : array) :
  Exact.join_links pmf1 pmf2 w1 w2 ycut (Scalar (PyInt mt)) "memory_time" ev
    (Scalar t) = ok out ->
  ev = "1"%string \/ ev = "w1w2"%string.
Proof.
  unfold Exact.join_links.
  change (negb (String.eqb "memory_time" "memory_time")) with false. cbv iota.
  destruct (String.eqb ev "1") eqn:E1; [left; now apply String.eqb_eq |].
  destruct (String.eqb ev "w1w2") eqn:E2; [right; now apply String.eqb_eq |].
  discriminate.
Qed.

Lemma exact_kernels_start_at_zero :
  kernels_start_at_zero Exact.externals certain_swap
    (fst certain_link) (snd certain_link) None None.
Proof.
  assert (H : starts_at_zero Exact.join_links
                (fst certain_link) (fst certain_link)
                (snd certain_link) (snd certain_link)
                (Scalar (PyInt iinfo_int_max)) "memory_time" (Scalar PInf)).
  { intros ycut ev out _ _ E.
    destruct (exact_join_links_tag _ _ _ _ _ _ _ _ _ E) as [-> | ->];
      destruct ycut; vm_compute in E; apply ok_inj in E; subst out; reflexivity. }
  split; exact H.
Qed.

(** C1 (as the code has it).  When [compute_unit] returns, for kernels that
    return one sample per input sample, both arrays have the length of the
    inputs (they are rows of the buffer of the iterative convolution) and
    every sample of [w] lies in [[0, 1]].  Sample 0 of [w] is not set to 1:
    it is never divided, only scrubbed and clipped.  On the direct path,
    for inputs with [pmf[0] = 0], kernels that then have sample 0 equal to
    0 on the arguments of the call, and a finite [p_swap], sample 0 of
    both results is 0. *)
Theorem unit_result_shape_and_bounds :
  forall (X : Externals) (s : simulation) (parameters : settings)
         (pmf1 w_func1 : array) (pmf2 w_func2 : option array)
         (unit_kind : string) (pmf w_func : array),
    value (compute_unit parameters pmf1 w_func1 pmf2 w_func2 unit_kind s)
    = ok (pmf, w_func) ->
    kernels_keep_length X ->
    length pmf = length pmf1 /\
    length w_func = length pmf1 /\
    Forall in_unit_interval w_func /\
    (use_fft s = false ->
     kernels_start_at_zero X parameters pmf1 w_func1 pmf2 w_func2 ->
     isfinite (p_swap parameters) = true ->
     nth 0 pmf1 zero = zero ->
     nth 0 (get_or pmf2 pmf1) zero = zero ->
     (1 <= length pmf1)%nat ->
     nth_error pmf 0 = Some zero /\ nth_error w_func 0 = Some zero).
Proof.
  intros X s parameters pmf1 w1 pmf2 w2 unit_kind pmf w H Hk.
  unfold compute_unit in H.
  apply bind_inr in H. destruct H as (u & _ & H).
  apply bind_inr in H. destruct H as ([pmf0 w0'] & Hunit & H).
  apply bind_inr in H. destruct H as (u' & _ & H).
  cbv [ret value ok] in H. injection H as <- <-.
  assert (Hlen : length pmf0 = length pmf1 /\ length w0' = length pmf1).
  { destruct (String.eqb unit_kind "swap");
      [now apply (entanglement_swap_samples _ _ _ _ _ _ _ _ _ _ _ Hk Hunit) |].
    destruct (String.eqb unit_kind "dist");
      [now apply (destillation_samples _ _ _ _ _ _ _ _ _ _ Hk Hunit) |].
    discriminate. }
  destruct Hlen as [Lp Lw].
  split; [exact Lp |]. split; [| split].
  - unfold clip01, nan_to_one. now rewrite !length_map.
  - apply clip01_in_unit_interval.
  - intros Hu Hz Hp Hh1 Hh2 HT.
    assert (Hhead : nth 0 pmf0 zero = zero /\ nth 0 w0' zero = zero).
    { destruct (String.eqb unit_kind "swap");
        [now apply (entanglement_swap_head _ _ _ _ _ _ _ _ _ _ _
                      Hu Hz Hp Hh1 Hh2 Hunit) |].
      destruct (String.eqb unit_kind "dist");
        [now apply (destillation_head _ _ _ _ _ _ _ _ _ _
                      Hu Hz Hh1 Hh2 Hunit) |].
      discriminate. }
    destruct Hhead as [Zp Zw].
    destruct pmf0 as [| x pmf0]; [simpl in Lp; lia |].
    destruct w0' as [| y w0']; [simpl in Lw; lia |].
    simpl in Zp, Zw. subst x y. split; reflexivity.
Qed.

(** The swap of two elementary links with [p_gen = 1], [p_swap = 1] and
    [w0 = 0.9] at [t_trunc = 2], on the Fourier path of a new simulator
    and on the direct path: two samples each, [w] in [[0, 1]], and on the
    direct path sample 0 of both arrays is 0. *)
Lemma unit_result_shape_and_bounds_example :
  (value (@compute_unit Exact.externals certain_swap
            (fst certain_link) (snd certain_link) None None "swap"
            (new_simulation false))
   = ok certain_link_swapped /\
   length (fst certain_link_swapped) = 2%nat /\
   length (snd certain_link_swapped) = 2%nat /\
   Forall in_unit_interval (snd certain_link_swapped))
  /\
  (value (@compute_unit Exact.externals certain_swap
            (fst certain_link) (snd certain_link) None None "swap"
            direct_simulation)
   = ok certain_link_swapped /\
   length (fst certain_link_swapped) = 2%nat /\
   length (snd certain_link_swapped) = 2%nat /\
   Forall in_unit_interval (snd certain_link_swapped) /\
   nth_error (fst certain_link_swapped) 0 = Some zero /\
   nth_error (snd certain_link_swapped) 0 = Some zero).
Proof.
  split.
  - split; [vm_compute; reflexivity |].
    destruct (unit_result_shape_and_bounds Exact.externals (new_simulation false)
                certain_swap (fst certain_link) (snd certain_link) None None
                "swap" (fst certain_link_swapped) (snd certain_link_swapped)
                ltac:(vm_compute; reflexivity) exact_kernels_keep_length)
      as (L1 & L2 & Hw & _).
    split; [exact L1 |]. split; [exact L2 | exact Hw].
  - split; [vm_compute; reflexivity |].
    destruct (unit_result_shape_and_bounds Exact.externals direct_simulation
                certain_swap (fst certain_link) (snd certain_link) None None
                "swap" (fst certain_link_swapped) (snd certain_link_swapped)
                ltac:(vm_compute; reflexivity) exact_kernels_keep_length)
      as (L1 & L2 & Hw & Hhead).
    split; [exact L1 |]. split; [exact L2 |]. split; [exact Hw |].
    apply Hhead.
    + reflexivity.
    + exact exact_kernels_start_at_zero.
    + reflexivity.
    + reflexivity.
    + reflexivity.
    + simpl. lia.
Defined.

(** C1, the claim as stated: the swap of two elementary links with
    [p_gen = 1], [p_swap = 1] and [w0 = 0.9] at [t_trunc = 2], on a fresh
    simulator, returns [w = [0, 0.81]]: sample 0 of [w] is 0, not 1. *)
Lemma unit_result_w0_is_not_one :
  value (@compute_unit Exact.externals certain_swap
           [zero; one] [Fin (9 # 10); Fin (9 # 10)] None None "swap"
           (new_simulation false))
  = ok ([zero; one], [zero; Fin (81 # 100)]) /\
  nth 0 [zero; Fin (81 # 100)] NaN <> one.
Proof. split; [vm_compute; reflexivity | discriminate]. Qed.

(** On the FFT path sample 0 of the result is a circular sum: with one
    entry [1/4] at [t = 1] and [p_swap = 1/2] the series [(1/8)^m] at
    [t = m] wraps around the padded size 4 and leaves [1/4095] at
    [t = 0]. *)
Example fft_path_wraps_into_sample_0 :
  @iterative_convolution_helper Exact.externals
    [zero; Fin (1 # 4)] [zero; Fin (1 # 4)] 2 0 (Some (Fin (1 # 2))) 2
    (new_simulation false)
  = Outcome (ok [Fin (1 # 4095); Fin (512 # 4095)])
      [warning_zero_padding 4 (Fin (8 # 4095), zero)].
Proof. vm_compute. reflexivity. Qed.

(** ** The cache stays consistent *)

Section Cache_invariant.

Context {X : Externals}.

Lemma compute_unit_length (parameters : settings) (pmf1 w1 : array)
    (pmf2 w2 : option array) (unit_kind : string) (s : simulation)
    (pmf w : array) :
  kernels_keep_length X ->
  (use_fft s = true -> transforms_keep_length X /\ padding_covers s (length pmf1)) ->
  value (compute_unit parameters pmf1 w1 pmf2 w2 unit_kind s) = ok (pmf, w) ->
  length pmf = length pmf1.
Proof.
  intros Hk Hfft H. unfold compute_unit in H.
  apply bind_inr in H. destruct H as (u & _ & H).
  apply bind_inr in H. destruct H as ([pmf0 w0'] & Hunit & H).
  apply bind_inr in H. destruct H as (u' & _ & H).
  cbv [ret value ok] in H. injection H as <- _.
  destruct (String.eqb unit_kind "swap");
    [now apply (entanglement_swap_length _ _ _ _ _ _ _ _ _ _ _ Hk Hfft Hunit) |].
  destruct (String.eqb unit_kind "dist");
    [now apply (destillation_length _ _ _ _ _ _ _ _ _ _ Hk Hfft Hunit) |].
  discriminate.
Qed.

Lemma nested_step_length (P : list tag) (h : settings) (cutoff : option cut_spec)
    (mt w rt : list pyval) (i : nat) (st st1 : settings * link * cache_t)
    (s : simulation) :
  kernels_keep_length X ->
  (use_fft s = true -> transforms_keep_length X /\ zero_padding_size s = None) ->
  value (nested_step P h cutoff mt w rt i st s) = ok st1 ->
  length (fst (snd (fst st1))) = length (fst (snd (fst st))).
Proof.
  intros Hk Hfft. destruct st as [[p [pmf wf]] c]. unfold nested_step.
  rewrite bind_self. intros H.
  apply bind_inr in H. destruct H as (op & _ & H).
  apply bind_inr in H. destruct H as (p4 & _ & H).
  apply bind_inr in H. destruct H as ([pmf0 w0'] & Hu & H).
  cbv [ret value ok] in H. injection H as <-. simpl.
  assert (Hpad : use_fft s = true ->
                 transforms_keep_length X /\ padding_covers s (length pmf)).
  { intros E. destruct (Hfft E) as [Ht Hz]. split; [exact Ht |].
    unfold padding_covers. now rewrite Hz. }
  destruct op as [[| [| |] |] | o z];
    try (cbv [ret value ok] in Hu; now injection Hu as <- _);
    exact (compute_unit_length _ _ _ _ _ _ _ _ _ Hk Hpad Hu).
Qed.

Lemma cache_get_set (c : cache_t) (k k' : HashableParameters) (v : link) :
  cache_get (cache_set c k v) k'
  = if key_eqb k' k then Some v else cache_get c k'.
Proof. reflexivity. Qed.

Lemma nested_step_cache (P : list tag) (h : settings) (cutoff : option cut_spec)
    (mt w rt : list pyval) (i : nat) (st st1 : settings * link * cache_t)
    (s : simulation) :
  use_cache s = true ->
  value (nested_step P h cutoff mt w rt i st s) = ok st1 ->
  snd st1 = cache_set (snd st) (h, firstn (i + 1) P) (snd (fst st1)).
Proof.
  intros Hc. destruct st as [[p [pmf wf]] c]. unfold nested_step.
  rewrite bind_self, Hc. intros H.
  apply bind_inr in H. destruct H as (op & _ & H).
  apply bind_inr in H. destruct H as (p4 & _ & H).
  apply bind_inr in H. destruct H as ([pmf0 w0'] & _ & H).
  cbv [ret value ok] in H. now injection H as <-.
Qed.

(** From a run on the prefix of length [j] to the first [j] rounds on the
    whole protocol, and back. *)
Lemma uncached_after_of_prefix (s : simulation) (h : settings) (P : list tag)
    (T : Z) (j : nat) (l : link) :
  (j <= length P)%nat ->
  returned_link {| protocol := firstn j P; t_trunc := T; rest := h |}
    (without_cache s) = ok l ->
  uncached_after s h P T j l.
Proof.
  intros Hj H. rewrite returned_link_uncached in H by reflexivity.
  cbn [protocol t_trunc rest] in H.
  destruct (value (starting_link 0 None (p_gen h) (w0 h) T (without_cache s)))
    as [e | start] eqn:Es; [discriminate |].
  unfold nested_loop in H.
  rewrite length_firstn, Nat.min_l, Nat.sub_0_r in H by lia.
  destruct (prefix_rounds P h (rename_tau h)
              (fst (fst (level_cutoffs (rename_tau h))))
              (snd (fst (level_cutoffs (rename_tau h))))
              (snd (level_cutoffs (rename_tau h))) j
              (rename_tau h, start, cache (without_cache s)) (without_cache s) Hj)
    as [_ Hv].
  unfold link_of_loop in H.
  match type of H with
  | match value ?o with inl _ => _ | inr _ => _ end = _ =>
      destruct (value o) as [e | [[p1 l1] c1]]; [discriminate |]
  end.
  match type of Hv with
  | match value ?o with inl _ => _ | inr _ => _ end =>
      destruct (value o) as [e' | [[p2 l2] c2]] eqn:E2; [contradiction |]
  end.
  simpl in H. apply ok_inj in H. subst l1.
  destruct Hv as [_ Hl]. simpl in Hl. subst l2.
  exists start, p2, c2. split; [exact Es | exact E2].
Qed.

Lemma prefix_of_uncached_after (s : simulation) (h : settings) (P : list tag)
    (T : Z) (j : nat) (l : link) :
  (j <= length P)%nat ->
  uncached_after s h P T j l ->
  returned_link {| protocol := firstn j P; t_trunc := T; rest := h |}
    (without_cache s) = ok l.
Proof.
  intros Hj (start & p & c & Es & E). rewrite returned_link_uncached by reflexivity.
  cbn [protocol t_trunc rest]. rewrite Es. unfold ok at 1. cbv iota.
  unfold nested_loop.
  rewrite length_firstn, Nat.min_l, Nat.sub_0_r by lia.
  destruct (prefix_rounds P h (rename_tau h)
              (fst (fst (level_cutoffs (rename_tau h))))
              (snd (fst (level_cutoffs (rename_tau h))))
              (snd (level_cutoffs (rename_tau h))) j
              (rename_tau h, start, cache (without_cache s)) (without_cache s) Hj)
    as [_ Hv].
  rewrite E in Hv. unfold link_of_loop.
  match type of Hv with
  | match value ?o with inl _ => _ | inr _ => _ end =>
      destruct (value o) as [e' | [[p2 l2] c2]]; [contradiction |]
  end.
  destruct Hv as [_ Hl]. simpl in Hl. now subst l2.
Qed.

Lemma cached_round (s : simulation) (h : settings) (P : list tag) (T : Z)
    (j : nat) (st st1 : settings * link * cache_t) :
  use_cache s = true ->
  kernels_keep_length X ->
  (use_fft s = true -> transforms_keep_length X /\ zero_padding_size s = None) ->
  (j < length P)%nat ->
  cached_loop_state s h P T j st ->
  value (nested_step P h (cutoff (rename_tau h))
           (expand (fst (fst (level_cutoffs (rename_tau h)))) (length P))
           (expand (snd (fst (level_cutoffs (rename_tau h)))) (length P))
           (expand (snd (level_cutoffs (rename_tau h))) (length P))
           j st s)
  = ok st1 ->
  cached_loop_state s h P T (S j) st1.
Proof.
  intros Hc Hk Hfft Hj (Hu & (start & p & c & Es & E) & Hlen & Hcons) Hstep.
  pose proof (nested_step_untouched _ _ _ _ _ _ _ _ _ _ Hstep) as Hu1.
  pose proof (nested_step_length _ _ _ _ _ _ _ _ _ _ Hk Hfft Hstep) as Hl1.
  pose proof (nested_step_cache _ _ _ _ _ _ _ _ _ _ Hc Hstep) as Hc1.
  pose proof (for_each_untouched _ _ _ _ _ _ _ _ _ _ E) as Hup. simpl in Hup.
  assert (Hafter : uncached_after s h P T (S j) (snd (fst st1))).
  { destruct st as [[pc lc] cc]. simpl in Hu, Hlen, Hcons, E.
    destruct (nested_step_sim P P h h (cutoff (rename_tau h))
                (expand (fst (fst (level_cutoffs (rename_tau h)))) (length P))
                (expand (snd (fst (level_cutoffs (rename_tau h)))) (length P))
                (expand (snd (level_cutoffs (rename_tau h))) (length P))
                (expand (fst (fst (level_cutoffs (rename_tau h)))) (length P))
                (expand (snd (fst (level_cutoffs (rename_tau h)))) (length P))
                (expand (snd (level_cutoffs (rename_tau h))) (length P))
                j j s (without_cache s)
                ltac:(repeat split) eq_refl ltac:(reflexivity)
                (pc, lc, cc) (p, lc, c)) as [_ Hv].
    { split; simpl; [now rewrite Hu, Hup | reflexivity]. }
    rewrite Hstep in Hv. unfold ok in Hv. cbv beta iota in Hv.
    match type of Hv with
    | match value ?o with inl _ => _ | inr _ => _ end =>
        destruct (value o) as [e' | [[p2 l2] c2]] eqn:E2; [contradiction |]
    end.
    destruct Hv as [_ Hl]. simpl in Hl.
    exists start, p2, c2. split; [exact Es |].
    rewrite seq_S, for_each_app. simpl seq.
    rewrite (bind_ok _ _ _ _ E). cbn [value for_each].
    rewrite (bind_ok _ _ _ _ E2). cbn [value ret]. now rewrite Hl. }
  split; [| split; [| split]].
  - now rewrite Hu1.
  - exact Hafter.
  - now rewrite Hl1.
  - rewrite Hc1. intros h' prefix v Hin.
    destruct Hin as [Ek | Hin]; [| now apply Hcons].
    injection Ek as <- <- <-.
    rewrite Hl1, Hlen. replace (j + 1)%nat with (S j) by lia.
    apply prefix_of_uncached_after; [lia | exact Hafter].
Qed.

Lemma cached_rounds (s : simulation) (h : settings) (P : list tag) (T : Z)
    (n : nat) :
  use_cache s = true ->
  kernels_keep_length X ->
  (use_fft s = true -> transforms_keep_length X /\ zero_padding_size s = None) ->
  forall (j : nat) (st st1 : settings * link * cache_t),
    (j + n <= length P)%nat ->
    cached_loop_state s h P T j st ->
    value (for_each (seq j n)
             (nested_step P h (cutoff (rename_tau h))
                (expand (fst (fst (level_cutoffs (rename_tau h)))) (length P))
                (expand (snd (fst (level_cutoffs (rename_tau h)))) (length P))
                (expand (snd (level_cutoffs (rename_tau h))) (length P)))
             st s)
    = ok st1 ->
    cached_loop_state s h P T (j + n) st1.
Proof.
  intros Hc Hk Hfft. induction n as [| n IH]; intros j st st1 Hj Hst H.
  - simpl in H. apply ok_inj in H. subst st1. now rewrite Nat.add_0_r.
  - simpl in H. apply bind_inr in H. destruct H as (st' & H1 & H2).
    replace (j + S n)%nat with (S j + n)%nat by lia.
    apply (IH (S j) st' st1); [lia | | exact H2].
    apply (cached_round s h P T j st st' Hc Hk Hfft); [lia | exact Hst | exact H1].
Qed.

End Cache_invariant.

Section Cache_preserved.

Context {X : Externals}.

Lemma lookup_cache_value (Q : parameters) (s : simulation) :
  use_cache s = true ->
  value (lookup_cache Q s) = check_cache (cache s) Q.
Proof.
  intros Hc. unfold lookup_cache. rewrite bind_self, Hc.
  destruct (check_cache (cache s) Q) as [e | [[i h] [v |]]]; reflexivity.
Qed.

Lemma starting_link_elementary (pg w : scalar_or_seq num) (T : Z)
    (s : simulation) (start : link) :
  value (starting_link 0 None pg w T s) = ok start ->
  exists p w0, start = elementary_link p w0 T.
Proof.
  unfold starting_link. intros H.
  apply bind_inr in H. destruct H as (p & _ & H).
  apply bind_inr in H. destruct H as (w0 & _ & H).
  apply ok_inj in H. eauto.
Qed.

(** A run with memoization on a consistent cache leaves a consistent
    cache: consistency is an invariant of the simulator, established by the
    empty cache it is created with. *)
Lemma memoized_run_keeps_cache_consistent (Q : parameters) (s s' : simulation)
    (l : link) :
  use_cache s = true ->
  cache_consistent s (cache s) ->
  identical_where_equal (cache s) (rest Q) = true ->
  kernels_keep_length X ->
  (use_fft s = true -> transforms_keep_length X /\ zero_padding_size s = None) ->
  1 <= t_trunc Q ->
  value (nested_protocol Q s) = ok (l, s') ->
  cache_consistent s' (cache s').
Proof.
  intros Hc Hcons Hid Hk Hfft HT H. unfold nested_protocol in H.
  rewrite bind_self in H.
  apply bind_inr in H. destruct H as (found & Hfound & H).
  rewrite (lookup_cache_value Q s Hc) in Hfound.
  destruct found as [[i h] r].
  destruct (check_cache_value _ _ _ _ _ Hfound) as [-> Hfrom].
  cbn [fst snd] in H.
  apply bind_inr in H. destruct H as (start & Hstart & H).
  apply bind_inr in H. destruct H as (st & Hloop & H).
  apply ok_inj in H. injection H as _ <-.
  change (cache_consistent s (snd st)).
  unfold nested_loop in Hloop.
  destruct r as [v |].
  - destruct (check_cache_from_hit _ _ _ _ _ _ _ Hfrom) as (Hi & Hget & _ & _).
    destruct i as [| i]; [lia |].
    cbn [starting_link] in Hstart. apply ok_inj in Hstart. subst start.
    apply (cached_rounds s (rest Q) (protocol Q) (Z.of_nat (length (fst v)))
             (length (protocol Q) - S i) Hc Hk Hfft (S i) _ st) in Hloop;
      [apply Hloop | lia |].
    split; [reflexivity |]. split; [| split; [reflexivity | exact Hcons]].
    apply uncached_after_of_prefix; [lia |].
    apply Hcons. now apply cache_get_identical.
  - pose proof (check_cache_from_miss _ _ _ _ _ _ Hfrom) as Ei. subst i.
    destruct (starting_link_elementary _ _ _ _ _ Hstart) as (p & w0 & Estart).
    apply (cached_rounds s (rest Q) (protocol Q) (t_trunc Q)
             (length (protocol Q) - 0) Hc Hk Hfft 0%nat _ st) in Hloop;
      [apply Hloop | lia |].
    split; [reflexivity |]. split; [| split; [| exact Hcons]].
    + exists start, (rename_tau (rest Q)), (cache (without_cache s)).
      split; [exact Hstart | reflexivity].
    + simpl. rewrite Estart, elementary_link_pmf_length by lia. lia.
Qed.

Lemma empty_cache_consistent (s : simulation) : cache_consistent s [].
Proof. intros h prefix v []. Qed.

(** The keys a run stores are those of its own parameters. *)
Lemma identical_where_equal_set (c : cache_t) (h : settings) (P : list tag)
    (v : link) :
  identical_where_equal c h = true ->
  identical_where_equal (cache_set c (h, P) v) h = true.
Proof.
  intros H. unfold identical_where_equal, cache_set. cbn [forallb fst].
  fold (identical_where_equal c h). rewrite H.
  destruct (settings_eq_dec h h) as [_ | Hne]; [| congruence].
  now rewrite Bool.implb_true_r.
Qed.

Lemma memoized_run_keeps_keys_apart (Q : parameters) (s s' : simulation)
    (l : link) :
  use_cache s = true ->
  identical_where_equal (cache s) (rest Q) = true ->
  value (nested_protocol Q s) = ok (l, s') ->
  identical_where_equal (cache s') (rest Q) = true.
Proof.
  intros Hc Hid H. unfold nested_protocol in H.
  rewrite bind_self in H.
  apply bind_inr in H. destruct H as (found & Hfound & H).
  rewrite (lookup_cache_value Q s Hc) in Hfound.
  destruct found as [[i h] r].
  destruct (check_cache_value _ _ _ _ _ Hfound) as [-> _].
  cbn [fst snd] in H.
  apply bind_inr in H. destruct H as (start & _ & H).
  apply bind_inr in H. destruct H as (st & Hloop & H).
  apply ok_inj in H. injection H as _ <-.
  change (identical_where_equal (snd st) (rest Q) = true).
  unfold nested_loop in Hloop.
  apply (for_each_invariant
           (fun st : settings * link * cache_t =>
              identical_where_equal (snd st) (rest Q) = true)
           _ _ _) with (st := (rename_tau (rest Q), start, cache s)) in Hloop;
    [exact Hloop | | exact Hid].
  intros j st0 st1 Hst Hstep.
  rewrite (nested_step_cache _ _ _ _ _ _ _ _ _ _ Hc Hstep).
  now apply identical_where_equal_set.
Qed.

End Cache_preserved.

(** ** The scripts around the simulator *)

Lemma firstn_repeat_min {A} (x : A) (a n : nat) :
  firstn a (repeat x n) = repeat x (Nat.min a n).
Proof.
  revert a. induction n as [| n IH]; intros [| a]; simpl; try reflexivity.
  now rewrite IH.
Qed.

Lemma skipn_repeat_sub {A} (x : A) (a n : nat) :
  skipn a (repeat x n) = repeat x (n - a).
Proof.
  revert a. induction n as [| n IH]; intros [| a]; simpl; try reflexivity.
  apply IH.
Qed.

Lemma slice_bound_le (len : nat) (i : Z) : (slice_bound len i <= len)%nat.
Proof. unfold slice_bound. destruct (i <? 0); lia. Qed.

Lemma slice_bound_inside (len : nat) (i : Z) :
  0 <= i <= Z.of_nat len -> slice_bound len i = Z.to_nat i.
Proof.
  intros H. unfold slice_bound.
  destruct (i <? 0) eqn:E; [apply Z.ltb_lt in E; lia | lia].
Qed.

Lemma get_protocol_shape (number_of_swaps number_of_dists w : Z) :
  get_protocol number_of_swaps number_of_dists (Some w)
  = repeat (TagInt 0) (slice_bound (Z.to_nat number_of_swaps) w)
      ++ repeat (TagInt 1) (Z.to_nat number_of_dists)
      ++ repeat (TagInt 0)
           (Z.to_nat number_of_swaps - slice_bound (Z.to_nat number_of_swaps) w).
Proof.
  pose proof (slice_bound_le (Z.to_nat number_of_swaps) w) as L.
  unfold get_protocol, py_repeat.
  destruct (number_of_dists =? 0) eqn:E.
  - apply Z.eqb_eq in E. subst. simpl.
    rewrite <- repeat_app. f_equal. lia.
  - unfold slice_to, slice_from. rewrite repeat_length.
    rewrite firstn_repeat_min, skipn_repeat_sub.
    now rewrite Nat.min_l by exact L.
Qed.

(** X1.  For a level between 0 and the number of swaps, the protocol is that
    many swaps, then the distillations in one block, then the remaining
    swaps. *)
Theorem get_protocol_places_distillations (number_of_swaps number_of_dists w : Z) :
  0 <= w <= number_of_swaps ->
  get_protocol number_of_swaps number_of_dists (Some w)
  = repeat (TagInt 0) (Z.to_nat w)
      ++ repeat (TagInt 1) (Z.to_nat number_of_dists)
      ++ repeat (TagInt 0) (Z.to_nat (number_of_swaps - w)).
Proof.
  intros H. rewrite get_protocol_shape.
  rewrite slice_bound_inside by lia.
  do 3 f_equal. lia.
Qed.

Lemma get_protocol_places_distillations_example :
  get_protocol 3 2 (Some 1)
  = [TagInt 0; TagInt 1; TagInt 1; TagInt 0; TagInt 0].
Proof. apply (get_protocol_places_distillations 3 2 1). lia. Defined.

(** X2.  Whatever integer is given as the level, also a negative one or one
    beyond the swaps, the protocol has the requested number of swaps and
    of distillations, the distillations in one block. *)
Theorem get_protocol_keeps_the_counts (number_of_swaps number_of_dists w : Z) :
  exists a : nat,
    (a <= Z.to_nat number_of_swaps)%nat /\
    get_protocol number_of_swaps number_of_dists (Some w)
    = repeat (TagInt 0) a ++ repeat (TagInt 1) (Z.to_nat number_of_dists)
        ++ repeat (TagInt 0) (Z.to_nat number_of_swaps - a).
Proof.
  exists (slice_bound (Z.to_nat number_of_swaps) w).
  split; [apply slice_bound_le | apply get_protocol_shape].
Qed.

(** X3.  With distillations requested and the level left at its default
    [None], both slices are the whole list: the swaps appear twice. *)
Theorem get_protocol_without_level_doubles_swaps (number_of_swaps number_of_dists : Z) :
  number_of_dists <> 0 ->
  get_protocol number_of_swaps number_of_dists None
  = repeat (TagInt 0) (Z.to_nat number_of_swaps)
      ++ repeat (TagInt 1) (Z.to_nat number_of_dists)
      ++ repeat (TagInt 0) (Z.to_nat number_of_swaps).
Proof.
  intros H. unfold get_protocol, py_repeat.
  apply Z.eqb_neq in H. now rewrite H.
Qed.

Lemma get_protocol_without_level_doubles_swaps_example :
  get_protocol 2 1 None = [TagInt 0; TagInt 0; TagInt 1; TagInt 0; TagInt 0].
Proof. apply (get_protocol_without_level_doubles_swaps 2 1). lia. Defined.

Lemma forallb_repeat {A} (f : A -> bool) (x : A) (n : nat) :
  f x = true -> forallb f (repeat x n) = true.
Proof. intros H. induction n; simpl; [reflexivity | now rewrite H]. Qed.

Lemma forallb_firstn {A} (f : A -> bool) (l : list A) (n : nat) :
  forallb f l = true -> forallb f (firstn n l) = true.
Proof.
  revert n. induction l as [| a l IH]; intros [| n] H; simpl in *; try reflexivity.
  apply andb_true_iff in H. destruct H as [Ha Hl]. now rewrite Ha, IH.
Qed.

Lemma forallb_skipn {A} (f : A -> bool) (l : list A) (n : nat) :
  forallb f l = true -> forallb f (skipn n l) = true.
Proof.
  revert n. induction l as [| a l IH]; intros [| n] H; simpl in *; try reflexivity.
  - exact H.
  - apply andb_true_iff in H. now apply IH.
Qed.

Lemma get_protocol_int_tags (ns nd : Z) (w : option Z) :
  forallb is_int_tag (get_protocol ns nd w) = true.
Proof.
  unfold get_protocol, py_repeat.
  destruct (nd =? 0); [now apply forallb_repeat |].
  rewrite !forallb_app.
  assert (H : forallb is_int_tag (repeat (TagInt 0) (Z.to_nat ns)) = true)
    by now apply forallb_repeat.
  destruct w as [i |]; unfold slice_to, slice_from;
    rewrite ?forallb_firstn, ?forallb_skipn, ?H by exact H;
    now rewrite forallb_repeat.
Qed.

Section Scripts.

Context {X : Externals}.

(** X4.  Every protocol built by [get_protocol] is taken by [repeater_sim] as a
    symmetric one: the call is the nested driver on a fresh simulator, and
    the segment count of the asymmetric protocols is never asked for. *)
Theorem repeater_sim_runs_get_protocol_nested
    (checkAsymProtocol : list tag -> result Z)
    (number_of_swaps number_of_dists : Z) (where_to_distill : option Z)
    (T : Z) (h : settings) :
  let parameters :=
    {| protocol := get_protocol number_of_swaps number_of_dists where_to_distill;
       t_trunc := T; rest := h |} in
  repeater_sim checkAsymProtocol parameters
  = (r <- nested_protocol parameters ;; ret (Some (fst r))) (new_simulation false).
Proof.
  intros parameters. unfold repeater_sim.
  change (protocol parameters)
    with (get_protocol number_of_swaps number_of_dists where_to_distill).
  now rewrite get_protocol_int_tags.
Qed.

End Scripts.

(** *** Unstable Werner parameters *)

(** The array the loop of [remove_unstable_werner] has built after [k]
    rounds. *)
Lemma for_result_app {A S} (xs ys : list A) (body : A -> S -> result S) (s : S) :
  for_result (xs ++ ys) body s = rbind (for_result xs body s) (for_result ys body).
Proof.
  revert s. induction xs as [| x xs IH]; intros s; simpl; [reflexivity |].
  destruct (body x s) as [e | s']; simpl; [reflexivity | apply IH].
Qed.

Lemma range_snoc (n : nat) :
  range 0 (Z.of_nat (S n)) = range 0 (Z.of_nat n) ++ [Z.of_nat n].
Proof.
  unfold range. rewrite !Z.sub_0_r, !Nat2Z.id.
  rewrite seq_S, map_app. reflexivity.
Qed.

Lemma nth_replace_nth {A} (n t : nat) (v d : A) (l : list A) :
  nth t (replace_nth n v l) d
  = if (t =? n)%nat && (n <? length l)%nat then v else nth t l d.
Proof.
  revert n t. induction l as [| a l IH]; intros n t.
  - simpl. rewrite andb_false_r. now destruct n, t.
  - destruct n as [| n], t as [| t]; simpl; try reflexivity.
    apply IH.
Qed.

Lemma unstable_rounds (pmf w_func : array) (threshold : num) (k : nat) :
  (k <= length pmf)%nat -> (k <= length w_func)%nat ->
  exists r,
    for_result (range 0 (Z.of_nat k))
      (fun t new_w_func =>
         rbind (py_index pmf t) (fun p =>
         if (p <? threshold)%num then py_setitem new_w_func t NaN
         else ok new_w_func))
      w_func = ok r /\
    length r = length w_func /\
    forall t,
      nth t r zero
      = if (t <? k)%nat && (nth t pmf zero <? threshold)%num
        then NaN else nth t w_func zero.
Proof.
  induction k as [| k IH]; intros Hp Hw.
  - exists w_func. repeat split. 
  - destruct IH as (r & Hr & Lr & Nr); try lia.
    rewrite range_snoc, for_result_app, Hr. simpl.
    destruct (nth_error pmf k) as [p |] eqn:Ep;
      [| apply nth_error_None in Ep; lia].
    rewrite (py_index_nat pmf (Z.of_nat k) p) by (rewrite ?Nat2Z.id; auto; lia).
    simpl.
    pose proof (nth_error_nth _ _ zero Ep) as Np.
    destruct (p <? threshold)%num eqn:Lt.
    + rewrite py_setitem_nat by lia. rewrite Nat2Z.id.
      eexists. split; [reflexivity |]. split.
      * now rewrite replace_nth_length.
      * intros t. rewrite nth_replace_nth, Nr, Lr.
        destruct (Nat.eqb_spec t k) as [-> | Ne].
        -- replace (k <? length w_func)%nat with true
             by (symmetry; apply Nat.ltb_lt; lia).
           replace (k <? S k)%nat with true by (symmetry; apply Nat.ltb_lt; lia).
           simpl. now rewrite Np, Lt.
        -- simpl.
           replace (t <? S k)%nat with (t <? k)%nat; [reflexivity |].
           destruct (Nat.ltb_spec t k), (Nat.ltb_spec t (S k)); try reflexivity; lia.
    + exists r. split; [reflexivity |]. split; [exact Lr |].
      intros t. rewrite Nr.
      destruct (Nat.eqb_spec t k) as [-> | Ne].
      * replace (k <? k)%nat with false by (symmetry; apply Nat.ltb_ge; lia).
        replace (k <? S k)%nat with true by (symmetry; apply Nat.ltb_lt; lia).
        simpl. now rewrite Np, Lt.
      * replace (t <? S k)%nat with (t <? k)%nat; [reflexivity |].
        destruct (Nat.ltb_spec t k), (Nat.ltb_spec t (S k)); try reflexivity; lia.
Qed.

(** X5.  When [w_func] is at least as long as [pmf], the call returns a copy of
    [w_func] of the same length in which exactly the samples whose mass is
    below the threshold are [nan]; a mass that is [nan] itself keeps its
    Werner parameter. *)
Theorem remove_unstable_werner_masks_low_mass (pmf w_func : array) (threshold : num) :
  (length pmf <= length w_func)%nat ->
  exists r,
    remove_unstable_werner pmf w_func threshold = ok r /\
    length r = length w_func /\
    forall t,
      nth t r zero
      = if (t <? length pmf)%nat && (nth t pmf zero <? threshold)%num
        then NaN else nth t w_func zero.
Proof.
  intros H. unfold remove_unstable_werner.
  apply unstable_rounds; [apply Nat.le_refl | exact H].
Qed.

Lemma remove_unstable_werner_masks_low_mass_example :
  exists r,
    remove_unstable_werner [zero; Fin (1 # 2)] [one; one] default_threshold = ok r /\
    length r = 2%nat /\
    forall t,
      nth t r zero
      = if (t <? 2)%nat && (nth t [zero; Fin (1 # 2)] zero <? default_threshold)%num
        then NaN else nth t [one; one] zero.
Proof.
  apply (remove_unstable_werner_masks_low_mass [zero; Fin (1 # 2)] [one; one]).
  simpl. lia.
Defined.

Lemma unstable_rounds_or_error (pmf w_func : array) (threshold : num) (k : nat) :
  (k <= length pmf)%nat ->
  let loop :=
    for_result (range 0 (Z.of_nat k))
      (fun t new_w_func =>
         rbind (py_index pmf t) (fun p =>
         if (p <? threshold)%num then py_setitem new_w_func t NaN
         else ok new_w_func))
      w_func in
  (exists r, loop = ok r /\ length r = length w_func) \/ loop = throw IndexError.
Proof.
  induction k as [| k IH]; intros Hp loop.
  - left. exists w_func. split; reflexivity.
  - subst loop. rewrite range_snoc, for_result_app.
    destruct IH as [(r & Hr & Lr) | He]; try lia.
    + rewrite Hr. simpl.
      destruct (nth_error pmf k) as [p |] eqn:Ep;
        [| apply nth_error_None in Ep; lia].
      rewrite (py_index_nat pmf (Z.of_nat k) p) by (rewrite ?Nat2Z.id; auto; lia).
      simpl. destruct (p <? threshold)%num.
      * unfold py_setitem.
        destruct (Z.of_nat k <? 0) eqn:C; [apply Z.ltb_lt in C; lia |].
        rewrite C. simpl.
        destruct (Z.of_nat (length r) <=? Z.of_nat k); simpl.
        -- now right.
        -- left. eexists. split; [reflexivity |].
           now rewrite replace_nth_length.
      * left. exists r. split; [reflexivity | exact Lr].
    + rewrite He. now right.
Qed.

Lemma seq_from_0 (a m : nat) : seq a m = map (Nat.add a) (seq 0 m).
Proof.
  revert a. induction m as [| m IH]; intros a; simpl; [reflexivity |].
  f_equal; [lia |].
  rewrite (IH (S a)), (IH 1%nat), map_map. apply map_ext. intros i. lia.
Qed.

Lemma range_split (n t : nat) :
  (t < n)%nat ->
  range 0 (Z.of_nat n)
  = range 0 (Z.of_nat t) ++ Z.of_nat t :: map (fun i => Z.of_nat t + 1 + Z.of_nat i)
                                              (seq 0 (n - S t)).
Proof.
  intros H. unfold range. rewrite !Z.sub_0_r, !Nat2Z.id.
  replace n with (t + S (n - S t))%nat at 1 by lia.
  rewrite seq_app, map_app. f_equal. simpl. f_equal.
  rewrite (seq_from_0 (S t)), map_map. apply map_ext. intros i. lia.
Qed.

(** X6.  When [pmf] is longer than [w_func] and a sample beyond the end of
    [w_func] has a mass below the threshold, the assignment of [nan] is
    out of range: the call raises [IndexError]. *)
Theorem remove_unstable_werner_needs_w_func_as_long (pmf w_func : array)
    (threshold : num) (t : nat) :
  (length w_func <= t < length pmf)%nat ->
  (nth t pmf zero <? threshold)%num = true ->
  remove_unstable_werner pmf w_func threshold = throw IndexError.
Proof.
  intros Ht Lt. unfold remove_unstable_werner.
  rewrite (range_split (length pmf) t) by lia.
  rewrite for_result_app.
  destruct (unstable_rounds_or_error pmf w_func threshold t) as [(r & Hr & Lr) | He];
    try lia.
  - rewrite Hr. simpl.
    destruct (nth_error pmf t) as [p |] eqn:Ep;
      [| apply nth_error_None in Ep; lia].
    rewrite (py_index_nat pmf (Z.of_nat t) p) by (rewrite ?Nat2Z.id; auto; lia).
    simpl. rewrite (nth_error_nth _ _ zero Ep) in Lt. rewrite Lt.
    unfold py_setitem.
    destruct (Z.of_nat t <? 0) eqn:C; [apply Z.ltb_lt in C; lia |].
    rewrite C. simpl.
    destruct (Z.of_nat (length r) <=? Z.of_nat t) eqn:D;
      [reflexivity | apply Z.leb_gt in D; lia].
  - rewrite He. reflexivity.
Qed.

Lemma remove_unstable_werner_needs_w_func_as_long_example :
  remove_unstable_werner [Fin (1 # 2); zero] [one] default_threshold
  = throw IndexError.
Proof.
  apply (remove_unstable_werner_needs_w_func_as_long _ _ _ 1%nat).
  - simpl. lia.
  - reflexivity.
Defined.

(** ** Segments of the asymmetric drivers *)

Lemma first_live_inv {A} (segments : list (option A)) (candidates : list Z) (j : Z) :
  first_live segments candidates = ok j ->
  exists before after x,
    candidates = before ++ j :: after /\
    py_index segments j = ok (Some x) /\
    forall m, In m before -> py_index segments m = ok None.
Proof.
  induction candidates as [| r later IH]; simpl; intros H; [discriminate |].
  destruct (py_index segments r) as [e | [x |]] eqn:E; try discriminate.
  - unfold ok in H. injection H as ->.
    exists [], later, x. repeat split; auto. intros m [].
  - destruct (IH H) as (before & after & x & -> & Hj & Hb).
    exists (r :: before), after, x. repeat split; auto.
    intros m [<- | Hm]; auto.
Qed.

Lemma py_index_inv {A} (l : list A) (i : Z) (a : A) :
  0 <= i -> py_index l i = ok a -> nth_error l (Z.to_nat i) = Some a.
Proof.
  intros H. unfold py_index.
  destruct (i <? 0) eqn:C; [apply Z.ltb_lt in C; lia |]. rewrite C.
  destruct (nth_error l (Z.to_nat i)); [| discriminate].
  unfold ok. congruence.
Qed.

Lemma range_app_inv (a b j : Z) (before after : list Z) :
  range a b = before ++ j :: after ->
  a <= j < b /\ forall m, a <= m < j -> In m before.
Proof.
  unfold range. intros H.
  assert (L : length before = Z.to_nat (j - a) /\ a <= j < b).
  { pose proof (f_equal (fun l => nth (length before) l 0) H) as N.
    simpl in N. rewrite nth_middle in N.
    pose proof (f_equal (@length Z) H) as Len.
    rewrite length_map, length_seq, length_app in Len. simpl in Len.
    rewrite (nth_map_in _ _ _ _ O) in N by (rewrite length_seq; lia).
    rewrite seq_nth in N by lia. lia. }
  destruct L as [L Hj]. split; [exact Hj |].
  intros m Hm.
  pose proof (f_equal (fun l => nth (Z.to_nat (m - a)) l 0) H) as N.
  simpl in N.
  rewrite (nth_map_in _ _ _ _ O) in N by (rewrite length_seq; lia).
  rewrite seq_nth in N by lia.
  rewrite app_nth1 in N by lia.
  replace m with (nth (Z.to_nat (m - a)) before 0) by lia.
  apply nth_In. lia.
Qed.

(** What a successful search of [find_right_segment] has found. *)
Lemma find_right_segment_inv {A} (segments : list (option A)) (i j : Z) :
  0 <= i ->
  find_right_segment segments i = ok j ->
  i < j < Z.of_nat (length segments) /\
  (exists x, nth_error segments (Z.to_nat j) = Some (Some x)) /\
  forall m, i < m < j -> nth_error segments (Z.to_nat m) = Some None.
Proof.
  intros Hi H. unfold find_right_segment in H.
  destruct (first_live_inv _ _ _ H) as (before & after & x & Hr & Hx & Hb).
  destruct (range_app_inv _ _ _ _ _ Hr) as [Hj Hin].
  split; [lia |]. split.
  - exists x. apply py_index_inv; [lia | exact Hx].
  - intros m Hm. apply py_index_inv; [lia |]. apply Hb, Hin. lia.
Qed.

Lemma replace_nth_middle {A} (pre post : list A) (a v : A) :
  replace_nth (length pre) v (pre ++ a :: post) = pre ++ v :: post.
Proof. induction pre as [| x pre IH]; simpl; [reflexivity | now rewrite IH]. Qed.

Lemma all_dead {A} (mid : list (option A)) :
  (forall k, (k < length mid)%nat -> nth_error mid k = Some None) ->
  mid = repeat None (length mid).
Proof.
  induction mid as [| x mid IH]; intros H; simpl; [reflexivity |].
  pose proof (H O ltac:(simpl; lia)) as H0. simpl in H0. injection H0 as ->.
  f_equal. apply IH. intros k Hk. apply (H (S k)). simpl. lia.
Qed.

(** Two live segments with only dead ones between them. *)
Lemma segments_split {A} (segments : list (option A)) (i j : nat) (c n : A) :
  (i < j)%nat ->
  nth_error segments i = Some (Some c) ->
  nth_error segments j = Some (Some n) ->
  (forall m, (i < m < j)%nat -> nth_error segments m = Some None) ->
  exists pre post,
    segments = pre ++ Some c :: repeat None (j - i - 1) ++ Some n :: post /\
    length pre = i.
Proof.
  intros Hij Hi Hj Hdead.
  destruct (nth_error_split _ _ Hi) as (pre & rest & -> & Lpre).
  assert (Hj' : nth_error rest (j - i - 1) = Some (Some n)).
  { rewrite nth_error_app2 in Hj by lia. rewrite Lpre in Hj.
    replace (j - i)%nat with (S (j - i - 1)) in Hj by lia. exact Hj. }
  destruct (nth_error_split _ _ Hj') as (mid & post & -> & Lmid).
  exists pre, post. split; [| exact Lpre].
  do 2 f_equal. rewrite <- Lmid. f_equal.
  apply all_dead. intros k Hk.
  specialize (Hdead (i + 1 + k)%nat ltac:(lia)).
  rewrite nth_error_app2 in Hdead by lia.
  replace (i + 1 + k - length pre)%nat with (S k) in Hdead by lia.
  simpl in Hdead. now rewrite nth_error_app1 in Hdead by lia.
Qed.

Lemma live_spans_app (a b : list (option hsegment)) :
  live_spans (a ++ b) = live_spans a ++ live_spans b.
Proof. apply flat_map_app. Qed.

Lemma live_spans_dead (n : nat) : live_spans (repeat None n) = [].
Proof. induction n; simpl; auto. Qed.

Lemma chained_merge (A B : list (Z * Z)) (l1 r1 l2 r2 : Z) :
  chained (A ++ (l1, r1) :: (l2, r2) :: B) ->
  r1 = l2 /\ chained (A ++ (l1, r2) :: B).
Proof.
  induction A as [| a A IH]; intros H.
  - simpl in *. destruct H as [E H]. split; [exact E |].
    destruct B as [| b B]; [exact I | exact H].
  - change ((a :: A) ++ (l1, r1) :: (l2, r2) :: B)
      with (a :: (A ++ (l1, r1) :: (l2, r2) :: B)) in H.
    change ((a :: A) ++ (l1, r2) :: B) with (a :: (A ++ (l1, r2) :: B)).
    destruct A as [| a' A].
    + simpl in *. destruct H as [E H]. destruct (IH H) as [E' H']. auto.
    + simpl in *. destruct H as [E H]. destruct (IH H) as [E' H']. auto.
Qed.

Section Heterogeneous_segments.

Context {X : Externals}.

Lemma live_spans_swapped (pre post : list (option hsegment)) (k : nat)
    (c n merged : hsegment) :
  left_end merged = left_end c -> right_end merged = right_end n ->
  chained (live_spans (pre ++ Some c :: repeat None k ++ Some n :: post)) ->
  right_end c = left_end n /\
  chained (live_spans (pre ++ None :: repeat None k ++ Some merged :: post)).
Proof.
  intros Hl Hr. rewrite !live_spans_app. simpl.
  rewrite !live_spans_app, !live_spans_dead. simpl.
  rewrite Hl, Hr. apply chained_merge.
Qed.

Lemma live_spans_replaced (pre post : list (option hsegment)) (c c' : hsegment) :
  left_end c' = left_end c -> right_end c' = right_end c ->
  live_spans (pre ++ Some c' :: post) = live_spans (pre ++ Some c :: post).
Proof.
  intros Hl Hr. rewrite !live_spans_app. simpl. now rewrite Hl, Hr.
Qed.

(** A swap of the segment [idx >= 0] with its right neighbour. *)
Lemma adjacent_at_swap (segments : list (option hsegment)) (idx j : Z)
    (c n : hsegment) :
  0 <= idx ->
  chained (live_spans segments) ->
  py_index segments idx = ok (Some c) ->
  find_right_segment segments idx = ok j ->
  py_index segments j = ok (Some n) ->
  right_end c = left_end n /\
  forall merged,
    left_end merged = left_end c -> right_end merged = right_end n ->
    chained (live_spans (replace_nth (Z.to_nat j) (Some merged)
                           (replace_nth (Z.to_nat idx) None segments))).
Proof.
  intros H0 Hch Hc Hf Hn.
  destruct (find_right_segment_inv _ _ _ H0 Hf) as (Hj & _ & Hdead).
  apply py_index_inv in Hc; [| lia]. apply py_index_inv in Hn; [| lia].
  destruct (segments_split segments (Z.to_nat idx) (Z.to_nat j) c n)
    as (pre & post & -> & Lpre); try lia; auto.
  { intros m Hm. specialize (Hdead (Z.of_nat m) ltac:(lia)).
    now rewrite Nat2Z.id in Hdead. }
  split.
  - now apply (live_spans_swapped pre post (Z.to_nat j - Z.to_nat idx - 1) c n
                 (fst c, right_end n)).
  - intros merged Hl Hr.
    assert (E : Z.to_nat j
                = length (pre ++ None :: repeat (@None hsegment)
                                           (Z.to_nat j - Z.to_nat idx - 1)))
      by (rewrite length_app; simpl; rewrite repeat_length; lia).
    revert E Hch. generalize (Z.to_nat j - Z.to_nat idx - 1)%nat as k.
    intros k E Hch.
    rewrite <- Lpre, replace_nth_middle, E.
    change (pre ++ None :: repeat None k ++ Some n :: post)
      with (pre ++ (None :: repeat None k) ++ Some n :: post).
    rewrite app_assoc, replace_nth_middle, <- app_assoc.
    now apply (live_spans_swapped pre post k c n merged).
Qed.

Lemma py_index_in_range {A} (l : list A) (i : Z) (a : A) :
  0 <= i -> py_index l i = ok a -> 0 <= i < Z.of_nat (length l).
Proof.
  intros H E. apply py_index_inv in E; [| exact H].
  apply nth_error_in_range in E. lia.
Qed.

Lemma heterogeneous_step_keeps_chain (t_cohs : list num) (step : tag)
    (p p' : settings) (segments segments' : list (option hsegment))
    (s : simulation) :
  counts_from_left step ->
  chained (live_spans segments) ->
  value (heterogeneous_step t_cohs step (p, segments) s) = ok (p', segments') ->
  chained (live_spans segments').
Proof.
  intros Hstep Hch H. unfold heterogeneous_step in H.
  destruct step as [z | operation idx]; [discriminate H |].
  simpl in Hstep.
  change (parse_step (TagStr operation idx)) with (ok (operation, idx)) in H.
  rewrite bind_lift_ok in H.
  apply bind_inr in H. destruct H as (curr & Hcurr & H). apply lift_inr in Hcurr.
  destruct (Ascii.eqb operation "s").
  - apply bind_inr in H. destruct H as (j & Hj & H). apply lift_inr in Hj.
    apply bind_inr in H. destruct H as (next & Hnext & H). apply lift_inr in Hnext.
    apply bind_inr in H. destruct H as ([[[pmf1 w1] l1] r1] & Hc & H).
    apply lift_inr in Hc.
    apply bind_inr in H. destruct H as ([[[pmf2 w2] l2] r2] & Hn & H).
    apply lift_inr in Hn.
    destruct curr as [c |]; [| discriminate Hc].
    destruct next as [n |]; [| discriminate Hn].
    unfold unpack, ok in Hc, Hn. injection Hc as ->. injection Hn as ->.
    do 4 (apply bind_inr in H; destruct H as (? & _ & H)).
    apply bind_inr in H. destruct H as ([pmf w_func] & _ & H).
    apply bind_inr in H. destruct H as (segments1 & H1 & H). apply lift_inr in H1.
    apply bind_inr in H. destruct H as (segments2 & H2 & H). apply lift_inr in H2.
    unfold ret, ok in H. simpl in H. injection H as _ <-.
    pose proof (py_index_in_range _ _ _ Hstep Hcurr) as Ri.
    destruct (find_right_segment_inv _ _ _ Hstep Hj) as (Rj & _ & _).
    rewrite py_setitem_nat in H1 by lia. unfold ok in H1. injection H1 as <-.
    rewrite py_setitem_nat in H2 by (rewrite replace_nth_length; lia).
    unfold ok in H2. injection H2 as <-.
    now apply (adjacent_at_swap segments idx j (pmf1, w1, l1, r1) (pmf2, w2, l2, r2)).
  - destruct (Ascii.eqb operation "d").
    + apply bind_inr in H. destruct H as ([[[pmf1 w1] l1] r1] & Hc & H).
      apply lift_inr in Hc.
      destruct curr as [c |]; [| discriminate Hc].
      unfold unpack, ok in Hc. injection Hc as ->.
      do 2 (apply bind_inr in H; destruct H as (? & _ & H)).
      apply bind_inr in H. destruct H as ([pmf w_func] & _ & H).
      apply bind_inr in H. destruct H as (segments1 & H1 & H). apply lift_inr in H1.
      unfold ret, ok in H. simpl in H. injection H as _ <-.
      pose proof (py_index_in_range _ _ _ Hstep Hcurr) as Ri.
      rewrite py_setitem_nat in H1 by lia. unfold ok in H1. injection H1 as <-.
      apply py_index_inv in Hcurr; [| exact Hstep].
      destruct (nth_error_split _ _ Hcurr) as (pre & post & -> & <-).
      rewrite replace_nth_middle.
      now rewrite (live_spans_replaced pre post (pmf1, w1, l1, r1)).
    + unfold ret, ok in H. simpl in H. now injection H as _ <-.
Qed.

Lemma heterogeneous_steps_keep_chain (t_cohs : list num) (steps : list tag)
    (s : simulation) :
  Forall counts_from_left steps ->
  forall st st',
    chained (live_spans (snd st)) ->
    value (for_each steps (heterogeneous_step t_cohs) st s) = ok st' ->
    chained (live_spans (snd st')).
Proof.
  induction 1 as [| step steps Hstep _ IH]; intros st st' Hch H.
  - unfold ok in H. simpl in H. now injection H as <-.
  - simpl in H. apply bind_inr in H. destruct H as ([p1 segments1] & H1 & H).
    destruct st as [p segments].
    apply (IH (p1, segments1) st'); [| exact H].
    exact (heterogeneous_step_keeps_chain _ _ _ _ _ _ _ Hstep Hch H1).
Qed.

Lemma elementary_segments_from (p_gens w0s : list num) (T : Z) (xs : list Z)
    (acc init : list (option hsegment)) (s : simulation) :
  value (for_each xs
           (fun i segments =>
              p <- lift (py_index p_gens i) ;;
              w <- lift (py_index w0s i) ;;
              let '(pmf, w_func) := elementary_link p w T in
              ret (segments ++ [Some (pmf, w_func, i, i + 1)]))
           acc s) = ok init ->
  live_spans init = live_spans acc ++ map (fun i => (i, i + 1)) xs /\
  length init = (length acc + length xs)%nat.
Proof.
  revert acc. induction xs as [| i xs IH]; intros acc H.
  - unfold ok in H. simpl in H. injection H as <-.
    simpl. now rewrite app_nil_r, Nat.add_0_r.
  - simpl in H. apply bind_inr in H. destruct H as (acc1 & H1 & H).
    apply bind_inr in H1. destruct H1 as (p & _ & H1).
    apply bind_inr in H1. destruct H1 as (w & _ & H1).
    unfold elementary_link in H1.
    unfold ret, ok in H1. simpl in H1. injection H1 as <-.
    destruct (IH _ H) as [Sp Len]. split.
    + rewrite Sp, live_spans_app, <- app_assoc. reflexivity.
    + rewrite Len, length_app. simpl. rewrite <- Nat.add_assoc. reflexivity.
Qed.

Lemma chained_consecutive (n : nat) (a b : Z) :
  Z.to_nat (b - a) = n -> chained (map (fun i => (i, i + 1)) (range a b)).
Proof.
  revert a. induction n as [| n IH]; intros a H.
  - rewrite range_nil by lia. exact I.
  - rewrite range_cons by lia.
    specialize (IH (a + 1) ltac:(lia)).
    destruct n as [| n].
    + rewrite range_nil by lia. exact I.
    + rewrite range_cons in * by lia. simpl in *. split; [reflexivity | exact IH].
Qed.

Lemma elementary_segments_chained (p_gens w0s : list num) (T S : Z)
    (init : list (option hsegment)) (s : simulation) :
  value (elementary_segments p_gens w0s T S s) = ok init ->
  chained (live_spans init).
Proof.
  intros H. apply elementary_segments_from in H. destruct H as [-> _].
  simpl. now apply (chained_consecutive (Z.to_nat (S - 0))).
Qed.

End Heterogeneous_segments.

(** X7.  In the heterogeneous driver, whose steps count the segments from the
    left (no negative index), the live segments always tile the chain: when
    a swap step has found the segment [idx] and its right neighbour, the
    first ends at the node where the second starts, so the assertion of
    the step holds. *)
Theorem heterogeneous_swap_meets_adjacent_segments :
  forall (X : Externals) (p_gens w0s t_cohs : list num) (T S : Z)
         (steps : list tag) (p p' : settings)
         (init segments : list (option hsegment)) (s : simulation)
         (idx j : Z) (c n : hsegment),
    value (elementary_segments p_gens w0s T S s) = ok init ->
    Forall counts_from_left steps ->
    value (for_each steps (heterogeneous_step t_cohs) (p, init) s)
    = ok (p', segments) ->
    0 <= idx ->
    py_index segments idx = ok (Some c) ->
    find_right_segment segments idx = ok j ->
    py_index segments j = ok (Some n) ->
    right_end c = left_end n.
Proof.
  intros X p_gens w0s t_cohs T S steps p p' init segments s idx j c n
         Hinit Hsteps Hrun H0 Hc Hj Hn.
  pose proof (elementary_segments_chained _ _ _ _ _ _ Hinit) as Hch.
  pose proof (heterogeneous_steps_keep_chain t_cohs steps s Hsteps
                (p, init) (p', segments) Hch Hrun) as Hch'.
  exact (proj1 (adjacent_at_swap segments idx j c n H0 Hch' Hc Hj Hn)).
Qed.

Lemma heterogeneous_swap_meets_adjacent_segments_example :
  right_end (elementary_link (Fin (1 # 2)) (Fin (9 # 10)) 2, 1, 2)
  = left_end (elementary_link (Fin (1 # 2)) (Fin (9 # 10)) 2, 2, 3).
Proof.
  apply (heterogeneous_swap_meets_adjacent_segments Exact.externals
           [Fin (1 # 2); Fin (1 # 2); Fin (1 # 2)]
           [Fin (9 # 10); Fin (9 # 10); Fin (9 # 10)] [] 2 3 []
           certain_swap certain_swap
           [Some (elementary_link (Fin (1 # 2)) (Fin (9 # 10)) 2, 0, 1);
            Some (elementary_link (Fin (1 # 2)) (Fin (9 # 10)) 2, 1, 2);
            Some (elementary_link (Fin (1 # 2)) (Fin (9 # 10)) 2, 2, 3)]
           [Some (elementary_link (Fin (1 # 2)) (Fin (9 # 10)) 2, 0, 1);
            Some (elementary_link (Fin (1 # 2)) (Fin (9 # 10)) 2, 1, 2);
            Some (elementary_link (Fin (1 # 2)) (Fin (9 # 10)) 2, 2, 3)]
           (new_simulation false) 1 2).
  - reflexivity.
  - constructor.
  - reflexivity.
  - lia.
  - reflexivity.
  - reflexivity.
  - reflexivity.
Defined.

(** A negative index counts from the right, while the neighbour is still
    searched from the left: the last segment is paired with the first one
    and the assertion of the swap step fails. *)
Example swap_from_the_right_fails_the_assertion :
  value (@asymmetric_heterogeneous_protocol Exact.externals
           {| protocol := [TagStr "s" (-1)]; t_trunc := 2;
              rest := rest (scenario_S5 2) |} 2 (new_simulation false))
  = throw AssertionError.
Proof. reflexivity. Qed.

(** *** A live segment remains *)

Lemma replace_nth_In {A} (n : nat) (v : A) (l : list A) :
  (n < length l)%nat -> In v (replace_nth n v l).
Proof.
  revert n. induction l as [| a l IH]; intros [| n] H; simpl in *; try lia.
  - now left.
  - right. apply IH. lia.
Qed.

Lemma py_setitem_live {A} (l l' : list (option A)) (i : Z) (v : A) :
  py_setitem l i (Some v) = ok l' -> has_live l'.
Proof.
  unfold py_setitem. 
  set (j := if i <? 0 then i + Z.of_nat (length l) else i).
  destruct (j <? 0) eqn:C; [discriminate |].
  destruct (Z.of_nat (length l) <=? j) eqn:D; [discriminate |].
  simpl. unfold ok. intros H. injection H as <-.
  exists v. apply replace_nth_In.
  apply Z.ltb_ge in C. apply Z.leb_gt in D. lia.
Qed.

Lemma first_some_live {A} (l : list (option A)) :
  has_live l -> first_some l <> None.
Proof.
  intros [x Hx]. unfold first_some.
  induction l as [| a l IH]; [destruct Hx |].
  simpl. destruct a as [y |]; [discriminate |].
  destruct Hx as [E | Hx]; [discriminate | now apply IH].
Qed.

Section Live_segment.

Context {X : Externals}.

Lemma asymmetric_step_keeps_live (parameters : settings) (step : tag)
    (segments segments' : list (option link)) (s : simulation) :
  has_live segments ->
  value (asymmetric_step parameters step segments s) = ok segments' ->
  has_live segments'.
Proof.
  intros Hl H. unfold asymmetric_step in H.
  apply bind_inr in H. destruct H as ([operation idx] & _ & H).
  apply bind_inr in H. destruct H as (curr & _ & H).
  destruct (Ascii.eqb operation "s").
  - do 2 (apply bind_inr in H; destruct H as (? & _ & H)).
    apply bind_inr in H. destruct H as ([pmf1 w1] & _ & H).
    apply bind_inr in H. destruct H as ([pmf2 w2] & _ & H).
    apply bind_inr in H. destruct H as ([pmf w_func] & _ & H).
    apply bind_inr in H. destruct H as (segments1 & _ & H).
    apply bind_inr in H. destruct H as (segments2 & H2 & H). apply lift_inr in H2.
    unfold ret, ok in H. simpl in H. injection H as <-.
    exact (py_setitem_live _ _ _ _ H2).
  - destruct (Ascii.eqb operation "d").
    + apply bind_inr in H. destruct H as ([pmf1 w1] & _ & H).
      apply bind_inr in H. destruct H as ([pmf w_func] & _ & H).
      apply bind_inr in H. destruct H as (segments1 & H1 & H). apply lift_inr in H1.
      unfold ret, ok in H. simpl in H. injection H as <-.
      exact (py_setitem_live _ _ _ _ H1).
    + unfold ret, ok in H. simpl in H. now injection H as <-.
Qed.

Lemma heterogeneous_step_keeps_live (t_cohs : list num) (step : tag)
    (st st' : settings * list (option hsegment)) (s : simulation) :
  has_live (snd st) ->
  value (heterogeneous_step t_cohs step st s) = ok st' ->
  has_live (snd st').
Proof.
  intros Hl H. destruct st as [p segments]. unfold heterogeneous_step in H.
  apply bind_inr in H. destruct H as ([operation idx] & _ & H).
  apply bind_inr in H. destruct H as (curr & _ & H).
  destruct (Ascii.eqb operation "s").
  - do 2 (apply bind_inr in H; destruct H as (? & _ & H)).
    apply bind_inr in H. destruct H as ([[[pmf1 w1] l1] r1] & _ & H).
    apply bind_inr in H. destruct H as ([[[pmf2 w2] l2] r2] & _ & H).
    do 4 (apply bind_inr in H; destruct H as (? & _ & H)).
    apply bind_inr in H. destruct H as ([pmf w_func] & _ & H).
    apply bind_inr in H. destruct H as (segments1 & _ & H).
    apply bind_inr in H. destruct H as (segments2 & H2 & H). apply lift_inr in H2.
    unfold ret, ok in H. simpl in H. injection H as <-.
    exact (py_setitem_live _ _ _ _ H2).
  - destruct (Ascii.eqb operation "d").
    + apply bind_inr in H. destruct H as ([[[pmf1 w1] l1] r1] & _ & H).
      do 2 (apply bind_inr in H; destruct H as (? & _ & H)).
      apply bind_inr in H. destruct H as ([pmf w_func] & _ & H).
      apply bind_inr in H. destruct H as (segments1 & H1 & H). apply lift_inr in H1.
      unfold ret, ok in H. simpl in H. injection H as <-.
      exact (py_setitem_live _ _ _ _ H1).
    + unfold ret, ok in H. simpl in H. now injection H as <-.
Qed.

Lemma elementary_segments_live (p_gens w0s : list num) (T S : Z)
    (init : list (option hsegment)) (s : simulation) :
  1 <= S ->
  value (elementary_segments p_gens w0s T S s) = ok init ->
  has_live init.
Proof.
  intros HS H. apply elementary_segments_from in H. destruct H as [Sp _].
  simpl in Sp. rewrite range_cons in Sp by lia. simpl in Sp.
  clear - Sp. induction init as [| [x |] init IH].
  - discriminate Sp.
  - exists x. now left.
  - destruct (IH Sp) as [x Hx]. exists x. now right.
Qed.

End Live_segment.

(** X8.  With at least one segment, a call of the asymmetric driver that returns
    returns a link, never the pair [(None, None)]: every step that kills a
    segment stores a live one. *)
Theorem asymmetric_protocol_returns_a_link :
  forall (X : Externals) (parameters : parameters) (number_of_segments : Z)
         (s : simulation) (r : option link),
    1 <= number_of_segments ->
    value (asymmetric_protocol parameters number_of_segments s) = ok r ->
    r <> None.
Proof.
  intros X parameters S s r HS H. unfold asymmetric_protocol in H.
  destruct (is_iterable (p_gen (rest parameters))).
  - apply bind_inr in H. destruct H as (_ & _ & H).
    destruct (cutoff (rest parameters)); [discriminate H |].
    destruct (all_level_key (rest parameters)); [discriminate H |].
    unfold asymmetric_heterogeneous_protocol in H.
    destruct (p_gen (rest parameters)) as [| p_gens]; [discriminate H |].
    destruct (w0 (rest parameters)) as [| w0s]; [discriminate H |].
    destruct (t_coh (rest parameters)) as [[| t_cohs] |]; try discriminate H.
    apply bind_inr in H. destruct H as (init & Hinit & H).
    apply bind_inr in H. destruct H as (st & Hst & H).
    assert (Hl : has_live (snd st)).
    { revert Hst.
      apply (for_each_invariant (fun st => has_live (snd st))
               (heterogeneous_step t_cohs)).
      - intros step st0 st1. apply heterogeneous_step_keeps_live.
      - exact (elementary_segments_live _ _ _ _ _ _ HS Hinit). }
    apply first_some_live in Hl.
    unfold ret, ok in H. simpl in H. injection H as <-.
    destruct (first_some (snd st)) as [[[[pmf w] l] r'] |]; congruence.
  - apply bind_inr in H. destruct H as (p & _ & H).
    apply bind_inr in H. destruct H as (w & _ & H).
    apply bind_inr in H. destruct H as (segments & Hst & H).
    assert (Hl : has_live segments).
    { revert Hst.
      apply (for_each_invariant has_live (asymmetric_step (rest parameters))).
      - intros step st0 st1. apply asymmetric_step_keeps_live.
      - exists (elementary_link p w (t_trunc parameters)).
        replace (Z.to_nat S) with (Datatypes.S (Z.to_nat S - 1)) by lia.
        now left. }
    unfold ret, ok in H. simpl in H. injection H as <-.
    now apply first_some_live.
Qed.

Lemma asymmetric_protocol_returns_a_link_example :
  Some ([zero; one], [zero; Fin (81 # 100)]) <> None.
Proof.
  apply (asymmetric_protocol_returns_a_link Exact.externals certain_swap_of_two 2
           (new_simulation false)).
  - lia.
  - reflexivity.
Defined.

(** *** Steps that are neither a swap nor a distillation *)

Lemma py_index_defined {A} (l : list A) (i : Z) :
  - Z.of_nat (length l) <= i < Z.of_nat (length l) ->
  exists a, py_index l i = ok a.
Proof.
  intros H. unfold py_index.
  set (j := if i <? 0 then i + Z.of_nat (length l) else i).
  assert (Hj : 0 <= j < Z.of_nat (length l))
    by (subst j; destruct (i <? 0) eqn:C;
        [apply Z.ltb_lt in C | apply Z.ltb_ge in C]; lia).
  destruct (j <? 0) eqn:C; [apply Z.ltb_lt in C; lia |].
  destruct (nth_error l (Z.to_nat j)) as [a |] eqn:E; [now exists a |].
  apply nth_error_None in E. lia.
Qed.

Lemma py_setitem_length {A} (l l' : list A) (i : Z) (v : A) :
  py_setitem l i v = ok l' -> length l' = length l.
Proof.
  unfold py_setitem.
  destruct ((_ <? 0) || (_ <=? _)); [discriminate |].
  unfold ok. intros H. injection H as <-. apply replace_nth_length.
Qed.

Lemma skip_in_loop {A S} (pre post : list A) (x : A) (body : A -> S -> M S)
    (st : S) (s : simulation) :
  (forall st1, value (for_each pre body st s) = ok st1 ->
               body x st1 s = Outcome (ok st1) []) ->
  for_each (pre ++ x :: post) body st s = for_each (pre ++ post) body st s.
Proof.
  intros H. rewrite !for_each_app. unfold bind at 1 2.
  destruct (value (for_each pre body st s)) as [e | st1] eqn:E; [reflexivity |].
  simpl for_each. now rewrite (bind_silent _ _ _ _ (H st1 eq_refl)).
Qed.

Section Other_steps.

Context {X : Externals}.

Lemma asymmetric_step_length (parameters : settings) (step : tag)
    (segments segments' : list (option link)) (s : simulation) :
  value (asymmetric_step parameters step segments s) = ok segments' ->
  length segments' = length segments.
Proof.
  intros H. unfold asymmetric_step in H.
  apply bind_inr in H. destruct H as ([operation idx] & _ & H).
  apply bind_inr in H. destruct H as (curr & _ & H).
  destruct (Ascii.eqb operation "s").
  - do 2 (apply bind_inr in H; destruct H as (? & _ & H)).
    apply bind_inr in H. destruct H as ([pmf1 w1] & _ & H).
    apply bind_inr in H. destruct H as ([pmf2 w2] & _ & H).
    apply bind_inr in H. destruct H as ([pmf w_func] & _ & H).
    apply bind_inr in H. destruct H as (segments1 & H1 & H). apply lift_inr in H1.
    apply bind_inr in H. destruct H as (segments2 & H2 & H). apply lift_inr in H2.
    unfold ret, ok in H. simpl in H. injection H as <-.
    apply py_setitem_length in H1, H2. congruence.
  - destruct (Ascii.eqb operation "d").
    + apply bind_inr in H. destruct H as ([pmf1 w1] & _ & H).
      apply bind_inr in H. destruct H as ([pmf w_func] & _ & H).
      apply bind_inr in H. destruct H as (segments1 & H1 & H). apply lift_inr in H1.
      unfold ret, ok in H. simpl in H. injection H as <-.
      now apply py_setitem_length in H1.
    + unfold ret, ok in H. simpl in H. now injection H as <-.
Qed.

Lemma asymmetric_step_other (parameters : settings) (operation : ascii) (idx : Z)
    (segments : list (option link)) (s : simulation) :
  Ascii.eqb operation "s" = false ->
  Ascii.eqb operation "d" = false ->
  - Z.of_nat (length segments) <= idx < Z.of_nat (length segments) ->
  asymmetric_step parameters (TagStr operation idx) segments s
  = Outcome (ok segments) [].
Proof.
  intros Hs Hd Hi. unfold asymmetric_step.
  change (parse_step (TagStr operation idx)) with (ok (operation, idx)).
  rewrite bind_lift_ok.
  destruct (py_index_defined segments idx Hi) as [curr ->].
  rewrite bind_lift_ok, Hs, Hd. reflexivity.
Qed.

End Other_steps.

(** X9.  In the homogeneous asymmetric driver a step whose operation letter is
    neither ['s'] nor ['d'] is passed over, provided its index names a
    segment (counted from either end): the call is the call without that
    step, with the same events. *)
Theorem asymmetric_step_of_other_letter_is_skipped :
  forall (X : Externals) (pre post : list tag) (operation : ascii) (idx : Z)
         (T : Z) (h : settings) (number_of_segments : Z) (s : simulation),
    Ascii.eqb operation "s" = false ->
    Ascii.eqb operation "d" = false ->
    is_iterable (p_gen h) = false ->
    - number_of_segments <= idx < number_of_segments ->
    asymmetric_protocol
      {| protocol := pre ++ TagStr operation idx :: post; t_trunc := T; rest := h |}
      number_of_segments s
    = asymmetric_protocol
        {| protocol := pre ++ post; t_trunc := T; rest := h |}
        number_of_segments s.
Proof.
  intros X pre post operation idx T h S s Hs Hd Hp Hi.
  unfold asymmetric_protocol. cbn [rest protocol t_trunc].
  rewrite Hp.
  apply bind_ext. intros p. apply bind_ext. intros w.
  unfold bind at 1 2.
  rewrite (skip_in_loop pre post (TagStr operation idx)); [reflexivity |].
  intros segments Hrun.
  apply asymmetric_step_other; auto.
  assert (L : length segments = Z.to_nat S).
  { revert Hrun.
    apply (for_each_invariant (fun l => length l = Z.to_nat S)
             (asymmetric_step h)).
    - intros step st0 st1 L0 H1. apply asymmetric_step_length in H1. congruence.
    - apply repeat_length. }
  rewrite L. lia.
Qed.

Lemma asymmetric_step_of_other_letter_is_skipped_example :
  @asymmetric_protocol Exact.externals
    {| protocol := [TagStr "s" 0] ++ TagStr "x" (-1) :: []; t_trunc := 2;
       rest := certain_swap |} 2 (new_simulation false)
  = @asymmetric_protocol Exact.externals
      {| protocol := [TagStr "s" 0] ++ []; t_trunc := 2; rest := certain_swap |}
      2 (new_simulation false).
Proof.
  apply (asymmetric_step_of_other_letter_is_skipped Exact.externals
           [TagStr "s" 0] [] "x" (-1) 2 certain_swap 2 (new_simulation false));
    try reflexivity.
  lia.
Defined.

(** *** One step in both drivers *)

Lemma bind_ret_map {A B} (m : M A) (f : A -> B) (s : simulation) :
  bind m (fun a => ret (f a)) s
  = Outcome (match value (m s) with inl e => inl e | inr a => inr (f a) end)
            (emitted (m s)).
Proof.
  unfold bind, ret. destruct (value (m s)); simpl; [reflexivity |].
  now rewrite app_nil_r.
Qed.

Lemma bind_same_head {A B} (m m' : M A) (k : A -> M B) (s : simulation) :
  m s = m' s -> bind m k s = bind m' k s.
Proof. unfold bind. now intros ->. Qed.

Section Both_drivers.

Context {X : Externals}.

(** What [compute_unit] reads of its dictionary. *)
Lemma compute_unit_reads (p p' : settings) (pmf1 w1 : array)
    (pmf2 w2 : option array) (unit_kind : string) (s : simulation) :
  p_swap p = p_swap p' -> t_coh p = t_coh p' -> cut_type p = cut_type p' ->
  select_cutoff p (get_or (cut_type p) "memory_time")
  = select_cutoff p' (get_or (cut_type p') "memory_time") ->
  compute_unit p pmf1 w1 pmf2 w2 unit_kind s
  = compute_unit p' pmf1 w1 pmf2 w2 unit_kind s.
Proof.
  intros Hs Ht Hc Hsel. unfold compute_unit.
  now rewrite Hsel, Hs, Ht, Hc.
Qed.

Lemma select_cutoff_of_level (h : settings) (m w r : pyval) :
  cutoff_dict h = None -> tau h = None ->
  get_or (mt_cut h) (Scalar (PyInt iinfo_int_max)) = Scalar m ->
  get_or (w_cut h) default_level_w_cut = Scalar w ->
  get_or (rt_cut h) (Scalar (PyInt iinfo_int_max)) = Scalar r ->
  default_fidelity_cut h = false ->
  select_cutoff
    (set_rt_cut (Some (Scalar r))
       (set_w_cut (Some (Scalar w)) (set_mt_cut (Some (Scalar m)) h)))
    (get_or (cut_type h) "memory_time")
  = select_cutoff h (get_or (cut_type h) "memory_time").
Proof.
  intros _ _ Hm Hw Hr Hd. unfold select_cutoff, default_fidelity_cut in *.
  cbn [cutoff mt_cut w_cut rt_cut set_rt_cut set_w_cut set_mt_cut].
  destruct (cutoff h) as [c |]; [reflexivity |].
  destruct (cut_type h) as [ct |]; cbn [get_or] in *.
  - destruct (String.eqb ct "memory_time"); [now rewrite Hm |].
    destruct (String.eqb ct "fidelity").
    + destruct (w_cut h) as [c |]; [| discriminate].
      cbn [get_or] in *. subst c. reflexivity.
    + destruct (String.eqb ct "run_time"); [now rewrite Hr | reflexivity].
  - change (String.eqb "memory_time" "memory_time") with true. cbv iota.
    now rewrite Hm.
Qed.

Lemma nested_single_step_levels (T : Z) (h : settings) (z : Z) (p w : num)
    (s : simulation) :
  use_cache s = false -> p_gen h = Scalar p -> w0 h = Scalar w ->
  tau h = None -> cutoff_dict h = None -> scalar_cutoffs h ->
  exists m wc r,
    get_or (mt_cut h) (Scalar (PyInt iinfo_int_max)) = Scalar m /\
    get_or (w_cut h) default_level_w_cut = Scalar wc /\
    get_or (rt_cut h) (Scalar (PyInt iinfo_int_max)) = Scalar r /\
    (r <- nested_protocol {| protocol := [TagInt z]; t_trunc := T; rest := h |} ;;
     ret (Some (fst r))) s
    = (l <- match z with
            | 0 => compute_unit
                     (set_rt_cut (Some (Scalar r))
                        (set_w_cut (Some (Scalar wc))
                           (set_mt_cut (Some (Scalar m)) h)))
                     (fst (elementary_link p w T))
                     (snd (elementary_link p w T)) None None "swap"
            | 1 => compute_unit
                     (set_rt_cut (Some (Scalar r))
                        (set_w_cut (Some (Scalar wc))
                           (set_mt_cut (Some (Scalar m)) h)))
                     (fst (elementary_link p w T))
                     (snd (elementary_link p w T)) None None "dist"
            | _ => ret (elementary_link p w T)
            end ;;
       ret (Some l)) s.
Proof.
  intros Hc Hp Hw Htau Hdict (Hm & Hwc & Hr & Hcut).
  unfold rename_tau in *. rewrite Htau in *.
  unfold level_cutoffs in *. rewrite Hdict in *. cbn [fst snd] in *.
  destruct (expand_scalar _ 1 Hm) as (m & Em & Xm).
  destruct (expand_scalar _ 1 Hwc) as (wc & Ew & Xw).
  destruct (expand_scalar _ 1 Hr) as (r & Er & Xr).
  exists m, wc, r. repeat (split; [assumption |]).
  unfold nested_protocol.
  rewrite bind_assoc, bind_self, bind_assoc.
  rewrite (bind_silent _ _ _ _ (lookup_cache_disabled _ s Hc)).
  cbn [fst snd protocol t_trunc rest].
  unfold rename_tau. rewrite Htau.
  unfold starting_link. rewrite Hp, Hw.
  change (scalar_of (Scalar p)) with (ok p).
  change (scalar_of (Scalar w)) with (ok w).
  repeat (rewrite bind_assoc || rewrite bind_lift_ok || rewrite bind_ret).
  unfold nested_loop, level_cutoffs. rewrite Hdict. cbn [fst snd length Nat.sub seq].
  rewrite Xm, Xw, Xr.
  cbn [for_each].
  repeat (rewrite bind_assoc || rewrite bind_lift_ok || rewrite bind_ret).
  destruct (elementary_link p w T) as [pmf wf] eqn:El.
  unfold nested_step.
  repeat (rewrite bind_assoc || rewrite bind_lift_ok || rewrite bind_ret || rewrite bind_self).
  change (py_index [TagInt z] (Z.of_nat 0)) with (ok (TagInt z)).
  repeat (rewrite bind_assoc || rewrite bind_lift_ok || rewrite bind_ret || rewrite bind_self).
  assert (Hlev : level_parameters (cutoff h) (repeat m 1) (repeat wc 1)
                   (repeat r 1) 0 h
                 = ok (set_rt_cut (Some (Scalar r))
                         (set_w_cut (Some (Scalar wc))
                            (set_mt_cut (Some (Scalar m)) h)))).
  { unfold level_parameters. simpl.
    destruct (cutoff h) as [[v | cs] |]; try contradiction; reflexivity. }
  rewrite Hlev, bind_lift_ok.
  cbn [fst snd].
  unfold bind, ret. cbv zeta.
  destruct z as [| [q | q |] | q]; try reflexivity;
    match goal with
    | |- context [value (?m s)] =>
        destruct (m s) as [[e | [a b]] evs]
    end; simpl; rewrite ?app_nil_r; reflexivity.
Qed.

Lemma nested_single_step (T : Z) (h : settings) (z : Z) (p w : num)
    (s : simulation) :
  use_cache s = false -> p_gen h = Scalar p -> w0 h = Scalar w ->
  tau h = None -> cutoff_dict h = None -> scalar_cutoffs h ->
  default_fidelity_cut h = false ->
  (r <- nested_protocol {| protocol := [TagInt z]; t_trunc := T; rest := h |} ;;
   ret (Some (fst r))) s
  = (l <- match z with
          | 0 => compute_unit h (fst (elementary_link p w T))
                   (snd (elementary_link p w T)) None None "swap"
          | 1 => compute_unit h (fst (elementary_link p w T))
                   (snd (elementary_link p w T)) None None "dist"
          | _ => ret (elementary_link p w T)
          end ;;
     ret (Some l)) s.
Proof.
  intros Hc Hp Hw Htau Hdict Hs Hd.
  destruct (nested_single_step_levels T h z p w s Hc Hp Hw Htau Hdict Hs)
    as (m & wc & r & Em & Ew & Er & ->).
  assert (Hcu : forall kind,
             compute_unit (set_rt_cut (Some (Scalar r))
                             (set_w_cut (Some (Scalar wc))
                                (set_mt_cut (Some (Scalar m)) h)))
                          (fst (elementary_link p w T))
                          (snd (elementary_link p w T)) None None kind s
             = compute_unit h (fst (elementary_link p w T))
                 (snd (elementary_link p w T)) None None kind s).
  { intros kind. apply compute_unit_reads; try reflexivity.
    exact (select_cutoff_of_level h m wc r Hdict Htau Em Ew Er Hd). }
  destruct z as [| [q | q |] | q];
    first [apply bind_same_head; apply Hcu | reflexivity].
Qed.

(** With the cut type ["fidelity"] and no cut-off given, the symmetric
    driver hands its own default [1.e-8] to the unit. *)
Lemma nested_single_step_default_fidelity (T : Z) (h : settings) (p w : num)
    (s : simulation) :
  use_cache s = false -> p_gen h = Scalar p -> w0 h = Scalar w ->
  tau h = None -> cutoff_dict h = None -> scalar_cutoffs h ->
  default_fidelity_cut h = true ->
  (r <- nested_protocol {| protocol := [TagInt 0]; t_trunc := T; rest := h |} ;;
   ret (Some (fst r))) s
  = (l <- compute_unit (set_w_cut (Some default_level_w_cut) h)
            (fst (elementary_link p w T))
            (snd (elementary_link p w T)) None None "swap" ;;
     ret (Some l)) s.
Proof.
  intros Hc Hp Hw Htau Hdict Hs Hd.
  destruct (nested_single_step_levels T h 0 p w s Hc Hp Hw Htau Hdict Hs)
    as (m & wc & r & Em & Ew & Er & ->).
  apply bind_same_head. apply compute_unit_reads; try reflexivity.
  unfold default_fidelity_cut in Hd. unfold select_cutoff.
  cbn [cutoff mt_cut w_cut rt_cut cut_type set_rt_cut set_w_cut set_mt_cut].
  destruct (cut_type h) as [ct |]; [| discriminate].
  destruct (cutoff h); [discriminate |].
  destruct (w_cut h); [discriminate |].
  cbn [get_or] in *. rewrite Hd.
  apply String.eqb_eq in Hd. subst ct.
  change (String.eqb "fidelity" "memory_time") with false. cbv iota.
  unfold default_level_w_cut in Ew. injection Ew as <-. reflexivity.
Qed.

Lemma asymmetric_single_swap (T : Z) (h : settings) (p w : num) (s : simulation) :
  p_gen h = Scalar p -> w0 h = Scalar w ->
  asymmetric_protocol {| protocol := [TagStr "s" 0]; t_trunc := T; rest := h |} 2 s
  = (l <- compute_unit h (fst (elementary_link p w T))
            (snd (elementary_link p w T)) None None "swap" ;;
     ret (Some l)) s.
Proof.
  intros Hp Hw. unfold asymmetric_protocol. cbn [rest protocol t_trunc].
  rewrite Hp, Hw. cbn [is_iterable].
  change (scalar_of (Scalar p)) with (ok p).
  change (scalar_of (Scalar w)) with (ok w).
  rewrite !bind_lift_ok. cbn [for_each].
  change (repeat (Some (elementary_link p w T)) (Z.to_nat 2))
    with [Some (elementary_link p w T); Some (elementary_link p w T)].
  rewrite bind_assoc.
  rewrite (bind_same_head _ _ _ _
             (swap_step_with_right_neighbour h
                [Some (elementary_link p w T); Some (elementary_link p w T)] 0 1
                (elementary_link p w T) (elementary_link p w T) s
                ltac:(lia) eq_refl eq_refl ltac:(intros m Hm; lia))).
  rewrite !bind_assoc.
  apply bind_ext. intros l. now rewrite !bind_ret.
Qed.

Lemma asymmetric_single_dist (T : Z) (h : settings) (p w : num) (s : simulation) :
  p_gen h = Scalar p -> w0 h = Scalar w ->
  asymmetric_protocol {| protocol := [TagStr "d" 0]; t_trunc := T; rest := h |} 1 s
  = (l <- compute_unit h (fst (elementary_link p w T))
            (snd (elementary_link p w T)) None None "dist" ;;
     ret (Some l)) s.
Proof.
  intros Hp Hw. unfold asymmetric_protocol. cbn [rest protocol t_trunc].
  rewrite Hp, Hw. cbn [is_iterable].
  change (scalar_of (Scalar p)) with (ok p).
  change (scalar_of (Scalar w)) with (ok w).
  rewrite !bind_lift_ok. cbn [for_each].
  change (repeat (Some (elementary_link p w T)) (Z.to_nat 1))
    with [Some (elementary_link p w T)].
  unfold asymmetric_step.
  change (parse_step (TagStr "d" 0)) with (ok ("d"%char, 0)).
  repeat (rewrite bind_assoc || rewrite bind_lift_ok).
  change (py_index [Some (elementary_link p w T)] 0)
    with (ok (Some (elementary_link p w T))).
  rewrite bind_lift_ok.
  change (Ascii.eqb "d" "s") with false. change (Ascii.eqb "d" "d") with true.
  cbv iota. destruct (elementary_link p w T) as [pmf wf].
  cbn [unpack fst snd].
  repeat (rewrite bind_assoc || rewrite bind_lift_ok).
  apply bind_ext. intros [pmf' wf'].
  change (py_setitem [Some (pmf, wf)] 0 (Some (pmf', wf')))
    with (ok [Some (pmf', wf')]).
  repeat (rewrite bind_assoc || rewrite bind_lift_ok || rewrite bind_ret).
  reflexivity.
Qed.

End Both_drivers.

(** X10.  A protocol of one step gives the same outcome, events included, in
    the symmetric driver and in the homogeneous asymmetric driver: one swap
    of two segments, or one distillation on one segment.  The cut-offs are
    single numbers given under the keys both drivers read (no ["tau"], no
    ["cutoff_dict"]), and the fidelity cut-off is not left to the defaults,
    which differ between the two drivers. *)
Theorem one_step_is_the_same_in_both_drivers :
  forall (X : Externals) (T : Z) (h : settings) (p w : num) (s : simulation),
    use_cache s = false ->
    p_gen h = Scalar p -> w0 h = Scalar w ->
    tau h = None -> cutoff_dict h = None -> scalar_cutoffs h ->
    default_fidelity_cut h = false ->
    asymmetric_protocol
      {| protocol := [TagStr "s" 0]; t_trunc := T; rest := h |} 2 s
    = (r <- nested_protocol {| protocol := [TagInt 0]; t_trunc := T; rest := h |} ;;
       ret (Some (fst r))) s
    /\
    asymmetric_protocol
      {| protocol := [TagStr "d" 0]; t_trunc := T; rest := h |} 1 s
    = (r <- nested_protocol {| protocol := [TagInt 1]; t_trunc := T; rest := h |} ;;
       ret (Some (fst r))) s.
Proof.
  intros X T h p w s Hc Hp Hw Htau Hdict Hs Hd. split.
  - rewrite (nested_single_step T h 0 p w s); auto.
    now apply asymmetric_single_swap.
  - rewrite (nested_single_step T h 1 p w s); auto.
    now apply asymmetric_single_dist.
Qed.

Lemma one_step_is_the_same_in_both_drivers_example :
  @asymmetric_protocol Exact.externals
    {| protocol := [TagStr "s" 0]; t_trunc := 2; rest := certain_swap |} 2
    (new_simulation false)
  = (r <- @nested_protocol Exact.externals
            {| protocol := [TagInt 0]; t_trunc := 2; rest := certain_swap |} ;;
     ret (Some (fst r))) (new_simulation false)
  /\
  @asymmetric_protocol Exact.externals
    {| protocol := [TagStr "d" 0]; t_trunc := 2; rest := certain_swap |} 1
    (new_simulation false)
  = (r <- @nested_protocol Exact.externals
            {| protocol := [TagInt 1]; t_trunc := 2; rest := certain_swap |} ;;
     ret (Some (fst r))) (new_simulation false).
Proof.
  apply (one_step_is_the_same_in_both_drivers Exact.externals 2 certain_swap
           one (Fin (9 # 10)) (new_simulation false));
    try reflexivity.
  repeat split; reflexivity.
Defined.

(** X11.  With the cut type ["fidelity"] and no cut-off given under ["cutoff"] or
    ["w_cut"], the two drivers fall back on different defaults: the
    symmetric driver runs the swap as if ["w_cut"] were [1.e-8], the
    asymmetric driver as if it were [1.0e-16]. *)
Theorem each_driver_has_its_own_default_fidelity_cutoff :
  forall (X : Externals) (T : Z) (h : settings) (p w : num) (s : simulation),
    use_cache s = false ->
    p_gen h = Scalar p -> w0 h = Scalar w ->
    tau h = None -> cutoff_dict h = None -> scalar_cutoffs h ->
    default_fidelity_cut h = true ->
    (r <- nested_protocol {| protocol := [TagInt 0]; t_trunc := T; rest := h |} ;;
     ret (Some (fst r))) s
    = asymmetric_protocol
        {| protocol := [TagStr "s" 0]; t_trunc := T;
           rest := set_w_cut (Some default_level_w_cut) h |} 2 s
    /\
    asymmetric_protocol
      {| protocol := [TagStr "s" 0]; t_trunc := T; rest := h |} 2 s
    = asymmetric_protocol
        {| protocol := [TagStr "s" 0]; t_trunc := T;
           rest := set_w_cut (Some (Scalar default_w_cut)) h |} 2 s.
Proof.
  intros X T h p w s Hc Hp Hw Htau Hdict Hs Hd. split.
  - rewrite (nested_single_step_default_fidelity T h p w s); auto.
    symmetry. now apply asymmetric_single_swap.
  - rewrite (asymmetric_single_swap T h p w s Hp Hw).
    rewrite (asymmetric_single_swap T (set_w_cut (Some (Scalar default_w_cut)) h)
               p w s Hp Hw).
    apply bind_same_head. apply compute_unit_reads; try reflexivity.
    unfold default_fidelity_cut in Hd. unfold select_cutoff.
    cbn [cutoff mt_cut w_cut rt_cut cut_type set_w_cut].
    destruct (cut_type h) as [ct |]; [| discriminate].
    destruct (cutoff h); [discriminate |].
    destruct (w_cut h); [discriminate |].
    cbn [get_or]. apply String.eqb_eq in Hd. subst ct. reflexivity.
Qed.

Lemma each_driver_has_its_own_default_fidelity_cutoff_example :
  (r <- @nested_protocol Exact.externals
          {| protocol := [TagInt 0]; t_trunc := 2; rest := fidelity_by_default |} ;;
   ret (Some (fst r))) (new_simulation false)
  = @asymmetric_protocol Exact.externals
      {| protocol := [TagStr "s" 0]; t_trunc := 2;
         rest := set_w_cut (Some default_level_w_cut) fidelity_by_default |} 2
      (new_simulation false)
  /\
  @asymmetric_protocol Exact.externals
    {| protocol := [TagStr "s" 0]; t_trunc := 2; rest := fidelity_by_default |} 2
    (new_simulation false)
  = @asymmetric_protocol Exact.externals
      {| protocol := [TagStr "s" 0]; t_trunc := 2;
         rest := set_w_cut (Some (Scalar default_w_cut)) fidelity_by_default |} 2
      (new_simulation false).
Proof.
  apply (each_driver_has_its_own_default_fidelity_cutoff Exact.externals 2
           fidelity_by_default one (Fin (9 # 10)) (new_simulation false));
    try reflexivity.
  repeat split; reflexivity.
Defined.

(** ** More on the iterative convolution and the units *)

Section Round_count.

Context {X : Externals}.

Lemma required_convolutions_unit_mass (func : array) (shift : Z)
    (p_swap : option num) (q : Q) (s : simulation) :
  remaining_mass func p_swap = one ->
  np_log one = zero ->
  np_log (of_Z (Z.of_nat (length func))) = Fin q ->
  Qlt (- (52)) q ->
  required_convolutions func shift p_swap s = Outcome (throw OverflowError) [].
Proof.
  intros Hpf Hone Hlog Hq. unfold required_convolutions, remaining_mass in *.
  rewrite Hpf, Hone, Hlog.
  change (one <=? zero)%num with false. cbv iota.
  assert (E : ((of_Z (-52) - Fin q) / zero)%num = NInf).
  { unfold of_Z, Num.sub, Num.opp, Num.add, Num.div, zero.
    change (Qeq_bool 0 0) with true. cbv iota.
    assert (L : Qcompare (Qred (inject_Z (-52) + Qred (- q))) 0 = Lt).
    { apply Qlt_alt. rewrite !Qred_correct.
      change (inject_Z (-52)) with (- (52))%Q.
      apply Qlt_minus_iff in Hq. apply Qlt_minus_iff.
      setoid_replace (0 - (- (52) + - q))%Q with (q + - - (52))%Q by ring.
      exact Hq. }
    now rewrite L. }
  rewrite E.
  set (mk := if shift =? 0 then _ else _).
  change (py_min (PyInt mk) (PyFloat NInf)) with (PyFloat NInf).
  reflexivity.
Qed.

End Round_count.

(** X12.  A [func] whose mass [pf] is exactly 1 (with [p_swap] taken into account
    when it is given): the bound on the number of rounds is a division by
    [log 1 = 0], minus infinity, and its conversion by [int] raises
    [OverflowError]. *)
Theorem unit_mass_overflows_the_round_count :
  forall (X : Externals) (func : array) (shift : Z) (first_func : option array)
         (p_swap : option num) (q : Q) (s : simulation),
    remaining_mass func p_swap = one ->
    np_log one = zero ->
    np_log (of_Z (Z.of_nat (length func))) = Fin q ->
    Qlt (- (52)) q ->
    iterative_convolution func shift first_func p_swap s
    = Outcome (throw OverflowError) [].
Proof.
  intros X func shift first_func p_swap q s Hpf Hone Hlog Hq.
  unfold iterative_convolution.
  now rewrite (bind_raise _ _ _ _
                 (f_equal value (required_convolutions_unit_mass func shift p_swap q s
                                   Hpf Hone Hlog Hq))),
              (required_convolutions_unit_mass func shift p_swap q s Hpf Hone Hlog Hq).
Qed.

Lemma unit_mass_overflows_the_round_count_example :
  @iterative_convolution Exact.externals [one] 0 None None (new_simulation false)
  = Outcome (throw OverflowError) [].
Proof.
  apply (unit_mass_overflows_the_round_count Exact.externals [one] 0 None None 0);
    reflexivity.
Defined.

Section Padding.

Context {X : Externals}.

Lemma fft_path_length_padded (func convolved r : array) (trunc : nat)
    (p_swap : option num) (n : Z) (s : simulation) :
  transforms_keep_length X ->
  zero_padding_size s = Some n ->
  value (fft_path func convolved trunc p_swap s) = ok r ->
  length r = Nat.min trunc (Z.to_nat n).
Proof.
  intros [Hfft Hifft] Hn. unfold fft_path. rewrite bind_self, Hn. intros H.
  cbn [fft_shape] in H. rewrite bind_lift_ok in H.
  apply bind_inr in H. destruct H as (cf & Hc & H).
  apply bind_inr in H. destruct H as (ff & Hf & H).
  apply bind_inr in H. destruct H as (padded & Hi & H).
  apply bind_inr in H. destruct H as (last_term & _ & H).
  apply bind_inr in H. destruct H as (u & _ & H).
  cbv [ret value ok] in H. injection H as <-.
  rewrite length_map, length_firstn.
  rewrite (Hifft _ _ (lift_inr _ s _ Hi)), length_map, length_combine.
  rewrite (Hfft _ _ _ (lift_inr _ s _ Hc)), (Hfft _ _ _ (lift_inr _ s _ Hf)).
  lia.
Qed.

End Padding.

Section Padding_refused.

Context {X : Externals}.

Lemma helper_padded_length (func first_func : array) (trunc : nat) (shift : Z)
    (p_swap : option num) (max_k n : Z) (s : simulation) (row : array) :
  transforms_keep_length X ->
  use_fft s = true ->
  zero_padding_size s = Some n ->
  value (iterative_convolution_helper func first_func trunc shift p_swap max_k s)
  = ok row ->
  length row = Nat.min trunc (Z.to_nat n).
Proof.
  intros Ht Hu Hn H. unfold iterative_convolution_helper in H.
  apply bind_inr in H. destruct H as (sum_convolved & _ & H).
  apply bind_inr in H. destruct H as (func' & _ & H).
  rewrite bind_self, Hu in H.
  exact (fft_path_length_padded _ _ _ _ _ _ _ Ht Hn H).
Qed.

Lemma row_assign_refused (trunc : nat) (row : array) :
  (1 < length row)%nat -> length row <> trunc ->
  row_assign trunc row = throw (ValueError "could not broadcast input array").
Proof.
  intros H1 Hne. unfold row_assign.
  destruct (length row =? trunc)%nat eqn:E; [apply Nat.eqb_eq in E; contradiction |].
  destruct row as [| x [| y row]]; simpl in H1; try lia; reflexivity.
Qed.

End Padding_refused.

(** X13.  The array a call of [iterative_convolution] returns is a row of
    the result buffer: it has the length of [func], whatever the padding.
    A padding size set by the caller below the window does not shorten the
    result: with transforms of the padded size and
    [1 < zero_padding_size < len(func)] the samples of the Fourier path do
    not fit the buffer and the call raises instead of returning. *)
Theorem padding_below_the_window_is_refused :
  forall (X : Externals) (func : array) (shift : Z) (first_func : option array)
         (p_swap : option num) (s : simulation),
    (forall r,
        value (iterative_convolution func shift first_func p_swap s) = ok r ->
        length r = length func)
    /\
    (forall n,
        transforms_keep_length X ->
        use_fft s = true ->
        zero_padding_size s = Some n ->
        1 < n < Z.of_nat (length func) ->
        exists e,
          value (iterative_convolution func shift first_func p_swap s) = inl e).
Proof.
  intros X func shift first_func p_swap s. split.
  - intros r H.
    destruct (iterative_convolution_returned _ _ _ _ _ _ H)
      as (max_k & row & _ & _ & Ha).
    exact (row_assign_length _ _ _ Ha).
  - intros n Ht Hu Hn Hsize.
    destruct (value (iterative_convolution func shift first_func p_swap s))
      as [e | r] eqn:E; [now exists e |].
    exfalso.
    destruct (iterative_convolution_returned _ _ _ _ _ _ E)
      as (max_k & row & _ & Hrow & Ha).
    pose proof (helper_padded_length _ _ _ _ _ _ _ _ _ Ht Hu Hn Hrow) as L.
    rewrite row_assign_refused in Ha by lia. discriminate.
Qed.

(** Three samples with a padding of two: the helper has two samples for a
    buffer of three, and the assignment raises. *)
Lemma padding_below_the_window_is_refused_example :
  value (@iterative_convolution_helper Exact.externals
           [zero; Fin (1 # 2); Fin (1 # 4)] [zero; Fin (1 # 2); Fin (1 # 4)]
           3 0 None 3 tight_padding)
  = ok [Fin (1 # 3); Fin (2 # 3)] /\
  value (@iterative_convolution Exact.externals
           [zero; Fin (1 # 2); Fin (1 # 4)] 0 None None tight_padding)
  = throw (ValueError "could not broadcast input array") /\
  exists e,
    value (@iterative_convolution Exact.externals
             [zero; Fin (1 # 2); Fin (1 # 4)] 0 None None tight_padding)
    = inl e.
Proof.
  split; [vm_compute; reflexivity |].
  split; [vm_compute; reflexivity |].
  apply (proj2 (padding_below_the_window_is_refused Exact.externals
                  [zero; Fin (1 # 2); Fin (1 # 4)] 0 None None tight_padding) 2).
  - exact exact_transforms_keep_length.
  - reflexivity.
  - reflexivity.
  - simpl. lia.
Defined.

(** A padding of one sample is not refused: the one sample of the Fourier
    path is broadcast over the row of the buffer. *)
Example padding_of_one_sample_is_broadcast :
  @iterative_convolution Exact.externals
    [Fin (1 # 4); Fin (1 # 2); Fin (1 # 4)] 0 None (Some (Fin (1 # 2)))
    single_sample_padding
  = Outcome (ok [Fin (1 # 7); Fin (1 # 7); Fin (1 # 7)])
      [warning_zero_padding 1 (Fin (1 # 7), zero)].
Proof. vm_compute. reflexivity. Qed.

(** *** The type check of the time cut-offs *)

Section Time_cutoff.

Context {X : Externals}.

Lemma time_cutoff_check (cut_type : string) (cutoff : cut_spec) :
  (String.eqb cut_type "memory_time" || String.eqb cut_type "run_time") = true ->
  is_integer cutoff = false ->
  check_cutoff cut_type cutoff = throw (TypeError "Time cut-off must be an integer.").
Proof. intros Hc Hi. unfold check_cutoff. now rewrite Hc, Hi. Qed.

End Time_cutoff.

(** X14.  With the cut type ["memory_time"] (the default) or ["run_time"], a
    cut-off that is not a Python integer, such as the float [5.0] or a
    sequence, makes [compute_unit] raise [TypeError] before any kernel is
    called and before anything is logged.  The message is the fixed part
    of the text; the code appends the cut-off it was given. *)
Theorem time_cutoff_must_be_an_integer :
  forall (X : Externals) (parameters : settings) (pmf1 w_func1 : array)
         (pmf2 w_func2 : option array) (unit_kind : string) (s : simulation),
    (String.eqb (get_or (cut_type parameters) "memory_time") "memory_time"
     || String.eqb (get_or (cut_type parameters) "memory_time") "run_time") = true ->
    is_integer (select_cutoff parameters (get_or (cut_type parameters) "memory_time"))
    = false ->
    compute_unit parameters pmf1 w_func1 pmf2 w_func2 unit_kind s
    = Outcome (throw (TypeError "Time cut-off must be an integer.")) [].
Proof.
  intros X parameters pmf1 w1 pmf2 w2 unit_kind s Hc Hi.
  unfold compute_unit.
  rewrite (time_cutoff_check _ _ Hc Hi). reflexivity.
Qed.

Lemma time_cutoff_must_be_an_integer_example :
  @compute_unit Exact.externals float_memory_cutoff [zero; one] [one; one]
    None None "swap" (new_simulation false)
  = Outcome (throw (TypeError "Time cut-off must be an integer.")) [].
Proof.
  apply (time_cutoff_must_be_an_integer Exact.externals float_memory_cutoff);
    reflexivity.
Defined.

(** *** The events of a unit *)

Lemma emits_only_bind {A B} (P : event -> Prop) (m : M A) (k : A -> M B)
    (s : simulation) :
  emits_only P (m s) -> (forall a, emits_only P (k a s)) ->
  emits_only P (bind m k s).
Proof.
  unfold emits_only, bind. intros Hm Hk.
  destruct (value (m s)) as [e | a]; simpl; [exact Hm |].
  apply Forall_app. split; [exact Hm | apply Hk].
Qed.

Lemma emits_only_silent {A} (P : event -> Prop) (o : outcome A) :
  emitted o = [] -> emits_only P o.
Proof. unfold emits_only. intros ->. constructor. Qed.

Lemma emits_only_emit (P : event -> Prop) (e : event) (s : simulation) :
  P e -> emits_only P (emit e s).
Proof. intros H. unfold emits_only. simpl. now constructor. Qed.

Lemma emits_only_for_each {A S} (P : event -> Prop) (xs : list A)
    (body : A -> S -> M S) (st : S) (s : simulation) :
  (forall x st, emits_only P (body x st s)) ->
  emits_only P (for_each xs body st s).
Proof.
  intros H. revert st. induction xs as [| x xs IH]; intros st; simpl.
  - now apply emits_only_silent.
  - apply emits_only_bind; [apply H | intros st1; apply IH].
Qed.

Ltac emits_only_step :=
  first
    [ apply emits_only_bind; [| intros ?]
    | apply emits_only_silent; reflexivity
    | apply emits_only_emit; exact I
    | apply emits_only_for_each; intros ? ?
    | match goal with
      | |- emits_only _ ((if ?c then _ else _) _) => destruct c
      | |- emits_only _ ((let (_, _) := ?p in _) _) => destruct p
      | |- emits_only _ (match ?p with _ => _ end _) => destruct p
      end ].

Section Unit_events.

Context {X : Externals}.

Lemma iterative_convolution_calls_no_kernel (b : bool) (func : array) (shift : Z)
    (first_func : option array) (p_swap : option num) (s : simulation) :
  emits_only (calls_kernel b) (iterative_convolution func shift first_func p_swap s).
Proof.
  unfold iterative_convolution, required_convolutions,
    iterative_convolution_helper, fft_path, direct_path, direct_body.
  repeat emits_only_step.
Qed.

Lemma call_join_links_calls_its_kernel (b : bool) (pmf1 pmf2 w1 w2 : array)
    (ycut : bool) (cutoff : cut_spec) (cut_type ev : string)
    (t_coh : scalar_or_seq num) (s : simulation) :
  emits_only (calls_kernel b)
    (call_join_links b pmf1 pmf2 w1 w2 ycut cutoff cut_type ev t_coh s).
Proof.
  unfold call_join_links. destruct b.
  - apply emits_only_bind; [now apply emits_only_emit |].
    intros _. now apply emits_only_silent.
  - apply emits_only_bind; [now apply emits_only_emit |].
    intros _. now apply emits_only_silent.
Qed.

(** The two unit operators do not warn about the coverage themselves. *)
Lemma entanglement_swap_does_not_warn (pmf1 w1 pmf2 w2 : array) (p_swap : num)
    (cutoff : cut_spec) (t_coh : scalar_or_seq num) (cut_type : string)
    (s : simulation) :
  emits_only not_coverage
    (entanglement_swap pmf1 w1 pmf2 w2 p_swap cutoff t_coh cut_type s).
Proof.
  unfold entanglement_swap, call_join_links, iterative_convolution,
    required_convolutions, iterative_convolution_helper, fft_path,
    direct_path, direct_body.
  repeat emits_only_step.
Qed.

Lemma destillation_does_not_warn (pmf1 w1 pmf2 w2 : array)
    (cutoff : cut_spec) (t_coh : scalar_or_seq num) (cut_type : string)
    (s : simulation) :
  emits_only not_coverage
    (destillation pmf1 w1 pmf2 w2 cutoff t_coh cut_type s).
Proof.
  unfold destillation, call_join_links, iterative_convolution,
    required_convolutions, iterative_convolution_helper, fft_path,
    direct_path, direct_body.
  repeat emits_only_step.
Qed.

End Unit_events.

(** X15.  Every kernel call of a unit goes to one and the same kernel, whether
    the unit returns or raises: [join_links_efficient] when the simulator
    has [efficient] set and the cut type is ["memory_time"],
    [join_links_compatible] otherwise. *)
Theorem a_unit_calls_one_kernel :
  forall (X : Externals) (parameters : settings) (pmf1 w_func1 : array)
         (pmf2 w_func2 : option array) (unit_kind : string) (s : simulation),
    emits_only
      (calls_kernel
         (selects_efficient s (get_or (cut_type parameters) "memory_time")))
      (compute_unit parameters pmf1 w_func1 pmf2 w_func2 unit_kind s).
Proof.
  intros X parameters pmf1 w1 pmf2 w2 unit_kind s.
  unfold compute_unit.
  apply emits_only_bind; [now apply emits_only_silent | intros _].
  apply emits_only_bind.
  - destruct (String.eqb unit_kind "swap").
    + unfold entanglement_swap. rewrite bind_self.
      repeat first
        [ apply call_join_links_calls_its_kernel
        | apply iterative_convolution_calls_no_kernel
        | emits_only_step ].
    + destruct (String.eqb unit_kind "dist").
      * unfold destillation. rewrite bind_self.
        repeat first
          [ apply call_join_links_calls_its_kernel
          | apply iterative_convolution_calls_no_kernel
          | emits_only_step ].
      * now apply emits_only_silent.
  - intros [pmf w_func]. repeat emits_only_step.
Qed.

(** X16.  When [compute_unit] returns, the warning on the coverage is its last
    event and is logged exactly when the returned [pmf] sums to less than
    0.99 (not when the sum is [nan]); it carries that sum, and the arrays
    are returned all the same. *)
Theorem coverage_warning_follows_the_sum :
  forall (X : Externals) (parameters : settings) (pmf1 w_func1 : array)
         (pmf2 w_func2 : option array) (unit_kind : string) (s : simulation)
         (pmf w_func : array),
    value (compute_unit parameters pmf1 w_func1 pmf2 w_func2 unit_kind s)
    = ok (pmf, w_func) ->
    exists before,
      Forall not_coverage before /\
      emitted (compute_unit parameters pmf1 w_func1 pmf2 w_func2 unit_kind s)
      = before ++ (if (np_sum pmf <? cdf_threshold)%num
                   then [warning_coverage (np_sum pmf)] else []).
Proof.
  intros X parameters pmf1 w1 pmf2 w2 unit_kind s pmf w H.
  unfold compute_unit in *.
  set (unit :=
         if String.eqb unit_kind "swap"
         then entanglement_swap pmf1 w1 (get_or pmf2 pmf1) (get_or w2 w1)
                (p_swap parameters)
                (select_cutoff parameters (get_or (cut_type parameters) "memory_time"))
                (get_or (t_coh parameters) (Scalar PInf))
                (get_or (cut_type parameters) "memory_time")
         else if String.eqb unit_kind "dist"
         then destillation pmf1 w1 (get_or pmf2 pmf1) (get_or w2 w1)
                (select_cutoff parameters (get_or (cut_type parameters) "memory_time"))
                (get_or (t_coh parameters) (Scalar PInf))
                (get_or (cut_type parameters) "memory_time")
         else raise UnboundLocalError) in *.
  assert (Hq : emits_only not_coverage (unit s)).
  { subst unit.
    destruct (String.eqb unit_kind "swap");
      [apply entanglement_swap_does_not_warn |].
    destruct (String.eqb unit_kind "dist");
      [apply destillation_does_not_warn | now apply emits_only_silent]. }
  destruct (check_cutoff (get_or (cut_type parameters) "memory_time")
              (select_cutoff parameters (get_or (cut_type parameters) "memory_time")))
    as [e | []] eqn:Ec; [discriminate H |].
  rewrite bind_lift_ok in *.
  unfold bind at 1 in H. unfold bind at 1.
  destruct (value (unit s)) as [e | [pmf0 w0']] eqn:Eu; [discriminate H |].
  cbn [value emitted] in *.
  exists (emitted (unit s)). split; [exact Hq |].
  f_equal.
  assert (Ep : pmf0 = pmf).
  { destruct (np_sum pmf0 <? cdf_threshold)%num;
      cbv [bind emit ret value ok] in H; now injection H. }
  subst pmf0.
  destruct (np_sum pmf <? cdf_threshold)%num; reflexivity.
Qed.

Lemma coverage_warning_follows_the_sum_example :
  exists before,
    Forall not_coverage before /\
    emitted (@compute_unit Exact.externals (rest (swap_once 3))
               (fst (elementary_link (Fin (1 # 2)) (Fin (9 # 10)) 3))
               (snd (elementary_link (Fin (1 # 2)) (Fin (9 # 10)) 3))
               None None "swap" direct_simulation)
    = before ++ (if (np_sum (fst swap_once_at_3) <? cdf_threshold)%num
                 then [warning_coverage (np_sum (fst swap_once_at_3))] else []).
Proof.
  apply (coverage_warning_follows_the_sum Exact.externals (rest (swap_once 3))
           _ _ None None "swap" direct_simulation
           (fst swap_once_at_3) (snd swap_once_at_3)).
  reflexivity.
Defined.

(** ** More on the symmetric driver *)

Lemma for_each_ext {A S} (xs : list A) (body body' : A -> S -> M S) (st : S)
    (s : simulation) :
  (forall x st, body x st s = body' x st s) ->
  for_each xs body st s = for_each xs body' st s.
Proof.
  intros H. revert st. induction xs as [| x xs IH]; intros st; simpl.
  - reflexivity.
  - unfold bind. rewrite H.
    destruct (value (body' x st s)); [reflexivity | now rewrite IH].
Qed.

Section Old_key.

Context {X : Externals}.

Lemma nested_step_without_cache (P : list tag) (h h' : settings)
    (cutoff : option cut_spec) (mt w rt : list pyval) (i : nat)
    (st : settings * link * cache_t) (s : simulation) :
  use_cache s = false ->
  nested_step P h cutoff mt w rt i st s = nested_step P h' cutoff mt w rt i st s.
Proof.
  intros Hc. destruct st as [[p [pmf wf]] c]. unfold nested_step.
  now rewrite !bind_self, Hc.
Qed.

End Old_key.

(** X17.  Without memoization, a cut-off given under the old key ["tau"] is read
    as ["mt_cut"], also when ["mt_cut"] is given as well: the call is the
    call on the dictionary in which ["tau"] is replaced by ["mt_cut"]. *)
Theorem tau_is_read_as_mt_cut :
  forall (X : Externals) (P : list tag) (T : Z) (h : settings) (v : cut_spec)
         (s : simulation),
    use_cache s = false ->
    tau h = Some v ->
    nested_protocol {| protocol := P; t_trunc := T; rest := h |} s
    = nested_protocol {| protocol := P; t_trunc := T; rest := tau_as_mt_cut v h |} s.
Proof.
  intros X P T h v s Hc Htau. unfold nested_protocol.
  rewrite !bind_self.
  rewrite !(bind_silent _ _ _ _ (lookup_cache_disabled _ s Hc)).
  cbn [fst snd protocol t_trunc rest].
  assert (E : rename_tau (tau_as_mt_cut v h) = rename_tau h).
  { unfold rename_tau. now rewrite Htau. }
  rewrite E.
  apply bind_ext. intros start. unfold nested_loop.
  apply bind_same_head. apply for_each_ext. intros i st.
  now apply nested_step_without_cache.
Qed.

Lemma tau_is_read_as_mt_cut_example :
  @nested_protocol Exact.externals
    {| protocol := [TagInt 0]; t_trunc := 2; rest := swap_once_with_tau |}
    (new_simulation false)
  = @nested_protocol Exact.externals
      {| protocol := [TagInt 0]; t_trunc := 2;
         rest := tau_as_mt_cut (Scalar (PyInt 5)) swap_once_with_tau |}
      (new_simulation false).
Proof.
  apply (tau_is_read_as_mt_cut Exact.externals [TagInt 0] 2 swap_once_with_tau
           (Scalar (PyInt 5)) (new_simulation false));
    reflexivity.
Defined.

(** *** Per-level cut-offs *)

Lemma for_each_fails {A S} (xs : list A) (body : A -> S -> M S) (x : A)
    (s : simulation) :
  In x xs ->
  (forall st, exists e, value (body x st s) = inl e) ->
  forall st, exists e, value (for_each xs body st s) = inl e.
Proof.
  intros Hin Hfail. induction xs as [| y xs IH]; [destruct Hin |].
  intros st. simpl. unfold bind.
  destruct (value (body y st s)) as [e | st1] eqn:E; [now exists e |].
  destruct Hin as [-> | Hin].
  - destruct (Hfail st) as [e He]. congruence.
  - destruct (IH Hin st1) as [e He]. exists e. simpl. exact He.
Qed.

Lemma py_index_beyond {A} (l : list A) (i : nat) :
  (length l <= i)%nat -> py_index l (Z.of_nat i) = throw IndexError.
Proof.
  intros H. rewrite py_index_of_nat.
  destruct (nth_error l i) eqn:E; [| reflexivity].
  apply nth_error_in_range in E. lia.
Qed.

Lemma expand_too_short (c : cut_spec) (n : nat) :
  too_short c n -> py_index (expand c n) (Z.of_nat (length (expand c n)))
                   = throw IndexError /\ (length (expand c n) < n)%nat.
Proof.
  destruct c as [v | vs]; [contradiction |]. simpl. intros H.
  split; [now apply py_index_beyond | exact H].
Qed.

Lemma level_parameters_beyond (cutoff : option cut_spec) (mt w rt : list pyval)
    (i : nat) (p : settings) :
  (length mt <= i)%nat \/ (length w <= i)%nat \/ (length rt <= i)%nat ->
  exists e, level_parameters cutoff mt w rt i p = inl e.
Proof.
  intros H. unfold level_parameters.
  destruct (match cutoff with
            | Some (Seq cs) =>
                rbind (py_index cs (Z.of_nat i))
                  (fun c => ok (set_cutoff (Some (Scalar c)) p))
            | _ => ok p
            end) as [e | p1]; [now exists e |].
  simpl.
  destruct (py_index mt (Z.of_nat i)) as [e | m] eqn:Em; [now exists e |].
  simpl.
  destruct (py_index w (Z.of_nat i)) as [e | wc] eqn:Ew; [now exists e |].
  simpl.
  destruct (py_index rt (Z.of_nat i)) as [e | r] eqn:Er; [now exists e |].
  destruct H as [H | [H | H]];
    [rewrite py_index_beyond in Em | rewrite py_index_beyond in Ew
     | rewrite py_index_beyond in Er]; try exact H; discriminate.
Qed.

Section Level_cutoffs.

Context {X : Externals}.

Lemma nested_step_beyond (P : list tag) (h : settings) (cutoff : option cut_spec)
    (mt w rt : list pyval) (i : nat) (st : settings * link * cache_t)
    (s : simulation) :
  (length mt <= i)%nat \/ (length w <= i)%nat \/ (length rt <= i)%nat ->
  exists e, value (nested_step P h cutoff mt w rt i st s) = inl e.
Proof.
  intros H. destruct st as [[p [pmf wf]] c]. unfold nested_step.
  rewrite bind_self. unfold bind at 1.
  destruct (value (lift (py_index P (Z.of_nat i)) s)) as [e | op] eqn:Eop;
    [now exists e |].
  cbv zeta. cbn [value]. unfold bind at 1.
  destruct (level_parameters_beyond cutoff mt w rt i p H) as [e He].
  unfold lift at 1. cbn [value]. rewrite He. now exists e.
Qed.

End Level_cutoffs.

(** X18.  Without memoization, a per-level cut-off given as a sequence with
    fewer entries than the protocol has steps never lets the call return:
    at the first level without an entry the lookup raises [IndexError]
    (unless an earlier level has raised already). *)
Theorem short_level_sequence_never_returns :
  forall (X : Externals) (P : list tag) (T : Z) (h : settings) (s : simulation),
    use_cache s = false ->
    too_short (fst (fst (level_cutoffs (rename_tau h)))) (length P) \/
    too_short (snd (fst (level_cutoffs (rename_tau h)))) (length P) \/
    too_short (snd (level_cutoffs (rename_tau h))) (length P) ->
    exists e,
      value (nested_protocol {| protocol := P; t_trunc := T; rest := h |} s)
      = inl e.
Proof.
  intros X P T h s Hc Hshort. unfold nested_protocol.
  rewrite bind_self.
  rewrite (bind_silent _ _ _ _ (lookup_cache_disabled _ s Hc)).
  cbn [fst snd protocol t_trunc rest].
  unfold bind at 1.
  destruct (value (starting_link 0 None (p_gen h) (w0 h) T s)) as [e | start];
    [now exists e |].
  cbv zeta. cbn [value]. unfold bind at 1.
  unfold nested_loop. rewrite Nat.sub_0_r.
  set (mt := expand (fst (fst (level_cutoffs (rename_tau h)))) (length P)).
  set (w := expand (snd (fst (level_cutoffs (rename_tau h)))) (length P)).
  set (rt := expand (snd (level_cutoffs (rename_tau h))) (length P)).
  assert (Hk : exists k, (k < length P)%nat /\
                 ((length mt <= k)%nat \/ (length w <= k)%nat \/ (length rt <= k)%nat)).
  { destruct Hshort as [H | [H | H]]; apply expand_too_short in H;
      destruct H as [_ H]; eexists; (split; [exact H |]); auto. }
  destruct Hk as (k & Hk & Hlen).
  destruct (for_each_fails (seq 0 (length P))
              (nested_step P h (cutoff (rename_tau h)) mt w rt) k s
              ltac:(apply in_seq; lia)
              (fun st => nested_step_beyond P h _ mt w rt k st s Hlen)
              (rename_tau h, start, cache s)) as [e He].
  rewrite He. now exists e.
Qed.

Lemma short_level_sequence_never_returns_example :
  exists e,
    value (@nested_protocol Exact.externals
             {| protocol := [TagInt 0; TagInt 0]; t_trunc := 2;
                rest := one_level_cutoff |} (new_simulation false))
    = inl e.
Proof.
  apply (short_level_sequence_never_returns Exact.externals [TagInt 0; TagInt 0] 2
           one_level_cutoff (new_simulation false)).
  - reflexivity.
  - left. simpl. lia.
Defined.

(** *** The shape of the result *)

Section Driver_shape.

Context {X : Externals}.

Lemma compute_unit_lengths (parameters : settings) (pmf1 w1 : array)
    (pmf2 w2 : option array) (unit_kind : string) (s : simulation)
    (pmf w : array) :
  kernels_keep_length X ->
  (use_fft s = true -> transforms_keep_length X /\ padding_covers s (length pmf1)) ->
  value (compute_unit parameters pmf1 w1 pmf2 w2 unit_kind s) = ok (pmf, w) ->
  length pmf = length pmf1 /\ length w = length pmf1.
Proof.
  intros Hk Hfft H. unfold compute_unit in H.
  apply bind_inr in H. destruct H as (u & _ & H).
  apply bind_inr in H. destruct H as ([pmf0 w0'] & Hunit & H).
  apply bind_inr in H. destruct H as (u' & _ & H).
  cbv [ret value ok] in H. injection H as <- <-.
  unfold clip01, nan_to_one. rewrite !length_map.
  destruct (String.eqb unit_kind "swap");
    [now apply (entanglement_swap_length _ _ _ _ _ _ _ _ _ _ _ Hk Hfft Hunit) |].
  destruct (String.eqb unit_kind "dist");
    [now apply (destillation_length _ _ _ _ _ _ _ _ _ _ Hk Hfft Hunit) |].
  discriminate.
Qed.

Lemma nested_step_lengths (P : list tag) (h : settings) (cutoff : option cut_spec)
    (mt w rt : list pyval) (i n : nat) (st st1 : settings * link * cache_t)
    (s : simulation) :
  kernels_keep_length X ->
  (use_fft s = true -> transforms_keep_length X /\ zero_padding_size s = None) ->
  length (fst (snd (fst st))) = n /\ length (snd (snd (fst st))) = n ->
  value (nested_step P h cutoff mt w rt i st s) = ok st1 ->
  length (fst (snd (fst st1))) = n /\ length (snd (snd (fst st1))) = n.
Proof.
  intros Hk Hfft. destruct st as [[p [pmf wf]] c]. unfold nested_step.
  rewrite bind_self. cbn [fst snd]. intros [Lp Lw] H.
  apply bind_inr in H. destruct H as (op & _ & H).
  apply bind_inr in H. destruct H as (p4 & _ & H).
  apply bind_inr in H. destruct H as ([pmf0 w0'] & Hu & H).
  cbv [ret value ok] in H. injection H as <-. cbn [fst snd].
  assert (Hpad : use_fft s = true ->
                 transforms_keep_length X /\ padding_covers s (length pmf)).
  { intros E. destruct (Hfft E) as [Ht Hz]. split; [exact Ht |].
    unfold padding_covers. now rewrite Hz. }
  destruct op as [[| [| |] |] | o z];
    try (cbv [ret value ok] in Hu; injection Hu as <- <-; now split);
    rewrite <- Lp; exact (compute_unit_lengths _ _ _ _ _ _ _ _ _ Hk Hpad Hu).
Qed.

End Driver_shape.

(** X19.  Without memoization, for kernels that return one sample per input
    sample (and, on the Fourier path, transforms of the padded size with
    the default padding), a call of the symmetric driver that returns
    returns two arrays of [t_trunc] samples and leaves the simulator as it
    was. *)
Theorem nested_protocol_returns_t_trunc_samples :
  forall (X : Externals) (parameters : parameters) (s s' : simulation) (l : link),
    use_cache s = false ->
    kernels_keep_length X ->
    (use_fft s = true -> transforms_keep_length X /\ zero_padding_size s = None) ->
    1 <= t_trunc parameters ->
    value (nested_protocol parameters s) = ok (l, s') ->
    length (fst l) = Z.to_nat (t_trunc parameters) /\
    length (snd l) = Z.to_nat (t_trunc parameters) /\
    s' = s.
Proof.
  intros X Q s s' l Hc Hk Hfft HT H. unfold nested_protocol in H.
  rewrite bind_self in H.
  rewrite (bind_silent _ _ _ _ (lookup_cache_disabled _ s Hc)) in H.
  cbn [fst snd] in H.
  apply bind_inr in H. destruct H as (start & Hstart & H).
  apply bind_inr in H. destruct H as (st & Hloop & H).
  apply ok_inj in H. injection H as <- <-.
  destruct (starting_link_elementary _ _ _ _ _ Hstart) as (p & w & ->).
  unfold nested_loop in Hloop.
  pose proof (for_each_keeps_cache _ _ _ _ _ _ s _ Hc _ _ Hloop) as Hcache.
  cbn [snd] in Hcache.
  assert (Hlen : length (fst (snd (fst st))) = Z.to_nat (t_trunc Q) /\
                 length (snd (snd (fst st))) = Z.to_nat (t_trunc Q)).
  { revert Hloop.
    apply (for_each_invariant
             (fun st => length (fst (snd (fst st))) = Z.to_nat (t_trunc Q) /\
                        length (snd (snd (fst st))) = Z.to_nat (t_trunc Q))).
    - intros i st0 st1. now apply nested_step_lengths.
    - cbn [fst snd]. split;
        [now apply elementary_link_pmf_length | apply elementary_link_w_length]. }
  destruct Hlen as [Lp Lw]. repeat split; try assumption.
  rewrite Hcache. now destruct s.
Qed.

Lemma nested_protocol_returns_t_trunc_samples_example :
  length (fst swap_once_at_3) = Z.to_nat (t_trunc (swap_once 3)) /\
  length (snd swap_once_at_3) = Z.to_nat (t_trunc (swap_once 3)) /\
  direct_simulation = direct_simulation.
Proof.
  apply (nested_protocol_returns_t_trunc_samples Exact.externals (swap_once 3)
           direct_simulation direct_simulation swap_once_at_3).
  - reflexivity.
  - exact exact_kernels_keep_length.
  - discriminate.
  - simpl. lia.
  - reflexivity.
Defined.

(** *** A second call *)

Section Second_call.

Context {X : Externals}.

Lemma loop_caches_last_level (P : list tag) (h : settings)
    (cutoff : option cut_spec) (mt w rt : list pyval) (s : simulation)
    (n i : nat) (st st1 : settings * link * cache_t) :
  use_cache s = true ->
  value (for_each (seq i (S n)) (nested_step P h cutoff mt w rt) st s) = ok st1 ->
  cache_get (snd st1) (h, firstn (i + S n) P) = Some (snd (fst st1)).
Proof.
  intros Hc H. rewrite seq_S, for_each_app in H.
  apply bind_inr in H. destruct H as (st0 & _ & H).
  simpl in H. apply bind_inr in H. destruct H as (st2 & H2 & H).
  apply ok_inj in H. subst st2.
  rewrite (nested_step_cache _ _ _ _ _ _ _ _ _ _ Hc H2).
  rewrite cache_get_set.
  replace (i + n + 1)%nat with (i + S n)%nat by lia.
  now rewrite key_eqb_refl.
Qed.

Lemma check_cache_full_hit (c : cache_t) (Q : parameters) (l : link) :
  cutoff_dict (rest Q) = None ->
  protocol Q <> [] ->
  cache_get c (rest Q, protocol Q) = Some l ->
  t_trunc Q <= Z.of_nat (length (fst l)) ->
  check_cache c Q = ok (length (protocol Q), rest Q, Some l).
Proof.
  intros Hd Hne Hget HT. unfold check_cache.
  assert (E : check_cache_from c (rest Q) (protocol Q) (t_trunc Q)
                (length (protocol Q)) = ok (length (protocol Q), Some l)).
  { destruct (length (protocol Q)) as [| n] eqn:L.
    - destruct (protocol Q); [congruence | discriminate].
    - cbn [check_cache_from]. rewrite (cache_lookup_hashable c _ _ Hd).
      rewrite <- L, firstn_all, Hget. unfold ok at 1, rbind. cbv zeta.
      apply Z.leb_le in HT. now rewrite HT. }
  now rewrite E.
Qed.

Lemma first_run_caches_its_result (Q : parameters) (s s' : simulation) (l : link) :
  use_cache s = true ->
  protocol Q <> [] ->
  value (nested_protocol Q s) = ok (l, s') ->
  cache_get (cache s') (rest Q, protocol Q) = Some l /\
  s' = with_cache (cache s') s.
Proof.
  intros Hc Hne H. unfold nested_protocol in H.
  rewrite bind_self in H.
  apply bind_inr in H. destruct H as (found & Hfound & H).
  rewrite (lookup_cache_value Q s Hc) in Hfound.
  destruct found as [[i h] r].
  destruct (check_cache_value _ _ _ _ _ Hfound) as [-> Hfrom].
  cbn [fst snd] in H.
  apply bind_inr in H. destruct H as (start & Hstart & H).
  apply bind_inr in H. destruct H as (st & Hloop & H).
  apply ok_inj in H. injection H as <- <-.
  split; [| now destruct s].
  change (cache (with_cache (snd st) s)) with (snd st).
  unfold nested_loop in Hloop.
  assert (Hi : (i <= length (protocol Q))%nat /\
               (i = length (protocol Q) ->
                cache_get (cache s) (rest Q, protocol Q) = Some start)).
  { destruct r as [v |].
    - destruct (check_cache_from_hit _ _ _ _ _ _ _ Hfrom) as (Hi & Hget & _ & _).
      split; [lia |]. intros E. rewrite E, firstn_all in Hget.
      destruct i as [| i]; [lia |].
      cbn [starting_link] in Hstart. apply ok_inj in Hstart. now subst start.
    - rewrite (check_cache_from_miss _ _ _ _ _ _ Hfrom).
      split; [lia |]. intros E. destruct (protocol Q); [congruence | discriminate]. }
  destruct Hi as [Hle Hfull].
  destruct (length (protocol Q) - i)%nat as [| n] eqn:En.
  - simpl in Hloop. apply ok_inj in Hloop. subst st. cbn [fst snd].
    apply Hfull. lia.
  - apply (loop_caches_last_level _ _ _ _ _ _ _ _ _ _ _ Hc) in Hloop.
    replace (i + S n)%nat with (length (protocol Q)) in Hloop by lia.
    now rewrite firstn_all in Hloop.
Qed.

End Second_call.

(** X20.  Memoization round trip: after a call with memoization has returned for
    a protocol of at least one step, the same call on the simulator it
    left is answered from the cache, provided the arrays have at least
    [t_trunc] samples: it returns the same link, leaves the simulator as
    it is, and logs the cached protocol; no unit is computed and no kernel
    is called. *)
Theorem second_call_is_answered_from_the_cache :
  forall (X : Externals) (parameters : parameters) (s s' : simulation) (l : link),
    use_cache s = true ->
    hashable (rest parameters) ->
    protocol parameters <> [] ->
    value (nested_protocol parameters s) = ok (l, s') ->
    t_trunc parameters <= Z.of_nat (length (fst l)) ->
    nested_protocol parameters s'
    = Outcome (ok (l, s')) [info_cached (protocol parameters)].
Proof.
  intros X Q s s' l Hc Hh Hne H HT.
  destruct (first_run_caches_its_result Q s s' l Hc Hne H) as [Hget Hs'].
  assert (Hc' : use_cache s' = true) by (rewrite Hs'; exact Hc).
  pose proof (check_cache_full_hit _ _ _ Hh Hne Hget HT) as Hk.
  assert (Hl : lookup_cache Q s'
               = Outcome (ok (length (protocol Q), rest Q, Some l))
                         [info_cached (protocol Q)]).
  { unfold lookup_cache. rewrite bind_self, Hc', Hk, bind_lift_ok, firstn_all.
    reflexivity. }
  unfold nested_protocol. rewrite bind_self.
  unfold bind at 1. rewrite Hl. cbn [value emitted fst snd].
  unfold ok at 1. cbv beta iota. cbn [fst snd].
  unfold nested_loop. rewrite Nat.sub_diag. cbn [seq for_each].
  destruct (length (protocol Q)) as [| n] eqn:L;
    [destruct (protocol Q); [congruence | discriminate] |].
  cbn [starting_link]. rewrite !bind_ret.
  unfold ret. cbn [value emitted]. 
  do 2 f_equal. now destruct s'.
Qed.

Lemma second_call_is_answered_from_the_cache_example :
  @nested_protocol Exact.externals (swap_once 3)
    (with_cache [((rest (swap_once 3), [TagInt 0]), swap_once_at_3)]
                memoizing_simulation)
  = Outcome
      (ok (swap_once_at_3,
           with_cache [((rest (swap_once 3), [TagInt 0]), swap_once_at_3)]
                      memoizing_simulation))
      [info_cached (protocol (swap_once 3))].
Proof.
  apply (second_call_is_answered_from_the_cache Exact.externals (swap_once 3)
           memoizing_simulation).
  - reflexivity.
  - reflexivity.
  - simpl. congruence.
  - reflexivity.
  - simpl. lia.
Defined.

(** X21.  Consistency of the cache is an invariant of a simulator with
    memoization: the empty cache of a new simulator is consistent, and a
    call that returns leaves a consistent cache when it found one that
    holds no key equal to its parameters without being the same (numbers
    are compared by value, so an entry of [mt_cut = 5] would answer a call
    with [mt_cut = 5.0]); the cache it leaves holds no such key either.
    Every entry then is what the call without memoization computes for
    the protocol prefix of its key, at the truncation time given by the
    length of the cached arrays. *)
Theorem memoization_keeps_the_cache_consistent :
  forall (X : Externals) (parameters : parameters) (s s' : simulation) (l : link),
    use_cache s = true ->
    hashable (rest parameters) ->
    cache_consistent s (cache s) ->
    identical_where_equal (cache s) (rest parameters) = true ->
    kernels_keep_length X ->
    (use_fft s = true -> transforms_keep_length X /\ zero_padding_size s = None) ->
    1 <= t_trunc parameters ->
    value (nested_protocol parameters s) = ok (l, s') ->
    cache_consistent (new_simulation true) (cache (new_simulation true)) /\
    cache_consistent s' (cache s') /\
    identical_where_equal (cache s') (rest parameters) = true.
Proof.
  intros X Q s s' l Hc _ Hcons Hid Hk Hfft HT H. split; [| split].
  - apply empty_cache_consistent.
  - exact (memoized_run_keeps_cache_consistent Q s s' l Hc Hcons Hid Hk Hfft HT H).
  - exact (memoized_run_keeps_keys_apart Q s s' l Hc Hid H).
Qed.

(** The swap at [t_trunc = 3] on the cache that holds the swap at
    [t_trunc = 2]: the call computes the swap anew and stores it. *)
Lemma memoization_keeps_the_cache_consistent_example :
  @cache_consistent Exact.externals (new_simulation true)
     (cache (new_simulation true)) /\
  @cache_consistent Exact.externals
     (with_cache [((rest (swap_once 3), [TagInt 0]), swap_once_at_3);
                  ((rest (swap_once 2), [TagInt 0]), swap_once_at_2)]
                 memoizing_simulation)
     [((rest (swap_once 3), [TagInt 0]), swap_once_at_3);
      ((rest (swap_once 2), [TagInt 0]), swap_once_at_2)] /\
  identical_where_equal
    [((rest (swap_once 3), [TagInt 0]), swap_once_at_3);
     ((rest (swap_once 2), [TagInt 0]), swap_once_at_2)]
    (rest (swap_once 3)) = true.
Proof.
  apply (memoization_keeps_the_cache_consistent Exact.externals (swap_once 3)
           (with_cache [((rest (swap_once 2), [TagInt 0]), swap_once_at_2)]
                       memoizing_simulation)
           (with_cache [((rest (swap_once 3), [TagInt 0]), swap_once_at_3);
                        ((rest (swap_once 2), [TagInt 0]), swap_once_at_2)]
                       memoizing_simulation)
           swap_once_at_3).
  - reflexivity.
  - reflexivity.
  - intros h prefix v Hin. destruct Hin as [E | []]. injection E as <- <- <-.
    vm_compute. reflexivity.
  - reflexivity.
  - exact exact_kernels_keep_length.
  - discriminate.
  - simpl. lia.
  - vm_compute. reflexivity.
Defined.

(** ** The symmetric driver with [all_level=True] *)

Lemma hash_parameters_hashable (h : settings) (P : list tag) :
  cutoff_dict h = None -> hash_parameters (h, P) = ok tt.
Proof. intros H. unfold hash_parameters. cbn [fst]. now rewrite H. Qed.

Lemma rbind_ok {A B} (a : A) (k : A -> result B) : rbind (ok a) k = k a.
Proof. reflexivity. Qed.

Lemma check_cache_all_from_hashed (store : level_store) (h : settings)
    (P : list tag) (T : Z) (i : nat) (r : nat * option nat) :
  check_cache_all_from store h P T (S i) = ok r -> cutoff_dict h = None.
Proof.
  cbn [check_cache_all_from]. unfold hash_parameters. cbn [fst].
  destruct (cutoff_dict h); [discriminate | reflexivity].
Qed.

Lemma check_cache_all_from_hit (store : level_store) (h : settings) (P : list tag)
    (T : Z) (i r a : nat) :
  check_cache_all_from store h P T i = ok (r, Some a) ->
  (1 <= r <= i)%nat /\
  entry_get (entries store) (h, firstn r P) = Some a /\
  exists last,
    py_index (deref store a) (-1) = ok last /\
    T <= Z.of_nat (length (fst last)).
Proof.
  induction i as [| i IH]; [discriminate |].
  intros E. pose proof (check_cache_all_from_hashed _ _ _ _ _ _ E) as Hd.
  cbn [check_cache_all_from] in E.
  rewrite (hash_parameters_hashable _ _ Hd), rbind_ok in E. revert E.
  destruct (entry_get (entries store) (h, firstn (S i) P)) as [a' |] eqn:G.
  - destruct (py_index (deref store a') (-1)) as [e | last] eqn:L; [discriminate |].
    cbn [rbind]. cbv zeta.
    destruct (T <=? Z.of_nat (length (fst last))) eqn:C.
    + intros E. apply ok_inj in E. injection E as <- <-.
      apply Z.leb_le in C. repeat split; try lia; try exact G.
      exists last. split; [exact L | exact C].
    + intros E. destruct (IH E) as (Hr & Hg & Hl).
      repeat split; try lia; assumption.
  - intros E. destruct (IH E) as (Hr & Hg & Hl).
    repeat split; try lia; assumption.
Qed.

Lemma check_cache_all_from_miss (store : level_store) (h : settings) (P : list tag)
    (T : Z) (i r : nat) :
  check_cache_all_from store h P T i = ok (r, None) -> r = O.
Proof.
  induction i as [| i IH]; [intros E; apply ok_inj in E; congruence |].
  intros E. pose proof (check_cache_all_from_hashed _ _ _ _ _ _ E) as Hd.
  cbn [check_cache_all_from] in E.
  rewrite (hash_parameters_hashable _ _ Hd), rbind_ok in E. revert E.
  destruct (entry_get (entries store) (h, firstn (S i) P)) as [a' |]; [| exact IH].
  destruct (py_index (deref store a') (-1)) as [e | last]; [discriminate |].
  cbn [rbind]. cbv zeta.
  destruct (T <=? Z.of_nat (length (fst last))); [| exact IH].
  intros E. apply ok_inj in E. discriminate.
Qed.

Section Unassigned.

Context {X : Externals}.

(** A round entered with [pmf] and [w_func] unassigned does not return. *)
Lemma step_all_unassigned (P : list tag) (h : settings) (cutoff : option cut_spec)
    (mt w rt : list pyval) (a i : nat) (p : settings) (store : level_store)
    (s : simulation) :
  (exists e, value (nested_step_all P h cutoff mt w rt a i (p, None, store) s)
             = inl e) /\
  forall op p4,
    py_index P (Z.of_nat i) = ok op ->
    level_parameters cutoff mt w rt i p = ok p4 ->
    nested_step_all P h cutoff mt w rt a i (p, None, store) s
    = Outcome (throw UnboundLocalError) [].
Proof.
  unfold nested_step_all. rewrite bind_self. split.
  - destruct (py_index P (Z.of_nat i)) as [e | op]; [now exists e |].
    rewrite bind_lift_ok.
    destruct (level_parameters cutoff mt w rt i p) as [e | p4]; [now exists e |].
    rewrite bind_lift_ok.
    exists UnboundLocalError.
    destruct op as [[| [q | q |] | q] | o z]; reflexivity.
  - intros op p4 -> ->. rewrite !bind_lift_ok.
    destruct op as [[| [q | q |] | q] | o z]; reflexivity.
Qed.

Lemma loop_all_unassigned (P : list tag) (h : settings) (cutoff : option cut_spec)
    (mt w rt : list pyval) (a : nat) (idxs : list nat) (p : settings)
    (store : level_store) (s : simulation) :
  match value (for_each idxs (nested_step_all P h cutoff mt w rt a)
                 (p, None, store) s) with
  | inl _ => True
  | inr st => snd (fst st) = None
  end.
Proof.
  destruct idxs as [| i idxs]; [reflexivity |].
  cbn [for_each]. unfold bind.
  destruct (proj1 (step_all_unassigned P h cutoff mt w rt a i p store s)) as [e ->].
  exact I.
Qed.

Lemma lookup_cache_all_hit (Q : parameters) (store : level_store) (s : simulation)
    (i a : nat) :
  use_cache s = true ->
  check_cache_all store Q = ok (i, Some a) ->
  lookup_cache_all Q store s
  = Outcome (ok (i, rest Q, Some a)) [info_cached (firstn i (protocol Q))].
Proof.
  intros Hc Hk. unfold lookup_cache_all. now rewrite bind_self, Hc, Hk.
Qed.

End Unassigned.

Section Hit.

Context {X : Externals}.

Lemma nested_protocol_all_hit (parameters : parameters) (store : level_store)
    (s : simulation) (i a : nat) :
  use_cache s = true ->
  check_cache_all store parameters = ok (i, Some a) ->
  (exists e, value (nested_protocol_all parameters store s) = inl e) /\
  (scalar_cutoffs (rest parameters) ->
   nested_protocol_all parameters store s
   = Outcome (throw UnboundLocalError)
             [info_cached (firstn i (protocol parameters))]).
Proof.
  revert parameters store s i a. intros Q store s i a Hc Hk.
  destruct (check_cache_all_from_hit _ _ _ _ _ _ _ Hk) as (Hi & _ & _).
  destruct i as [| i]; [lia |].
  pose proof (lookup_cache_all_hit Q store s (S i) a Hc Hk) as Hl.
  split.
  - unfold nested_protocol_all. unfold bind at 1. rewrite Hl.
    cbn [value emitted]. unfold ok at 1. cbv beta iota. cbn [fst snd].
    cbn [starting_levels]. rewrite bind_ret. cbn [fst snd].
    unfold bind at 1.
    pose proof (loop_all_unassigned (protocol Q) (rest Q)
                  (cutoff (rename_tau (rest Q)))
                  (expand (fst (fst (level_cutoffs (rename_tau (rest Q)))))
                     (length (protocol Q)))
                  (expand (snd (fst (level_cutoffs (rename_tau (rest Q)))))
                     (length (protocol Q)))
                  (expand (snd (level_cutoffs (rename_tau (rest Q))))
                     (length (protocol Q)))
                  a (seq (S i) (length (protocol Q) - S i))
                  (rename_tau (rest Q)) store s) as Hloop.
    match type of Hloop with
    | match value ?o with inl _ => _ | inr _ => _ end =>
        destruct (value o) as [e | [[p cur] store']]
    end.
    + now exists e.
    + cbn [fst snd] in Hloop. subst cur. cbn [fst snd value].
      now exists UnboundLocalError.
  - intros (Hm & Hw & Hr & Hcut).
    unfold nested_protocol_all. unfold bind at 1. rewrite Hl.
    cbn [value emitted]. unfold ok at 1. cbv beta iota. cbn [fst snd].
    cbn [starting_levels]. rewrite bind_ret. cbn [fst snd].
    destruct (expand_scalar _ (length (protocol Q)) Hm) as (m & _ & ->).
    destruct (expand_scalar _ (length (protocol Q)) Hw) as (w & _ & ->).
    destruct (expand_scalar _ (length (protocol Q)) Hr) as (r & _ & ->).
    destruct (length (protocol Q) - S i)%nat as [| n] eqn:En.
    + cbn [seq for_each]. rewrite bind_ret. cbn [fst snd read_local].
      reflexivity.
    + cbn [seq for_each].
      destruct (nth_error (protocol Q) (S i)) as [op |] eqn:Eop;
        [| apply nth_error_None in Eop; lia].
      destruct (level_parameters_scalar (cutoff (rename_tau (rest Q))) m w r
                  (length (protocol Q)) (length (protocol Q)) (S i) (S i)
                  (rename_tau (rest Q)) Hcut ltac:(lia) ltac:(lia))
        as [_ [p4 Hp4]].
      pose proof (proj2 (step_all_unassigned (protocol Q) (rest Q)
                           (cutoff (rename_tau (rest Q)))
                           (repeat m (length (protocol Q)))
                           (repeat w (length (protocol Q)))
                           (repeat r (length (protocol Q)))
                           a (S i) (rename_tau (rest Q)) store s) op p4
                    ltac:(rewrite py_index_of_nat, Eop; reflexivity) Hp4) as Hstep.
      rewrite bind_assoc.
      rewrite (bind_raise _ _ _ _ (f_equal value Hstep)), Hstep.
      reflexivity.
Qed.

End Hit.

(** X22.  With [all_level=True] a cached result cannot be resumed: after a hit
    only [full_result] is assigned, and the first use of [pmf] raises.
    When [check_cache] finds a usable entry the call does not return; with
    cut-offs given as single numbers it logs the hit and raises
    [UnboundLocalError], without computing a unit. *)
Theorem cached_levels_cannot_be_resumed :
  forall (X : Externals) (parameters : parameters) (store : level_store)
         (s : simulation) (i a : nat),
    use_cache s = true ->
    check_cache_all store parameters = ok (i, Some a) ->
    (exists e, value (nested_protocol_all parameters store s) = inl e) /\
    (scalar_cutoffs (rest parameters) ->
     nested_protocol_all parameters store s
     = Outcome (throw UnboundLocalError)
               [info_cached (firstn i (protocol parameters))]).
Proof. intros X. exact nested_protocol_all_hit. Qed.

(** *** A call that starts from the elementary link *)

Lemma replace_nth_last {A} (pre : list A) (x v : A) :
  replace_nth (length pre) v (pre ++ [x]) = pre ++ [v].
Proof. induction pre as [| y pre IH]; simpl; [reflexivity | now rewrite IH]. Qed.

Lemma nth_length_app {A} (pre : list A) (x d : A) :
  nth (length pre) (pre ++ [x]) d = x.
Proof. induction pre as [| y pre IH]; simpl; [reflexivity | exact IH]. Qed.

Lemma nth_length_cons {A} (ls : list A) (l0 : A) :
  nth (length ls) (l0 :: ls) l0 = last ls l0.
Proof.
  revert l0. induction ls as [| x ls IH]; intros l0; [reflexivity |].
  change (nth (length (x :: ls)) (l0 :: x :: ls) l0)
    with (nth (length ls) (x :: ls) l0).
  rewrite (nth_indep _ l0 x) by (simpl; lia). rewrite IH.
  destruct ls as [| y ls]; [reflexivity |].
  change (last (x :: y :: ls) l0) with (last (y :: ls) l0).
  clear. revert y. induction ls as [| z ls IH]; intros y; [reflexivity |].
  change (last (y :: z :: ls) x) with (last (z :: ls) x).
  change (last (y :: z :: ls) l0) with (last (z :: ls) l0).
  apply IH.
Qed.

Section From_scratch.

Context {X : Externals}.

(** A round entered with [pmf] and [w_func] assigned, and the same round
    without [all_level] and without memoization. *)
Lemma step_all_assigned (P : list tag) (h : settings) (cutoff : option cut_spec)
    (mt w rt : list pyval) (a i : nat) (p : settings) (l : link)
    (store : level_store) (c : cache_t) (s : simulation)
    (st' : settings * option link * level_store) :
  value (nested_step_all P h cutoff mt w rt a i (p, Some l, store) s) = ok st' ->
  exists p4 l',
    st' = (p4, Some l',
           if use_cache s
           then bind_entry (append_level store a l') (h, firstn (i + 1) P) a
           else append_level store a l') /\
    value (nested_step P h cutoff mt w rt i (p, l, c) (without_cache s))
    = ok (p4, l', c).
Proof.
  destruct l as [pmf wf].
  unfold nested_step_all, nested_step. rewrite !bind_self. intros H.
  apply bind_inr in H. destruct H as (op & Hop & H). apply lift_inr in Hop.
  apply bind_inr in H. destruct H as (p4 & Hp4 & H). apply lift_inr in Hp4.
  apply bind_inr in H. destruct H as (cur & Hcur & H).
  apply bind_inr in H. destruct H as (l' & Hl' & H).
  apply ok_inj in H. subst st'.
  destruct cur as [l'' |]; [| discriminate Hl'].
  cbn [read_local] in Hl'. apply ok_inj in Hl'. subst l''.
  exists p4, l'. split; [reflexivity |].
  rewrite Hop, bind_lift_ok, Hp4, bind_lift_ok.
  cbn [use_cache without_cache].
  assert (Hunit : forall kind,
            value ((l1 <- compute_unit p4 pmf wf None None kind ;; ret (Some l1)) s)
            = ok (Some l') ->
            value (compute_unit p4 pmf wf None None kind (without_cache s)) = ok l').
  { intros kind Hk. apply bind_inr in Hk. destruct Hk as (l1 & H1 & Hk).
    apply ok_inj in Hk. injection Hk as ->.
    now rewrite (compute_unit_backend _ _ _ _ _ _ _ _ (same_backend_without_cache s)). }
  destruct l' as [pmf' wf'].
  destruct op as [[| [q | q |] | q] | o z]; cbn [read_local] in Hcur;
    try (apply ok_inj in Hcur; injection Hcur as <- <-; reflexivity);
    rewrite bind_ret in Hcur; apply Hunit in Hcur;
    unfold bind; rewrite Hcur; reflexivity.
Qed.

Lemma levels_after_round (s : simulation) (P : list tag) (h : settings)
    (cutoff : option cut_spec) (mt w rt : list pyval) (p0 : settings) (l0 : link)
    (store0 : level_store) (j : nat)
    (st st' : settings * option link * level_store) :
  levels_after s P h cutoff mt w rt p0 l0 store0 j st ->
  value (nested_step_all P h cutoff mt w rt (length (objects store0)) j st s)
  = ok st' ->
  levels_after s P h cutoff mt w rt p0 l0 store0 (S j) st'.
Proof.
  intros (ls & Lls & Hcur & Hobj & Hent & Hruns) H.
  destruct st as [[p cur] store]. cbn [fst snd] in *. subst cur.
  destruct (Hruns j (Nat.le_refl j)) as (pj & c & Hj & Epj).
  specialize (Epj eq_refl). subst pj.
  rewrite <- Lls in Hj at 2. rewrite nth_length_cons in Hj.
  destruct (step_all_assigned _ _ _ _ _ _ _ _ _ _ _ c _ _ H)
    as (p4 & l' & -> & Hplain).
  exists (ls ++ [l']). cbn [fst snd].
  assert (Hderef : deref store (length (objects store0)) = l0 :: ls).
  { unfold deref. rewrite Hobj. apply nth_length_app. }
  assert (Hobj' : objects (append_level store (length (objects store0)) l')
                  = objects store0 ++ [l0 :: ls ++ [l']]).
  { unfold append_level. cbn [objects]. rewrite Hderef, Hobj.
    apply replace_nth_last. }
  split; [rewrite length_app; simpl; lia |].
  split; [now rewrite last_last |].
  split; [now destruct (use_cache s) |].
  split.
  - destruct (use_cache s); cbn [entries bind_entry append_level].
    + rewrite Hent, seq_S, rev_app_distr. cbn [rev app map].
      now replace (1 + j)%nat with (j + 1)%nat by lia.
    + exact Hent.
  - intros k Hk. destruct (Nat.eq_dec k (S j)) as [-> | Hne].
    + exists p4, c. split; [| reflexivity].
      rewrite seq_S, for_each_app. cbn [Nat.add].
      rewrite (bind_ok _ _ _ _ Hj). cbn [value for_each].
      rewrite <- Lls at 2.
      replace (nth (S (length ls)) (l0 :: ls ++ [l']) l0) with l'
        by (symmetry; apply (nth_length_app ls l' l0)).
      unfold bind. rewrite Hplain. reflexivity.
    + destruct (Hruns k ltac:(lia)) as (pk & ck & Hk' & _).
      exists pk, ck. split; [| lia].
      rewrite Hk'. do 3 f_equal.
      change (l0 :: ls ++ [l']) with ((l0 :: ls) ++ [l']).
      rewrite app_nth1 by (simpl; lia). reflexivity.
Qed.

Lemma levels_after_rounds (s : simulation) (P : list tag) (h : settings)
    (cutoff : option cut_spec) (mt w rt : list pyval) (p0 : settings) (l0 : link)
    (store0 : level_store) (n j : nat)
    (st st' : settings * option link * level_store) :
  levels_after s P h cutoff mt w rt p0 l0 store0 j st ->
  value (for_each (seq j n)
           (nested_step_all P h cutoff mt w rt (length (objects store0))) st s)
  = ok st' ->
  levels_after s P h cutoff mt w rt p0 l0 store0 (j + n) st'.
Proof.
  revert j st. induction n as [| n IH]; intros j st Hst H.
  - cbn [seq for_each] in H. apply ok_inj in H. subst st'.
    now rewrite Nat.add_0_r.
  - cbn [seq for_each] in H.
    apply bind_inr in H. destruct H as (st1 & H1 & H).
    replace (j + S n)%nat with (S j + n)%nat by lia.
    apply (IH (S j) st1); [| exact H].
    exact (levels_after_round _ _ _ _ _ _ _ _ _ _ _ _ _ Hst H1).
Qed.

End From_scratch.

Lemma entry_get_new (h : settings) (P : list tag) (a : nat) (ks : list nat)
    (older : list (HashableParameters * nat)) (k : nat) :
  In k ks ->
  entry_get (map (fun k => ((h, firstn k P), a)) ks ++ older) (h, firstn k P)
  = Some a.
Proof.
  induction ks as [| k' ks IH]; intros Hin; [destruct Hin |].
  cbn [map app entry_get].
  destruct (key_eqb (h, firstn k P) (h, firstn k' P)) eqn:E; [reflexivity |].
  destruct Hin as [-> | Hin]; [| now apply IH].
  now rewrite key_eqb_refl in E.
Qed.

Section Returned_levels.

Context {X : Externals}.

Lemma lookup_cache_all_value (Q : parameters) (store : level_store)
    (s : simulation) (found : nat * settings * option nat) :
  value (lookup_cache_all Q store s) = ok found ->
  snd (fst found) = rest Q /\
  (use_cache s = false /\ fst (fst found) = O \/
   use_cache s = true /\
   check_cache_all store Q = ok (fst (fst found), snd found)).
Proof.
  unfold lookup_cache_all. rewrite bind_self.
  destruct (use_cache s).
  - intros H. apply bind_inr in H. destruct H as (r & Hr & H).
    apply lift_inr in Hr.
    apply bind_inr in H. destruct H as (u & _ & H).
    apply ok_inj in H. subst found. cbn [fst snd].
    split; [reflexivity |]. right. split; [reflexivity |]. now destruct r.
  - intros H. apply ok_inj in H. subst found. cbn [fst snd].
    split; [reflexivity |]. now left.
Qed.

(** A call with [all_level=True] that returns started from the elementary
    link and made all rounds. *)
Lemma nested_protocol_all_returned (Q : parameters) (store store' : level_store)
    (s : simulation) (traj : trajectory) :
  value (nested_protocol_all Q store s) = ok (traj, store') ->
  exists p w st,
    scalar_of (p_gen (rest Q)) = ok p /\
    scalar_of (w0 (rest Q)) = ok w /\
    levels_after s (protocol Q) (rest Q) (cutoff (rename_tau (rest Q)))
      (expand (fst (fst (level_cutoffs (rename_tau (rest Q))))) (length (protocol Q)))
      (expand (snd (fst (level_cutoffs (rename_tau (rest Q))))) (length (protocol Q)))
      (expand (snd (level_cutoffs (rename_tau (rest Q)))) (length (protocol Q)))
      (rename_tau (rest Q)) (elementary_link p w (t_trunc Q)) store
      (length (protocol Q)) st /\
    store' = snd st /\
    traj = deref store' (length (objects store)).
Proof.
  intros H.
  assert (Hret : exists r, value (nested_protocol_all Q store s) = inr r)
    by (eexists; exact H).
  unfold nested_protocol_all in H.
  apply bind_inr in H. destruct H as (found & Hfound & H).
  destruct (lookup_cache_all_value _ _ _ _ Hfound) as [Hh Hi].
  assert (Ei : fst (fst found) = O).
  { destruct Hi as [[_ E] | [Hc Hk]]; [exact E |].
    destruct (snd found) as [a |] eqn:Er.
    - destruct (proj1 (nested_protocol_all_hit Q store s _ a Hc Hk)) as [e He].
      destruct Hret as [r Hr]. congruence.
    - exact (check_cache_all_from_miss _ _ _ _ _ _ Hk). }
  rewrite Ei, Hh in H. cbn [starting_levels] in H.
  apply bind_inr in H. destruct H as (start & Hstart & H).
  apply bind_inr in Hstart. destruct Hstart as (p & Hp & Hstart).
  apply lift_inr in Hp.
  apply bind_inr in Hstart. destruct Hstart as (w & Hw & Hstart).
  apply lift_inr in Hw.
  unfold allocate in Hstart. apply ok_inj in Hstart. subst start.
  cbn [fst snd] in H. rewrite Nat.sub_0_r in H.
  apply bind_inr in H. destruct H as (st & Hloop & H).
  apply bind_inr in H. destruct H as (l & _ & H).
  apply ok_inj in H. injection H as <- <-.
  exists p, w, st. repeat (split; [assumption || reflexivity |]).
  split; [| split; reflexivity].
  apply (levels_after_rounds s (protocol Q) (rest Q) _ _ _ _
           (rename_tau (rest Q)) (elementary_link p w (t_trunc Q)) store
           (length (protocol Q)) 0
           (rename_tau (rest Q), Some (elementary_link p w (t_trunc Q)),
            {| objects := objects store ++ [[elementary_link p w (t_trunc Q)]];
               entries := entries store |}) st); [| exact Hloop].
  exists []. cbn [fst snd length last objects entries rev seq map].
  repeat split.
  - now destruct (use_cache s).
  - intros k Hk. assert (k = O) by lia. subst k.
    exists (rename_tau (rest Q)), []. split; reflexivity.
Qed.

End Returned_levels.

(** X23.  The list returned with [all_level=True] has one entry for the
    elementary link and one per step of the protocol, and its entry [k] is
    what the driver without [all_level] and without memoization returns
    for the first [k] steps of the protocol. *)
Theorem all_levels_are_the_results_of_the_prefixes :
  forall (X : Externals) (parameters : parameters) (store store' : level_store)
         (s : simulation) (levels : trajectory),
    value (nested_protocol_all parameters store s) = ok (levels, store') ->
    length levels = S (length (protocol parameters)) /\
    forall (k : nat) (l : link),
      nth_error levels k = Some l ->
      returned_link {| protocol := firstn k (protocol parameters);
                       t_trunc := t_trunc parameters;
                       rest := rest parameters |} (without_cache s)
      = ok l.
Proof.
  intros X Q store store' s levels H.
  destruct (nested_protocol_all_returned Q store store' s levels H)
    as (p & w & st & Hp & Hw & (ls & Lls & _ & Hobj & _ & Hruns) & -> & ->).
  assert (Hlev : deref (snd st) (length (objects store))
                 = elementary_link p w (t_trunc Q) :: ls).
  { unfold deref. rewrite Hobj. apply nth_length_app. }
  rewrite Hlev. split; [simpl; now rewrite Lls |].
  intros k l Hk.
  assert (Lk : (k <= length (protocol Q))%nat).
  { apply nth_error_in_range in Hk. simpl in Hk. lia. }
  destruct (Hruns k Lk) as (pk & c & Hrun & _).
  rewrite (nth_error_nth _ _ (elementary_link p w (t_trunc Q)) Hk) in Hrun.
  apply prefix_of_uncached_after; [exact Lk |].
  exists (elementary_link p w (t_trunc Q)), pk, c. split; [| exact Hrun].
  unfold starting_link. rewrite Hp, bind_lift_ok, Hw, bind_lift_ok. reflexivity.
Qed.

Lemma all_levels_are_the_results_of_the_prefixes_example :
  length [elementary_link (Fin (1 # 2)) (Fin (9 # 10)) 3; swap_once_at_3]
  = S (length (protocol (swap_once 3))) /\
  forall (k : nat) (l : link),
    nth_error [elementary_link (Fin (1 # 2)) (Fin (9 # 10)) 3; swap_once_at_3] k
    = Some l ->
    @returned_link Exact.externals
      {| protocol := firstn k (protocol (swap_once 3));
         t_trunc := t_trunc (swap_once 3);
         rest := rest (swap_once 3) |} (without_cache memoizing_simulation)
    = ok l.
Proof.
  apply (all_levels_are_the_results_of_the_prefixes Exact.externals (swap_once 3)
           empty_store warm_store memoizing_simulation).
  reflexivity.
Defined.

Lemma cached_levels_cannot_be_resumed_example :
  (exists e,
     value (@nested_protocol_all Exact.externals (swap_once 3) warm_store
              memoizing_simulation) = inl e) /\
  (scalar_cutoffs (rest (swap_once 3)) ->
   @nested_protocol_all Exact.externals (swap_once 3) warm_store
     memoizing_simulation
   = Outcome (throw UnboundLocalError)
             [info_cached (firstn 1 (protocol (swap_once 3)))]).
Proof.
  apply (cached_levels_cannot_be_resumed Exact.externals (swap_once 3) warm_store
           memoizing_simulation 1 0).
  - reflexivity.
  - reflexivity.
Defined.

(** X24.  With [all_level=True] and memoization, every round stores the list
    object of the call itself: after a call that returns, the cache entry
    of every non-empty prefix of the protocol is one and the same list,
    the list returned, with the levels of the whole protocol and not only
    those of the prefix. *)
Theorem every_prefix_is_cached_as_the_whole_list :
  forall (X : Externals) (parameters : parameters) (store store' : level_store)
         (s : simulation) (levels : trajectory),
    use_cache s = true ->
    value (nested_protocol_all parameters store s) = ok (levels, store') ->
    length levels = S (length (protocol parameters)) /\
    exists a,
      deref store' a = levels /\
      forall k, (1 <= k <= length (protocol parameters))%nat ->
        entry_get (entries store')
          (rest parameters, firstn k (protocol parameters)) = Some a.
Proof.
  intros X Q store store' s levels Hc H.
  destruct (nested_protocol_all_returned Q store store' s levels H)
    as (p & w & st & Hp & Hw & (ls & Lls & _ & Hobj & Hent & _) & -> & ->).
  assert (Hlev : deref (snd st) (length (objects store))
                 = elementary_link p w (t_trunc Q) :: ls).
  { unfold deref. rewrite Hobj. apply nth_length_app. }
  split; [rewrite Hlev; simpl; now rewrite Lls |].
  exists (length (objects store)). split; [reflexivity |].
  intros k Hk. rewrite Hent, Hc.
  apply entry_get_new. apply in_rev. rewrite rev_involutive.
  apply in_seq. lia.
Qed.

Lemma every_prefix_is_cached_as_the_whole_list_example :
  length [elementary_link (Fin (1 # 2)) (Fin (9 # 10)) 3; swap_once_at_3]
  = S (length (protocol (swap_once 3))) /\
  exists a,
    deref warm_store a
    = [elementary_link (Fin (1 # 2)) (Fin (9 # 10)) 3; swap_once_at_3] /\
    forall k, (1 <= k <= length (protocol (swap_once 3)))%nat ->
      entry_get (entries warm_store)
        (rest (swap_once 3), firstn k (protocol (swap_once 3))) = Some a.
Proof.
  apply (every_prefix_is_cached_as_the_whole_list Exact.externals (swap_once 3)
           empty_store warm_store memoizing_simulation).
  - reflexivity.
  - reflexivity.
Defined.

(** X25.  With [all_level=True] and memoization the same call cannot be made
    twice: after a call that returns for a protocol of at least one step,
    with cut-offs given as single numbers, the call repeated on the store
    it left finds its own entry (the last level has at least [t_trunc]
    samples) and raises [UnboundLocalError]. *)
Theorem second_call_with_all_levels_raises :
  forall (X : Externals) (parameters : parameters) (store store' : level_store)
         (s : simulation) (levels : trajectory),
    use_cache s = true ->
    hashable (rest parameters) ->
    scalar_cutoffs (rest parameters) ->
    protocol parameters <> [] ->
    value (nested_protocol_all parameters store s) = ok (levels, store') ->
    t_trunc parameters <= Z.of_nat (length (fst (last levels ([], [])))) ->
    nested_protocol_all parameters store' s
    = Outcome (throw UnboundLocalError) [info_cached (protocol parameters)].
Proof.
  intros X Q store store' s levels Hc Hh Hs Hne H HT.
  destruct (nested_protocol_all_returned Q store store' s levels H)
    as (p & w & st & Hp & Hw & (ls & Lls & _ & Hobj & Hent & _) & -> & ->).
  assert (Hlev : deref (snd st) (length (objects store))
                 = elementary_link p w (t_trunc Q) :: ls).
  { unfold deref. rewrite Hobj. apply nth_length_app. }
  rewrite Hlev in HT.
  assert (Hk : check_cache_all (snd st) Q
               = ok (length (protocol Q), Some (length (objects store)))).
  { unfold check_cache_all.
    destruct (length (protocol Q)) as [| n] eqn:L;
      [destruct (protocol Q); [congruence | discriminate] |].
    cbn [check_cache_all_from].
    rewrite (hash_parameters_hashable _ _ Hh), rbind_ok.
    rewrite Hent, Hc, entry_get_new
      by (apply in_rev; rewrite rev_involutive; apply in_seq; lia).
    cbv beta iota. rewrite Hlev.
    rewrite (@py_index_last link _ ([], [])) by discriminate.
    unfold rbind, ok. cbv beta iota zeta.
    apply Z.leb_le in HT. now rewrite HT. }
  destruct (nested_protocol_all_hit Q (snd st) s _ _ Hc Hk) as [_ Hraise].
  rewrite (Hraise Hs), firstn_all. reflexivity.
Qed.

Lemma second_call_with_all_levels_raises_example :
  @nested_protocol_all Exact.externals (swap_once 3) warm_store memoizing_simulation
  = Outcome (throw UnboundLocalError) [info_cached (protocol (swap_once 3))].
Proof.
  apply (second_call_with_all_levels_raises Exact.externals (swap_once 3)
           empty_store warm_store memoizing_simulation
           [elementary_link (Fin (1 # 2)) (Fin (9 # 10)) 3; swap_once_at_3]).
  - reflexivity.
  - reflexivity.
  - repeat split; reflexivity.
  - simpl. congruence.
  - reflexivity.
  - simpl. lia.
Defined.

(** ** The entry point and the elementary link *)

Lemma forallb_false_of_In {A} (f : A -> bool) (l : list A) (x : A) :
  In x l -> f x = false -> forallb f l = false.
Proof.
  induction l as [| a l IH]; intros Hin Hx; [destruct Hin |].
  simpl. destruct Hin as [-> | Hin].
  - now rewrite Hx.
  - rewrite (IH Hin Hx). apply andb_false_r.
Qed.

(** X26.  A protocol that mixes integer steps and string steps is refused by
    [repeater_sim] with a [ValueError], whatever the other parameters are;
    no driver is entered and the steps are not counted. *)
Theorem repeater_sim_refuses_mixed_steps :
  forall (X : Externals) (checkAsymProtocol : list tag -> result Z)
         (parameters : parameters) (z : Z) (operation : ascii) (idx : Z),
    In (TagInt z) (protocol parameters) ->
    In (TagStr operation idx) (protocol parameters) ->
    repeater_sim checkAsymProtocol parameters
    = Outcome
        (throw (ValueError "The protocol must be a tuple of integers or strings."))
        [].
Proof.
  intros X chk Q z operation idx Hint Hstr. unfold repeater_sim.
  rewrite (forallb_false_of_In is_int_tag _ _ Hstr eq_refl).
  rewrite (forallb_false_of_In is_str_tag _ _ Hint eq_refl).
  reflexivity.
Qed.

Lemma repeater_sim_refuses_mixed_steps_example :
  @repeater_sim Exact.externals (fun _ => ok 2) mixed_protocol
  = Outcome
      (throw (ValueError "The protocol must be a tuple of integers or strings."))
      [].
Proof.
  apply (repeater_sim_refuses_mixed_steps Exact.externals (fun _ => ok 2)
           mixed_protocol 0 "s" 0).
  - simpl. auto.
  - simpl. auto.
Defined.

(** X27.  For a truncation time of 0 or below the elementary link is not
    empty on both sides: [pmf] still has its sample 0, while [w_func] has
    no sample at all. *)
Theorem elementary_link_without_window :
  forall (p_gen w0 : num) (t_trunc : Z),
    t_trunc <= 0 ->
    elementary_link p_gen w0 t_trunc = ([zero], []).
Proof.
  intros p w T H. unfold elementary_link.
  rewrite range_nil by lia.
  now replace (Z.to_nat T) with O by lia.
Qed.

Lemma elementary_link_without_window_example :
  elementary_link (Fin (1 # 2)) (Fin (9 # 10)) 0 = ([zero], []).
Proof. apply elementary_link_without_window. lia. Defined.

(** ** The results file *)

Section Results_file_lines.

Variable format_protocol : list tag -> string.
Variable format_rate : num -> string.
Variable format_count : nat -> string.
Variable count_distinct : list num -> nat.

Lemma written_lines (results done todo : list (num * list tag))
    (last_entry : num * list tag) (written : list string) :
  py_index results (-1) = ok last_entry ->
  for_result todo
    (fun entry written =>
       let '(skr, protocol) := entry in
       rbind (py_index results (-1)) (fun last_entry =>
       let comma :=
         if list_eq_dec tag_eq_dec protocol (snd last_entry) then EmptyString else "," in
       ok (written ++ [result_line format_protocol format_rate protocol skr comma])))
    written
  = ok (written
        ++ map (fun entry =>
                  result_line format_protocol format_rate (snd entry) (fst entry)
                    (if list_eq_dec tag_eq_dec (snd entry) (snd last_entry)
                     then EmptyString else ","))
               todo).
Proof.
  intros Hlast.
  match goal with |- for_result _ ?f _ = _ => set (body := f) end.
  revert written.
  induction todo as [| [skr protocol] todo IH]; intros written.
  - simpl. now rewrite app_nil_r.
  - cbn [for_result map].
    assert (E : body (skr, protocol) written
                = ok (written
                      ++ [result_line format_protocol format_rate protocol skr
                            (if list_eq_dec tag_eq_dec protocol (snd last_entry)
                             then EmptyString else ",")])).
    { unfold body. now rewrite Hlast. }
    rewrite E. unfold rbind, ok at 1. rewrite IH, <- app_assoc. reflexivity.
Qed.

Lemma comma_unless_last (before : list (num * list tag)) (last_entry : num * list tag) :
  NoDup (map snd (before ++ [last_entry])) ->
  map (fun entry =>
         result_line format_protocol format_rate (snd entry) (fst entry)
           (if list_eq_dec tag_eq_dec (snd entry) (snd last_entry) then EmptyString else ","))
      (before ++ [last_entry])
  = map (fun entry =>
           result_line format_protocol format_rate (snd entry) (fst entry) ",")
        before
    ++ [result_line format_protocol format_rate (snd last_entry) (fst last_entry) EmptyString].
Proof.
  intros Hnd. rewrite map_app. f_equal.
  - apply map_ext_in. intros entry Hin.
    destruct (list_eq_dec tag_eq_dec (snd entry) (snd last_entry)) as [E |];
      [| reflexivity].
    rewrite map_app in Hnd. apply NoDup_remove_2 in Hnd.
    rewrite app_nil_r in Hnd. exfalso. apply Hnd.
    rewrite <- E. now apply in_map.
  - simpl. destruct (list_eq_dec tag_eq_dec (snd last_entry) (snd last_entry));
      [reflexivity | congruence].
Qed.

End Results_file_lines.

(** X28.  [write_results] never fails, also on an empty list.  For results
    whose protocols are pairwise different it writes the opening brace,
    one line per result in the given order, each but the last ended with
    a comma, the closing brace and the count of distinct rates. *)
Theorem write_results_separates_the_entries :
  forall (format_protocol : list tag -> string) (format_rate : num -> string)
         (format_count : nat -> string) (count_distinct : list num -> nat)
         (before : list (num * list tag)) (last_entry : num * list tag),
    NoDup (map snd (before ++ [last_entry])) ->
    write_results format_protocol format_rate format_count count_distinct []
    = ok [opening_line; closing_line;
          unique_line (format_count (count_distinct []))]
    /\
    write_results format_protocol format_rate format_count count_distinct
      (before ++ [last_entry])
    = ok ([opening_line]
          ++ map (fun entry =>
                    result_line format_protocol format_rate (snd entry)
                      (fst entry) ",") before
          ++ [result_line format_protocol format_rate (snd last_entry)
                (fst last_entry) EmptyString;
              closing_line;
              unique_line
                (format_count
                   (count_distinct (map fst (before ++ [last_entry]))))]).
Proof.
  intros fp fr fc cd before last_entry Hnd. split; [reflexivity |].
  unfold write_results.
  rewrite (written_lines fp fr (before ++ [last_entry]) before
             (before ++ [last_entry]) last_entry).
  - rewrite (comma_unless_last fp fr before last_entry Hnd).
    unfold rbind, ok. rewrite <- !app_assoc. reflexivity.
  - rewrite (@py_index_last (num * list tag) _ last_entry)
      by (destruct before; discriminate).
    now rewrite last_last.
Qed.

Lemma write_results_separates_the_entries_example :
  write_results (fun _ => "p") (fun _ => "r") (fun _ => "n") (fun l => length l) []
  = ok [opening_line; closing_line; unique_line "n"]
  /\
  write_results (fun _ => "p") (fun _ => "r") (fun _ => "n") (fun l => length l)
    ([(one, [TagStr "s" 0])] ++ [(zero, [TagStr "d" 0])])
  = ok ([opening_line]
        ++ map (fun entry =>
                  result_line (fun _ => "p") (fun _ => "r") (snd entry)
                    (fst entry) ",") [(one, [TagStr "s" 0])]
        ++ [result_line (fun _ => "p") (fun _ => "r")
              (snd (zero, [TagStr "d" 0])) (fst (zero, [TagStr "d" 0])) EmptyString;
            closing_line;
            unique_line "n"]).
Proof.
  apply (write_results_separates_the_entries (fun _ => "p") (fun _ => "r")
           (fun _ => "n") (fun l => length l)
           [(one, [TagStr "s" 0])] (zero, [TagStr "d" 0])).
  simpl. repeat constructor; simpl; intuition discriminate.
Defined.

(** An earlier result with the protocol of the last one loses its comma as
    well: the comma is decided by comparing protocols, not positions. *)
Example repeated_protocol_loses_its_comma :
  write_results (fun _ => "p") (fun _ => "r") (fun _ => "n") (fun l => length l)
    [(one, [TagStr "s" 0]); (zero, [TagStr "s" 0])]
  = ok [opening_line;
        result_line (fun _ => "p") (fun _ => "r") [TagStr "s" 0] one EmptyString;
        result_line (fun _ => "p") (fun _ => "r") [TagStr "s" 0] zero EmptyString;
        closing_line;
        unique_line "n"].
Proof. reflexivity. Qed.
